(** * SuperAudit plugin: the reporting pipeline, the AI wrapper rule, the
      playbook registry and the analysis task, embedded from the TypeScript
      sources, with the properties the specification states about them. *)

From Stdlib Require Import ZArith List Bool Lia Permutation Sorted.
From Stdlib Require Import Strings.String Strings.Ascii.
From stdpp Require Import base option gmap strings.

Import ListNotations.
Local Open Scope string_scope.
Local Open Scope Z_scope.

(** ** Shared data model (types.ts is imported by every module) *)

(** [type Severity = "error" | "warning" | "info"]. *)
Inductive Severity : Type := error | warning | info.

Definition Severity_eqb (a b : Severity) : bool :=
  match a, b with
  | error, error | warning, warning | info, info => true
  | _, _ => false
  end.

(** The payload [aiEnhancement] attached by the AI wrapper.  JSON numbers
    are kept abstract: the development never computes with them. *)
Record AIEnhancement (Num : Type) : Type := mkAIEnhancement {
  ae_explanation : string;
  ae_suggestedFix : option string;
  ae_riskScore : option Num;
  ae_confidence : Num
}.
Arguments mkAIEnhancement {Num}.
Arguments ae_explanation {Num}.
Arguments ae_suggestedFix {Num}.
Arguments ae_riskScore {Num}.
Arguments ae_confidence {Num}.

(** [interface Issue]: the declared fields of a finding. *)
Record Issue : Type := mkIssue {
  ruleId : string;
  message : string;
  severity : Severity;
  file : string;
  line : Z;
  column : Z
}.

(** [Array.prototype.sort] is a library routine.  ECMAScript fixes what it
    returns for a consistent comparator: the elements, ordered by the sign
    of the comparator, elements that compare equal staying in their
    original order.  The insertion sort below is that function. *)
Fixpoint insertBy {A : Type} (cmp : A -> A -> Z) (x : A) (l : list A) : list A :=
  match l with
  | [] => [x]
  | y :: r => if cmp x y <=? 0 then x :: y :: r else y :: insertBy cmp x r
  end.

Definition sortBy {A : Type} (cmp : A -> A -> Z) (l : list A) : list A :=
  fold_right (insertBy cmp) [] l.

(** ** reporter.ts *)
Module Reporter.

Record ReportSummary : Type := mkSummary {
  totalIssues : nat;
  errorCount : nat;
  warningCount : nat;
  infoCount : nat
}.

(** [class Reporter { private issues: Issue[] = [] }] *)
Record t : Type := mk { issues : list Issue }.

Definition new : t := mk [].

(** [addIssue(issue) { this.issues.push(issue) }] *)
Definition addIssue (r : t) (issue : Issue) : t := mk (issues r ++ [issue]).

(** [addIssues(issues) { this.issues.push(...issues) }] *)
Definition addIssues (r : t) (l : list Issue) : t := mk (issues r ++ l).

(** [getIssues() { return [...this.issues] }] *)
Definition getIssues (r : t) : list Issue := issues r.

(** [clear() { this.issues = [] }] *)
Definition clear (_ : t) : t := mk [].

(** One iteration of the [for ... switch (issue.severity)] loop. *)
Definition bump (s : ReportSummary) (issue : Issue) : ReportSummary :=
  match severity issue with
  | error => mkSummary (totalIssues s) (S (errorCount s)) (warningCount s) (infoCount s)
  | warning => mkSummary (totalIssues s) (errorCount s) (S (warningCount s)) (infoCount s)
  | info => mkSummary (totalIssues s) (errorCount s) (warningCount s) (S (infoCount s))
  end.

Definition getSummary (r : t) : ReportSummary :=
  fold_left bump (issues r) (mkSummary (List.length (issues r)) 0 0 0).

(** [hasErrors() { return this.issues.some(i => i.severity === "error") }] *)
Definition hasErrors (r : t) : bool :=
  existsb (fun i => Severity_eqb (severity i) error) (issues r).

(** The three public mutators, as a script. *)
Inductive Op : Type :=
| OpAddIssue (i : Issue)
| OpAddIssues (l : list Issue)
| OpClear.

Definition step (r : t) (o : Op) : t :=
  match o with
  | OpAddIssue i => addIssue r i
  | OpAddIssues l => addIssues r l
  | OpClear => clear r
  end.

Definition run (ops : list Op) : t := fold_left step ops new.

(** Number of stored issues of one severity. *)
Definition countSeverity (s : Severity) (l : list Issue) : nat :=
  List.length (List.filter (fun i => Severity_eqb (severity i) s) l).

(** *** printReport *)

(** What [console.log] receives, one constructor per call site. *)
Inductive Line : Type :=
| LNoIssues
| LTitle
| LBlank
| LFileHeader (f : string)
| LIssue (i : Issue)
| LSummaryTitle
| LErrors (n : nat)
| LWarnings (n : nat)
| LInfo (n : nat)
| LTotal (n : nat).

Section PrintReport.

(** [String.prototype.localeCompare], a collation supplied by the host. *)
Variable localeCompare : string -> string -> Z.

(** The comparator handed to [sort] in [printReport]. *)
Definition compareIssues (a b : Issue) : Z :=
  if negb (String.eqb (file a) (file b)) then localeCompare (file a) (file b)
  else if negb (line a =? line b) then line a - line b
  else column a - column b.

(** The grouping loop: [currentFile] is threaded through the iteration. *)
Fixpoint printGrouped (currentFile : string) (l : list Issue) : list Line :=
  match l with
  | [] => []
  | issue :: rest =>
      if negb (String.eqb (file issue) currentFile)
      then (if negb (String.eqb currentFile "") then [LBlank] else [])
             ++ LFileHeader (file issue) :: LIssue issue :: printGrouped (file issue) rest
      else LIssue issue :: printGrouped currentFile rest
  end.

Definition printSummary (s : ReportSummary) : list Line :=
  [LSummaryTitle]
    ++ (if (0 <? errorCount s)%nat then [LErrors (errorCount s)] else [])
    ++ (if (0 <? warningCount s)%nat then [LWarnings (warningCount s)] else [])
    ++ (if (0 <? infoCount s)%nat then [LInfo (infoCount s)] else [])
    ++ [LTotal (totalIssues s)].

(** [printReport]: the sort is in place, so the reporter is returned too. *)
Definition printReport (r : t) : t * list Line :=
  match issues r with
  | [] => (r, [LNoIssues])
  | _ =>
      let sortedIssues := sortBy compareIssues (issues r) in
      let r' := mk sortedIssues in
      (r', LTitle :: printGrouped "" sortedIssues ++ printSummary (getSummary r'))
  end.

End PrintReport.

(** The issues a report shows, in the order it shows them. *)
Fixpoint printedIssues (ls : list Line) : list Issue :=
  match ls with
  | [] => []
  | LIssue i :: r => i :: printedIssues r
  | _ :: r => printedIssues r
  end.

End Reporter.

(** ** tasks/analyze.ts: the SARIF writer *)
Module Sarif.

Record Result : Type := mkResult {
  res_ruleId : string;
  res_message_text : string;
  res_level : string;
  res_uri : string;
  res_startLine : Z;
  res_startColumn : Z
}.

Record Driver : Type := mkDriver {
  drv_name : string;
  drv_version : string;
  drv_informationUri : string
}.

Record Run : Type := mkRun { run_driver : Driver; run_results : list Result }.

Record Log : Type := mkLog { sarif_version : string; sarif_schema : string; runs : list Run }.

(** The arrow function mapped over [issues]. *)
Definition toResult (issue : Issue) : Result :=
  {| res_ruleId := ruleId issue;
     res_message_text := message issue;
     res_level := if Severity_eqb (severity issue) error then "error" else "warning";
     res_uri := file issue;
     res_startLine := line issue;
     res_startColumn := column issue |}.

(** The object literal built by [outputSARIF]. *)
Definition outputSARIF (issues : list Issue) : Log :=
  {| sarif_version := "2.1.0";
     sarif_schema :=
       "https://raw.githubusercontent.com/oasis-tcs/sarif-spec/master/Schemata/sarif-schema-2.1.0.json";
     runs := [ {| run_driver := mkDriver "SuperAudit" "1.0.0" "https://github.com/superaudit/hardhat-plugin";
                  run_results := List.map toResult issues |} ] |}.

Definition results (l : Log) : list Result := flat_map run_results (runs l).

(** What one SARIF result must be for the issue it comes from. *)
Definition renders (i : Issue) (r : Result) : Prop :=
  res_ruleId r = ruleId i
  /\ res_message_text r = message i
  /\ (res_level r = "error" <-> severity i = error)
  /\ (severity i = warning \/ severity i = info -> res_level r = "warning")
  /\ res_level r <> "note" /\ res_level r <> "info"
  /\ res_uri r = file i /\ res_startLine r = line i /\ res_startColumn r = column i.

End Sarif.

(** A call that either returns or raises (the exception is kept as its
    rendered message, which is all the callers use). *)
Inductive Outcome (A : Type) : Type :=
| Returns (a : A)
| Throws (e : string).
Arguments Returns {A}.
Arguments Throws {A}.

(** JavaScript truthiness of an optional string ([undefined] and the empty
    string are falsy). *)
Definition truthyStr (s : option string) : bool :=
  match s with
  | Some s => negb (String.eqb s "")
  | None => false
  end.

Definition nl : string := String (ascii_of_nat 10) "".

(** ** ai/llm-client.ts *)
Module LLM.

Inductive Provider : Type := openai | anthropic | local.

Section Client.

Context {Num : Type}.
(** The literals [0.5] and [0.0], and truthiness of a JSON number. *)
Variables (half zero : Num) (truthyNum : Num -> bool).

Record LLMConfig : Type := mkConfig {
  provider : Provider;
  apiKey : option string;
  model : option string
}.

Record LLMAnalysisRequest : Type := mkRequest {
  codeSnippet : string;
  ruleDescription : string;
  ctx_fileName : string;
  ctx_functionName : string;
  ctx_contractName : string;
  ctx_severity : Severity;
  analysisType : string
}.

Record LLMAnalysisResponse : Type := mkResponse {
  explanation : string;
  suggestedFix : option string;
  riskScore : option Num;
  additionalContext : option string;
  confidence : Num
}.

(** The JSON object a provider answered with, before [validateResponse]. *)
Record RawResponse : Type := mkRaw {
  raw_explanation : option string;
  raw_suggestedFix : option string;
  raw_riskScore : option Num;
  raw_additionalContext : option string;
  raw_confidence : option Num
}.

(** [class LLMClient]: the two optional SDK handles are present or not. *)
Record LLMClient : Type := mkClient {
  config : LLMConfig;
  has_openai : bool;
  has_anthropic : bool
}.

Definition isOpenai (p : Provider) : bool := match p with openai => true | _ => false end.
Definition isAnthropic (p : Provider) : bool := match p with anthropic => true | _ => false end.

(** [constructor(config)] *)
Definition newClient (cfg : LLMConfig) : LLMClient :=
  if isOpenai (provider cfg) && truthyStr (apiKey cfg) then mkClient cfg true false
  else if isAnthropic (provider cfg) && truthyStr (apiKey cfg) then mkClient cfg false true
  else mkClient cfg false false.

Definition validateResponse (r : RawResponse) : LLMAnalysisResponse :=
  {| explanation := if truthyStr (raw_explanation r)
                    then default "" (raw_explanation r) else "No explanation provided";
     suggestedFix := raw_suggestedFix r;
     riskScore := raw_riskScore r;
     additionalContext := raw_additionalContext r;
     confidence := match raw_confidence r with
                   | Some c => if truthyNum c then c else half
                   | None => half
                   end |}.

Definition getFallbackResponse : LLMAnalysisResponse :=
  {| explanation := "AI analysis unavailable. Please check your API key and network connection.";
     suggestedFix := None;
     riskScore := None;
     additionalContext := None;
     confidence := zero |}.

(** What happens inside the [try] of [callOpenAI] / [callAnthropic]: the
    remote service answers with an object, or anything in the block raises. *)
Definition Remote : Type := LLMAnalysisRequest -> option RawResponse.

Definition callOpenAI (c : LLMClient) (remote : Remote) (request : LLMAnalysisRequest)
  : Outcome LLMAnalysisResponse :=
  if negb (has_openai c) then Throws "Error: OpenAI not initialized"
  else match remote request with
       | Some r => Returns (validateResponse r)
       | None => Returns getFallbackResponse
       end.

Definition callAnthropic (c : LLMClient) (remote : Remote) (request : LLMAnalysisRequest)
  : Outcome LLMAnalysisResponse :=
  if negb (has_anthropic c) then Throws "Error: Anthropic not initialized"
  else match remote request with
       | Some r => Returns (validateResponse r)
       | None => Returns getFallbackResponse
       end.

Definition analyzeCode (c : LLMClient) (remote : Remote) (request : LLMAnalysisRequest)
  : Outcome LLMAnalysisResponse :=
  match provider (config c) with
  | openai => callOpenAI c remote request
  | anthropic => callAnthropic c remote request
  | local => Throws "Error: Unsupported LLM provider: local"
  end.

(** The client holds the SDK handle of its provider. *)
Definition ready (c : LLMClient) : bool :=
  match provider (config c) with
  | openai => has_openai c
  | anthropic => has_anthropic c
  | local => false
  end.

End Client.

End LLM.

(** ** rules/ai-enhanced-rule.ts

    Issues are JavaScript objects that the wrapper marks in place and looks
    up by identity, so they live in a store: an address is an index into
    [objs], and allocation appends. *)
Module AIEnhanced.

Abbreviation addr := nat (only parsing).

Section Wrapper.

Context {Num AST : Type}.
Variables (half zero : Num) (truthyNum : Num -> bool).
(** How a template literal renders a number, and [(c * 100).toFixed(0)]. *)
Variables (showNum showPercent : Num -> string).
(** [extractFunctionName] and [extractContractName] run the Solidity parser
    under a [try] that answers ["unknown"]: they are total. *)
Variable extractFunctionName : string -> Z -> string.
Variable extractContractName : string -> string.

(** An issue object: its declared fields, the optional payload, and the two
    dynamic properties [apply] attaches ([(issue as any)._needsAIEnhancement]
    and [(issue as any)._aiContext]; an absent property reads as falsy). *)
Record IssueObj : Type := mkObj {
  fields : Issue;
  aiEnhancement : option (AIEnhancement Num);
  _needsAIEnhancement : bool;
  _aiContext : option addr
}.

(** [AnalysisContext]; [issues] holds references. *)
Record AnalysisContext : Type := mkCtx {
  ast : AST;
  sourceCode : string;
  filePath : string;
  issues : list addr
}.

Record Heap : Type := mkHeap {
  objs : list IssueObj;
  ctxs : list AnalysisContext
}.

(** The wrapped rule.  Its [apply] creates issue objects, pushes them on
    [context.issues] and may then raise. *)
Record Rule : Type := mkRule {
  id : string;
  description : string;
  rule_severity : Severity;
  emit : AST -> AnalysisContext -> list Issue * option string
}.

(** [context.issues.push({ ... })] with a freshly created object. *)
Definition pushIssue (c : addr) (h : Heap) (i : Issue) : Heap :=
  {| objs := objs h ++ [mkObj i None false None];
     ctxs := alter (fun x => mkCtx (ast x) (sourceCode x) (filePath x)
                                   (issues x ++ [List.length (objs h)])) c (ctxs h) |}.

Definition applyRule (r : Rule) (t : AST) (c : addr) (h : Heap) : Heap * option string :=
  match ctxs h !! c with
  | Some x => let '(l, e) := emit r t x in (fold_left (pushIssue c) l h, e)
  | None => (h, None)
  end.

Record AIEnhancedRule : Type := mkAI {
  baseRule : Rule;
  llmClient : @LLM.LLMClient;
  enableAI : bool
}.

Definition ai_id (w : AIEnhancedRule) : string := id (baseRule w) ++ "-ai".
Definition ai_description (w : AIEnhancedRule) : string :=
  description (baseRule w) ++ " (AI-Enhanced)".
Definition ai_severity (w : AIEnhancedRule) : Severity := rule_severity (baseRule w).

(** [[...context.issues].filter(issue => issue.ruleId === this.baseRule.id)] *)
Definition originalIssues (w : AIEnhancedRule) (c : addr) (h : Heap) : list addr :=
  match ctxs h !! c with
  | Some x =>
      List.filter
        (fun a => match objs h !! a with
                  | Some o => String.eqb (ruleId (fields o)) (id (baseRule w))
                  | None => false
                  end)
        (issues x)
  | None => []
  end.

(** The body of the [forEach]: two assignments on the issue object itself. *)
Definition mark (c : addr) (h : Heap) (a : addr) : Heap :=
  {| objs := alter (fun o => mkObj (fields o) (aiEnhancement o) true (Some c)) a (objs h);
     ctxs := ctxs h |}.

Definition markForEnhancement (w : AIEnhancedRule) (c : addr) (h : Heap) : Heap :=
  fold_left (mark c) (originalIssues w c h) h.

(** [apply(ast, context)] *)
Definition apply (w : AIEnhancedRule) (t : AST) (c : addr) (h : Heap) : Heap * option string :=
  let '(h1, e) := applyRule (baseRule w) t c h in
  match e with
  | Some m => (h1, Some m)
  | None => if negb (enableAI w) then (h1, None) else (markForEnhancement w c h1, None)
  end.

(** [source.split('\n')] and [join('\n')]. *)
Fixpoint splitLines (acc : string) (s : string) : list string :=
  match s with
  | EmptyString => [acc]
  | String ch r =>
      if Ascii.eqb ch (ascii_of_nat 10) then acc :: splitLines "" r
      else splitLines (acc ++ String ch "") r
  end.

Fixpoint joinLines (l : list string) : string :=
  match l with
  | [] => ""
  | [x] => x
  | x :: r => x ++ nl ++ joinLines r
  end.

Definition extractCodeSnippet (source : string) (ln contextLines : Z) : string :=
  let lines := splitLines "" source in
  let start := Z.max 0 (ln - contextLines) in
  let stop := Z.min (Z.of_nat (List.length lines)) (ln + contextLines) in
  joinLines (firstn (Z.to_nat (stop - start)) (skipn (Z.to_nat start) lines)).

Definition truthyOptNum (n : option Num) : bool :=
  match n with Some x => truthyNum x | None => false end.

Definition formatEnhancedMessage (originalMessage : string)
  (r : @LLM.LLMAnalysisResponse Num) : string :=
  originalMessage
    ++ (nl ++ nl ++ "🤖 AI ANALYSIS:" ++ nl ++ LLM.explanation r)
    ++ (if truthyStr (LLM.suggestedFix r)
        then nl ++ nl ++ "🔧 SUGGESTED FIX:" ++ nl ++ default "" (LLM.suggestedFix r) else "")
    ++ (if truthyStr (LLM.additionalContext r)
        then nl ++ nl ++ "📚 ADDITIONAL CONTEXT:" ++ nl ++ default "" (LLM.additionalContext r)
        else "")
    ++ (match LLM.riskScore r with
        | Some x => if truthyNum x then nl ++ nl ++ "⚠️ RISK SCORE: " ++ showNum x ++ "/10" else ""
        | None => ""
        end)
    ++ (if truthyNum (LLM.confidence r)
        then nl ++ "🎯 CONFIDENCE: " ++ showPercent (LLM.confidence r) ++ "%" else "").

Definition buildRequest (w : AIEnhancedRule) (issue : Issue) (x : AnalysisContext)
  : LLM.LLMAnalysisRequest :=
  {| LLM.codeSnippet := extractCodeSnippet (sourceCode x) (line issue) 10;
     LLM.ruleDescription := ai_description w;
     LLM.ctx_fileName := file issue;
     LLM.ctx_functionName := extractFunctionName (sourceCode x) (line issue);
     LLM.ctx_contractName := extractContractName (sourceCode x);
     LLM.ctx_severity := severity issue;
     LLM.analysisType := "vulnerability" |}.

(** The object literal [{ ...issue, message: ..., aiEnhancement: {...} }]:
    the spread copies every own property, the dynamic ones included. *)
Definition enhancedCopy (o : IssueObj) (r : @LLM.LLMAnalysisResponse Num) : IssueObj :=
  {| fields := mkIssue (ruleId (fields o)) (formatEnhancedMessage (message (fields o)) r)
                       (severity (fields o)) (file (fields o))
                       (line (fields o)) (column (fields o));
     aiEnhancement := Some (mkAIEnhancement (LLM.explanation r) (LLM.suggestedFix r)
                                            (LLM.riskScore r) (LLM.confidence r));
     _needsAIEnhancement := _needsAIEnhancement o;
     _aiContext := _aiContext o |}.

(** [enhanceIssueWithAI(issue, context)]: the whole body is under a [try]
    whose handler returns the issue it was given, so the promise never
    rejects and the outer handler in [enhanceIssues], which pushes the same
    issue, has nothing left to catch. *)
Definition enhanceIssueWithAI (w : AIEnhancedRule) (remote : LLM.Remote)
  (a : addr) (o : IssueObj) (x : AnalysisContext) (h : Heap) : Heap * addr :=
  match LLM.analyzeCode half zero truthyNum (llmClient w) remote (buildRequest w (fields o) x) with
  | Returns r => (mkHeap (objs h ++ [enhancedCopy o r]) (ctxs h), List.length (objs h))
  | Throws _ => (h, a)
  end.

(** [contexts.get(issue) || (issue as any)._aiContext] *)
Definition contextOf (contexts : gmap addr addr) (a : addr) (o : IssueObj) : option addr :=
  match contexts !! a with
  | Some c => Some c
  | None => _aiContext o
  end.

(** The loop of [enhanceIssues].  [remote i] is the behaviour of the
    provider during iteration [i]; [enhanced] is the array being filled.
    The [console.warn] of the handlers is not recorded. *)
Fixpoint enhanceLoop (w : AIEnhancedRule) (remote : nat -> LLM.Remote)
  (contexts : gmap addr addr) (i : nat) (l : list addr) (h : Heap) (enhanced : list addr)
  : Heap * list addr :=
  match l with
  | [] => (h, enhanced)
  | a :: rest =>
      match objs h !! a with
      | Some o =>
          if _needsAIEnhancement o then
            match contextOf contexts a o ≫= (fun c => ctxs h !! c) with
            | Some x =>
                let '(h', a') := enhanceIssueWithAI w (remote i) a o x h in
                enhanceLoop w remote contexts (S i) rest h' (enhanced ++ [a'])
            | None => enhanceLoop w remote contexts (S i) rest h (enhanced ++ [a])
            end
          else enhanceLoop w remote contexts (S i) rest h (enhanced ++ [a])
      | None => enhanceLoop w remote contexts (S i) rest h (enhanced ++ [a])
      end
  end.

Definition enhanceIssues (w : AIEnhancedRule) (remote : nat -> LLM.Remote)
  (l : list addr) (contexts : gmap addr addr) (h : Heap) : Heap * list addr :=
  enhanceLoop w remote contexts 0 l h [].

(** Two issue objects that agree on everything but, possibly, the message
    and the payload; an enhanced message extends the original one. *)
Definition sameButEnhanced (o o' : IssueObj) : Prop :=
  ruleId (fields o') = ruleId (fields o)
  /\ severity (fields o') = severity (fields o)
  /\ file (fields o') = file (fields o)
  /\ line (fields o') = line (fields o)
  /\ column (fields o') = column (fields o)
  /\ _needsAIEnhancement o' = _needsAIEnhancement o
  /\ _aiContext o' = _aiContext o
  /\ (o' = o \/ (String.prefix (message (fields o)) (message (fields o')) = true
                 /\ aiEnhancement o' <> None)).

(** What one iteration of [enhanceIssues] answers with for the issue [o] at
    [a]: a copy allocated behind the [size] objects of the store when the
    issue is marked, has a context and [analyzeCode] returns; the reference
    it was given otherwise. *)
Definition enhancedAs (w : AIEnhancedRule) (remote : LLM.Remote) (contexts : gmap addr addr)
  (h : Heap) (a : addr) (o : IssueObj) (a' : addr) (o' : IssueObj) : Prop :=
  match (if _needsAIEnhancement o then contextOf contexts a o ≫= (fun c => ctxs h !! c)
         else None) with
  | Some x =>
      match LLM.analyzeCode half zero truthyNum (llmClient w) remote (buildRequest w (fields o) x)
      with
      | Returns r => (List.length (objs h) <= a')%nat /\ o' = enhancedCopy o r
      | Throws _ => a' = a /\ o' = o
      end
  | None => a' = a /\ o' = o
  end.

(** The reading of "whenever AI enhancement fails for an issue, that issue
    is returned unchanged" for a provider whose call fails in iteration
    [i]: the reference answered at [i] is the one handed in. *)
Definition failureReturnsIssue (w : AIEnhancedRule) (remote : nat -> LLM.Remote)
  (l : list addr) (contexts : gmap addr addr) (h : Heap) : Prop :=
  forall (i : nat) (a : addr),
    l !! i = Some a -> (forall request, remote i request = None) ->
    snd (enhanceIssues w remote l contexts h) !! i = Some a.

(** An operation on the store that leaves every existing issue object as it
    was. *)
Definition leavesIssuesUntouched (op : Heap -> Heap) (h : Heap) : Prop :=
  forall (a : addr) (o : IssueObj), objs h !! a = Some o -> objs (op h) !! a = Some o.

(** The weaker frame that [apply] does respect: declared fields and payload
    of every existing object are kept. *)
Definition keepsDeclaredFields (op : Heap -> Heap) (h : Heap) : Prop :=
  forall (a : addr) (o : IssueObj), objs h !! a = Some o ->
    exists o', objs (op h) !! a = Some o'
               /\ fields o' = fields o /\ aiEnhancement o' = aiEnhancement o.

End Wrapper.

End AIEnhanced.


(** ** rules/engine.ts

    The engine is not among the sources; [analyze.ts] constructs it with the
    rule list and the reporter, and calls [analyzeMultiple]. *)
Module Engine.

Section WithAST.

Context {AST : Type}.

(** One element of [parseResults], with the three properties [analyze.ts]
    reads. *)
Record ParseResult : Type := mkUnit {
  filePath : string;
  sourceCode : string;
  ast : AST
}.

(** Modelled from the spec: the Rule capability of section 3 (rules/ is not
    among the sources).  A rule has an identity and an [apply] that appends
    zero or more findings to the context's sink and may fail inside its own
    failure boundary: [apply] answers with the findings appended and, when it
    failed, the error. *)
Record Rule : Type := mkRule {
  id : string;
  description : string;
  rule_severity : Severity;
  apply : ParseResult -> list Issue * option string
}.

(** Modelled from the spec: an entry of the rule-failure log of section 4.6,
    identifying the rule id and the file. *)
Record RuleFailure : Type := mkFailure {
  failedRule : string;
  failedFile : string;
  failureText : string
}.

(** Modelled from the spec: the failure boundary of section 4.6 (engine.ts is
    not among the sources).  A rule-level exception is caught and logged; it
    never drops what the sink already holds. *)
Definition applyGuarded (u : ParseResult) (st : list Issue * list RuleFailure) (r : Rule)
  : list Issue * list RuleFailure :=
  match apply r u with
  | (found, None) => ((fst st ++ found)%list, snd st)
  | (found, Some e) =>
      ((fst st ++ found)%list, (snd st ++ [mkFailure (id r) (filePath u) e])%list)
  end.

(** Modelled from the spec: one file's pass of section 4.6, rules applied in
    registration order into a per-file list. *)
Definition analyze (rules : list Rule) (u : ParseResult) : list Issue * list RuleFailure :=
  fold_left (applyGuarded u) rules ([], []).

(** Modelled from the spec: the per-file lists of section 4.6 concatenated
    across files. *)
Definition collect (rules : list Rule) (units : list ParseResult)
  : list Issue * list RuleFailure :=
  fold_left (fun acc u => ((fst acc ++ fst (analyze rules u))%list,
                           (snd acc ++ snd (analyze rules u))%list))
            units ([], []).

(** Modelled from the spec: the comparison behind "sort by (file, line,
    column) ascending" of section 4.6; the order on file names is left to
    the host. *)
Definition compareLocation (compareFile : string -> string -> Z) (a b : Issue) : Z :=
  if negb (compareFile (file a) (file b) =? 0) then compareFile (file a) (file b)
  else if negb (line a =? line b) then line a - line b
  else column a - column b.

(** Modelled from the spec: the aggregated collection of section 4.6, the
    concatenation sorted by a stable sort, so that ties stay in the order of
    collection. *)
Definition analyzeMultiple (compareFile : string -> string -> Z)
  (rules : list Rule) (units : list ParseResult) : list Issue * list RuleFailure :=
  (sortBy (compareLocation compareFile) (fst (collect rules units)), snd (collect rules units)).

(** Modelled from the spec: the engine hands its findings to the reporter it
    was constructed with ([new RuleEngine(rules, reporter)] in analyze.ts,
    which never adds them itself). *)
Definition run (compareFile : string -> string -> Z)
  (rules : list Rule) (units : list ParseResult) (reporter : Reporter.t)
  : list Issue * list RuleFailure * Reporter.t :=
  let r := analyzeMultiple compareFile rules units in
  (fst r, snd r, Reporter.addIssues reporter (fst r)).

(** What one rule contributes on one file. *)
Definition contribution (r : Rule) (u : ParseResult) : list Issue := fst (apply r u).

(** The log entry one rule causes on one file, if it failed there. *)
Definition failureOf (r : Rule) (u : ParseResult) : list RuleFailure :=
  match snd (apply r u) with
  | Some e => [mkFailure (id r) (filePath u) e]
  | None => []
  end.

(** A rule that raises on every file before it reports anything. *)
Definition alwaysThrows (r : Rule) : Prop :=
  forall u, exists e, apply r u = ([], Some e).

End WithAST.

End Engine.

(** ** Ordering of findings, in the words of the specification *)
Module Ordering.

(** [a] is at or before [b] in (file, line, column) order, files compared by
    the collation. *)
Definition locationBefore (localeCompare : string -> string -> Z) (a b : Issue) : Prop :=
  localeCompare (file a) (file b) < 0
  \/ (file a = file b
      /\ (line a < line b \/ (line a = line b /\ column a <= column b))).

(** [a] is at or before [b] when file, line and column are compared one
    after the other: a tie of the collation on the files passes on to the
    lines. *)
Definition lexBefore (localeCompare : string -> string -> Z) (a b : Issue) : Prop :=
  localeCompare (file a) (file b) < 0
  \/ (localeCompare (file a) (file b) = 0
      /\ (line a < line b \/ (line a = line b /\ column a <= column b))).

(** Sorted by (file, line, column) ascending. *)
Definition sortedByLocation (localeCompare : string -> string -> Z) (l : list Issue) : Prop :=
  StronglySorted (lexBefore localeCompare) l.

(** The findings located at one (file, line, column). *)
Definition atLocation (f : string) (l c : Z) (i : Issue) : bool :=
  String.eqb (file i) f && (line i =? l) && (column i =? c).

(** The collation orders the file names [names] strictly: on them it is
    zero on a name and itself only, antisymmetric and transitive. *)
Definition ordersStrictly (localeCompare : string -> string -> Z) (names : list string) : Prop :=
  (forall a b, In a names -> In b names -> (localeCompare a b = 0 <-> a = b))
  /\ (forall a b, In a names -> In b names -> 0 < localeCompare a b -> localeCompare b a < 0)
  /\ (forall a b c, In a names -> In b names -> In c names ->
         localeCompare a b < 0 -> localeCompare b c < 0 -> localeCompare a c < 0).

(** Code-unit comparison of two strings, a collation one can compute with. *)
Definition codeUnitCompare (a b : string) : Z :=
  match String.compare a b with
  | Lt => -1
  | Eq => 0
  | Gt => 1
  end.

End Ordering.

(** ** playbooks/registry.ts *)
Module Registry.

Inductive SourceType : Type := SFile | SString | SRemote | SBuiltin | SLighthouse.

Record PlaybookSource : Type := mkSource {
  source_type : SourceType;
  location : string;
  hash : option string;
  cid : option string
}.

(** [PlaybookMeta], with the properties the registry reads or writes. *)
Record PlaybookMeta : Type := mkMeta {
  name : string;
  author : string;
  meta_description : option string;
  version : option string;
  tags : option (list string);
  ai_enabled : option bool;
  lighthouseResource : option string
}.

Section WithParser.

(** A parsed check ([ParsedPlaybook.staticRules] holds them; types.ts is
    imported, not shown). *)
Context {StaticRule : Type}.

Record ParsedPlaybook : Type := mkParsed {
  parsed_meta : PlaybookMeta;
  staticRules : list StaticRule
}.

Record RegisteredPlaybook : Type := mkRegistered {
  id : string;
  source : PlaybookSource;
  meta : PlaybookMeta;
  parsedPlaybook : option ParsedPlaybook;
  registeredAt : Z;
  lastUsed : option Z;
  usageCount : nat;
  validated : bool;
  validationErrors : option (list string)
}.

(** The three private maps of [class PlaybookRegistry]. *)
Record t : Type := mk {
  playbooks : gmap string RegisteredPlaybook;
  tagIndex : gmap string (gset string);
  authorIndex : gmap string (gset string)
}.

Definition empty : t := mk ∅ ∅ ∅.

(** The host: the file system, the clock, [path.basename] and
    [path.extname], and [PlaybookParser.parseFromFile], which returns a
    parsed playbook or raises. *)
Variable existsSync : string -> bool.
Variable now : Z.
Variable basename : string -> option string -> string.
Variable extname : string -> string.
Variable parseFromFile : string -> Outcome ParsedPlaybook.

(** [tagSet.add(id)] on the entry of [key], created when missing. *)
Definition indexAdd (key pid : string) (idx : gmap string (gset string))
  : gmap string (gset string) :=
  <[key := default ∅ (idx !! key) ∪ {[pid]}]> idx.

Definition addToRegistry (playbook : RegisteredPlaybook) (reg : t) : t :=
  {| playbooks := <[id playbook := playbook]> (playbooks reg);
     tagIndex := match tags (meta playbook) with
                 | Some ts => fold_left (fun idx tag => indexAdd tag (id playbook) idx)
                                        ts (tagIndex reg)
                 | None => tagIndex reg
                 end;
     authorIndex := indexAdd (author (meta playbook)) (id playbook) (authorIndex reg) |}.

(** [toLowerCase()] followed by [replace(/[^a-z0-9-]/g, "-")], on the bytes
    of an ASCII name. *)
Definition lowerChar (c : ascii) : ascii :=
  let n := nat_of_ascii c in
  if ((65 <=? n) && (n <=? 90))%nat then ascii_of_nat (n + 32) else c.

Definition idChar (c : ascii) : ascii :=
  let n := nat_of_ascii c in
  if (((97 <=? n) && (n <=? 122)) || ((48 <=? n) && (n <=? 57)) || (n =? 45))%nat
  then c else ascii_of_nat 45.

Fixpoint mapString (f : ascii -> ascii) (s : string) : string :=
  match s with
  | EmptyString => EmptyString
  | String c r => String (f c) (mapString f r)
  end.

Definition generateIdFromPath (filePath : string) : string :=
  mapString idChar (mapString lowerChar (basename filePath (Some (extname filePath)))).

(** [id || this.generateIdFromPath(filePath)] *)
Definition idOr (pid : option string) (filePath : string) : string :=
  if truthyStr pid then default "" pid else generateIdFromPath filePath.

(** [registerFromFile(filePath, id?)]: the answer (or the exception raised
    before the [try]) and the registry afterwards. *)
Definition registerFromFile (filePath : string) (pid : option string) (reg : t)
  : Outcome RegisteredPlaybook * t :=
  if negb (existsSync filePath)
  then (Throws ("Playbook file not found: " ++ filePath), reg)
  else
    match parseFromFile filePath with
    | Returns parsed =>
        let registered :=
          {| id := idOr pid filePath;
             source := mkSource SFile filePath None None;
             meta := parsed_meta parsed;
             parsedPlaybook := Some parsed;
             registeredAt := now;
             lastUsed := None;
             usageCount := 0;
             validated := true;
             validationErrors := None |} in
        (Returns registered, addToRegistry registered reg)
    | Throws msg =>
        let registered :=
          {| id := idOr pid filePath;
             source := mkSource SFile filePath None None;
             meta := mkMeta (basename filePath None) "unknown" None None None None None;
             parsedPlaybook := None;
             registeredAt := now;
             lastUsed := None;
             usageCount := 0;
             validated := false;
             validationErrors := Some [msg] |} in
        (Returns registered, addToRegistry registered reg)
    end.

(** [get(id)] *)
Definition get (pid : string) (reg : t) : option RegisteredPlaybook := playbooks reg !! pid.

(** [validate(id)], answering [{ valid, errors }]. *)
Definition validate (pid : string) (reg : t) : bool * list string :=
  match playbooks reg !! pid with
  | None => (false, ["Playbook not found"])
  | Some playbook =>
      if negb (validated playbook)
      then (false, default ["Unknown validation error"] (validationErrors playbook))
      else (true, [])
  end.

(** The checks a registered playbook offers for compilation: those of its
    cached parse, none when there is no parse (as in [search], which skips
    an entry with [!pb.parsedPlaybook]). *)
Definition checksOf (playbook : RegisteredPlaybook) : list StaticRule :=
  match parsedPlaybook playbook with
  | Some parsed => staticRules parsed
  | None => []
  end.

(** The validation errors a registered playbook carries. *)
Definition errorsOf (playbook : RegisteredPlaybook) : list string :=
  default [] (validationErrors playbook).

End WithParser.

End Registry.

(** ** tasks/analyze.ts *)
Module Task.

(** *** Command line *)

Fixpoint indexOf (argv : list string) (flag : string) : option nat :=
  match argv with
  | [] => None
  | x :: r => if String.eqb x flag then Some 0%nat else S <$> indexOf r flag
  end.

(** [index !== -1 && index + 1 < argv.length ? argv[index + 1] : undefined] *)
Definition getArgValue (argv : list string) (flag : string) : option string :=
  match indexOf argv flag with
  | Some i => argv !! S i
  | None => None
  end.

Definition hasFlag (argv : list string) (flag : string) : bool :=
  existsb (fun x => String.eqb x flag) argv.

(** [a || b] on optional strings. *)
Definition orElse (a b : option string) : option string :=
  if truthyStr a then a else b.

(** [hre.config.superaudit || {}] *)
Record ConfigDefaults : Type := mkDefaults {
  cfg_playbook : option string;
  cfg_mode : option string;
  cfg_rules : option (list string);
  cfg_format : option string;
  cfg_output : option string;
  cfg_ai_enabled : bool
}.

Record Args : Type := mkArgs {
  playbook : option string;
  playbookCid : option string;
  playbookId : option string;
  mode : option string;
  rules : option string;
  format : option string;
  output : option string;
  showSamples : bool;
  listPlaybooks : bool;
  uploadPlaybook : option string;
  aiEnabled : bool
}.

Fixpoint joinWith (sep : string) (l : list string) : string :=
  match l with
  | [] => ""
  | [x] => x
  | x :: r => x ++ sep ++ joinWith sep r
  end.

(** [envAI] is [process.env.SUPERAUDIT_AI_ENABLED === "true"]. *)
Definition parseArgs (argv : list string) (cfg : ConfigDefaults) (envAI : bool) : Args :=
  {| playbook := orElse (getArgValue argv "--playbook") (cfg_playbook cfg);
     playbookCid := getArgValue argv "--playbook-cid";
     playbookId := getArgValue argv "--playbook-id";
     mode := orElse (getArgValue argv "--mode") (cfg_mode cfg);
     rules := orElse (getArgValue argv "--rules") (joinWith "," <$> cfg_rules cfg);
     format := orElse (getArgValue argv "--format") (cfg_format cfg);
     output := orElse (getArgValue argv "--output") (cfg_output cfg);
     showSamples := hasFlag argv "--show-samples";
     listPlaybooks := hasFlag argv "--list-playbooks";
     uploadPlaybook := getArgValue argv "--upload-playbook";
     aiEnabled := hasFlag argv "--ai" || cfg_ai_enabled cfg || envAI |}.

(** [s.split(",")] *)
Fixpoint splitOn (sep : ascii) (acc : string) (s : string) : list string :=
  match s with
  | EmptyString => [acc]
  | String c r =>
      if Ascii.eqb c sep then acc :: splitOn sep "" r
      else splitOn sep (acc ++ String c "") r
  end.

(** [trim()].  A JavaScript string is held as the bytes of its UTF-8
    encoding.  The code points [trim] strips are those of WhiteSpace and
    LineTerminator: U+0009 to U+000D and U+0020, of one byte; U+00A0, of two;
    U+1680, U+2000 to U+200A, U+2028, U+2029, U+202F, U+205F, U+3000 and
    U+FEFF, of three. *)
Definition isSpace1 (a : ascii) : bool :=
  let n := nat_of_ascii a in
  ((n =? 32) || ((9 <=? n) && (n <=? 13)))%nat.

Definition isSpace2 (a b : ascii) : bool :=
  ((nat_of_ascii a =? 194) && (nat_of_ascii b =? 160))%nat.

Definition isSpace3 (a b c : ascii) : bool :=
  let x := nat_of_ascii a in
  let y := nat_of_ascii b in
  let z := nat_of_ascii c in
  (((x =? 225) && (y =? 154) && (z =? 128))
   || ((x =? 226) && (y =? 128)
       && (((128 <=? z) && (z <=? 138)) || (z =? 168) || (z =? 169) || (z =? 175)))
   || ((x =? 226) && (y =? 129) && (z =? 159))
   || ((x =? 227) && (y =? 128) && (z =? 128))
   || ((x =? 239) && (y =? 187) && (z =? 191)))%nat.

(** White space stripped from the head of [s]; [two] and [three] recognise
    the encodings of two and of three bytes. *)
Fixpoint stripSpaces (two : ascii -> ascii -> bool) (three : ascii -> ascii -> ascii -> bool)
  (s : string) : string :=
  match s with
  | String a r =>
      if isSpace1 a then stripSpaces two three r
      else
        match r with
        | String b r' =>
            if two a b then stripSpaces two three r'
            else
              match r' with
              | String c r'' => if three a b c then stripSpaces two three r'' else s
              | EmptyString => s
              end
        | EmptyString => s
        end
  | EmptyString => EmptyString
  end.

Definition trimStart (s : string) : string := stripSpaces isSpace2 isSpace3 s.

Fixpoint rev_string (acc s : string) : string :=
  match s with
  | EmptyString => acc
  | String c r => rev_string (String c acc) r
  end.

(** The tail is stripped on the reversed string, where the bytes of an
    encoding come last byte first. *)
Definition trimEnd (s : string) : string :=
  rev_string ""
    (stripSpaces (fun a b => isSpace2 b a) (fun a b c => isSpace3 c b a) (rev_string "" s)).

Definition trim (s : string) : string := trimEnd (trimStart s).

(** [outputFile.endsWith(ext) ? outputFile : outputFile + ext] *)
Definition endsWith (s ext : string) : bool :=
  (String.length ext <=? String.length s)%nat
  && String.eqb (substring (String.length s - String.length ext) (String.length ext) s) ext.

Definition withExt (outputFile ext : string) : string :=
  if endsWith outputFile ext then outputFile else outputFile ++ ext.

(** *** The run *)

(** What [parseAllSourceFiles] does: it returns the parse results, raises a
    [ParseError], or raises something else. *)
Inductive ParseOutcome (Unit : Type) : Type :=
| Parsed (results : list Unit)
| ParseErrorThrown (msg : string)
| OtherThrown (text : string).
Arguments Parsed {Unit}.
Arguments ParseErrorThrown {Unit}.
Arguments OtherThrown {Unit}.

(** What reaches the console, one constructor per message that matters
    here (progress banners are left out). *)
Inductive Msg : Type :=
| MSamples
| MPlaybookList
| MUploaded
| MParseError (msg : string)
| MParseFailed (text : string)
| MAnalysisFailed (msg : string)
| MNoFiles
| MParsedOk (n : nat)
| MRuleFailure (rule file text : string)
| MCritical
| MIssuesFound
| MNoIssues.

(** The report handed to the writer of the selected format. *)
Inductive Report : Type :=
| OutJson (summary : Reporter.ReportSummary) (issues : list Issue)
| OutSarif (log : Sarif.Log)
| OutConsole (lines : list Reporter.Line).

(** How a run ends: what it printed, the code given to [process.exit] (or
    none when the task returns), and the report it produced, if any. *)
Record Run : Type := mkRun {
  console : list Msg;
  exitCode : option Z;
  report : option Report
}.

Section WithHost.

Context {AST : Type}.

Local Abbreviation RuleT := (@Engine.Rule AST).
Local Abbreviation UnitT := (@Engine.ParseResult AST).

(** The collaborators of the task that are not among the sources, and the
    host.  [stringifyError] is the message of the [TypeError] that
    [JSON.stringify] raises on a circular structure. *)
Record Host : Type := mkHost {
  existsSync : string -> bool;
  BASIC_RULES : list RuleT;
  ADVANCED_RULES : list RuleT;
  DEFAULT_RULES : list RuleT;
  registerFromLighthouse : string -> Outcome string;
  loadRulesFromRegistry : string -> Outcome (list RuleT);
  loadPlaybookRules : string -> Outcome (list RuleT);
  uploadAndRegisterToLighthouse : string -> Outcome unit;
  aiApiKey : option string;
  contractsPath : string;
  parseAllSourceFiles : string -> ParseOutcome UnitT;
  aiEnhance : list Issue -> list Issue;
  writeFileSync : string -> Outcome unit;
  localeCompare : string -> string -> Z;
  stringifyError : string
}.

(** [determineAnalysisRules(args)] *)
Definition determineAnalysisRules (h : Host) (args : Args) : Outcome (list RuleT * string) :=
  if truthyStr (playbookCid args) then
    match registerFromLighthouse h (default "" (playbookCid args)) with
    | Throws e => Throws e
    | Returns registeredId =>
        match loadRulesFromRegistry h registeredId with
        | Throws e => Throws e
        | Returns playbookRules =>
            Returns ((BASIC_RULES h ++ playbookRules)%list, "community-playbook")
        end
    end
  else if truthyStr (playbookId args) then
    match loadRulesFromRegistry h (default "" (playbookId args)) with
    | Throws e => Throws e
    | Returns playbookRules => Returns ((BASIC_RULES h ++ playbookRules)%list, "registry")
    end
  else if truthyStr (playbook args) then
    if negb (existsSync h (default "" (playbook args)))
    then Throws ("Playbook file not found: " ++ default "" (playbook args))
    else
      match loadPlaybookRules h (default "" (playbook args)) with
      | Throws e => Throws e
      | Returns playbookRules => Returns ((BASIC_RULES h ++ playbookRules)%list, "playbook")
      end
  else if truthyStr (rules args) then
    let requestedRuleIds :=
      List.map trim (splitOn (ascii_of_nat 44) "" (default "" (rules args))) in
    let filteredRules :=
      List.filter (fun r => existsb (String.eqb (Engine.id r)) requestedRuleIds)
                  (BASIC_RULES h ++ ADVANCED_RULES h) in
    match filteredRules with
    | [] => Throws ("No rules found matching: " ++ default "" (rules args))
    | _ => Returns (filteredRules, "custom")
    end
  else
    match mode args with
    | Some "basic" => Returns (BASIC_RULES h, "basic")
    | Some "advanced" => Returns ((BASIC_RULES h ++ ADVANCED_RULES h)%list, "advanced")
    | _ => Returns (DEFAULT_RULES h, "full")
    end.

(** [new AIEnhancedRule(rule, llmClient, true)], as the engine sees it: the
    wrapper runs the base rule and lets its exception through. *)
Definition aiWrap (r : RuleT) : RuleT :=
  Engine.mkRule (Engine.id r ++ "-ai") (Engine.description r ++ " (AI-Enhanced)")
                (Engine.rule_severity r) (Engine.apply r).

(** [rules = aiEnhancedRules] when the wrappers were built. *)
Definition activeRules (rs : list RuleT) (aiActive : bool) : list RuleT :=
  if aiActive then List.map aiWrap rs else rs.

(** [AIEnhancedRule.apply] on the issues of a context, each with its mark
    (set when a wrapper wrote [_needsAIEnhancement] and [_aiContext] on the
    object): the base rule runs first and, unless it raised, every issue
    the context holds by then under the base rule's id is marked. *)
Definition applyWrapped (u : UnitT) (sink : list (Issue * bool)) (base : RuleT)
  : list (Issue * bool) :=
  let '(found, e) := Engine.apply base u in
  let sink := (sink ++ List.map (fun i => (i, false)) found)%list in
  match e with
  | Some _ => sink
  | None =>
      List.map (fun x => if String.eqb (ruleId (fst x)) (Engine.id base) then (fst x, true) else x)
               sink
  end.

(** Modelled from the spec: the engine's pass over each file (rules/engine.ts
    is not among the sources), the rules of a file sharing its context and
    applied in registration order (sections 3 and 4.6); here the wrapped
    rules, with the marks they leave. *)
Definition marked (rs : list RuleT) (units : list UnitT) : list (Issue * bool) :=
  flat_map (fun u => fold_left (applyWrapped u) rs []) units.

(** A marked issue refers to its context, whose [issues] hold the issue:
    the findings of the run then contain a cycle.  The copies
    [enhanceIssues] makes spread [_aiContext] too, so enhancement does not
    undo it. *)
Definition cyclic (rs : list RuleT) (aiActive : bool) (units : list UnitT) : bool :=
  aiActive && existsb snd (marked rs units).

(** The outer [catch]: the message is printed and the process exits with 1. *)
Definition analysisFailed (e : string) : Run := mkRun [MAnalysisFailed e] (Some 1) None.

Definition returned (l : list Msg) : Run := mkRun l None None.

(** Everything before the sources are parsed: either the run is over, or the
    rules are chosen and the wrappers built or not. *)
Inductive Prepared : Type :=
| Over (r : Run)
| Ready (rs : list RuleT) (analysisMode : string) (aiActive : bool).

Definition prepare (h : Host) (args : Args) : Prepared :=
  if showSamples args then Over (returned [MSamples])
  else if listPlaybooks args then Over (returned [MPlaybookList])
  else if truthyStr (uploadPlaybook args) then
    let p := default "" (uploadPlaybook args) in
    if negb (existsSync h p) then Over (analysisFailed ("Playbook file not found: " ++ p))
    else match uploadAndRegisterToLighthouse h p with
         | Returns _ => Over (returned [MUploaded])
         | Throws e => Over (analysisFailed e)
         end
  else
    match determineAnalysisRules h args with
    | Throws e => Over (analysisFailed e)
    | Returns (rs, analysisMode) =>
        Ready rs analysisMode (aiEnabled args && truthyStr (aiApiKey h))
    end.

Definition failureMsg (f : Engine.RuleFailure) : Msg :=
  MRuleFailure (Engine.failedRule f) (Engine.failedFile f) (Engine.failureText f).

(** The [switch (args.format)] and the writer it selects, up to the text of
    the report.  [outputJSON] hands the issue objects themselves to
    [JSON.stringify], which raises when they hold a cycle ([circular]);
    [outputSARIF] and [printReport] read the declared fields only.  The
    reporter comes back because [printReport] sorts it in place. *)
Definition writeReport (h : Host) (args : Args) (circular : bool) (reporter : Reporter.t)
  (allIssues : list Issue) : Outcome (Report * string * Reporter.t) :=
  match format args with
  | Some "json" =>
      if circular then Throws (stringifyError h)
      else Returns (OutJson (Reporter.getSummary reporter) allIssues, ".json", reporter)
  | Some "sarif" => Returns (OutSarif (Sarif.outputSARIF allIssues), ".sarif", reporter)
  | _ =>
      let r := Reporter.printReport (localeCompare h) reporter in
      Returns (OutConsole (snd r), ".txt", fst r)
  end.

(** [args.aiEnabled && llmClient && aiEnhancedRules.length > 0] *)
Definition enhancing (rs : list RuleT) (aiActive : bool) : bool :=
  aiActive && negb (Nat.eqb (List.length (activeRules rs aiActive)) 0).

(** [allIssues] when the writer is called: the engine's findings, or what
    the [enhanceIssues] calls made of them. *)
Definition allIssues (h : Host) (rs : list RuleT) (aiActive : bool) (found : list Issue)
  : list Issue :=
  if enhancing rs aiActive then aiEnhance h found else found.

(** The last message and the exit code, by the issues the reporter holds. *)
Definition closing (all : list Issue) : Msg * option Z :=
  if existsb (fun i => Severity_eqb (severity i) error) all then (MCritical, Some 1)
  else if (0 <? List.length all)%nat then (MIssuesFound, None)
  else (MNoIssues, None).

(** From the parse on. *)
Definition analyzeParsed (h : Host) (args : Args) (rs : list RuleT) (aiActive : bool) : Run :=
  match parseAllSourceFiles h (contractsPath h) with
  | ParseErrorThrown msg => mkRun [MParseError msg] (Some 1) None
  | OtherThrown text => mkRun [MParseFailed text] (Some 1) None
  | Parsed [] => returned [MNoFiles]
  | Parsed parseResults =>
      let '(found, failures, reporter) :=
        Engine.run (localeCompare h) (activeRules rs aiActive) parseResults Reporter.new in
      let log := MParsedOk (List.length parseResults) :: List.map failureMsg failures in
      let all := allIssues h rs aiActive found in
      let reporter :=
        if enhancing rs aiActive then Reporter.addIssues (Reporter.clear reporter) all
        else reporter in
      match writeReport h args (cyclic rs aiActive parseResults) reporter all with
      | Throws e => mkRun (log ++ [MAnalysisFailed e]) (Some 1) None
      | Returns (out, ext, reporter) =>
          let written :=
            if truthyStr (output args)
            then writeFileSync h (withExt (default "" (output args)) ext)
            else Returns tt in
          match written with
          | Throws e => mkRun (log ++ [MAnalysisFailed e]) (Some 1) None
          | Returns _ =>
              if Reporter.hasErrors reporter
              then mkRun (log ++ [MCritical]) (Some 1) (Some out)
              else if (0 <? Reporter.totalIssues (Reporter.getSummary reporter))%nat
                   then mkRun (log ++ [MIssuesFound]) None (Some out)
                   else mkRun (log ++ [MNoIssues]) None (Some out)
          end
      end
  end.

(** [analyzeTask]: [args] is what the task computes from [process.argv],
    the Hardhat configuration and the environment.  The start-up before it
    (Lighthouse initialisation, registration of the built-in playbooks and
    the community sync) handles its own errors and is left out. *)
Definition analyzeTask (h : Host) (args : Args) : Run :=
  match prepare h args with
  | Over r => r
  | Ready rs _ aiActive => analyzeParsed h args rs aiActive
  end.

(** The reading of the specification: a run that does not meet a
    [ParseError] completes with a Finding list. *)
Definition onlyParseErrorHalts (h : Host) (args : Args) : Prop :=
  (forall msg, parseAllSourceFiles h (contractsPath h) <> ParseErrorThrown msg) ->
  exists out, report (analyzeTask h args) = Some out.

(** What the writer of the selected format is handed: the report of the
    issues [all]. *)
Definition reportOf (h : Host) (args : Args) (all : list Issue) : Report :=
  match format args with
  | Some "json" => OutJson (Reporter.getSummary (Reporter.mk all)) all
  | Some "sarif" => OutSarif (Sarif.outputSARIF all)
  | _ => OutConsole (snd (Reporter.printReport (localeCompare h) (Reporter.mk all)))
  end.

End WithHost.

End Task.

(** ** The playbook rule compiler

    The parser and the DSL interpreter of playbooks/ are not among the
    sources; [registry.ts] and [analyze.ts] only call them. *)
Module Compiler.

Local Set Warnings "-register-all".

(** Modelled from the spec: the ASTNode of section 3 (the AST model is not
    among the sources): a kind tag, a source location and the ordered
    children. *)
Inductive ASTNode : Type :=
| Node (kind : string) (ln col : Z) (children : list ASTNode).

(** Modelled from the spec: the kind and the location of a node. *)
Definition kindOf (n : ASTNode) : string := match n with Node k _ _ _ => k end.
Definition lineOf (n : ASTNode) : Z := match n with Node _ l _ _ => l end.
Definition columnOf (n : ASTNode) : Z := match n with Node _ _ c _ => c end.

(** Modelled from the spec: the read-only, depth-first, parent-to-child
    traversal of section 4.1. *)
Fixpoint nodes (n : ASTNode) : list ASTNode :=
  match n with
  | Node _ _ _ children => n :: flat_map nodes children
  end.

(** Modelled from the spec: the StaticCheckSpec of section 3 (playbooks/types
    is not among the sources): id, severity, target node kinds, structural
    predicates given by name, message template. *)
Record StaticCheckSpec : Type := mkCheck {
  check_id : string;
  check_severity : Severity;
  targets : list string;
  predicates : list string;
  messageTemplate : string
}.

(** Modelled from the spec: the PlaybookSpec of section 3, metadata and the
    ordered list of checks. *)
Record PlaybookSpec : Type := mkSpec {
  spec_name : string;
  spec_author : string;
  checks : list StaticCheckSpec
}.

(** Modelled from the spec: the CompileError of section 6, for one check. *)
Record CompileError : Type := mkCompileError {
  err_check : string;
  err_predicate : string
}.

Section WithVocabulary.

(** Modelled from the spec: the closed vocabulary of section 4.5.  The
    predicates the compiler implements are the variants of [Predicate];
    [vocabulary] is its name table and [holds] the matcher of each variant.
    The spec leaves the members of the vocabulary open (section 9), so they
    are parameters here. *)
Context {Predicate : Type}.
Variable vocabulary : list (string * Predicate).
Variable holds : Predicate -> ASTNode -> bool.

(** Modelled from the spec: a predicate name is recognised when the name
    table holds it (section 4.5). *)
Fixpoint recognise (name : string) (table : list (string * Predicate)) : option Predicate :=
  match table with
  | [] => None
  | (n, p) :: rest => if String.eqb n name then Some p else recognise name rest
  end.

(** Modelled from the spec: the first predicate name of a check that the
    vocabulary lacks, the one its validation error reports (section 4.5). *)
Fixpoint firstUnknown (names : list string) : option string :=
  match names with
  | [] => None
  | n :: rest =>
      match recognise n vocabulary with
      | Some _ => firstUnknown rest
      | None => Some n
      end
  end.

(** Modelled from the spec: an AST-pattern rule of section 4.3, walking the
    tree for the target kinds on which every predicate of the check holds. *)
Definition matches (c : StaticCheckSpec) (n : ASTNode) : bool :=
  existsb (String.eqb (kindOf n)) (targets c)
  && forallb (fun name => match recognise name vocabulary with
                          | Some p => holds p n
                          | None => false
                          end) (predicates c).

(** Modelled from the spec: the findings of a compiled rule, one per
    matching node, with the check's id, severity and message (section 3). *)
Definition compiledApply (c : StaticCheckSpec) (u : @Engine.ParseResult ASTNode)
  : list Issue * option string :=
  (List.map (fun n => mkIssue (check_id c) (messageTemplate c) (check_severity c)
                              (Engine.filePath u) (lineOf n) (columnOf n))
            (List.filter (matches c) (nodes (Engine.ast u))),
   None).

(** Modelled from the spec: the rule a check compiles to (section 4.5), of
    the same capability as the built-in rules. *)
Definition ruleOf (c : StaticCheckSpec) : @Engine.Rule ASTNode :=
  Engine.mkRule (check_id c) (messageTemplate c) (check_severity c) (compiledApply c).

(** Modelled from the spec: an unrecognised predicate name is a validation
    error for that one check (section 4.5). *)
Definition compileCheck (c : StaticCheckSpec) : @Engine.Rule ASTNode + CompileError :=
  match firstUnknown (predicates c) with
  | Some n => inr (mkCompileError (check_id c) n)
  | None => inl (ruleOf c)
  end.

(** Modelled from the spec: [compile(PlaybookSpec) -> (Rule[], CompileError[])]
    of section 6, check by check. *)
Fixpoint compileChecks (l : list StaticCheckSpec)
  : list (@Engine.Rule ASTNode) * list CompileError :=
  match l with
  | [] => ([], [])
  | c :: rest =>
      let r := compileChecks rest in
      match compileCheck c with
      | inl rule => (rule :: fst r, snd r)
      | inr e => (fst r, e :: snd r)
      end
  end.

(** Modelled from the spec: [compile] of section 6 on a playbook. *)
Definition compile (spec : PlaybookSpec) : list (@Engine.Rule ASTNode) * list CompileError :=
  compileChecks (checks spec).

(** Modelled from the spec: what a rule built from variants of the
    vocabulary alone decides on a node (sections 4.5 and 9): the node is of a
    target kind and every variant holds on it.  No text of the playbook is
    looked at. *)
Definition matchesVariants (kinds : list string) (ps : list Predicate) (n : ASTNode) : bool :=
  existsb (String.eqb (kindOf n)) kinds && forallb (fun p => holds p n) ps.

(** Modelled from the spec: the findings of such a rule on a file, one per
    matching node (section 3). *)
Definition variantFindings (c : StaticCheckSpec) (ps : list Predicate)
  (u : @Engine.ParseResult ASTNode) : list Issue :=
  List.map (fun n => mkIssue (check_id c) (messageTemplate c) (check_severity c)
                             (Engine.filePath u) (lineOf n) (columnOf n))
           (List.filter (matchesVariants (targets c) ps) (nodes (Engine.ast u))).

(** A check all of whose predicate names the compiler recognises. *)
Definition allKnown (c : StaticCheckSpec) : bool :=
  forallb (fun n => match recognise n vocabulary with Some _ => true | None => false end)
          (predicates c).

End WithVocabulary.

End Compiler.

(** ** The playbook parser

    [PlaybookParser] of playbooks/parser is not among the sources;
    [registry.ts] only calls it. *)
Module PlaybookParser.

Local Set Warnings "-register-all".

(** Modelled from the spec: a check entry of the document as the YAML reader
    hands it to the parser (playbooks/parser is not among the sources), each
    field of the StaticCheckSpec schema of section 3 present or not, the
    severity still a word. *)
Record RawCheck : Type := mkRaw {
  raw_id : option string;
  raw_severity : option string;
  raw_targets : option (list string);
  raw_predicates : option (list string);
  raw_message : option string
}.

(** Modelled from the spec: the document, its metadata and its check
    entries in the order of the text (section 3). *)
Record Document : Type := mkDocument {
  doc_name : string;
  doc_author : string;
  doc_checks : list RawCheck
}.

(** Modelled from the spec: a ValidationError of section 6, for one entry:
    its position in the document and what the schema misses. *)
Record ValidationError : Type := mkValidationError {
  err_entry : nat;
  err_text : string
}.

(** Modelled from the spec: the severity vocabulary of section 6, exactly
    three levels. *)
Definition severityOfWord (word : string) : option Severity :=
  if String.eqb word "error" then Some error
  else if String.eqb word "warning" then Some warning
  else if String.eqb word "info" then Some info
  else None.

(** Modelled from the spec: one entry validated against the fixed schema
    (section 4.4): every field of section 3 is required, and the severity is
    one of the three levels. *)
Definition validateCheck (e : RawCheck) : Compiler.StaticCheckSpec + string :=
  match raw_id e with
  | None => inr "missing required field: id"
  | Some id =>
      match raw_severity e with
      | None => inr "missing required field: severity"
      | Some word =>
          match severityOfWord word with
          | None => inr ("invalid severity: " ++ word)
          | Some sev =>
              match raw_targets e with
              | None => inr "missing required field: targets"
              | Some kinds =>
                  match raw_predicates e with
                  | None => inr "missing required field: predicates"
                  | Some names =>
                      match raw_message e with
                      | None => inr "missing required field: message"
                      | Some text => inl (Compiler.mkCheck id sev kinds names text)
                      end
                  end
              end
          end
      end
  end.

(** Modelled from the spec: validation is exhaustive, not fail-fast (section
    4.4): every entry is validated, the valid ones are kept in order and
    each other one gives a validation error under its position. *)
Fixpoint validateFrom (i : nat) (l : list RawCheck)
  : list Compiler.StaticCheckSpec * list ValidationError :=
  match l with
  | [] => ([], [])
  | e :: rest =>
      let r := validateFrom (S i) rest in
      match validateCheck e with
      | inl c => (c :: fst r, snd r)
      | inr text => (fst r, mkValidationError i text :: snd r)
      end
  end.

(** Modelled from the spec: [parsePlaybook(yaml text) -> (PlaybookSpec,
    ValidationError[])] of section 6, from the document on. *)
Definition parsePlaybook (d : Document) : Compiler.PlaybookSpec * list ValidationError :=
  (Compiler.mkSpec (doc_name d) (doc_author d) (fst (validateFrom 0 (doc_checks d))),
   snd (validateFrom 0 (doc_checks d))).

(** An entry the schema accepts, and one it refuses. *)
Definition wellFormed (e : RawCheck) : Prop := exists c, validateCheck e = inl c.
Definition malformed (e : RawCheck) : Prop := exists text, validateCheck e = inr text.

(** A well-formed entry, one that gives no validation error: the schema
    accepts it (section 4.4) and the compiler implements the predicates it
    names (section 4.5, where a name outside the vocabulary is a validation
    error for the check). *)
Definition wellFormedFor {Predicate : Type} (vocabulary : list (string * Predicate))
  (e : RawCheck) : Prop :=
  exists c, validateCheck e = inl c /\ Compiler.allKnown vocabulary c = true.

(** The checks of the entries the schema accepts, in order. *)
Fixpoint accepted (l : list RawCheck) : list Compiler.StaticCheckSpec :=
  match l with
  | [] => []
  | e :: rest =>
      match validateCheck e with
      | inl c => c :: accepted rest
      | inr _ => accepted rest
      end
  end.

End PlaybookParser.

(** ** The control-flow graph and the reentrancy rule

    Neither the CFG builder nor the built-in detectors are among the
    sources; [analyze.ts] imports the rule lists and the example project
    names the rule ["reentrancy-paths"]. *)
Module Reentrancy.

Local Set Warnings "-register-all".

(** Modelled from the spec: the statement kinds that matter to the graph
    (section 4.2) and to the reentrancy rule (section 4.3): an external
    call, a write to a state variable (sensitive when the variable is a
    balance or allowance mapping), a reentrancy guard toggle, a
    require/assert-style guard statement, an early exit (return or revert)
    and any other statement, treated as opaque. *)
Inductive Kind : Type :=
| ExternalCall
| StateWrite (sensitive : bool)
| GuardToggle
| Require
| Exit
| Opaque.

(** Modelled from the spec: a function body as the AST gives it, statements
    in source order with their location; only kind and nesting matter. *)
Inductive Stmt : Type :=
| Simple (k : Kind) (ln col : Z)
| IfElse (ln col : Z) (thenArm elseArm : list Stmt)
| Loop (ln col : Z) (body : list Stmt).

(** Modelled from the spec: a function declaration of the AST, its name and
    its body. *)
Record FunctionDef : Type := mkFunction { fn_name : string; fn_body : list Stmt }.

(** Modelled from the spec: the ControlFlowGraph of section 3.  Blocks are
    numbered by their position; an edge is a label and a target. *)
Inductive EdgeLabel : Type := ENormal | ETrue | EFalse | EException | ELoopBack.

Abbreviation Located := (Kind * Z * Z)%type (only parsing).

(** Modelled from the spec: a basic block of section 3, an ordered sequence
    of statements with no internal branch, and its outgoing edges. *)
Record Block : Type := mkBlock {
  stmts : list Located;
  succs : list (EdgeLabel * nat);
  isDead : bool
}.

(** Modelled from the spec: the graph of section 3, with its one entry block
    and its exit blocks. *)
Record CFG : Type := mkCFG { blocks : list Block; entry : nat; exits : list nat }.

(** Modelled from the spec: the builder's elementary steps (section 4.2): a
    fresh block, a statement appended to a block, an edge added. *)
Definition emptyBlock (dead : bool) : Block := mkBlock [] [] dead.

Definition extend (blk : Block) (l : list Located) : Block :=
  mkBlock (stmts blk ++ l) (succs blk) (isDead blk).

Definition addStmt (b : nat) (s : Located) (bs : list Block) : list Block :=
  alter (fun blk => extend blk [s]) b bs.

Definition addEdge (from to : nat) (label : EdgeLabel) (bs : list Block) : list Block :=
  alter (fun blk => mkBlock (stmts blk) (succs blk ++ [(label, to)]) (isDead blk)) from bs.

(** Modelled from the spec: the builder's state in its single linear pass
    (section 4.2): the blocks so far, the "current block" cursor, absent
    once the statements so far always exit, and the exit blocks found. *)
Record Builder : Type := mkBuilder {
  built : list Block;
  cursor : option nat;
  exitBlocks : list nat
}.

(** Modelled from the spec: a statement after an exit opens a block nothing
    leads to, marked dead-code for reporting (section 3). *)
Definition liveCursor (g : Builder) : list Block * nat :=
  match cursor g with
  | Some c => (built g, c)
  | None => ((built g ++ [emptyBlock true])%list, List.length (built g))
  end.

(** Modelled from the spec: where blocks split (section 4.2).  An external
    call and a guard statement end their block, and a failing guard leaves
    the function there; an exit ends its block and leaves no cursor. *)
Definition buildSimple (k : Kind) (ln col : Z) (g : Builder) : Builder :=
  let '(bs, cur) := liveCursor g in
  let bs := addStmt cur (k, ln, col) bs in
  match k with
  | ExternalCall =>
      mkBuilder (addEdge cur (List.length bs) ENormal (bs ++ [emptyBlock false]))
                (Some (List.length bs)) (exitBlocks g)
  | Require =>
      mkBuilder (addEdge cur (List.length bs) ENormal (bs ++ [emptyBlock false]))
                (Some (List.length bs)) (exitBlocks g ++ [cur])
  | Exit => mkBuilder bs None (exitBlocks g ++ [cur])
  | _ => mkBuilder bs (Some cur) (exitBlocks g)
  end.

(** Modelled from the spec: branches and loops (section 4.2).  Each arm is
    built recursively and wired to a shared join block, unless it always
    exits; when both arms exit there is no join. *)
Fixpoint buildStmt (s : Stmt) (g : Builder) {struct s} : Builder :=
  let buildArm :=
    fix go (ss : list Stmt) (g : Builder) {struct ss} : Builder :=
      match ss with
      | [] => g
      | s' :: rest => go rest (buildStmt s' g)
      end in
  match s with
  | Simple k ln col => buildSimple k ln col g
  | IfElse _ _ thenArm elseArm =>
      let '(bs, cur) := liveCursor g in
      let t0 := List.length bs in
      let gt := buildArm thenArm
                  (mkBuilder (addEdge cur t0 ETrue (bs ++ [emptyBlock false])) (Some t0)
                             (exitBlocks g)) in
      let e0 := List.length (built gt) in
      let ge := buildArm elseArm
                  (mkBuilder (addEdge cur e0 EFalse (built gt ++ [emptyBlock false])) (Some e0)
                             (exitBlocks gt)) in
      match cursor gt, cursor ge with
      | None, None => mkBuilder (built ge) None (exitBlocks ge)
      | ct, ce =>
          let j := List.length (built ge) in
          let bs := (built ge ++ [emptyBlock false])%list in
          let bs := match ct with Some x => addEdge x j ENormal bs | None => bs end in
          let bs := match ce with Some x => addEdge x j ENormal bs | None => bs end in
          mkBuilder bs (Some j) (exitBlocks ge)
      end
  | Loop _ _ body =>
      let '(bs, cur) := liveCursor g in
      let hd := List.length bs in
      let bs := addEdge cur hd ENormal (bs ++ [emptyBlock false]) in
      let b0 := List.length bs in
      let gb := buildArm body (mkBuilder (addEdge hd b0 ETrue (bs ++ [emptyBlock false]))
                                         (Some b0) (exitBlocks g)) in
      let bs := match cursor gb with
                | Some x => addEdge x hd ELoopBack (built gb)
                | None => built gb
                end in
      let x := List.length bs in
      mkBuilder (addEdge hd x EFalse (bs ++ [emptyBlock false])) (Some x) (exitBlocks gb)
  end.

(** Modelled from the spec: the single linear pass over a statement list
    (section 4.2). *)
Definition buildList (ss : list Stmt) (g : Builder) : Builder :=
  fold_left (fun g s => buildStmt s g) ss g.

(** Modelled from the spec: one graph per function, one entry block, the
    block the body falls off being an exit (the implicit end). *)
Definition buildCFG (body : list Stmt) : CFG :=
  let g := buildList body (mkBuilder [emptyBlock false] (Some 0%nat) []) in
  mkCFG (built g) 0
        (match cursor g with
         | Some c => (exitBlocks g ++ [c])%list
         | None => exitBlocks g
         end).

(** Modelled from the spec: the statements the rule looks for (section
    4.3): external calls, writes to a sensitive state variable and
    reentrancy guard toggles. *)
Definition isCall (s : Located) : bool :=
  match s with
  | (ExternalCall, _, _) => true
  | _ => false
  end.

Definition isSensitiveWrite (s : Located) : bool :=
  match s with
  | (StateWrite true, _, _) => true
  | _ => false
  end.

Definition isToggle (s : Located) : bool :=
  match s with
  | (GuardToggle, _, _) => true
  | _ => false
  end.

(** Modelled from the spec: a statement met on a path (section 4.3): its
    block, its index in the block, and whether the path is guarded there,
    that is, has met a guard toggle before it. *)
Abbreviation Arrival := (nat * nat * bool)%type (only parsing).

Definition sameArrival (x y : Arrival) : bool :=
  Nat.eqb (fst (fst x)) (fst (fst y)) && Nat.eqb (snd (fst x)) (snd (fst y))
  && Bool.eqb (snd x) (snd y).

(** Modelled from the spec: a path through a block (section 4.3), its
    statements read in order from index [i] on: the [target] statements
    met, and whether the path is guarded when it leaves the block. *)
Fixpoint walkBlock (target : Located -> bool) (b i : nat) (guarded : bool) (l : list Located)
  : list Arrival * bool :=
  match l with
  | [] => ([], guarded)
  | s :: rest =>
      let r := walkBlock target b (S i) (guarded || isToggle s) rest in
      (((if target s then [(b, i, guarded)] else []) ++ fst r)%list, snd r)
  end.

(** Modelled from the spec: the forward reachability search of section 4.3,
    from block [b] on, along every path that visits no block twice:
    [visited] holds the blocks of the path so far and [fuel] bounds its
    length.  It answers with the targets met on each path. *)
Fixpoint arrivals (target : Located -> bool) (bs : list Block) (fuel : nat)
  (visited : list nat) (guarded : bool) (b : nat) : list Arrival :=
  match fuel with
  | O => []
  | S fuel' =>
      if existsb (Nat.eqb b) visited then []
      else
        match bs !! b with
        | None => []
        | Some blk =>
            let r := walkBlock target b 0 guarded (stmts blk) in
            (fst r ++ flat_map (fun e => arrivals target bs fuel' (b :: visited) (snd r) (snd e))
                               (succs blk))%list
        end
  end.

(** Modelled from the spec: "a path is flagged only if every candidate path
    ... lacks a guard -- a single guarded path is sufficient to clear"
    (section 4.3): the statement at [pos] is met on a path that is not
    guarded, and on no path that is. *)
Definition unguardedOnly (pos : nat * nat) (l : list Arrival) : bool :=
  existsb (sameArrival (pos, false)) l && negb (existsb (sameArrival (pos, true)) l).

(** Modelled from the spec: the external call at index [i] of block [b] is
    flagged (section 4.3) when it is unguarded, no path from the entry
    meeting a guard toggle before it, and the search from the successors of
    its block meets a sensitive write that stays flagged. *)
Definition flagged (g : CFG) (b i : nat) : bool :=
  match blocks g !! b with
  | None => false
  | Some blk =>
      let n := List.length (blocks g) in
      let writes :=
        flat_map (fun e => arrivals isSensitiveWrite (blocks g) n [] false (snd e)) (succs blk) in
      unguardedOnly (b, i) (arrivals isCall (blocks g) n [] false (entry g))
      && existsb (fun w => unguardedOnly (fst w) writes) writes
  end.

(** Modelled from the spec: the identity of the rule; the id is the one the
    example project configures. *)
Definition ruleId : string := "reentrancy-paths".
Definition ruleMessage : string :=
  "State is written after an external call (checks-effects-interactions)".

(** The statements of a block with their index. *)
Fixpoint indexed (i : nat) (l : list Located) : list (nat * Located) :=
  match l with
  | [] => []
  | s :: rest => (i, s) :: indexed (S i) rest
  end.

(** Modelled from the spec: the findings on the external calls of block
    [b], of severity error and at the location of the call (sections 4.3
    and 8). *)
Definition checkBlock (file : string) (g : CFG) (b : nat) (blk : Block) : list Issue :=
  flat_map (fun x => if isCall (snd x) && flagged g b (fst x)
                     then [mkIssue ruleId ruleMessage error file (snd (fst (snd x))) (snd (snd x))]
                     else [])
           (indexed 0 (stmts blk)).

Fixpoint checkBlocks (file : string) (g : CFG) (b : nat) (l : list Block) : list Issue :=
  match l with
  | [] => []
  | blk :: rest => (checkBlock file g b blk ++ checkBlocks file g (S b) rest)%list
  end.

(** Modelled from the spec: the rule on a graph, block by block (section
    4.3). *)
Definition checkCFG (file : string) (g : CFG) : list Issue :=
  checkBlocks file g 0 (blocks g).

(** Modelled from the spec: the rule on one function, its graph built and
    searched (section 4.3). *)
Definition checkFunction (file : string) (f : FunctionDef) : list Issue :=
  checkCFG file (buildCFG (fn_body f)).

(** Modelled from the spec: the rule behind the engine's capability (section
    4.3); the unit's AST is its functions. *)
Definition rule : @Engine.Rule (list FunctionDef) :=
  Engine.mkRule ruleId "Detects state writes reachable after an external call" error
                (fun u => (flat_map (checkFunction (Engine.filePath u)) (Engine.ast u), None)).

(** *** Bodies with branches and loops *)

(** The located statements of a statement, those of its arms and of its
    loop body included. *)
Fixpoint stmtsOf (s : Stmt) : list Located :=
  match s with
  | Simple k ln col => [(k, ln, col)]
  | IfElse _ _ thenArm elseArm => (flat_map stmtsOf thenArm ++ flat_map stmtsOf elseArm)%list
  | Loop _ _ body => flat_map stmtsOf body
  end.

(** Some statement of the body, at any depth, is a [t]. *)
Definition mentions (t : Located -> bool) (ss : list Stmt) : bool :=
  existsb t (flat_map stmtsOf ss).

(** A statement that always leaves the function: an exit, and a branch
    whose two arms both hold such a statement.  A list of statements always
    leaves when one of them does. *)
Fixpoint leaves (s : Stmt) : bool :=
  match s with
  | Simple Exit _ _ => true
  | Simple _ _ _ => false
  | IfElse _ _ thenArm elseArm => existsb leaves thenArm && existsb leaves elseArm
  | Loop _ _ _ => false
  end.

(** The block the next statement goes to. *)
Definition liveAt (g : Builder) : nat := snd (liveCursor g).

Definition oldStmts (bs : list Block) (a : nat) : list Located :=
  match bs !! a with Some blk => stmts blk | None => [] end.

Definition oldSuccs (bs : list Block) (a : nat) : list (EdgeLabel * nat) :=
  match bs !! a with Some blk => succs blk | None => [] end.

(** What building does to the blocks: [bs'] has the blocks of [bs] and new
    ones; the statements added satisfy [P], the edges added lead to new
    blocks, and of the blocks of [bs] only block [c] is added to. *)
Definition grown (P : Located -> Prop) (c : nat) (bs bs' : list Block) : Prop :=
  (List.length bs <= List.length bs')%nat
  /\ forall a blk', bs' !! a = Some blk' ->
       exists l l',
         stmts blk' = (oldStmts bs a ++ l)%list
         /\ succs blk' = (oldSuccs bs a ++ l')%list
         /\ Forall P l
         /\ Forall (fun e => (List.length bs <= snd e)%nat) l'
         /\ ((a < List.length bs)%nat -> a <> c -> l = [] /\ l' = []).

(** A block with no edge out of it yet. *)
Definition open (bs : list Block) (c : nat) : Prop :=
  exists blk, bs !! c = Some blk /\ succs blk = [].

Definition edge (bs : list Block) (a m : nat) : Prop :=
  exists blk l, bs !! a = Some blk /\ In (l, m) (succs blk).

Definition keeps (bs bs' : list Block) : Prop := forall a m, edge bs a m -> edge bs' a m.

(** A path along edges that lead to later blocks. *)
Inductive path (bs : list Block) : nat -> nat -> Prop :=
| path_here (a : nat) : path bs a a
| path_edge (a m b : nat) : edge bs a m -> (a < m)%nat -> path bs m b -> path bs a b.

(** The builder's cursor is on a block with no edge out of it. *)
Definition wf (g : Builder) : Prop := forall c, cursor g = Some c -> open (built g) c.

(** One step of the pass, from [g] to [g']: the blocks grow around the
    cursor, the new cursor is the old one or a new block, and unless the
    statements built always leave ([e]), a path leads from the old cursor
    to the new one. *)
Definition builds (P : Located -> Prop) (e : bool) (g g' : Builder) : Prop :=
  grown P (liveAt g) (built g) (built g')
  /\ (forall c', cursor g' = Some c' ->
        (c' = liveAt g \/ (List.length (built g) <= c')%nat) /\ open (built g') c')
  /\ (e = false -> forall c, cursor g = Some c ->
        exists c', cursor g' = Some c' /\ path (built g') c c').

(** The findings of the rule on a file that holds the one function [f]. *)
Definition ruleFindings (file source : string) (f : FunctionDef) : list Issue :=
  fst (Engine.apply rule (Engine.mkUnit file source [f])).

(** The property as the specification words it, for a body that holds, in
    this order, an external call and a sensitive write with no guard toggle
    between them: exactly one finding, of severity error, at the line of
    the call; none with the write moved before the call. *)
Definition oneErrorAt (ln : Z) (found : list Issue) : Prop :=
  exists f, found = [f] /\ severity f = error /\ line f = ln.

Definition ceiProperty (file source name : string) (pre mid post : list Stmt)
  (ln col ln' col' : Z) : Prop :=
  mentions isToggle mid = false ->
  oneErrorAt ln
    (ruleFindings file source
       (mkFunction name
          (pre ++ Simple ExternalCall ln col
               :: mid ++ Simple (StateWrite true) ln' col' :: post)%list))
  /\ ruleFindings file source
       (mkFunction name
          (pre ++ Simple (StateWrite true) ln' col'
               :: mid ++ Simple ExternalCall ln col :: post)%list)
     = [].

End Reentrancy.

(** ** reporter.ts: the file headers of a report *)
Module ReportView.

(** The file names a report prints as headers, in the order it prints
    them. *)
Fixpoint fileHeaders (ls : list Reporter.Line) : list string :=
  match ls with
  | [] => []
  | Reporter.LFileHeader f :: r => f :: fileHeaders r
  | _ :: r => fileHeaders r
  end.

(** The counter lines of the summary block. *)
Definition isErrorsLine (l : Reporter.Line) : bool :=
  match l with
  | Reporter.LErrors _ => true
  | _ => false
  end.

End ReportView.

(** ** tasks/analyze.ts: the report text and the AI configuration *)
Module Console.

Definition esc : ascii := ascii_of_nat 27.

(** A character of the class [[0-9;]]. *)
Definition isParam (c : ascii) : bool :=
  let n := nat_of_ascii c in
  (((48 <=? n) && (n <=? 57)) || (n =? 59))%nat.

(** The length of a match of [[0-9;]*m] at the head of [s], if there is
    one.  The class does not hold [m], so the greedy star never has to give
    a character back. *)
Fixpoint paramsThenM (s : string) : option nat :=
  match s with
  | EmptyString => None
  | String c r =>
      if isParam c then S <$> paramsThenM r
      else if Ascii.eqb c "m"%char then Some 1%nat
      else None
  end.

(** [str.replace(/\x1b\[[0-9;]*m/g, '')]: the scan of a global replace, from
    left to right; a match is dropped and the scan resumes behind it, any
    other character is kept.  [skip] counts the characters of the match
    under way that are still to drop. *)
Fixpoint stripFrom (skip : nat) (s : string) : string :=
  match s with
  | EmptyString => EmptyString
  | String c r =>
      match skip with
      | S k => stripFrom k r
      | O =>
          if Ascii.eqb c esc then
            match r with
            | String "["%char r' =>
                match paramsThenM r' with
                | Some n => stripFrom (S n) r
                | None => String c (stripFrom 0 r)
                end
            | _ => String c (stripFrom 0 r)
            end
          else String c (stripFrom 0 r)
      end
  end.

Definition stripAnsiCodes (str : string) : string := stripFrom 0 str.

(** Styled text as chalk writes it: pieces of text and, between them, the
    escape sequences [ESC [ params m] that switch a style on or off. *)
Inductive Piece : Type :=
| Plain (text : string)
| Style (params : string).

Definition sequence (params : string) : string :=
  String esc (String "["%char (params ++ "m")).

Fixpoint styled (l : list Piece) : string :=
  match l with
  | [] => ""
  | Plain text :: r => text ++ styled r
  | Style params :: r => sequence params ++ styled r
  end.

Fixpoint plain (l : list Piece) : string :=
  match l with
  | [] => ""
  | Plain text :: r => text ++ plain r
  | Style _ :: r => plain r
  end.

Fixpoint allChars (p : ascii -> bool) (s : string) : bool :=
  match s with
  | EmptyString => true
  | String c r => p c && allChars p r
  end.

(** A piece of text holds no escape character; the parameters of a style
    are digits and semicolons. *)
Definition wellFormed (p : Piece) : bool :=
  match p with
  | Plain text => allChars (fun c => negb (Ascii.eqb c esc)) text
  | Style params => allChars isParam params
  end.

(** [process.env], with the variables [getAIConfig] reads to decide on a
    client ([parseFloat] and [parseInt] of the temperature and the token
    limit only travel to the provider). *)
Record Env : Type := mkEnv {
  SUPERAUDIT_AI_PROVIDER : option string;
  OPENAI_API_KEY : option string;
  ANTHROPIC_API_KEY : option string;
  SUPERAUDIT_AI_MODEL : option string
}.

(** The cast [as "openai" | "anthropic" | "local"] checks nothing: any other
    name behaves as [local] does, no key is read for it and the client
    supports no call. *)
Definition providerOf (name : string) : LLM.Provider :=
  if String.eqb name "openai" then LLM.openai
  else if String.eqb name "anthropic" then LLM.anthropic
  else LLM.local.

(** [getAIConfig()] *)
Definition getAIConfig (env : Env) : LLM.LLMConfig :=
  let provider :=
    if truthyStr (SUPERAUDIT_AI_PROVIDER env)
    then default "" (SUPERAUDIT_AI_PROVIDER env) else "openai" in
  {| LLM.provider := providerOf provider;
     LLM.apiKey := if String.eqb provider "openai" then OPENAI_API_KEY env
                   else if String.eqb provider "anthropic" then ANTHROPIC_API_KEY env
                   else None;
     LLM.model := SUPERAUDIT_AI_MODEL env |}.

End Console.

(** ** playbooks/lighthouse-storage.ts *)
Module Lighthouse.

(** The text of a playbook, as the UTF-16 code units of the JavaScript
    string that holds it. *)
Abbreviation Text := (list N) (only parsing).

(** The files of the cache directory, by path. *)
Abbreviation Files := (gmap string (list N)) (only parsing).

Record LighthouseStorageManager : Type := mkManager {
  apiKey : string;
  gatewayUrl : string;
  cacheDir : string
}.

(** [let lighthouseInstance: LighthouseStorageManager | null = null] *)
Abbreviation Instance := (option LighthouseStorageManager) (only parsing).

Section WithHost.

(** The host: [join(tmpdir(), ".superaudit-lighthouse-cache")], whether that
    directory exists and what [mkdirSync] does on it; [path.join];
    [axios.get] on a gateway URL; [writeFileSync] on a cache file; and how a
    template literal renders a caught exception. *)
Variable cachePath : string.
Variable cacheDirExists : bool.
Variable mkdirSync : string -> Outcome unit.
Variable join : string -> string -> string.
Variable get : string -> Outcome Text.
Variable writeFileSync : string -> Text -> Outcome unit.
Variable render : string -> string.

(** [constructor(config)] *)
Definition new (key : string) (gateway : option string) : Outcome LighthouseStorageManager :=
  if String.eqb key "" then Throws "Lighthouse API key is required"
  else
    let manager :=
      mkManager key
                (if truthyStr gateway then default "" gateway
                 else "https://gateway.lighthouse.storage/ipfs")
                cachePath in
    if cacheDirExists then Returns manager
    else match mkdirSync cachePath with
         | Returns _ => Returns manager
         | Throws e => Throws e
         end.

(** [initializeLighthouse(apiKey)]: the answer and the module variable
    afterwards. *)
Definition initializeLighthouse (key : string) (lighthouseInstance : Instance)
  : Outcome LighthouseStorageManager * Instance :=
  match lighthouseInstance with
  | Some manager => (Returns manager, lighthouseInstance)
  | None =>
      match new key None with
      | Returns manager => (Returns manager, Some manager)
      | Throws e => (Throws e, None)
      end
  end.

(** [getLighthouse()] *)
Definition getLighthouse (lighthouseInstance : Instance) : Outcome LighthouseStorageManager :=
  match lighthouseInstance with
  | Some manager => Returns manager
  | None => Throws "Lighthouse not initialized. Call initializeLighthouse(apiKey) first."
  end.

(** [isLighthouseInitialized()] *)
Definition isLighthouseInitialized (lighthouseInstance : Instance) : bool :=
  match lighthouseInstance with
  | Some _ => true
  | None => false
  end.

(** [initializeLighthouseFromEnv()], given [process.env.LIGHTHOUSE_API_KEY];
    [null] is [None]. *)
Definition initializeLighthouseFromEnv (LIGHTHOUSE_API_KEY : option string)
  (lighthouseInstance : Instance) : option LighthouseStorageManager * Instance :=
  if negb (truthyStr LIGHTHOUSE_API_KEY) then (None, lighthouseInstance)
  else
    match initializeLighthouse (default "" LIGHTHOUSE_API_KEY) lighthouseInstance with
    | (Returns manager, instance) => (Some manager, instance)
    | (Throws _, instance) => (None, instance)
    end.

(** [getGatewayUrl(cid)] *)
Definition getGatewayUrl (manager : LighthouseStorageManager) (cid : string) : string :=
  gatewayUrl manager ++ "/" ++ cid.

Definition downloadFailed (cid e : string) : string :=
  "Failed to download from IPFS (" ++ cid ++ "): " ++ render e.

(** [downloadPlaybook(cid)]: the answer and the cache files afterwards. *)
Definition downloadPlaybook (manager : LighthouseStorageManager) (cid : string) (files : Files)
  : Outcome Text * Files :=
  let cachedPath := join (cacheDir manager) (cid ++ ".yaml") in
  match files !! cachedPath with
  | Some cached => (Returns cached, files)
  | None =>
      match get (getGatewayUrl manager cid) with
      | Throws e => (Throws (downloadFailed cid e), files)
      | Returns yamlContent =>
          match writeFileSync cachedPath yamlContent with
          | Throws e => (Throws (downloadFailed cid e), files)
          | Returns _ => (Returns yamlContent, <[cachedPath := yamlContent]> files)
          end
      end
  end.

(** The loop of [clearCache()]: each entry of the directory is unlinked in
    turn; an [unlinkSync] that raises ends the loop with what is deleted so
    far. *)
Fixpoint unlinkAll (unlinkSync : string -> Outcome unit) (dir : string) (entries : list string)
  (files : Files) : Outcome unit * Files :=
  match entries with
  | [] => (Returns tt, files)
  | name :: rest =>
      match unlinkSync (join dir name) with
      | Throws e => (Throws e, files)
      | Returns _ => unlinkAll unlinkSync dir rest (delete (join dir name) files)
      end
  end.

(** [clearCache()], given whether the cache directory exists and what
    [readdirSync] lists in it. *)
Definition clearCache (unlinkSync : string -> Outcome unit) (manager : LighthouseStorageManager)
  (dirExists : bool) (entries : list string) (files : Files) : Outcome unit * Files :=
  if dirExists then unlinkAll unlinkSync (cacheDir manager) entries files
  else (Returns tt, files).

End WithHost.

End Lighthouse.

(** ** playbooks/registry.ts: the rest of the registry *)
Module RegistryOps.

Import Registry.

(** *** [isEncryptedContent] *)

(** [/[\x00-\x08\x0B\x0C\x0E-\x1F\x7F-\x9F]/] on one code unit. *)
Definition nonPrintable (u : N) : bool :=
  ((u <=? 8) || (u =? 11) || (u =? 12) || ((14 <=? u) && (u <=? 31))
   || ((127 <=? u) && (u <=? 159)))%N.

(** The white space of [trim()] and of [\s]. *)
Definition isSpaceUnit (u : N) : bool :=
  (((9 <=? u) && (u <=? 13)) || (u =? 32) || (u =? 160) || (u =? 5760)
   || ((8192 <=? u) && (u <=? 8202)) || (u =? 8232) || (u =? 8233) || (u =? 8239)
   || (u =? 8287) || (u =? 12288) || (u =? 65279))%N.

Fixpoint trimStartUnits (l : list N) : list N :=
  match l with
  | u :: r => if isSpaceUnit u then trimStartUnits r else l
  | [] => []
  end.

Definition trimUnits (l : list N) : list N :=
  rev (trimStartUnits (rev (trimStartUnits l))).

Fixpoint startsWith (p l : list N) : bool :=
  match p, l with
  | [], _ => true
  | a :: p', b :: l' => (a =? b)%N && startsWith p' l'
  | _ :: _, [] => false
  end.

(** The code units of an ASCII literal. *)
Definition units (s : string) : list N := List.map N_of_ascii (list_ascii_of_string s).

(** [yamlStartPatterns]; each is anchored at the start, and [\s*] at the end
    of a pattern accepts anything. *)
Definition yamlStartPatterns : list (list N -> bool) :=
  [ startsWith (units "name:");
    startsWith (units "version:");
    startsWith (units "author:");
    startsWith (units "description:");
    startsWith (units "rules:");
    startsWith (units "meta:");
    startsWith (units "---");
    fun t => startsWith (units "#") (trimStartUnits t) ].

Definition isEncryptedContent (content : list N) : bool :=
  if (List.length content <? 50)%nat || existsb nonPrintable content then true
  else
    let looksLikeYaml := existsb (fun pattern => pattern (trimUnits content)) yamlStartPatterns in
    negb looksLikeYaml && existsb nonPrintable content.

(** *** The registry operations *)

(** [Partial<PlaybookMeta>]: the properties that are given. *)
Record PartialMeta : Type := mkPartial {
  p_name : option string;
  p_author : option string;
  p_description : option string;
  p_version : option string;
  p_tags : option (list string);
  p_ai_enabled : option bool;
  p_lighthouseResource : option string
}.

(** [{ ...meta, ...partial }] *)
Definition spread (m : PlaybookMeta) (partial : PartialMeta) : PlaybookMeta :=
  {| name := default (name m) (p_name partial);
     author := default (author m) (p_author partial);
     meta_description :=
       match p_description partial with Some d => Some d | None => meta_description m end;
     version := match p_version partial with Some v => Some v | None => version m end;
     tags := match p_tags partial with Some ts => Some ts | None => tags m end;
     ai_enabled := match p_ai_enabled partial with Some b => Some b | None => ai_enabled m end;
     lighthouseResource :=
       match p_lighthouseResource partial with
       | Some r => Some r
       | None => lighthouseResource m
       end |}.

Record PlaybookSearchCriteria : Type := mkCriteria {
  c_tags : option (list string);
  c_author : option string;
  c_name : option string;
  c_minVersion : option string;
  c_severity : option (list string);
  c_aiEnabled : option bool
}.

(** [s.includes(sub)] *)
Fixpoint includes (s sub : string) : bool :=
  String.prefix sub s
  || match s with
     | String _ r => includes r sub
     | EmptyString => false
     end.

Section Ops.

Context {StaticRule : Type}.

Local Abbreviation Entry := (@RegisteredPlaybook StaticRule).
Local Abbreviation Reg := (@Registry.t StaticRule).

(** The host: [PlaybookParser.parseFromString], which returns a parsed
    playbook or raises, the severity of a parsed check, and how a template
    literal renders a caught exception.  What [new Date()] gives is an
    argument [now] of each function that asks for it. *)
Variable parseFromString : list N -> Outcome (@ParsedPlaybook StaticRule).
Variable severityOf : StaticRule -> string.
Variable render : string -> string.

(** [String.prototype.toLowerCase], the case mapping of the host. *)
Variable toLowerCase : string -> string.

(** [has(id)] *)
Definition has (pid : string) (reg : Reg) : bool :=
  match playbooks reg !! pid with
  | Some _ => true
  | None => false
  end.

(** [getAndUse(id)]: the entry is updated in place. *)
Definition getAndUse (now : Z) (pid : string) (reg : Reg) : option Entry * Reg :=
  match playbooks reg !! pid with
  | Some playbook =>
      let used :=
        {| id := id playbook;
           source := source playbook;
           meta := meta playbook;
           parsedPlaybook := parsedPlaybook playbook;
           registeredAt := registeredAt playbook;
           lastUsed := Some now;
           usageCount := S (usageCount playbook);
           validated := validated playbook;
           validationErrors := validationErrors playbook |} in
      (Some used, mk (<[pid := used]> (playbooks reg)) (tagIndex reg) (authorIndex reg))
  | None => (None, reg)
  end.

(** [set.delete(id)] on the entry of [key], the entry itself being deleted
    when the set becomes empty. *)
Definition indexRemove (key pid : string) (idx : gmap string (gset string))
  : gmap string (gset string) :=
  match idx !! key with
  | Some ids =>
      if decide (ids ∖ {[pid]} = ∅) then delete key idx
      else <[key := ids ∖ {[pid]}]> idx
  | None => idx
  end.

(** [unregister(id)] *)
Definition unregister (pid : string) (reg : Reg) : bool * Reg :=
  match playbooks reg !! pid with
  | None => (false, reg)
  | Some playbook =>
      (true,
       {| playbooks := delete pid (playbooks reg);
          tagIndex := match tags (meta playbook) with
                      | Some ts => fold_left (fun idx tag => indexRemove tag pid idx)
                                             ts (tagIndex reg)
                      | None => tagIndex reg
                      end;
          authorIndex := indexRemove (author (meta playbook)) pid (authorIndex reg) |})
  end.

(** [getAll()].  A [Map] iterates in insertion order, which this map does
    not keep: the list holds the registered entries, each once. *)
Definition getAll (reg : Reg) : list Entry := (map_to_list (playbooks reg)).*2.

(** [Array.from(ids).map(id => this.playbooks.get(id)).filter(defined)] *)
Definition resolve (ids : option (gset string)) (reg : Reg) : list Entry :=
  match ids with
  | Some s => omap (fun pid => playbooks reg !! pid) (elements s)
  | None => []
  end.

(** [getByTag(tag)] and [getByAuthor(author)] *)
Definition getByTag (tag : string) (reg : Reg) : list Entry := resolve (tagIndex reg !! tag) reg.

Definition getByAuthor (who : string) (reg : Reg) : list Entry :=
  resolve (authorIndex reg !! who) reg.

(** [clear()] *)
Definition clear (_ : Reg) : Reg := mk ∅ ∅ ∅.

(** [export()], without the time stamp, and [import(data)]; re-reading a
    date gives the date. *)
Definition export (reg : Reg) : list (string * Entry) := map_to_list (playbooks reg).

Definition import (data : list (string * Entry)) (reg : Reg) : Reg :=
  fold_left (fun r entry => addToRegistry (snd entry) r) data (clear reg).

(** [search(criteria)] *)
Definition search (criteria : PlaybookSearchCriteria) (reg : Reg) : list Entry :=
  let results := getAll reg in
  let results :=
    match c_tags criteria with
    | Some (t :: ts) =>
        List.filter
          (fun pb => match tags (meta pb) with
                     | Some own => existsb (fun tag => existsb (String.eqb tag) own) (t :: ts)
                     | None => false
                     end)
          results
    | _ => results
    end in
  let results :=
    if truthyStr (c_author criteria)
    then List.filter
           (fun pb => includes (toLowerCase (author (meta pb)))
                               (toLowerCase (default "" (c_author criteria))))
           results
    else results in
  let results :=
    if truthyStr (c_name criteria)
    then List.filter
           (fun pb => includes (toLowerCase (name (meta pb)))
                               (toLowerCase (default "" (c_name criteria))))
           results
    else results in
  let results :=
    match c_aiEnabled criteria with
    | Some wanted =>
        List.filter
          (fun pb => match ai_enabled (meta pb) with
                     | Some b => Bool.eqb b wanted
                     | None => false
                     end)
          results
    | None => results
    end in
  match c_severity criteria with
  | Some (s :: ss) =>
      List.filter
        (fun pb => match parsedPlaybook pb with
                   | None => false
                   | Some parsed =>
                       existsb (fun rule => existsb (String.eqb (severityOf rule)) (s :: ss))
                               (staticRules parsed)
                   end)
        results
  | _ => results
  end.

(** [registerFromString(yamlContent, id, location = "inline")] *)
Definition registerFromString (now : Z) (yamlContent : list N) (pid : string)
  (location : option string) (reg : Reg) : Entry * Reg :=
  let registered :=
    match parseFromString yamlContent with
    | Returns parsed =>
        {| id := pid;
           source := mkSource SString (default "inline" location) None None;
           meta := parsed_meta parsed;
           parsedPlaybook := Some parsed;
           registeredAt := now;
           lastUsed := None;
           usageCount := 0;
           validated := true;
           validationErrors := None |}
    | Throws msg =>
        {| id := pid;
           source := mkSource SString (default "inline" location) None None;
           meta := mkMeta pid "unknown" None None None None None;
           parsedPlaybook := None;
           registeredAt := now;
           lastUsed := None;
           usageCount := 0;
           validated := false;
           validationErrors := Some [msg] |}
    end in
  (registered, addToRegistry registered reg).

(** [registerBuiltin(id, yamlContent, meta?)] *)
Definition registerBuiltin (now : Z) (pid : string) (yamlContent : list N)
  (partial : option PartialMeta) (reg : Reg) : Outcome Entry * Reg :=
  match parseFromString yamlContent with
  | Returns parsed =>
      let registered :=
        {| id := pid;
           source := mkSource SBuiltin ("builtin:" ++ pid) None None;
           meta := match partial with
                   | Some p => spread (parsed_meta parsed) p
                   | None => parsed_meta parsed
                   end;
           parsedPlaybook := Some parsed;
           registeredAt := now;
           lastUsed := None;
           usageCount := 0;
           validated := true;
           validationErrors := None |} in
      (Returns registered, addToRegistry registered reg)
  | Throws msg =>
      (Throws ("Failed to register builtin playbook " ++ pid ++ ": " ++ render msg), reg)
  end.

(** [initializeRegistry(builtinPlaybooks)]: [Object.entries] of the record,
    each registration under its own [try]; [clock pid] is the time at which
    the built-in [pid] is registered. *)
Definition initializeRegistry (clock : string -> Z) (builtinPlaybooks : list (string * list N))
  (reg : Reg) : Reg :=
  fold_left (fun r entry =>
               snd (registerBuiltin (clock (fst entry)) (fst entry) (snd entry) None r))
            builtinPlaybooks reg.

(** [id || `lighthouse-${cid.substring(0, 8)}`] *)
Definition lighthouseId (pid : option string) (cid : string) : string :=
  if truthyStr pid then default "" pid else "lighthouse-" ++ substring 0 8 cid.

Section FromLighthouse.

(** [lighthouse.downloadPlaybook], with its host. *)
Variable join : string -> string -> string.
Variable get : string -> Outcome (list N).
Variable writeFileSync : string -> list N -> Outcome unit.

(** [registerFromLighthouse(cid, id?)]: the answer, the cache files and the
    registry afterwards. *)
Definition registerFromLighthouse (now : Z) (cid : string) (pid : option string)
  (lighthouseInstance : Lighthouse.Instance) (files : Lighthouse.Files) (reg : Reg)
  : Outcome Entry * Lighthouse.Files * Reg :=
  match lighthouseInstance with
  | None =>
      (Throws "Lighthouse not initialized. Set LIGHTHOUSE_API_KEY environment variable.",
       files, reg)
  | Some lighthouse =>
      let failed (msg : string) : Entry :=
        {| id := lighthouseId pid cid;
           source := mkSource SLighthouse ("ipfs://" ++ cid) None (Some cid);
           meta := mkMeta ("Lighthouse Playbook (" ++ substring 0 8 cid ++ ")") "unknown"
                          None None None None (Some cid);
           parsedPlaybook := None;
           registeredAt := now;
           lastUsed := None;
           usageCount := 0;
           validated := false;
           validationErrors := Some [msg] |} in
      let '(downloaded, files') :=
        Lighthouse.downloadPlaybook join get writeFileSync render lighthouse cid files in
      let registered :=
        match downloaded with
        | Throws msg => failed msg
        | Returns yamlContent =>
            if isEncryptedContent yamlContent then
              {| id := lighthouseId pid cid;
                 source := mkSource SLighthouse (Lighthouse.getGatewayUrl lighthouse cid)
                                    None (Some cid);
                 meta := mkMeta ("Encrypted Playbook (" ++ substring 0 8 cid ++ ")") "Unknown"
                                (Some "This playbook is encrypted and requires a private key for decryption")
                                (Some "1.0.0") (Some ["encrypted"]) None (Some cid);
                 parsedPlaybook := None;
                 registeredAt := now;
                 lastUsed := None;
                 usageCount := 0;
                 validated := false;
                 validationErrors := Some ["Encrypted playbook - requires decryption key"] |}
            else
              match parseFromString yamlContent with
              | Throws msg => failed msg
              | Returns parsed =>
                  {| id := lighthouseId pid cid;
                     source := mkSource SLighthouse (Lighthouse.getGatewayUrl lighthouse cid)
                                        None (Some cid);
                     meta := spread (parsed_meta parsed)
                                    (mkPartial None None None None None None (Some cid));
                     parsedPlaybook := Some parsed;
                     registeredAt := now;
                     lastUsed := None;
                     usageCount := 0;
                     validated := true;
                     validationErrors := None |}
              end
        end in
      (Returns registered, files', addToRegistry registered reg)
  end.

End FromLighthouse.

(** The operations that change the registry, as a script: every way of
    registering ends in [addToRegistry]. *)
Inductive Op : Type :=
| OpAdd (playbook : Entry)
| OpUnregister (pid : string)
| OpGetAndUse (now : Z) (pid : string)
| OpClear.

Definition step (reg : Reg) (o : Op) : Reg :=
  match o with
  | OpAdd playbook => addToRegistry playbook reg
  | OpUnregister pid => snd (unregister pid reg)
  | OpGetAndUse now pid => snd (getAndUse now pid reg)
  | OpClear => clear reg
  end.

Definition run (ops : list Op) : Reg := fold_left step ops Registry.empty.

(** A script that never registers an entry under an id that is taken. *)
Fixpoint neverOverwrites (reg : Reg) (ops : list Op) : bool :=
  match ops with
  | [] => true
  | o :: rest =>
      match o with
      | OpAdd playbook => negb (has (id playbook) reg)
      | _ => true
      end
      && neverOverwrites (step reg o) rest
  end.

(** The tags of an entry ([meta.tags] may be missing). *)
Definition tagsOf (playbook : Entry) : list string := default [] (tags (meta playbook)).

(** Every entry sits under its own id, and the indexes know it under its
    author and under each of its tags. *)
Definition indexed (reg : Reg) : Prop :=
  forall pid p, playbooks reg !! pid = Some p ->
    id p = pid
    /\ (exists s, authorIndex reg !! author (meta p) = Some s /\ pid ∈ s)
    /\ forall tag, In tag (tagsOf p) -> exists s, tagIndex reg !! tag = Some s /\ pid ∈ s.

(** Every id an index holds is the id of an entry with that author, or with
    that tag. *)
Definition accurate (reg : Reg) : Prop :=
  (forall who s pid, authorIndex reg !! who = Some s -> pid ∈ s ->
     exists p, playbooks reg !! pid = Some p /\ author (meta p) = who)
  /\ (forall tag s pid, tagIndex reg !! tag = Some s -> pid ∈ s ->
        exists p, playbooks reg !! pid = Some p /\ In tag (tagsOf p)).

End Ops.

End RegistryOps.

(** ** Concrete scenarios used by the examples below *)
Module Scenario.

Import AIEnhanced.

(** A withdraw function in one file, and the finding a reentrancy detector
    reports on its external call. *)
Definition vaultSource : string :=
  "function withdraw(uint amt) public {" ++ nl ++
  "  msg.sender.call{value: amt}();" ++ nl ++
  "  balances[msg.sender] -= amt;" ++ nl ++
  "}".

Definition reentrancyIssue : Issue :=
  mkIssue "reentrancy-paths" "External call before state update" error "Vault.sol" 2 2.

Definition baseReentrancy : @Rule unit :=
  mkRule "reentrancy-paths" "Detects reentrancy paths" error
         (fun _ _ => ([reentrancyIssue], None)).

(** A wrapper whose client has no usable provider: every request raises. *)
Definition offlineWrapper : @AIEnhancedRule unit :=
  mkAI baseReentrancy (LLM.newClient (LLM.mkConfig LLM.local None None)) true.

(** A wrapper with an initialised OpenAI client. *)
Definition onlineWrapper : @AIEnhancedRule unit :=
  mkAI baseReentrancy (LLM.newClient (LLM.mkConfig LLM.openai (Some "sk-test") None)) true.

Definition answer : @LLM.RawResponse Z :=
  LLM.mkRaw (Some "State is updated after the call.") (Some "Move the write first.")
            (Some 9) None (Some 1).

Definition answering : nat -> @LLM.Remote Z := fun _ _ => Some answer.

(** One context for Vault.sol and no issue yet. *)
Definition emptyStore : @Heap Z unit :=
  mkHeap [] [mkCtx tt vaultSource "Vault.sol" []].

(** The store once the base rule has run: the finding exists at address 0. *)
Definition afterBaseRule : @Heap Z unit := fst (applyRule baseReentrancy tt 0%nat emptyStore).

(** The store once the wrapper's [apply] has returned. *)
Definition afterApply : @Heap Z unit := fst (apply onlineWrapper tt 0%nat emptyStore).

Definition showZ (z : Z) : string := if z =? 9 then "9" else if z =? 1 then "100" else "0".

(** Two detectors that report the same call site, and a third finding
    earlier in the file, found by the detector registered last. *)
Definition txOriginIssue : Issue :=
  mkIssue "no-tx-origin" "Avoid tx.origin" warning "Vault.sol" 2 2.

Definition pragmaIssue : Issue :=
  mkIssue "no-tx-origin" "Floating pragma" info "Vault.sol" 1 0.

Definition reentrancyRule : @Engine.Rule unit :=
  Engine.mkRule "reentrancy-paths" "Detects reentrancy paths" error
                (fun _ => ([reentrancyIssue], None)).

Definition txOriginRule : @Engine.Rule unit :=
  Engine.mkRule "no-tx-origin" "Flags tx.origin" warning
                (fun _ => ([txOriginIssue; pragmaIssue], None)).

(** A detector that raises on every file before reporting anything. *)
Definition brokenRule : @Engine.Rule unit :=
  Engine.mkRule "broken" "Always raises" info
                (fun _ => ([], Some "TypeError: cannot read properties of undefined")).

Definition vaultUnit : @Engine.ParseResult unit := Engine.mkUnit "Vault.sol" vaultSource tt.

(** A playbook file, seen through two behaviours a parser can have on it:
    raising with a validation message, or answering with a check. *)
Definition playbookPath : string := "playbooks/vault.yaml".

Definition vaultMeta : Registry.PlaybookMeta :=
  Registry.mkMeta "Vault checks" "team" None None None None None.

Definition strictParse : string -> Outcome (@Registry.ParsedPlaybook string) :=
  fun _ => Throws "Playbook validation failed: check 2: missing severity".

Definition lenientParse : string -> Outcome (@Registry.ParsedPlaybook string) :=
  fun _ => Returns (Registry.mkParsed vaultMeta ["no-unchecked-call"]).

Definition anyFile : string -> bool := fun _ => true.
Definition plainBasename : string -> option string -> string := fun _ _ => "vault".
Definition plainExtname : string -> string := fun _ => ".yaml".

(** Hosts for the analysis task: no playbook file exists, the built-in rule
    lists are the two detectors above, and parsing does what [parsing] says. *)
Definition hostWith (parsing : Task.ParseOutcome (@Engine.ParseResult unit)) : @Task.Host unit :=
  Task.mkHost (fun _ => false)
              [reentrancyRule] [txOriginRule] [reentrancyRule; txOriginRule]
              (fun _ => Throws "Lighthouse not initialized")
              (fun _ => Throws "Playbook not found in registry")
              (fun _ => Returns [])
              (fun _ => Throws "Lighthouse not initialized")
              None "./contracts" (fun _ => parsing) (fun l => l)
              (fun _ => Returns tt) Ordering.codeUnitCompare
              "TypeError: Converting circular structure to JSON".

(** The same host with an API key in the environment. *)
Definition hostWithKey (parsing : Task.ParseOutcome (@Engine.ParseResult unit))
  : @Task.Host unit :=
  Task.mkHost (fun _ => false)
              [reentrancyRule] [txOriginRule] [reentrancyRule; txOriginRule]
              (fun _ => Throws "Lighthouse not initialized")
              (fun _ => Throws "Playbook not found in registry")
              (fun _ => Returns [])
              (fun _ => Throws "Lighthouse not initialized")
              (Some "sk-test") "./contracts" (fun _ => parsing) (fun l => l)
              (fun _ => Returns tt) Ordering.codeUnitCompare
              "TypeError: Converting circular structure to JSON".

Definition noDefaults : Task.ConfigDefaults := Task.mkDefaults None None None None None false.

(** [npx hardhat superaudit] *)
Definition plainArgs : Task.Args :=
  Task.parseArgs ["node"; "hardhat"; "superaudit"] noDefaults false.

(** [npx hardhat superaudit --playbook missing.yaml] *)
Definition missingPlaybookArgs : Task.Args :=
  Task.parseArgs ["node"; "hardhat"; "superaudit"; "--playbook"; "missing.yaml"] noDefaults false.

(** A vocabulary of two predicates and a playbook with three checks, the
    second of which names a predicate the vocabulary lacks. *)
Inductive SamplePredicate : Type := CallWithValue | WriteToBalance.

Definition sampleVocabulary : list (string * SamplePredicate) :=
  [("external-call-with-value", CallWithValue); ("write-to-balance", WriteToBalance)].

Definition sampleHolds (p : SamplePredicate) (n : Compiler.ASTNode) : bool :=
  match p with
  | CallWithValue => String.eqb (Compiler.kindOf n) "FunctionCall"
  | WriteToBalance => String.eqb (Compiler.kindOf n) "Assignment"
  end.

Definition goodCheck : Compiler.StaticCheckSpec :=
  Compiler.mkCheck "no-value-call" error ["FunctionCall"] ["external-call-with-value"]
                   "External call with value".

Definition scriptedCheck : Compiler.StaticCheckSpec :=
  Compiler.mkCheck "scripted" warning ["FunctionCall"] ["eval: node.value > 0"]
                   "Scripted check".

Definition balanceCheck : Compiler.StaticCheckSpec :=
  Compiler.mkCheck "balance-write" info ["Assignment"] ["write-to-balance"]
                   "Balance written".

Definition samplePlaybook : Compiler.PlaybookSpec :=
  Compiler.mkSpec "Vault checks" "team" [goodCheck; scriptedCheck; balanceCheck].

(** A document of three check entries, the second of which lacks its
    severity; the two others are the entries of [goodCheck] and
    [balanceCheck]. *)
Definition goodEntry : PlaybookParser.RawCheck :=
  PlaybookParser.mkRaw (Some "no-value-call") (Some "error") (Some ["FunctionCall"])
                       (Some ["external-call-with-value"]) (Some "External call with value").

Definition noSeverityEntry : PlaybookParser.RawCheck :=
  PlaybookParser.mkRaw (Some "unchecked-send") None (Some ["FunctionCall"])
                       (Some ["external-call-with-value"]) (Some "Unchecked send").

Definition balanceEntry : PlaybookParser.RawCheck :=
  PlaybookParser.mkRaw (Some "balance-write") (Some "info") (Some ["Assignment"])
                       (Some ["write-to-balance"]) (Some "Balance written").

Definition vaultDocument : PlaybookParser.Document :=
  PlaybookParser.mkDocument "Vault checks" "team" [goodEntry; noSeverityEntry; balanceEntry].

(** [function withdraw(uint amt) public { msg.sender.call{value: amt}("");
    balances[msg.sender] -= amt; }] on one line, and the same function with
    the two statements swapped. *)
Definition withdraw : Reentrancy.FunctionDef :=
  Reentrancy.mkFunction "withdraw"
    [Reentrancy.Simple Reentrancy.ExternalCall 1 38;
     Reentrancy.Simple (Reentrancy.StateWrite true) 1 71].

Definition withdrawSwapped : Reentrancy.FunctionDef :=
  Reentrancy.mkFunction "withdraw"
    [Reentrancy.Simple (Reentrancy.StateWrite true) 1 38;
     Reentrancy.Simple Reentrancy.ExternalCall 1 67].

(** A store with two issue objects that agree field for field, both marked
    for enhancement with no context of their own, and a context map that
    knows the first one only. *)
Definition twinStore : @AIEnhanced.Heap Z unit :=
  AIEnhanced.mkHeap
    [AIEnhanced.mkObj reentrancyIssue None true None;
     AIEnhanced.mkObj reentrancyIssue None true None]
    [AIEnhanced.mkCtx tt vaultSource "Vault.sol" [0%nat; 1%nat]].

Definition firstOnly : gmap nat nat := {[ 0%nat := 0%nat ]}.

(** An environment that names no provider and holds an OpenAI key, and the
    request the wrapper builds for the finding on the external call. *)
Definition openaiEnv : Console.Env := Console.mkEnv None (Some "sk-test") None None.

Definition vaultContext : @AnalysisContext unit := mkCtx tt vaultSource "Vault.sol" [].

Definition vaultRequest : LLM.LLMAnalysisRequest :=
  buildRequest (fun _ _ => "withdraw") (fun _ => "Vault") onlineWrapper reentrancyIssue
               vaultContext.

(** A provider that cannot be reached. *)
Definition unreachable : @LLM.Remote Z := fun _ => None.

(** A registered playbook with two tags, and a script that registers it and
    uses it once at time 7; the entry as the use leaves it. *)
Definition vaultEntry : @Registry.RegisteredPlaybook string :=
  Registry.mkRegistered "vault" (Registry.mkSource Registry.SFile playbookPath None None)
    (Registry.mkMeta "Vault checks" "team" None None (Some ["defi"; "vault"]) None None)
    (Some (Registry.mkParsed vaultMeta ["no-unchecked-call"])) 0 None 0 true None.

Definition usedVaultEntry : @Registry.RegisteredPlaybook string :=
  Registry.mkRegistered "vault" (Registry.mkSource Registry.SFile playbookPath None None)
    (Registry.mkMeta "Vault checks" "team" None None (Some ["defi"; "vault"]) None None)
    (Some (Registry.mkParsed vaultMeta ["no-unchecked-call"])) 0 (Some 7) 1 true None.

Definition registryScript : list (@RegistryOps.Op string) :=
  [RegistryOps.OpAdd vaultEntry; RegistryOps.OpGetAndUse 7 "vault"].

(** Two built-in playbooks, of which the parser accepts the one that starts
    with a name. *)
Definition parseUnits : list N -> Outcome (@Registry.ParsedPlaybook string) :=
  fun content =>
    if RegistryOps.startsWith (RegistryOps.units "name:") content
    then Returns (Registry.mkParsed vaultMeta ["no-unchecked-call"])
    else Throws "Playbook must have a name".

Definition builtins : list (string * list N) :=
  [("vault-security", RegistryOps.units "name: Vault checks"); ("draft", [])].

(** A host for the Lighthouse module: the cache directory exists, the
    gateway serves one playbook, and writing a cache file succeeds. *)
Definition lighthouseManager : Lighthouse.LighthouseStorageManager :=
  Lighthouse.mkManager "lh-key" "https://gateway.lighthouse.storage/ipfs" "/tmp/cache".

Definition joinPath : string -> string -> string := fun a b => a ++ "/" ++ b.

Definition gateway : string -> Outcome (list N) :=
  fun _ => Returns (RegistryOps.units "name: Vault checks").

Definition writable : string -> list N -> Outcome unit := fun _ _ => Returns tt.

Definition asError : string -> string := fun message => "Error: " ++ message.

(** [npx hardhat superaudit --rules " no-tx-origin ,unknown"] *)
Definition customArgs : Task.Args :=
  Task.parseArgs ["node"; "hardhat"; "superaudit"; "--rules"; " no-tx-origin ,unknown"]
                 noDefaults false.

(** [npx hardhat superaudit --ai --format json] *)
Definition aiJsonArgs : Task.Args :=
  Task.parseArgs ["node"; "hardhat"; "superaudit"; "--ai"; "--format"; "json"] noDefaults false.

(** A rule id followed by a no-break space (U+00A0, the bytes C2 A0). *)
Definition paddedId : string :=
  "no-tx-origin" ++ String (ascii_of_nat 194) (String (ascii_of_nat 160) "").

(** Two names for one file, canonically equivalent: [cafe] spelt with
    U+00E9 (the bytes C3 A9) and with [e] followed by U+0301 (CC 81). *)
Definition composedName : string :=
  "caf" ++ String (ascii_of_nat 195) (String (ascii_of_nat 169) ".sol").

Definition decomposedName : string :=
  "cafe" ++ String (ascii_of_nat 204) (String (ascii_of_nat 129) ".sol").

(** A collation that, as [localeCompare] does, compares names up to
    canonical equivalence; here by decomposing U+00E9 before comparing code
    units. *)
Fixpoint decompose (s : string) : string :=
  match s with
  | EmptyString => EmptyString
  | String c rest =>
      match rest with
      | String c' rest' =>
          if (Nat.eqb (nat_of_ascii c) 195 && Nat.eqb (nat_of_ascii c') 169)%bool
          then String "e" (String (ascii_of_nat 204) (String (ascii_of_nat 129) (decompose rest')))
          else String c (decompose rest)
      | EmptyString => String c EmptyString
      end
  end.

Definition canonicalCompare (a b : string) : Z :=
  Ordering.codeUnitCompare (decompose a) (decompose b).

(** A rule with one finding per file, at line 7 of the file under its first
    name and at line 1 of the file under its second. *)
Definition pragmaRule : @Engine.Rule unit :=
  Engine.mkRule "floating-pragma" "Detects floating pragmas" warning
                (fun u => ([mkIssue "floating-pragma" "Floating pragma" warning
                                    (Engine.filePath u)
                                    (if String.eqb (Engine.filePath u) composedName then 7 else 1)
                                    0],
                           None)).

Definition composedUnit : @Engine.ParseResult unit := Engine.mkUnit composedName vaultSource tt.
Definition decomposedUnit : @Engine.ParseResult unit :=
  Engine.mkUnit decomposedName vaultSource tt.

End Scenario.
(** * Properties *)

Local Open Scope list_scope.

Lemma Severity_eqb_eq a b : Severity_eqb a b = true <-> a = b.
Proof. destruct a, b; simpl; split; congruence. Qed.

(** ** Reporter: the summary *)
Section ReporterSummary.

Import Reporter.

Lemma fold_bump (l : list Issue) (s : ReportSummary) :
  fold_left bump l s =
  mkSummary (totalIssues s)
            (errorCount s + countSeverity error l)
            (warningCount s + countSeverity warning l)
            (infoCount s + countSeverity info l).
Proof.
  revert s. induction l as [|i l IH]; intros s.
  - destruct s; simpl. unfold countSeverity; simpl.
    now rewrite !Nat.add_0_r.
  - simpl. rewrite IH. unfold bump, countSeverity. simpl.
    destruct (severity i); simpl; f_equal; lia.
Qed.

Lemma countSeverity_total (l : list Issue) :
  List.length l = (countSeverity error l + countSeverity warning l + countSeverity info l)%nat.
Proof.
  unfold countSeverity. induction l as [|i l IH]; simpl; [reflexivity|].
  destruct (severity i); simpl; lia.
Qed.

(** C8. After any script of [addIssue], [addIssues] and [clear], the summary
    counts each severity exactly and the total is the sum of the three
    counters. *)
Theorem getSummary_partitions_issues (ops : list Op) :
  let r := run ops in
  let s := getSummary r in
  totalIssues s = (errorCount s + warningCount s + infoCount s)%nat
  /\ totalIssues s = List.length (getIssues r)
  /\ errorCount s = countSeverity error (getIssues r)
  /\ warningCount s = countSeverity warning (getIssues r)
  /\ infoCount s = countSeverity info (getIssues r).
Proof.
  intros r s. subst s. unfold getSummary, getIssues. rewrite fold_bump. simpl.
  pose proof (countSeverity_total (issues r)). repeat split; lia.
Qed.

End ReporterSummary.

(** ** The SARIF writer *)
Section SarifFacts.

Import Sarif.

Lemma toResult_renders (i : Issue) : renders i (toResult i).
Proof.
  unfold renders, toResult; simpl.
  destruct (severity i); simpl; repeat split; try congruence; try discriminate;
    intros [H|H]; congruence.
Qed.

(** C9. The SARIF log holds one result per issue, in input order; its level
    is "error" exactly for severity error and "warning" for warning and
    info, never "note" or "info"; its location is the issue's. *)
Theorem outputSARIF_one_result_per_issue (issues : list Issue) :
  List.length (results (outputSARIF issues)) = List.length issues
  /\ Forall2 renders issues (results (outputSARIF issues)).
Proof.
  unfold results, outputSARIF; simpl. rewrite app_nil_r. split.
  - now rewrite length_map.
  - induction issues as [|i l IH]; simpl; constructor; auto using toResult_renders.
Qed.

End SarifFacts.

(** ** The AI wrapper rule *)
Section AIWrapperFacts.

Import AIEnhanced.

Context {Num AST : Type}.
Variables (half zero : Num) (truthyNum : Num -> bool).
Variables (showNum showPercent : Num -> string).
Variable extractFunctionName : string -> Z -> string.
Variable extractContractName : string -> string.

Local Abbreviation HeapT := (@Heap Num AST).
Local Abbreviation RuleT := (@AIEnhancedRule AST).
Local Abbreviation loop :=
  (enhanceLoop half zero truthyNum showNum showPercent extractFunctionName extractContractName).
Local Abbreviation enhance :=
  (enhanceIssues half zero truthyNum showNum showPercent extractFunctionName extractContractName).
Local Abbreviation enhanceOne :=
  (enhanceIssueWithAI half zero truthyNum showNum showPercent extractFunctionName
                      extractContractName).
Local Abbreviation request := (buildRequest extractFunctionName extractContractName).
Local Abbreviation analyze := (LLM.analyzeCode half zero truthyNum).
Local Abbreviation copy := (enhancedCopy truthyNum showNum showPercent).
Local Abbreviation asEnhanced :=
  (enhancedAs half zero truthyNum showNum showPercent extractFunctionName extractContractName).

Lemma prefix_append (s t : string) : String.prefix s (s ++ t)%string = true.
Proof.
  induction s as [|c s IH]; simpl.
  - now destruct t.
  - destruct (ascii_dec c c); [exact IH | congruence].
Qed.

Lemma sameButEnhanced_refl (o : @IssueObj Num) : sameButEnhanced o o.
Proof. unfold sameButEnhanced; repeat split; auto. Qed.

Lemma enhancedCopy_same (o : @IssueObj Num) r : sameButEnhanced o (copy o r).
Proof.
  unfold sameButEnhanced, enhancedCopy; simpl. repeat split; auto.
  right; split; [|discriminate].
  unfold formatEnhancedMessage. apply prefix_append.
Qed.

(** One call of [enhanceIssueWithAI]: the store only grows, and the answer
    is the given reference or the address of the new copy. *)
Lemma enhanceIssueWithAI_spec (w : RuleT) remote a o x (h : HeapT) :
  match analyze (llmClient w) remote (request w (fields o) x) with
  | Returns r =>
      enhanceOne w remote a o x h
      = (mkHeap (objs h ++ [copy o r]) (ctxs h), List.length (objs h))
  | Throws _ => enhanceOne w remote a o x h = (h, a)
  end.
Proof.
  unfold enhanceIssueWithAI.
  destruct (analyze (llmClient w) remote (request w (fields o) x)); reflexivity.
Qed.

Lemma enhanceLoop_spec (w : RuleT) remote contexts (h0 : HeapT) (l : list addr) :
  forall (i : nat) (h : HeapT) (enhanced : list addr),
    (exists extra, objs h = objs h0 ++ extra) ->
    ctxs h = ctxs h0 ->
    Forall (fun a => (a < List.length (objs h0))%nat) l ->
    exists outl h',
      loop w remote contexts i l h enhanced = (h', enhanced ++ outl)
      /\ List.length outl = List.length l
      /\ (exists extra, objs h' = objs h ++ extra)
      /\ ctxs h' = ctxs h
      /\ forall (k : nat) (a : addr), l !! k = Some a ->
           exists a' o o',
             outl !! k = Some a' /\ objs h0 !! a = Some o /\ objs h' !! a' = Some o'
             /\ sameButEnhanced o o'
             /\ asEnhanced w (remote (i + k)%nat) contexts h0 a o a' o'.
Proof.
  induction l as [|a rest IH]; intros i h enhanced [extra Hext] Hctx Hvalid.
  - exists [], h. simpl. rewrite app_nil_r. split_and!; auto.
    + exists []. now rewrite app_nil_r.
    + intros k a Hk. discriminate.
  - inversion Hvalid as [|? ? Ha Hrest]; subst.
    destruct (lookup_lt_is_Some_2 (objs h0) a Ha) as [o Ho].
    assert (Hoh : objs h !! a = Some o).
    { rewrite Hext. now apply lookup_app_l_Some. }
    (* every branch that pushes the reference it was given *)
    assert (Hkeep :
      loop w remote contexts (S i) rest h (enhanced ++ [a])
      = loop w remote contexts i (a :: rest) h enhanced ->
      asEnhanced w (remote i) contexts h0 a o a o ->
      exists outl h',
        loop w remote contexts i (a :: rest) h enhanced = (h', enhanced ++ outl)
        /\ List.length outl = List.length (a :: rest)
        /\ (exists extra, objs h' = objs h ++ extra)
        /\ ctxs h' = ctxs h
        /\ forall (k : nat) (b : addr), (a :: rest) !! k = Some b ->
             exists a' o1 o',
               outl !! k = Some a' /\ objs h0 !! b = Some o1 /\ objs h' !! a' = Some o'
               /\ sameButEnhanced o1 o'
               /\ asEnhanced w (remote (i + k)%nat) contexts h0 b o1 a' o').
    { intros Heq Has. rewrite <- Heq.
      destruct (IH (S i) h (enhanced ++ [a]) (ex_intro _ extra Hext) Hctx Hrest)
        as (outl & h' & Hrun & Hlen & [extra' Hext'] & Hctx' & Hel).
      exists (a :: outl), h'. rewrite Hrun, <- app_assoc. simpl.
      split_and!; auto; [eauto|].
      intros [|k] b Hk; simpl in Hk.
      - injection Hk as <-. exists a, o, o.
        split_and!; auto using sameButEnhanced_refl.
        + rewrite Hext'. now apply lookup_app_l_Some.
        + now rewrite Nat.add_0_r.
      - destruct (Hel k b Hk) as (a' & o1 & o' & ? & ? & ? & ? & Hf).
        exists a', o1, o'. split_and!; auto.
        now replace (i + S k)%nat with (S i + k)%nat by lia. }
    destruct (_needsAIEnhancement o) eqn:Hflag.
    2:{ apply Hkeep; [cbn [enhanceLoop]; now rewrite Hoh, Hflag|].
        unfold enhancedAs. now rewrite Hflag. }
    destruct (contextOf contexts a o ≫= (fun c => ctxs h !! c)) as [x|] eqn:Hx.
    2:{ apply Hkeep; [cbn [enhanceLoop]; now rewrite Hoh, Hflag, Hx|].
        unfold enhancedAs. rewrite Hflag, <- Hctx, Hx. auto. }
    pose proof (enhanceIssueWithAI_spec w (remote i) a o x h) as Hone.
    destruct (analyze (llmClient w) (remote i) (request w (fields o) x)) as [r|e] eqn:Hr.
    + cbn [enhanceLoop]. rewrite Hoh, Hflag, Hx, Hone.
      set (h1 := mkHeap (objs h ++ [copy o r]) (ctxs h)).
      destruct (IH (S i) h1 (enhanced ++ [List.length (objs h)]))
        as (outl & h' & Hrun & Hlen & [extra' Hext'] & Hctx' & Hel); auto.
      { exists (extra ++ [copy o r]). subst h1; simpl. rewrite Hext. now rewrite app_assoc. }
      exists (List.length (objs h) :: outl), h'. rewrite Hrun, <- app_assoc. simpl.
      split_and!; auto.
      * exists ([copy o r] ++ extra'). rewrite Hext'. subst h1; simpl. now rewrite <- app_assoc.
      * intros [|k] b Hk; simpl in Hk.
        -- injection Hk as <-. exists (List.length (objs h)), o, (copy o r).
           split_and!; auto using enhancedCopy_same.
           ++ rewrite Hext'. subst h1; simpl. rewrite <- app_assoc.
              rewrite lookup_app_r by lia. now rewrite Nat.sub_diag.
           ++ unfold enhancedAs. rewrite Hflag, <- Hctx, Hx, Nat.add_0_r, Hr.
              split; [|reflexivity]. rewrite Hext, length_app. lia.
        -- destruct (Hel k b Hk) as (a' & o1 & o' & ? & ? & ? & ? & Hf).
           exists a', o1, o'. split_and!; auto.
           now replace (i + S k)%nat with (S i + k)%nat by lia.
    + apply Hkeep; [cbn [enhanceLoop]; now rewrite Hoh, Hflag, Hx, Hone|].
      unfold enhancedAs. rewrite Hflag, <- Hctx, Hx, Hr. auto.
Qed.

Lemma enhanceIssues_unfold (w : RuleT) remote l contexts (h : HeapT) :
  enhance w remote l contexts h = loop w remote contexts 0 l h [].
Proof. reflexivity. Qed.

(** A client that holds the handle of its provider answers a failed call
    with the fallback response. *)
Lemma analyzeCode_failed_call (c : LLM.LLMClient) (remote : @LLM.Remote Num) request :
  LLM.ready c = true -> remote request = None ->
  analyze c remote request = Returns (LLM.getFallbackResponse zero).
Proof.
  unfold LLM.ready, LLM.analyzeCode, LLM.callOpenAI, LLM.callAnthropic.
  destruct (LLM.provider (LLM.config c)); intros Hc Hr; try discriminate;
    now rewrite Hc, Hr.
Qed.

(** C10, as the sources have it.  [enhanceIssues] answers with one reference
    per input reference, in the same order, and does not modify the objects
    handed in; the object behind each answer agrees with the input object on
    every field but the message, which is only extended, and the added
    payload.  Each answer is the reference handed in, unless the issue is
    marked, has a context and [analyzeCode] returns: then it is a new copy
    carrying the response.  So an issue comes back unchanged when
    [analyzeCode] raises; when the provider call itself fails under a client
    that holds its handle, [analyzeCode] returns the fallback response and
    the issue comes back as a copy extended with it. *)
Theorem enhanceIssues_keeps_every_finding (w : RuleT) (remote : nat -> LLM.Remote)
  (l : list addr) (contexts : gmap addr addr) (h : HeapT) :
  Forall (fun a => (a < List.length (objs h))%nat) l ->
  let h' := fst (enhance w remote l contexts h) in
  let out := snd (enhance w remote l contexts h) in
  List.length out = List.length l
  /\ (forall a o, objs h !! a = Some o -> objs h' !! a = Some o)
  /\ forall (i : nat) (a : addr), l !! i = Some a ->
       exists a' o o',
         out !! i = Some a' /\ objs h !! a = Some o /\ objs h' !! a' = Some o'
         /\ sameButEnhanced o o'
         /\ asEnhanced w (remote i) contexts h a o a' o'
         /\ ((forall x, exists e,
                 analyze (llmClient w) (remote i) (request w (fields o) x) = Throws e)
             -> a' = a /\ o' = o)
         /\ (forall x, _needsAIEnhancement o = true ->
               contextOf contexts a o ≫= (fun c => ctxs h !! c) = Some x ->
               LLM.ready (llmClient w) = true ->
               remote i (request w (fields o) x) = None ->
               a' <> a /\ o' = copy o (LLM.getFallbackResponse zero)).
Proof.
  intros Hvalid h' out. subst h' out. rewrite enhanceIssues_unfold.
  destruct (enhanceLoop_spec w remote contexts h l 0 h [])
    as (outl & h' & Hrun & Hlen & [extra Hext] & Hctx & Hel); auto.
  { exists []. now rewrite app_nil_r. }
  rewrite Hrun. simpl. split_and!; auto.
  { intros a o Ha. rewrite Hext. now apply lookup_app_l_Some. }
  intros i a Hi. destruct (Hel i a Hi) as (a' & o & o' & Ho & Ha & Ha' & Hsame & Has).
  cbn [Nat.add] in Has. exists a', o, o'. split_and!; auto.
  - intros Hall. unfold enhancedAs in Has.
    destruct (if _needsAIEnhancement o
              then contextOf contexts a o ≫= (fun c => ctxs h !! c) else None) as [x|];
      [|exact Has].
    destruct (Hall x) as [e He]. now rewrite He in Has.
  - intros x Hflag Hx Hready Hfail. unfold enhancedAs in Has.
    rewrite Hflag, Hx, (analyzeCode_failed_call _ _ _ Hready Hfail) in Has.
    destruct Has as [Hge ->]. split; [|reflexivity].
    apply lookup_lt_Some in Ha. lia.
Qed.

(** *** The frame of [apply] and of [enhanceIssues] *)

Lemma pushIssue_fold_objs (c : addr) (l : list Issue) (h : HeapT) :
  objs (fold_left (pushIssue c) l h)
  = objs h ++ List.map (fun i => mkObj i None false None) l.
Proof.
  revert h. induction l as [|i l IH]; intros h; simpl.
  - now rewrite app_nil_r.
  - rewrite IH. simpl. now rewrite <- app_assoc.
Qed.

Lemma mark_lookup (c a b : addr) (h : HeapT) (o : IssueObj) :
  objs h !! b = Some o ->
  exists o', objs (mark c h a) !! b = Some o'
             /\ fields o' = fields o /\ aiEnhancement o' = aiEnhancement o.
Proof.
  intros Hb. unfold mark; simpl.
  destruct (decide (a = b)) as [->|Hne].
  - rewrite list_lookup_alter_eq, Hb. simpl. eauto.
  - rewrite list_lookup_alter_ne by exact Hne. eauto.
Qed.

Lemma mark_fold_lookup (c : addr) (l : list addr) :
  forall (h : HeapT) (b : addr) (o : IssueObj),
    objs h !! b = Some o ->
    exists o', objs (fold_left (mark c) l h) !! b = Some o'
               /\ fields o' = fields o /\ aiEnhancement o' = aiEnhancement o.
Proof.
  induction l as [|a l IH]; intros h b o Hb; simpl.
  - eauto.
  - destruct (mark_lookup c a b h o Hb) as (o1 & H1 & Hf & He).
    destruct (IH (mark c h a) b o1 H1) as (o2 & H2 & Hf2 & He2).
    exists o2. split_and!; congruence.
Qed.

Lemma applyRule_extends (r : Rule) (t : AST) (c : addr) (h : HeapT) :
  exists extra, objs (fst (applyRule r t c h)) = objs h ++ extra.
Proof.
  unfold applyRule. destruct (ctxs h !! c) as [x|].
  - destruct (emit r t x) as [l e]. simpl. rewrite pushIssue_fold_objs. eauto.
  - exists []. simpl. now rewrite app_nil_r.
Qed.

Lemma enhanceLoop_grows (w : RuleT) remote contexts (l : list addr) :
  forall (i : nat) (h : HeapT) (enhanced : list addr),
    exists extra outl,
      objs (fst (loop w remote contexts i l h enhanced)) = objs h ++ extra
      /\ snd (loop w remote contexts i l h enhanced) = enhanced ++ outl
      /\ Forall (fun a' => In a' l \/ (List.length (objs h) <= a')%nat) outl.
Proof.
  induction l as [|a rest IH]; intros i h enhanced.
  - exists [], []. simpl. now rewrite !app_nil_r.
  - assert (Hkeep :
      loop w remote contexts (S i) rest h (enhanced ++ [a])
      = loop w remote contexts i (a :: rest) h enhanced ->
      exists extra outl,
        objs (fst (loop w remote contexts i (a :: rest) h enhanced)) = objs h ++ extra
        /\ snd (loop w remote contexts i (a :: rest) h enhanced) = enhanced ++ outl
        /\ Forall (fun a' => In a' (a :: rest) \/ (List.length (objs h) <= a')%nat) outl).
    { intros <-. destruct (IH (S i) h (enhanced ++ [a])) as (extra & outl & He & Ho & Hf).
      exists extra, (a :: outl). rewrite He, Ho, <- app_assoc. split_and!; auto.
      constructor; [left; now left|].
      eapply Forall_impl; [exact Hf|]. intros b [Hb|Hb]; [left; now right | now right]. }
    destruct (objs h !! a) as [o|] eqn:Hoh;
      [|apply Hkeep; cbn [enhanceLoop]; now rewrite Hoh].
    destruct (_needsAIEnhancement o) eqn:Hflag;
      [|apply Hkeep; cbn [enhanceLoop]; now rewrite Hoh, Hflag].
    destruct (contextOf contexts a o ≫= (fun c => ctxs h !! c)) as [x|] eqn:Hx;
      [|apply Hkeep; cbn [enhanceLoop]; now rewrite Hoh, Hflag, Hx].
    pose proof (enhanceIssueWithAI_spec w (remote i) a o x h) as Hone.
    destruct (analyze (llmClient w) (remote i) (request w (fields o) x)) as [r|e] eqn:Hr.
    + cbn [enhanceLoop]. rewrite Hoh, Hflag, Hx, Hone.
      destruct (IH (S i) (mkHeap (objs h ++ [copy o r]) (ctxs h))
                   (enhanced ++ [List.length (objs h)]))
        as (extra & outl & He & Ho & Hf).
      exists ([copy o r] ++ extra), (List.length (objs h) :: outl).
      rewrite He, Ho. simpl. rewrite <- !app_assoc. split_and!; auto.
      constructor; [right; lia|].
      eapply Forall_impl; [exact Hf|]. intros b [Hb|Hb]; [left; now right|right].
      simpl in Hb. rewrite length_app in Hb. simpl in Hb. lia.
    + apply Hkeep. cbn [enhanceLoop]. now rewrite Hoh, Hflag, Hx, Hone.
Qed.


End AIWrapperFacts.


(** A provider that cannot be reached, under an initialised client: the
    call fails, and the finding at address 0 does not come back; the answer
    is address 1, a copy whose message was extended. *)
Lemma enhanceIssues_changes_issue_on_failed_call :
  ~ AIEnhanced.failureReturnsIssue 5 0 (fun z => negb (z =? 0)) Scenario.showZ Scenario.showZ
      (fun _ _ => "withdraw") (fun _ => "Vault")
      Scenario.onlineWrapper (fun _ => Scenario.unreachable) [0%nat] ∅ Scenario.afterApply.
Proof.
  intros H. specialize (H 0%nat 0%nat eq_refl (fun _ => eq_refl)).
  vm_compute in H. discriminate.
Qed.

(** A run of [enhanceIssues] on the marked finding, with a provider that
    cannot be reached. *)
Lemma enhanceIssues_keeps_every_finding_witness :
  Forall (fun a => (a < List.length (AIEnhanced.objs Scenario.afterApply))%nat) [0%nat]
  /\ exists a' o',
       snd (AIEnhanced.enhanceIssues 5 0 (fun z => negb (z =? 0)) Scenario.showZ Scenario.showZ
              (fun _ _ => "withdraw") (fun _ => "Vault")
              Scenario.onlineWrapper (fun _ => Scenario.unreachable) [0%nat] ∅
              Scenario.afterApply) !! 0%nat
       = Some a'
       /\ a' <> 0%nat
       /\ AIEnhanced.objs
            (fst (AIEnhanced.enhanceIssues 5 0 (fun z => negb (z =? 0)) Scenario.showZ
                    Scenario.showZ (fun _ _ => "withdraw") (fun _ => "Vault")
                    Scenario.onlineWrapper (fun _ => Scenario.unreachable) [0%nat] ∅
                    Scenario.afterApply)) !! a'
          = Some o'
       /\ AIEnhanced.aiEnhancement o'
          = Some (mkAIEnhancement
                    "AI analysis unavailable. Please check your API key and network connection."
                    None None 0).
Proof.
  assert (Hv : Forall (fun a => (a < List.length (AIEnhanced.objs Scenario.afterApply))%nat)
                      [0%nat]).
  { repeat constructor. }
  split; [exact Hv|].
  destruct (proj2 (proj2 (enhanceIssues_keeps_every_finding 5 0 (fun z => negb (z =? 0))
                            Scenario.showZ Scenario.showZ (fun _ _ => "withdraw")
                            (fun _ => "Vault") Scenario.onlineWrapper
                            (fun _ => Scenario.unreachable) [0%nat] ∅ Scenario.afterApply Hv))
                  0%nat 0%nat eq_refl)
    as (a' & o & o' & Hout & Ho & Ho' & _ & _ & _ & Hfail).
  injection Ho as <-.
  destruct (Hfail _ eq_refl eq_refl eq_refl eq_refl) as [Hne ->].
  exists a'. eexists. split; [exact Hout|]. split; [exact Hne|]. split; [exact Ho'|].
  reflexivity.
Defined.

(** The same run, evaluated: the answer is the fresh address 1, and the
    input object at address 0 still carries its original message. *)
Example enhanceIssues_online_run :
  let r := AIEnhanced.enhanceIssues 5 0 (fun z => negb (z =? 0)) Scenario.showZ Scenario.showZ
             (fun _ _ => "withdraw") (fun _ => "Vault")
             Scenario.onlineWrapper Scenario.answering [0%nat] ∅ Scenario.afterApply in
  snd r = [1%nat]
  /\ (message ∘ AIEnhanced.fields) <$> AIEnhanced.objs (fst r) !! 0%nat
     = Some "External call before state update".
Proof. vm_compute. split; reflexivity. Qed.

(** With no usable provider every request raises and the input reference
    comes back. *)
Example enhanceIssues_offline_run :
  AIEnhanced.enhanceIssues 5 0 (fun z => negb (z =? 0)) Scenario.showZ Scenario.showZ
    (fun _ _ => "withdraw") (fun _ => "Vault")
    Scenario.offlineWrapper Scenario.answering [0%nat] ∅ Scenario.afterApply
  = (Scenario.afterApply, [0%nat]).
Proof. vm_compute. reflexivity. Qed.

(** The context of an issue is found by the identity of the object, not by
    its rule id and location: of two equal objects only the one the map
    holds is enhanced. *)
Example enhanceIssues_looks_up_by_identity :
  snd (AIEnhanced.enhanceIssues 5 0 (fun z => negb (z =? 0)) Scenario.showZ Scenario.showZ
         (fun _ _ => "withdraw") (fun _ => "Vault")
         Scenario.onlineWrapper Scenario.answering [0%nat; 1%nat] Scenario.firstOnly
         Scenario.twinStore)
  = [2%nat; 1%nat].
Proof. vm_compute. reflexivity. Qed.

(** ** A stable sort *)
Section StableSort.

Context {A : Type}.
Variable cmp : A -> A -> Z.

Lemma insertBy_perm (x : A) (l : list A) : Permutation (x :: l) (insertBy cmp x l).
Proof.
  induction l as [|y l IH]; simpl; [reflexivity|].
  destruct (cmp x y <=? 0); [reflexivity|].
  rewrite perm_swap. now apply perm_skip.
Qed.

Lemma sortBy_perm (l : list A) : Permutation l (sortBy cmp l).
Proof.
  induction l as [|x l IH]; simpl; [reflexivity|].
  rewrite <- insertBy_perm. now apply perm_skip.
Qed.

(** Elements that the comparator ties keep their order: a class of tied
    elements is filtered out of the sorted list as it is out of the input. *)
Section Ties.

Variable p : A -> bool.
Hypothesis tied : forall x y, p x = true -> p y = true -> cmp x y <= 0.

Lemma filter_insertBy (x : A) (l : list A) :
  List.filter p (insertBy cmp x l) = List.filter p (x :: l).
Proof.
  induction l as [|y l IH]; [reflexivity|].
  cbn [insertBy]. destruct (cmp x y <=? 0) eqn:Hle; [reflexivity|].
  cbn [List.filter] in *. rewrite IH.
  destruct (p x) eqn:Hx; [|reflexivity].
  destruct (p y) eqn:Hy; [|reflexivity].
  apply Z.leb_gt in Hle. pose proof (tied x y Hx Hy). lia.
Qed.

Lemma filter_sortBy (l : list A) : List.filter p (sortBy cmp l) = List.filter p l.
Proof.
  induction l as [|x l IH]; [reflexivity|].
  cbn [sortBy fold_right]. rewrite filter_insertBy. cbn [List.filter].
  fold (sortBy cmp l). now rewrite IH.
Qed.

End Ties.

(** Sortedness, for a comparator that decides a transitive relation. *)
Section Sorted.

Variable before : A -> A -> Prop.
Hypothesis le_before : forall x y, cmp x y <= 0 -> before x y.
Hypothesis gt_before : forall x y, 0 < cmp x y -> before y x.
Hypothesis before_trans : forall x y z, before x y -> before y z -> before x z.

Lemma insertBy_sorted (x : A) (l : list A) :
  StronglySorted before l -> StronglySorted before (insertBy cmp x l).
Proof.
  induction l as [|y l IH]; intros Hs; simpl.
  - repeat constructor.
  - inversion Hs as [|? ? Hl Hy]; subst.
    destruct (cmp x y <=? 0) eqn:Hle.
    + apply Z.leb_le in Hle. apply le_before in Hle.
      constructor; [exact Hs|]. constructor; [exact Hle|].
      eapply Forall_impl; [exact Hy|]. intros z Hz. now apply before_trans with y.
    + apply Z.leb_gt in Hle. apply gt_before in Hle.
      constructor; [now apply IH|].
      apply (Permutation_Forall (insertBy_perm x l)). now constructor.
Qed.

Lemma sortBy_sorted (l : list A) : StronglySorted before (sortBy cmp l).
Proof.
  induction l as [|x l IH]; simpl; [constructor|]. now apply insertBy_sorted.
Qed.

Hypothesis before_le : forall x y, before x y -> cmp x y <= 0.

Lemma sortBy_of_sorted (l : list A) : StronglySorted before l -> sortBy cmp l = l.
Proof.
  induction 1 as [|x l Hs IH Hx]; [reflexivity|].
  cbn [sortBy fold_right]. fold (sortBy cmp l). rewrite IH.
  destruct l as [|y l]; [reflexivity|].
  cbn [insertBy]. inversion Hx as [|? ? Hxy _]; subst.
  apply before_le, Z.leb_le in Hxy. now rewrite Hxy.
Qed.

End Sorted.

End StableSort.

(** ** Order of the aggregated findings and of the printed report *)
Section ReportOrder.

Import Reporter Ordering.

Context {AST : Type}.
Variable localeCompare : string -> string -> Z.

Local Abbreviation cmpR := (compareIssues localeCompare).
Local Abbreviation cmpE := (Engine.compareLocation localeCompare).
Local Abbreviation before := (locationBefore localeCompare).

Lemma atLocation_true (f : string) (l c : Z) (i : Issue) :
  atLocation f l c i = true <-> file i = f /\ line i = l /\ column i = c.
Proof.
  unfold atLocation. rewrite !andb_true_iff, String.eqb_eq, !Z.eqb_eq. tauto.
Qed.

Lemma compareIssues_same_file (x y : Issue) :
  file x = file y ->
  cmpR x y = if negb (line x =? line y) then line x - line y else column x - column y.
Proof. intros H. unfold compareIssues. now rewrite H, String.eqb_refl. Qed.

(** The reporter's comparator ties the findings of one location, whatever
    the collation. *)
Lemma compareIssues_same_location (f : string) (l c : Z) (x y : Issue) :
  atLocation f l c x = true -> atLocation f l c y = true -> cmpR x y <= 0.
Proof.
  rewrite !atLocation_true. intros (Hf & Hl & Hc) (Hf' & Hl' & Hc').
  rewrite compareIssues_same_file by congruence.
  rewrite Hl, Hl', Z.eqb_refl. simpl. lia.
Qed.

(** *** What the report shows *)

Lemma printedIssues_app (a b : list Line) :
  printedIssues (a ++ b) = printedIssues a ++ printedIssues b.
Proof.
  induction a as [|x a IH]; [reflexivity|].
  destruct x; simpl; now rewrite IH.
Qed.

Lemma printedIssues_grouped (l : list Issue) :
  forall currentFile, printedIssues (printGrouped currentFile l) = l.
Proof.
  induction l as [|i l IH]; intros cf; [reflexivity|].
  cbn [printGrouped].
  destruct (negb (String.eqb (file i) cf)).
  - rewrite printedIssues_app. destruct (negb (String.eqb cf "")); simpl; now rewrite IH.
  - simpl. now rewrite IH.
Qed.

Lemma printedIssues_summary (s : ReportSummary) : printedIssues (printSummary s) = [].
Proof.
  unfold printSummary.
  destruct (0 <? errorCount s)%nat, (0 <? warningCount s)%nat, (0 <? infoCount s)%nat;
    reflexivity.
Qed.

Lemma printReport_shows (r : Reporter.t) :
  printedIssues (snd (printReport localeCompare r)) = sortBy cmpR (issues r).
Proof.
  unfold printReport. destruct (issues r) as [|i l] eqn:Hi; [reflexivity|].
  cbn [snd printedIssues]. rewrite printedIssues_app, printedIssues_grouped.
  rewrite printedIssues_summary. now rewrite app_nil_r.
Qed.

(** *** What the engine collects *)

Lemma analyze_from (rules : list (@Engine.Rule AST)) (u : Engine.ParseResult) :
  forall st,
    fst (fold_left (Engine.applyGuarded u) rules st)
    = fst st ++ flat_map (fun r => Engine.contribution r u) rules.
Proof.
  induction rules as [|r rules IH]; intros st; simpl.
  - now rewrite app_nil_r.
  - rewrite IH. unfold Engine.applyGuarded, Engine.contribution.
    destruct (Engine.apply r u) as [found [e|]]; simpl; now rewrite <- app_assoc.
Qed.

Lemma analyze_findings (rules : list (@Engine.Rule AST)) (u : Engine.ParseResult) :
  fst (Engine.analyze rules u) = flat_map (fun r => Engine.contribution r u) rules.
Proof. unfold Engine.analyze. now rewrite analyze_from. Qed.

Lemma collect_from (rules : list (@Engine.Rule AST)) (units : list Engine.ParseResult) :
  forall acc,
    fst (fold_left
           (fun acc u => (fst acc ++ fst (Engine.analyze rules u),
                          snd acc ++ snd (Engine.analyze rules u)))
           units acc)
    = fst acc ++ flat_map (fun u => flat_map (fun r => Engine.contribution r u) rules) units.
Proof.
  induction units as [|u units IH]; intros acc; simpl.
  - now rewrite app_nil_r.
  - rewrite IH. simpl. now rewrite analyze_findings, <- app_assoc.
Qed.

Lemma collect_findings (rules : list (@Engine.Rule AST)) (units : list Engine.ParseResult) :
  fst (Engine.collect rules units)
  = flat_map (fun u => flat_map (fun r => Engine.contribution r u) rules) units.
Proof. unfold Engine.collect. now rewrite collect_from. Qed.

Lemma filter_flat_map {A B : Type} (p : B -> bool) (g : A -> list B) (l : list A) :
  List.filter p (flat_map g l) = flat_map (fun a => List.filter p (g a)) l.
Proof.
  induction l as [|a l IH]; [reflexivity|].
  simpl. now rewrite List.filter_app, IH.
Qed.

(** *** Sortedness, for a collation that is a strict order on file names *)

Hypothesis collation_refl : forall a, localeCompare a a = 0.
Hypothesis collation_separates : forall a b, localeCompare a b = 0 -> a = b.
Hypothesis collation_antisym : forall a b, 0 < localeCompare a b -> localeCompare b a < 0.
Hypothesis collation_trans :
  forall a b c, localeCompare a b < 0 -> localeCompare b c < 0 -> localeCompare a c < 0.

Lemma compareLocation_same_location (f : string) (l c : Z) (x y : Issue) :
  atLocation f l c x = true -> atLocation f l c y = true -> cmpE x y <= 0.
Proof.
  rewrite !atLocation_true. intros (Hf & Hl & Hc) (Hf' & Hl' & Hc').
  unfold Engine.compareLocation. rewrite Hf, Hf', collation_refl, Hl, Hl', !Z.eqb_refl.
  simpl. lia.
Qed.

Lemma numeric_before (x y : Issue) :
  file x = file y ->
  (if negb (line x =? line y) then line x - line y else column x - column y) <= 0 <->
  (line x < line y \/ (line x = line y /\ column x <= column y)).
Proof.
  intros _. destruct (line x =? line y) eqn:Hl; simpl;
    [apply Z.eqb_eq in Hl|apply Z.eqb_neq in Hl]; lia.
Qed.

Lemma compareIssues_le (x y : Issue) : cmpR x y <= 0 <-> before x y.
Proof.
  unfold locationBefore.
  destruct (String.eqb (file x) (file y)) eqn:Hf.
  - apply String.eqb_eq in Hf. rewrite (compareIssues_same_file x y Hf).
    rewrite (numeric_before x y Hf), Hf, collation_refl.
    split; [intros H; right; split; [reflexivity|exact H] | intros [H|[_ H]]; [lia|exact H]].
  - unfold compareIssues. rewrite Hf. simpl. apply String.eqb_neq in Hf.
    pose proof (collation_separates (file x) (file y)) as Hsep.
    split; [intros H; left; destruct (Z.eq_dec (localeCompare (file x) (file y)) 0); [tauto|lia]
           | intros [H|[H _]]; [lia|contradiction]].
Qed.

Lemma compareLocation_le (x y : Issue) : cmpE x y <= 0 <-> before x y.
Proof.
  unfold locationBefore, Engine.compareLocation.
  destruct (localeCompare (file x) (file y) =? 0) eqn:Hc; simpl.
  - apply Z.eqb_eq in Hc. pose proof (collation_separates _ _ Hc) as Hf.
    rewrite (numeric_before x y Hf).
    split; [intros H; right; split; [exact Hf|exact H] | intros [H|[_ H]]; [lia|exact H]].
  - apply Z.eqb_neq in Hc. split; [intros H; left; lia|].
    intros [H|[Hf _]]; [lia|]. rewrite Hf, collation_refl in Hc. congruence.
Qed.

Lemma before_total (x y : Issue) : before x y \/ before y x.
Proof.
  unfold locationBefore.
  destruct (Z.lt_trichotomy (localeCompare (file x) (file y)) 0) as [H|[H|H]].
  - left; now left.
  - apply collation_separates in H. rewrite H.
    destruct (Z.lt_trichotomy (line x) (line y)) as [?|[?|?]]; [left|idtac|right]; try (right; split; [reflexivity|lia]).
    destruct (Z.le_ge_cases (column x) (column y)); [left|right]; right; split; auto; lia.
  - right; left. apply collation_antisym. lia.
Qed.

Lemma before_trans (x y z : Issue) : before x y -> before y z -> before x z.
Proof.
  unfold locationBefore.
  intros [Hxy|(Hf & Hxy)] [Hyz|(Hf' & Hyz)].
  - left. eauto.
  - left. now rewrite <- Hf'.
  - left. now rewrite Hf.
  - right. split; [congruence|lia].
Qed.

Lemma compareIssues_gt (x y : Issue) : 0 < cmpR x y -> before y x.
Proof.
  intros H. destruct (before_total x y) as [Hb|Hb]; [|exact Hb].
  apply compareIssues_le in Hb. lia.
Qed.

Lemma compareLocation_gt (x y : Issue) : 0 < cmpE x y -> before y x.
Proof.
  intros H. destruct (before_total x y) as [Hb|Hb]; [|exact Hb].
  apply compareLocation_le in Hb. lia.
Qed.

(** X5. What [printReport] does to any reporter, by the code alone: it shows
    the stored issues, each once, sorted by (file, line, column), the issues
    of one location in the order they were added. *)
Lemma printReport_sorts_stably (r : Reporter.t) :
  let shown := printedIssues (snd (printReport localeCompare r)) in
  Permutation (issues r) shown
  /\ StronglySorted before shown
  /\ forall f l c,
       List.filter (atLocation f l c) shown = List.filter (atLocation f l c) (issues r).
Proof.
  intros shown. subst shown. rewrite printReport_shows. split_and!.
  - apply sortBy_perm.
  - apply sortBy_sorted.
    + intros x y. apply compareIssues_le.
    + apply compareIssues_gt.
    + apply before_trans.
  - intros f l c. apply filter_sortBy. apply compareIssues_same_location.
Qed.

End ReportOrder.

(** *** Code-unit comparison is such a collation *)

Lemma string_compare_lt_trans (a : string) :
  forall b c, String.compare a b = Lt -> String.compare b c = Lt -> String.compare a c = Lt.
Proof.
  induction a as [|x a IH]; intros [|y b] [|z c]; simpl; try congruence.
  destruct (Ascii.compare x y) eqn:Hxy; try discriminate.
  - apply Ascii.compare_eq_iff in Hxy; subst y.
    destruct (Ascii.compare x z); try congruence. apply IH.
  - intros _. destruct (Ascii.compare y z) eqn:Hyz; try discriminate.
    + apply Ascii.compare_eq_iff in Hyz; subst z. now rewrite Hxy.
    + intros _. unfold Ascii.compare in *.
      rewrite N.compare_lt_iff in *.
      assert (H : (N_of_ascii x < N_of_ascii z)%N) by lia.
      apply N.compare_lt_iff in H. now rewrite H.
Qed.

Lemma codeUnitCompare_separates (a b : string) : Ordering.codeUnitCompare a b = 0 -> a = b.
Proof.
  unfold Ordering.codeUnitCompare. destruct (String.compare a b) eqn:H; try discriminate.
  intros _. now apply String.compare_eq_iff.
Qed.

Lemma codeUnitCompare_antisym (a b : string) :
  0 < Ordering.codeUnitCompare a b -> Ordering.codeUnitCompare b a < 0.
Proof.
  unfold Ordering.codeUnitCompare. rewrite (String.compare_antisym b a).
  destruct (String.compare a b); simpl; lia.
Qed.

Lemma codeUnitCompare_trans (a b c : string) :
  Ordering.codeUnitCompare a b < 0 -> Ordering.codeUnitCompare b c < 0 ->
  Ordering.codeUnitCompare a c < 0.
Proof.
  unfold Ordering.codeUnitCompare.
  destruct (String.compare a b) eqn:Hab; try lia.
  destruct (String.compare b c) eqn:Hbc; try lia.
  now rewrite (string_compare_lt_trans a b c Hab Hbc).
Qed.

(** The report of a run with two detectors on one file, under code-unit
    collation. *)
Lemma string_compare_refl (a : string) : String.compare a a = Eq.
Proof.
  induction a as [|c a IH]; [reflexivity|]. simpl.
  unfold Ascii.compare. now rewrite N.compare_refl.
Qed.

Lemma codeUnitCompare_refl (a : string) : Ordering.codeUnitCompare a a = 0.
Proof. unfold Ordering.codeUnitCompare. now rewrite string_compare_refl. Qed.

(** The same run, evaluated: the pragma finding comes first, and the two
    findings at 2:2 keep the registration order of their rules. *)
Example printReport_two_rules :
  Reporter.printedIssues
    (snd (Reporter.printReport Ordering.codeUnitCompare
            (snd (Engine.run Ordering.codeUnitCompare
                             [Scenario.reentrancyRule; Scenario.txOriginRule]
                             [Scenario.vaultUnit] Reporter.new))))
  = [Scenario.pragmaIssue; Scenario.reentrancyIssue; Scenario.txOriginIssue].
Proof. vm_compute. reflexivity. Qed.

(** ** The order of the findings of a run *)
Section SortOn.

Context {A : Type}.
Variables (cmp : A -> A -> Z) (before : A -> A -> Prop) (P : A -> Prop).

Hypothesis le_before : forall x y, P x -> P y -> cmp x y <= 0 -> before x y.
Hypothesis gt_before : forall x y, P x -> P y -> 0 < cmp x y -> before y x.
Hypothesis before_trans :
  forall x y z, P x -> P y -> P z -> before x y -> before y z -> before x z.

Lemma insertBy_sorted_on (x : A) (l : list A) :
  P x -> Forall P l -> StronglySorted before l -> StronglySorted before (insertBy cmp x l).
Proof.
  intros Hx. induction l as [|y l IH]; intros Hl Hs; simpl.
  - repeat constructor.
  - inversion Hs as [|? ? Hsl Hy]; subst. inversion Hl as [|? ? Hpy Hpl]; subst.
    destruct (cmp x y <=? 0) eqn:Hle.
    + apply Z.leb_le in Hle. apply le_before in Hle; auto.
      constructor; [exact Hs|]. constructor; [exact Hle|].
      rewrite Forall_forall in Hy, Hpl |- *. intros z Hz.
      apply (before_trans x y z); auto.
    + apply Z.leb_gt in Hle. apply gt_before in Hle; auto.
      constructor; [now apply IH|].
      apply (Permutation_Forall (insertBy_perm cmp x l)). now constructor.
Qed.

Lemma sortBy_sorted_on (l : list A) : Forall P l -> StronglySorted before (sortBy cmp l).
Proof.
  induction l as [|x l IH]; intros Hl; simpl; [constructor|].
  inversion Hl as [|? ? Hx Hr]; subst. apply insertBy_sorted_on; auto.
  apply (Permutation_Forall (sortBy_perm cmp l)). exact Hr.
Qed.

End SortOn.

Section SortAgree.

Context {A : Type}.
Variables (cmp cmp' : A -> A -> Z) (P : A -> Prop).
Hypothesis agree : forall x y, P x -> P y -> (cmp x y <=? 0) = (cmp' x y <=? 0).

Lemma insertBy_agree (x : A) (l : list A) :
  P x -> Forall P l -> insertBy cmp x l = insertBy cmp' x l.
Proof.
  intros Hx. induction l as [|y l IH]; intros Hl; [reflexivity|].
  inversion Hl as [|? ? Hy Hr]; subst. cbn [insertBy].
  rewrite (agree x y Hx Hy), (IH Hr). reflexivity.
Qed.

Lemma sortBy_agree (l : list A) : Forall P l -> sortBy cmp l = sortBy cmp' l.
Proof.
  induction l as [|x l IH]; intros Hl; [reflexivity|].
  inversion Hl as [|? ? Hx Hr]; subst. cbn [sortBy fold_right].
  fold (sortBy cmp l). fold (sortBy cmp' l). rewrite (IH Hr).
  apply insertBy_agree; [exact Hx|].
  apply (Permutation_Forall (sortBy_perm cmp' l)). exact Hr.
Qed.

End SortAgree.

Section RunOrder.

Import Reporter Ordering.

Context {AST : Type}.
Variable localeCompare : string -> string -> Z.
Variable names : list string.
Hypothesis strict : ordersStrictly localeCompare names.

Local Abbreviation cmpR := (compareIssues localeCompare).
Local Abbreviation cmpE := (Engine.compareLocation localeCompare).
Local Abbreviation before := (locationBefore localeCompare).
Local Abbreviation named := (fun i : Issue => In (file i) names).

Lemma compareIssues_le_on (x y : Issue) : named x -> named y -> (cmpR x y <= 0 <-> before x y).
Proof.
  intros Hx Hy. destruct strict as (Hzero & _ & _). unfold locationBefore.
  destruct (String.eqb (file x) (file y)) eqn:Hf.
  - apply String.eqb_eq in Hf. rewrite (compareIssues_same_file localeCompare x y Hf).
    rewrite (numeric_before x y Hf).
    pose proof (proj2 (Hzero _ _ Hx Hy) Hf) as H0.
    split; [intros H; right; split; [exact Hf|exact H] | intros [H|[_ H]]; [lia|exact H]].
  - unfold compareIssues. rewrite Hf. simpl. apply String.eqb_neq in Hf.
    pose proof (proj1 (Hzero _ _ Hx Hy)) as Hsep.
    split; [intros H; left; destruct (Z.eq_dec (localeCompare (file x) (file y)) 0); [tauto|lia]
           | intros [H|[H _]]; [lia|contradiction]].
Qed.

Lemma compareLocation_le_on (x y : Issue) :
  named x -> named y -> (cmpE x y <= 0 <-> before x y).
Proof.
  intros Hx Hy. destruct strict as (Hzero & _ & _).
  unfold locationBefore, Engine.compareLocation.
  destruct (localeCompare (file x) (file y) =? 0) eqn:Hc; simpl.
  - apply Z.eqb_eq in Hc. pose proof (proj1 (Hzero _ _ Hx Hy) Hc) as Hf.
    rewrite (numeric_before x y Hf).
    split; [intros H; right; split; [exact Hf|exact H] | intros [H|[_ H]]; [lia|exact H]].
  - apply Z.eqb_neq in Hc. split; [intros H; left; lia|].
    intros [H|[Hf _]]; [lia|]. apply (Hzero _ _ Hx Hy) in Hf. congruence.
Qed.

Lemma before_total_on (x y : Issue) : named x -> named y -> before x y \/ before y x.
Proof.
  intros Hx Hy. destruct strict as (Hzero & Hanti & _). unfold locationBefore.
  destruct (Z.lt_trichotomy (localeCompare (file x) (file y)) 0) as [H|[H|H]].
  - left; now left.
  - apply (Hzero _ _ Hx Hy) in H. rewrite H.
    destruct (Z.lt_trichotomy (line x) (line y)) as [?|[?|?]];
      [left|idtac|right]; try (right; split; [reflexivity|lia]).
    destruct (Z.le_ge_cases (column x) (column y)); [left|right]; right; split; auto; lia.
  - right; left. apply Hanti; auto.
Qed.

Lemma before_trans_on (x y z : Issue) :
  named x -> named y -> named z -> before x y -> before y z -> before x z.
Proof.
  intros Hx Hy Hz. destruct strict as (_ & _ & Htrans). unfold locationBefore.
  intros [Hxy|(Hf & Hxy)] [Hyz|(Hf' & Hyz)].
  - left. now apply (Htrans _ (file y)).
  - left. now rewrite <- Hf'.
  - left. now rewrite Hf.
  - right. split; [congruence|lia].
Qed.

Lemma compareIssues_gt_on (x y : Issue) : named x -> named y -> 0 < cmpR x y -> before y x.
Proof.
  intros Hx Hy H. destruct (before_total_on x y Hx Hy) as [Hb|Hb]; [|exact Hb].
  apply compareIssues_le_on in Hb; auto. lia.
Qed.

Lemma comparators_agree (x y : Issue) :
  named x -> named y -> (cmpR x y <=? 0) = (cmpE x y <=? 0).
Proof.
  intros Hx Hy. apply eq_true_iff_eq. rewrite !Z.leb_le.
  rewrite compareIssues_le_on, compareLocation_le_on; tauto.
Qed.

Lemma before_lex_on (x y : Issue) :
  named x -> named y -> before x y -> lexBefore localeCompare x y.
Proof.
  intros Hx Hy. destruct strict as (Hzero & _ & _). unfold locationBefore, lexBefore.
  intros [H|[Hf H]]; [now left|right]. split; [|exact H]. now apply (Hzero _ _ Hx Hy).
Qed.

Lemma sorted_lex_on (l : list Issue) :
  Forall named l -> StronglySorted before l -> sortedByLocation localeCompare l.
Proof.
  intros Hn Hs. induction Hs as [|x l Hs IH Hx]; [constructor|].
  inversion Hn as [|? ? Hnx Hnl]; subst. constructor; [now apply IH|].
  rewrite List.Forall_forall in *. intros y Hy. apply before_lex_on; auto.
Qed.


End RunOrder.

Lemma codeUnitCompare_ordersStrictly (names : list string) :
  Ordering.ordersStrictly Ordering.codeUnitCompare names.
Proof.
  split_and!.
  - intros a b _ _. split; [apply codeUnitCompare_separates|].
    intros ->. apply codeUnitCompare_refl.
  - intros a b _ _. apply codeUnitCompare_antisym.
  - intros a b c _ _ _. apply codeUnitCompare_trans.
Qed.


(** The same run, evaluated from the findings as collected: the finding at
    1:0, collected last, is shown first. *)
Example printReport_collected :
  fst (Engine.collect [Scenario.reentrancyRule; Scenario.txOriginRule] [Scenario.vaultUnit])
  = [Scenario.reentrancyIssue; Scenario.txOriginIssue; Scenario.pragmaIssue]
  /\ Reporter.printedIssues
       (snd (Reporter.printReport Ordering.codeUnitCompare
               (Reporter.addIssues Reporter.new
                  (fst (Engine.collect [Scenario.reentrancyRule; Scenario.txOriginRule]
                                       [Scenario.vaultUnit])))))
     = [Scenario.pragmaIssue; Scenario.reentrancyIssue; Scenario.txOriginIssue].
Proof. split; vm_compute; reflexivity. Qed.


(** ** Failure isolation in the engine *)
Section EngineIsolation.

Context {AST : Type}.

Local Abbreviation RuleT := (@Engine.Rule AST).
Local Abbreviation UnitT := (@Engine.ParseResult AST).

Lemma analyze_log_from (rules : list RuleT) (u : UnitT) :
  forall st,
    snd (fold_left (Engine.applyGuarded u) rules st)
    = snd st ++ flat_map (fun r => Engine.failureOf r u) rules.
Proof.
  induction rules as [|r rules IH]; intros st; simpl.
  - now rewrite app_nil_r.
  - rewrite IH. unfold Engine.applyGuarded, Engine.failureOf.
    destruct (Engine.apply r u) as [found [e|]]; simpl; [now rewrite <- app_assoc|reflexivity].
Qed.

Lemma collect_log_from (rules : list RuleT) (units : list UnitT) :
  forall acc,
    snd (fold_left
           (fun acc u => (fst acc ++ fst (Engine.analyze rules u),
                          snd acc ++ snd (Engine.analyze rules u)))
           units acc)
    = snd acc ++ flat_map (fun u => flat_map (fun r => Engine.failureOf r u) rules) units.
Proof.
  induction units as [|u units IH]; intros acc; simpl.
  - now rewrite app_nil_r.
  - rewrite IH. simpl. unfold Engine.analyze. rewrite analyze_log_from.
    simpl. now rewrite <- app_assoc.
Qed.

Lemma collect_log (rules : list RuleT) (units : list UnitT) :
  snd (Engine.collect rules units)
  = flat_map (fun u => flat_map (fun r => Engine.failureOf r u) rules) units.
Proof. unfold Engine.collect. now rewrite collect_log_from. Qed.

Lemma flat_map_ext_in {A B : Type} (f g : A -> list B) (l : list A) :
  (forall a, In a l -> f a = g a) -> flat_map f l = flat_map g l.
Proof.
  induction l as [|a l IH]; intros H; [reflexivity|].
  simpl. rewrite (H a) by now left. rewrite IH; [reflexivity|].
  intros b Hb. apply H. now right.
Qed.

(** C6. Whatever a rule does, the findings collected on each file are those
    of the rules registered before it, then its own, then those of the rules
    registered after it: a rule that raises takes nothing away from the
    others, on that file or on later ones.  Each failure is logged under the
    rule's id and the file.  When the rule raises on every file before it
    reports anything, the aggregated findings are those of the run without
    it. *)
Theorem faulty_rule_is_isolated (compareFile : string -> string -> Z)
  (pre post : list RuleT) (bad : RuleT) (units : list UnitT) :
  fst (Engine.collect (pre ++ bad :: post) units)
  = flat_map (fun u => flat_map (fun r => Engine.contribution r u) pre
                       ++ Engine.contribution bad u
                       ++ flat_map (fun r => Engine.contribution r u) post) units
  /\ (forall u e, In u units -> snd (Engine.apply bad u) = Some e ->
        In (Engine.mkFailure (Engine.id bad) (Engine.filePath u) e)
           (snd (Engine.analyzeMultiple compareFile (pre ++ bad :: post) units)))
  /\ (Engine.alwaysThrows bad ->
      fst (Engine.analyzeMultiple compareFile (pre ++ bad :: post) units)
      = fst (Engine.analyzeMultiple compareFile (pre ++ post) units)).
Proof.
  assert (Hfind : fst (Engine.collect (pre ++ bad :: post) units)
     = flat_map (fun u => flat_map (fun r => Engine.contribution r u) pre
                          ++ Engine.contribution bad u
                          ++ flat_map (fun r => Engine.contribution r u) post) units).
  { rewrite collect_findings. apply flat_map_ext. intros u.
    rewrite flat_map_app. reflexivity. }
  split_and!.
  - exact Hfind.
  - intros u e Hu He. unfold Engine.analyzeMultiple. cbn [snd].
    rewrite collect_log. apply in_flat_map. exists u. split; [exact Hu|].
    apply in_flat_map. exists bad. split; [apply in_elt|].
    unfold Engine.failureOf. rewrite He. now left.
  - intros Hbad. unfold Engine.analyzeMultiple. cbn [fst]. f_equal.
    rewrite Hfind, collect_findings. apply flat_map_ext_in. intros u _.
    rewrite flat_map_app. unfold Engine.contribution at 2.
    destruct (Hbad u) as [e ->]. reflexivity.
Qed.

End EngineIsolation.

(** A broken detector registered between two working ones. *)
Lemma faulty_rule_is_isolated_witness :
  Engine.alwaysThrows Scenario.brokenRule
  /\ fst (Engine.analyzeMultiple Ordering.codeUnitCompare
            [Scenario.reentrancyRule; Scenario.brokenRule; Scenario.txOriginRule]
            [Scenario.vaultUnit])
     = fst (Engine.analyzeMultiple Ordering.codeUnitCompare
              [Scenario.reentrancyRule; Scenario.txOriginRule] [Scenario.vaultUnit]).
Proof.
  assert (H : Engine.alwaysThrows Scenario.brokenRule).
  { intros u. eexists. reflexivity. }
  split; [exact H|].
  exact (proj2 (proj2 (faulty_rule_is_isolated Ordering.codeUnitCompare
                         [Scenario.reentrancyRule] [Scenario.txOriginRule]
                         Scenario.brokenRule [Scenario.vaultUnit])) H).
Defined.

Example broken_rule_run :
  Engine.analyzeMultiple Ordering.codeUnitCompare
    [Scenario.reentrancyRule; Scenario.brokenRule; Scenario.txOriginRule] [Scenario.vaultUnit]
  = ([Scenario.pragmaIssue; Scenario.reentrancyIssue; Scenario.txOriginIssue],
     [Engine.mkFailure "broken" "Vault.sol" "TypeError: cannot read properties of undefined"]).
Proof. vm_compute. reflexivity. Qed.

(** ** Registration of a playbook file *)
Section RegistryFacts.

Import Registry.

Context {StaticRule : Type}.
Variable existsSync : string -> bool.
Variable now : Z.
Variable basename : string -> option string -> string.
Variable extname : string -> string.
Variable parseFromFile : string -> Outcome (@ParsedPlaybook StaticRule).

Local Abbreviation register := (registerFromFile existsSync now basename extname parseFromFile).

Lemma addToRegistry_get (playbook : @RegisteredPlaybook StaticRule) (reg : t) :
  get (id playbook) (addToRegistry playbook reg) = Some playbook.
Proof. unfold get, addToRegistry; simpl. apply lookup_insert_eq. Qed.

(** What [registerFromFile] keeps of a parse.  When the parser returns, the
    entry is validated, offers the parser's checks and carries no validation
    error; when the parser raises, the entry is not validated, offers no
    check and carries exactly one error, the exception's message.
    [validate] reports the same. *)
Lemma registerFromFile_all_or_nothing (filePath : string) (pid : option string) (reg : t) :
  existsSync filePath = true ->
  exists playbook,
    fst (register filePath pid reg) = Returns playbook
    /\ get (id playbook) (snd (register filePath pid reg)) = Some playbook
    /\ match parseFromFile filePath with
       | Returns parsed =>
           validated playbook = true
           /\ checksOf playbook = staticRules parsed
           /\ errorsOf playbook = []
           /\ validate (id playbook) (snd (register filePath pid reg)) = (true, [])
       | Throws msg =>
           validated playbook = false
           /\ checksOf playbook = []
           /\ errorsOf playbook = [msg]
           /\ validate (id playbook) (snd (register filePath pid reg)) = (false, [msg])
       end.
Proof.
  intros Hex. unfold registerFromFile. rewrite Hex. simpl.
  destruct (parseFromFile filePath) as [parsed|msg]; simpl;
    eexists; (split; [reflexivity|]); (split; [apply addToRegistry_get|]);
    unfold validate; rewrite (addToRegistry_get _ reg : playbooks _ !! _ = _); simpl;
    split_and!; reflexivity.
Qed.

End RegistryFacts.

(** Two parsers, evaluated: one that raises on the document leaves no
    check; one that returns the well-formed check leaves no error. *)
Example registerFromFile_strict_parser :
  (fun r => (Registry.checksOf r, Registry.errorsOf r))
    <$> (match fst (Registry.registerFromFile Scenario.anyFile 0 Scenario.plainBasename
                      Scenario.plainExtname Scenario.strictParse Scenario.playbookPath
                      None Registry.empty) with
         | Returns r => Some r
         | Throws _ => None
         end)
  = Some ([], ["Playbook validation failed: check 2: missing severity"]).
Proof. reflexivity. Qed.

Example registerFromFile_lenient_parser :
  (fun r => (Registry.checksOf r, Registry.errorsOf r))
    <$> (match fst (Registry.registerFromFile Scenario.anyFile 0 Scenario.plainBasename
                      Scenario.plainExtname Scenario.lenientParse Scenario.playbookPath
                      None Registry.empty) with
         | Returns r => Some r
         | Throws _ => None
         end)
  = Some (["no-unchecked-call"], []).
Proof. reflexivity. Qed.

(** ** How the analysis task ends *)
Section TaskFacts.

Import Task.

Context {AST : Type}.

Local Abbreviation HostT := (@Host AST).

Lemma prepare_over_no_report (h : HostT) (args : Args) (r : Run) :
  prepare h args = Over r -> report r = None.
Proof.
  unfold prepare.
  destruct (showSamples args); [intros [= <-]; reflexivity|].
  destruct (listPlaybooks args); [intros [= <-]; reflexivity|].
  destruct (truthyStr (uploadPlaybook args)).
  - destruct (negb (existsSync h (default "" (uploadPlaybook args))));
      [intros [= <-]; reflexivity|].
    destruct (uploadAndRegisterToLighthouse h (default "" (uploadPlaybook args)));
      intros [= <-]; reflexivity.
  - destruct (determineAnalysisRules h args) as [[rs m]|e]; [discriminate|].
    intros [= <-]; reflexivity.
Qed.

End TaskFacts.

(** Two runs in which no [ParseError] occurs and that produce no report:
    parsing raises another error; a playbook file is missing. *)
Lemma analyzeTask_halts_without_ParseError :
  ~ Task.onlyParseErrorHalts (Scenario.hostWith (Task.OtherThrown "Error: EACCES ./contracts"))
                             Scenario.plainArgs
  /\ ~ Task.onlyParseErrorHalts (Scenario.hostWith (Task.Parsed [Scenario.vaultUnit]))
                                Scenario.missingPlaybookArgs.
Proof.
  split; intros H.
  - destruct H as [out Hout]; [discriminate|]. vm_compute in Hout. discriminate.
  - destruct H as [out Hout]; [discriminate|]. vm_compute in Hout. discriminate.
Qed.

(** The two runs, evaluated. *)
Example analyzeTask_other_parse_failure :
  Task.analyzeTask (Scenario.hostWith (Task.OtherThrown "Error: EACCES ./contracts"))
                   Scenario.plainArgs
  = Task.mkRun [Task.MParseFailed "Error: EACCES ./contracts"] (Some 1) None.
Proof. vm_compute. reflexivity. Qed.

Example analyzeTask_missing_playbook :
  Task.analyzeTask (Scenario.hostWith (Task.Parsed [Scenario.vaultUnit]))
                   Scenario.missingPlaybookArgs
  = Task.mkRun [Task.MAnalysisFailed "Playbook file not found: missing.yaml"] (Some 1) None.
Proof. vm_compute. reflexivity. Qed.

(** A run that parses one file and prints the console report. *)
Example analyzeTask_console_run :
  Task.analyzeTask (Scenario.hostWith (Task.Parsed [Scenario.vaultUnit])) Scenario.plainArgs
  = Task.mkRun [Task.MParsedOk 1; Task.MCritical] (Some 1)
      (Some (Task.OutConsole
               [Reporter.LTitle; Reporter.LFileHeader "Vault.sol";
                Reporter.LIssue Scenario.pragmaIssue;
                Reporter.LIssue Scenario.reentrancyIssue;
                Reporter.LIssue Scenario.txOriginIssue;
                Reporter.LSummaryTitle; Reporter.LErrors 1; Reporter.LWarnings 1;
                Reporter.LInfo 1; Reporter.LTotal 3])).
Proof. vm_compute. reflexivity. Qed.

(** ** The closed predicate vocabulary *)
Section CompilerFacts.

Import Compiler.

Context {Predicate : Type}.
Variable vocabulary : list (string * Predicate).
Variable holds : Predicate -> ASTNode -> bool.

Local Abbreviation known := (allKnown vocabulary).
Local Abbreviation compileOne := (compileCheck vocabulary holds).
Local Abbreviation compileAll := (compileChecks vocabulary holds).

Lemma recognise_None (name : string) (table : list (string * Predicate)) :
  recognise name table = None <-> ~ In name (List.map fst table).
Proof.
  induction table as [|[n p] rest IH]; simpl.
  - tauto.
  - destruct (String.eqb n name) eqn:E.
    + apply String.eqb_eq in E. split; [discriminate|]. intros H. exfalso. apply H. now left.
    + apply String.eqb_neq in E. rewrite IH. tauto.
Qed.

Lemma firstUnknown_None (names : list string) :
  firstUnknown vocabulary names = None
  <-> forallb (fun n => match recognise n vocabulary with Some _ => true | None => false end)
              names = true.
Proof.
  induction names as [|n rest IH]; simpl; [tauto|].
  destruct (recognise n vocabulary); simpl; [exact IH|]. split; discriminate.
Qed.

Lemma firstUnknown_Some (names : list string) (m : string) :
  firstUnknown vocabulary names = Some m -> In m names /\ recognise m vocabulary = None.
Proof.
  induction names as [|n rest IH]; simpl; [discriminate|].
  destruct (recognise n vocabulary) eqn:E.
  - intros H. destruct (IH H). auto.
  - intros [= <-]. auto.
Qed.

Lemma compileCheck_known (c : StaticCheckSpec) :
  known c = true -> compileOne c = inl (ruleOf vocabulary holds c).
Proof.
  intros H. unfold compileCheck, allKnown in *. apply firstUnknown_None in H. now rewrite H.
Qed.

Lemma compileCheck_unknown (c : StaticCheckSpec) :
  known c = false ->
  exists m, compileOne c = inr (mkCompileError (check_id c) m)
            /\ In m (predicates c) /\ recognise m vocabulary = None.
Proof.
  intros H. unfold compileCheck.
  destruct (firstUnknown vocabulary (predicates c)) as [m|] eqn:E.
  - exists m. split; [reflexivity|]. now apply firstUnknown_Some.
  - apply firstUnknown_None in E. unfold allKnown in H. congruence.
Qed.

Lemma compileChecks_rules (l : list StaticCheckSpec) :
  fst (compileAll l) = List.map (ruleOf vocabulary holds) (List.filter known l).
Proof.
  induction l as [|c rest IH]; [reflexivity|].
  cbn [compileChecks List.filter]. destruct (known c) eqn:E.
  - rewrite (compileCheck_known c E). simpl. now rewrite IH.
  - destruct (compileCheck_unknown c E) as (m & -> & _). simpl. exact IH.
Qed.

Lemma compileChecks_errors (l : list StaticCheckSpec) :
  List.map err_check (snd (compileAll l))
  = List.map check_id (List.filter (fun c => negb (known c)) l).
Proof.
  induction l as [|c rest IH]; [reflexivity|].
  cbn [compileChecks List.filter]. destruct (known c) eqn:E.
  - rewrite (compileCheck_known c E). simpl. exact IH.
  - destruct (compileCheck_unknown c E) as (m & -> & _). simpl. now rewrite IH.
Qed.

Lemma unknown_name_not_known (c : StaticCheckSpec) (n : string) :
  In n (predicates c) -> ~ In n (List.map fst vocabulary) -> known c = false.
Proof.
  intros Hin Hout. apply recognise_None in Hout.
  destruct (known c) eqn:E; [|reflexivity].
  unfold allKnown in E. rewrite forallb_forall in E. specialize (E n Hin).
  now rewrite Hout in E.
Qed.

Lemma recognise_In (name : string) (table : list (string * Predicate)) (p : Predicate) :
  recognise name table = Some p -> In (name, p) table.
Proof.
  induction table as [|[n q] rest IH]; simpl; [discriminate|].
  destruct (String.eqb n name) eqn:E.
  - apply String.eqb_eq in E. intros [= <-]. left. now subst.
  - intros H. right. now apply IH.
Qed.

(** The names of a check the compiler accepts denote variants. *)
Lemma known_variants (names : list string) :
  forallb (fun n => match recognise n vocabulary with Some _ => true | None => false end) names
  = true ->
  exists ps, Forall2 (fun name p => recognise name vocabulary = Some p) names ps.
Proof.
  induction names as [|n rest IH]; simpl.
  - exists []. constructor.
  - destruct (recognise n vocabulary) as [p|] eqn:E; [|discriminate].
    intros H. destruct (IH H) as [ps Hps]. exists (p :: ps). now constructor.
Qed.

Lemma matches_variants (c : StaticCheckSpec) (names : list string) (ps : list Predicate)
  (n : ASTNode) :
  Forall2 (fun name p => recognise name vocabulary = Some p) names ps ->
  forallb (fun name => match recognise name vocabulary with
                       | Some p => holds p n
                       | None => false
                       end) names
  = forallb (fun p => holds p n) ps.
Proof.
  induction 1 as [|name p names ps Hp _ IH]; [reflexivity|].
  simpl. now rewrite Hp, IH.
Qed.

Lemma ruleOf_variants (c : StaticCheckSpec) :
  known c = true ->
  exists ps,
    Forall2 (fun name p => In (name, p) vocabulary) (predicates c) ps
    /\ forall u, Engine.apply (ruleOf vocabulary holds c) u = (variantFindings holds c ps u, None).
Proof.
  intros Hk. destruct (known_variants (predicates c) Hk) as [ps Hps].
  exists ps. split.
  - eapply Forall2_impl; [exact Hps|]. intros name p. apply recognise_In.
  - intros u. cbn [ruleOf Engine.apply]. unfold compiledApply, variantFindings.
    f_equal. f_equal. apply List.filter_ext. intros n.
    unfold matches, matchesVariants. f_equal. now apply matches_variants.
Qed.

(** C7. A check that names a predicate outside the vocabulary compiles to a
    validation error for that check and to no rule; the rules of a playbook
    are exactly those of its checks whose predicate names are all in the
    vocabulary, in order, and its errors are one per other check.  No text
    of the playbook is evaluated: every rule the compiler emits comes from
    one check, and what it reports is decided by the target kinds and by
    variants of the vocabulary that the check's predicate names denote in
    the name table, and by nothing else. *)
Theorem unknown_predicate_is_a_compile_error (spec : PlaybookSpec) (c : StaticCheckSpec)
  (n : string) :
  In c (checks spec) ->
  In n (predicates c) ->
  ~ In n (List.map fst vocabulary) ->
  (exists m, compileOne c = inr (mkCompileError (check_id c) m)
             /\ In m (predicates c) /\ ~ In m (List.map fst vocabulary))
  /\ fst (compile vocabulary holds spec)
     = List.map (ruleOf vocabulary holds) (List.filter known (checks spec))
  /\ ~ In c (List.filter known (checks spec))
  /\ List.map err_check (snd (compile vocabulary holds spec))
     = List.map check_id (List.filter (fun c => negb (known c)) (checks spec))
  /\ In c (List.filter (fun c => negb (known c)) (checks spec))
  /\ forall r, In r (fst (compile vocabulary holds spec)) ->
       exists c' ps,
         In c' (checks spec)
         /\ Engine.id r = check_id c' /\ Engine.rule_severity r = check_severity c'
         /\ Forall2 (fun name p => In (name, p) vocabulary) (predicates c') ps
         /\ forall u, Engine.apply r u = (variantFindings holds c' ps u, None).
Proof.
  intros Hc Hn Hout.
  pose proof (unknown_name_not_known c n Hn Hout) as Hk.
  split_and!.
  - destruct (compileCheck_unknown c Hk) as (m & He & Hm & Hr).
    exists m. split_and!; auto. now apply recognise_None.
  - apply compileChecks_rules.
  - rewrite List.filter_In. intros [_ H]. congruence.
  - apply compileChecks_errors.
  - apply List.filter_In. split; [exact Hc|]. now rewrite Hk.
  - intros r Hr. unfold compile in Hr. rewrite compileChecks_rules in Hr.
    apply in_map_iff in Hr. destruct Hr as (c' & <- & Hin).
    apply List.filter_In in Hin. destruct Hin as [Hin Hk'].
    destruct (ruleOf_variants c' Hk') as (ps & Hps & Happly).
    exists c', ps. split_and!; auto.
Qed.

End CompilerFacts.

(** The sample playbook: the scripted check is refused, the other two
    compile. *)
Lemma unknown_predicate_is_a_compile_error_witness :
  In Scenario.scriptedCheck (Compiler.checks Scenario.samplePlaybook)
  /\ In "eval: node.value > 0" (Compiler.predicates Scenario.scriptedCheck)
  /\ ~ In "eval: node.value > 0" (List.map fst Scenario.sampleVocabulary)
  /\ List.map Compiler.err_check
       (snd (Compiler.compile Scenario.sampleVocabulary Scenario.sampleHolds
                              Scenario.samplePlaybook))
     = ["scripted"].
Proof.
  assert (H1 : In Scenario.scriptedCheck (Compiler.checks Scenario.samplePlaybook))
    by (right; left; reflexivity).
  assert (H2 : In "eval: node.value > 0" (Compiler.predicates Scenario.scriptedCheck))
    by (left; reflexivity).
  assert (H3 : ~ In "eval: node.value > 0" (List.map fst Scenario.sampleVocabulary)).
  { simpl. intros [H|[H|[]]]; discriminate. }
  split; [exact H1|]. split; [exact H2|]. split; [exact H3|].
  exact (proj1 (proj2 (proj2 (proj2
           (unknown_predicate_is_a_compile_error Scenario.sampleVocabulary Scenario.sampleHolds
              Scenario.samplePlaybook Scenario.scriptedCheck _ H1 H2 H3))))).
Defined.

Example compile_sample_playbook :
  List.map Engine.id
    (fst (Compiler.compile Scenario.sampleVocabulary Scenario.sampleHolds
                           Scenario.samplePlaybook))
  = ["no-value-call"; "balance-write"]
  /\ snd (Compiler.compile Scenario.sampleVocabulary Scenario.sampleHolds
                           Scenario.samplePlaybook)
     = [Compiler.mkCompileError "scripted" "eval: node.value > 0"].
Proof. split; reflexivity. Qed.

(** ** Partially valid playbooks *)
Section ParserFacts.

Import Compiler PlaybookParser.

Context {Predicate : Type}.
Variable vocabulary : list (string * Predicate).
Variable holds : Predicate -> ASTNode -> bool.

Local Abbreviation known := (allKnown vocabulary).

Lemma validateFrom_checks (l : list RawCheck) :
  forall i, fst (validateFrom i l) = accepted l.
Proof.
  induction l as [|e rest IH]; intros i; [reflexivity|].
  cbn [validateFrom accepted]. destruct (validateCheck e); cbn [fst]; now rewrite IH.
Qed.

Lemma validateFrom_wellFormed (l : list RawCheck) :
  Forall wellFormed l ->
  forall i, snd (validateFrom i l) = [] /\ List.length (accepted l) = List.length l.
Proof.
  induction 1 as [|e rest [c Hc] _ IH]; intros i; [split; reflexivity|].
  cbn [validateFrom accepted]. rewrite Hc. cbn [snd List.length].
  destruct (IH (S i)) as [He Hl]. split; [exact He|now rewrite Hl].
Qed.

Lemma validateFrom_app (a b : list RawCheck) :
  forall i, snd (validateFrom i (a ++ b))
            = snd (validateFrom i a) ++ snd (validateFrom (i + List.length a) b).
Proof.
  induction a as [|e a IH]; intros i.
  - cbn [app validateFrom snd List.length]. now rewrite Nat.add_0_r.
  - cbn [app validateFrom List.length]. destruct (validateCheck e); cbn [snd];
      rewrite IH; replace (S i + List.length a)%nat with (i + S (List.length a))%nat by lia;
      reflexivity.
Qed.

Lemma accepted_app (a b : list RawCheck) : accepted (a ++ b) = accepted a ++ accepted b.
Proof.
  induction a as [|e a IH]; [reflexivity|].
  cbn [app accepted]. destruct (validateCheck e); [|exact IH]. now rewrite IH.
Qed.

(** Every entry is looked at: each is kept as a check or reported as an
    error, under its own position. *)
Lemma validateFrom_exhaustive (l : list RawCheck) :
  forall i,
    (List.length (fst (validateFrom i l)) + List.length (snd (validateFrom i l))
     = List.length l)%nat
    /\ forall err, In err (snd (validateFrom i l)) <->
                   exists k e, l !! k = Some e /\ err_entry err = (i + k)%nat
                               /\ validateCheck e = inr (err_text err).
Proof.
  induction l as [|e rest IH]; intros i.
  - split; [reflexivity|]. intros err. split; [intros []|]. intros (k & e & Hk & _). discriminate.
  - destruct (IH (S i)) as [Hlen Hin]. cbn [validateFrom].
    destruct (validateCheck e) as [c|text] eqn:He; cbn [fst snd List.length].
    + split; [lia|]. intros err. rewrite Hin. split.
      * intros (k & e' & Hk & Hi & Hv). exists (S k), e'. split_and!; auto. lia.
      * intros ([|k] & e' & Hk & Hi & Hv).
        -- injection Hk as <-. congruence.
        -- exists k, e'. split_and!; auto. lia.
    + split; [lia|]. intros err. cbn [In]. rewrite Hin. split.
      * intros [<-|(k & e' & Hk & Hi & Hv)].
        -- exists 0%nat, e. cbn [err_entry err_text]. split_and!; auto.
        -- exists (S k), e'. split_and!; auto. lia.
      * intros ([|k] & e' & Hk & Hi & Hv).
        -- injection Hk as <-. left. destruct err as [n t]. cbn [err_entry err_text] in *.
           f_equal; [lia|congruence].
        -- right. exists k, e'. split_and!; auto. lia.
Qed.

Lemma compileChecks_known (l : list StaticCheckSpec) :
  Forall (fun c => known c = true) l ->
  compileChecks vocabulary holds l = (List.map (ruleOf vocabulary holds) l, []).
Proof.
  induction 1 as [|c rest Hc _ IH]; [reflexivity|].
  cbn [compileChecks]. rewrite (compileCheck_known vocabulary holds c Hc), IH. reflexivity.
Qed.

Lemma wellFormedFor_schema (l : list RawCheck) :
  Forall (wellFormedFor vocabulary) l ->
  Forall wellFormed l /\ Forall (fun c => known c = true) (accepted l).
Proof.
  induction 1 as [|e rest (c & Hc & Hk) _ [IHw IHk]]; [split; constructor|].
  split; [constructor; [now exists c|exact IHw]|].
  cbn [accepted]. rewrite Hc. now constructor.
Qed.

(** C3. A document with N well-formed check entries, each accepted by the
    schema and naming predicates of the vocabulary, and one malformed entry
    among them parses to a playbook that holds exactly the N checks, in
    order, with exactly one validation error, reported under the position
    of the malformed entry; an entry that lacks its severity is malformed.
    The playbook compiles to exactly N rules, one per check, with no
    compile error: never to zero rules when N is not zero.  Validation is
    exhaustive on every document: each entry is either kept as a check or
    reported under its own position. *)
Theorem partially_valid_playbook_compiles (name author : string) (pre post : list RawCheck)
  (bad : RawCheck) :
  Forall (wellFormedFor vocabulary) (pre ++ post) ->
  malformed bad ->
  let parsed := parsePlaybook (mkDocument name author (pre ++ bad :: post)) in
  let N := (List.length pre + List.length post)%nat in
  checks (fst parsed) = accepted (pre ++ post)
  /\ List.length (checks (fst parsed)) = N
  /\ (exists text, validateCheck bad = inr text
                   /\ snd parsed = [mkValidationError (List.length pre) text])
  /\ fst (compile vocabulary holds (fst parsed))
     = List.map (ruleOf vocabulary holds) (accepted (pre ++ post))
  /\ List.length (fst (compile vocabulary holds (fst parsed))) = N
  /\ snd (compile vocabulary holds (fst parsed)) = []
  /\ (N <> 0%nat -> fst (compile vocabulary holds (fst parsed)) <> [])
  /\ (forall e, raw_id e <> None -> raw_severity e = None -> malformed e)
  /\ forall d : Document,
       (List.length (checks (fst (parsePlaybook d))) + List.length (snd (parsePlaybook d))
        = List.length (doc_checks d))%nat
       /\ forall err, In err (snd (parsePlaybook d)) <->
                      exists e, doc_checks d !! err_entry err = Some e
                                /\ validateCheck e = inr (err_text err).
Proof.
  intros Hgood [text Hbad] parsed N. subst parsed N.
  destruct (wellFormedFor_schema _ Hgood) as [Hwf Hknown].
  unfold parsePlaybook. cbn [fst snd doc_checks doc_name doc_author checks].
  apply Forall_app in Hwf as [Hpre Hpost].
  assert (Hchecks : accepted (pre ++ bad :: post) = accepted (pre ++ post)).
  { rewrite !accepted_app. cbn [accepted]. now rewrite Hbad. }
  assert (Hlen : List.length (accepted (pre ++ post))
                 = (List.length pre + List.length post)%nat).
  { rewrite accepted_app, length_app.
    now rewrite (proj2 (validateFrom_wellFormed pre Hpre 0%nat)),
                (proj2 (validateFrom_wellFormed post Hpost 0%nat)). }
  rewrite validateFrom_checks, Hchecks.
  assert (Hcompile : compile vocabulary holds
                       (mkSpec name author (accepted (pre ++ post)))
                     = (List.map (ruleOf vocabulary holds) (accepted (pre ++ post)), [])).
  { unfold compile. cbn [checks]. now rewrite (compileChecks_known _ Hknown). }
  rewrite Hcompile. cbn [fst snd]. rewrite length_map. split_and!.
  - reflexivity.
  - exact Hlen.
  - exists text. split; [exact Hbad|].
    rewrite validateFrom_app. cbn [validateFrom]. rewrite Hbad. cbn [snd].
    rewrite (proj1 (validateFrom_wellFormed pre Hpre 0%nat)).
    rewrite (proj1 (validateFrom_wellFormed post Hpost _)). reflexivity.
  - reflexivity.
  - exact Hlen.
  - reflexivity.
  - intros HN Hnil.
    apply (f_equal (@List.length _)) in Hnil. rewrite length_map, Hlen in Hnil.
    cbn in Hnil. lia.
  - intros e Hid Hsev. unfold malformed, validateCheck.
    destruct (raw_id e); [|contradiction]. rewrite Hsev. eauto.
  - intros d. destruct (validateFrom_exhaustive (doc_checks d) 0%nat) as [Hl Hin].
    split; [exact Hl|]. intros err. rewrite Hin. split.
    + intros (k & e & Hk & Hi & Hv). exists e. cbn in Hi. subst k. auto.
    + intros (e & Hk & Hv). exists (err_entry err), e. auto.
Qed.

End ParserFacts.

(** A document with two well-formed checks around an entry that lacks its
    severity. *)
Lemma partially_valid_playbook_compiles_witness :
  Forall (PlaybookParser.wellFormedFor Scenario.sampleVocabulary)
         ([Scenario.goodEntry] ++ [Scenario.balanceEntry])
  /\ PlaybookParser.malformed Scenario.noSeverityEntry
  /\ snd (PlaybookParser.parsePlaybook Scenario.vaultDocument)
     = [PlaybookParser.mkValidationError 1 "missing required field: severity"]
  /\ List.map Engine.id
       (fst (Compiler.compile Scenario.sampleVocabulary Scenario.sampleHolds
               (fst (PlaybookParser.parsePlaybook Scenario.vaultDocument))))
     = ["no-value-call"; "balance-write"].
Proof.
  assert (Hwf : Forall (PlaybookParser.wellFormedFor Scenario.sampleVocabulary)
                       ([Scenario.goodEntry] ++ [Scenario.balanceEntry])).
  { repeat constructor; eexists; split; reflexivity. }
  assert (Hbad : PlaybookParser.malformed Scenario.noSeverityEntry).
  { eexists; reflexivity. }
  split; [exact Hwf|]. split; [exact Hbad|].
  pose proof (partially_valid_playbook_compiles Scenario.sampleVocabulary Scenario.sampleHolds
                "Vault checks" "team" [Scenario.goodEntry] [Scenario.balanceEntry]
                Scenario.noSeverityEntry Hwf Hbad) as H.
  cbv zeta in H. destruct H as (_ & _ & (text & Htext & Herr) & Hcompile & _).
  split.
  - injection Htext as <-. exact Herr.
  - exact (eq_trans (f_equal (List.map Engine.id) Hcompile) eq_refl).
Defined.

(** The same document, parsed and compiled. *)
Example parse_and_compile_vault_document :
  let parsed := PlaybookParser.parsePlaybook Scenario.vaultDocument in
  Compiler.checks (fst parsed) = [Scenario.goodCheck; Scenario.balanceCheck]
  /\ snd parsed = [PlaybookParser.mkValidationError 1 "missing required field: severity"]
  /\ snd (Compiler.compile Scenario.sampleVocabulary Scenario.sampleHolds (fst parsed)) = [].
Proof. vm_compute. split_and!; reflexivity. Qed.

(** ** The reentrancy rule: the search *)
Section ReentrancyFacts.

Import Reentrancy.

Lemma not_visited (n : nat) (visited : list nat) :
  Forall (fun v => (v < n)%nat) visited -> existsb (Nat.eqb n) visited = false.
Proof.
  induction 1 as [|v visited Hv _ IH]; [reflexivity|].
  simpl. rewrite IH, orb_false_r. apply Nat.eqb_neq. lia.
Qed.

Lemma arrivals_S (t : Kind * Z * Z -> bool) (bs : list Block) (fuel : nat) (visited : list nat)
  (g : bool) (b : nat) :
  arrivals t bs (S fuel) visited g b
  = if existsb (Nat.eqb b) visited then []
    else match bs !! b with
         | None => []
         | Some blk =>
             fst (walkBlock t b 0 g (stmts blk))
               ++ flat_map (fun e => arrivals t bs fuel (b :: visited)
                                              (snd (walkBlock t b 0 g (stmts blk))) (snd e))
                           (succs blk)
         end.
Proof. reflexivity. Qed.

Lemma sameArrival_eq (x y : nat * nat * bool) : sameArrival x y = true <-> x = y.
Proof.
  destruct x as [[a b] c], y as [[a' b'] c']. unfold sameArrival. cbn [fst snd].
  rewrite !andb_true_iff, !Nat.eqb_eq, Bool.eqb_true_iff. split.
  - intros [[-> ->] ->]. reflexivity.
  - intros [= -> -> ->]. auto.
Qed.

Lemma existsb_sameArrival (x : nat * nat * bool) (l : list (nat * nat * bool)) :
  existsb (sameArrival x) l = true <-> In x l.
Proof.
  rewrite existsb_exists. split.
  - intros (y & Hy & Hs). apply sameArrival_eq in Hs. now subst.
  - intros H. exists x. split; [exact H|]. now apply sameArrival_eq.
Qed.

Lemma unguardedOnly_true (pos : nat * nat) (l : list (nat * nat * bool)) :
  unguardedOnly pos l = true <-> In (pos, false) l /\ ~ In (pos, true) l.
Proof.
  unfold unguardedOnly. rewrite andb_true_iff, negb_true_iff, existsb_sameArrival.
  rewrite <- not_true_iff_false, existsb_sameArrival. tauto.
Qed.

End ReentrancyFacts.

(** ** The reentrancy rule on bodies with branches and loops *)
Section GraphFacts.

Import Reentrancy.

Variable P : Kind * Z * Z -> Prop.

Lemma oldStmts_Some (bs : list Block) (a : nat) (blk : Block) :
  bs !! a = Some blk -> oldStmts bs a = stmts blk.
Proof. unfold oldStmts. now intros ->. Qed.

Lemma oldSuccs_Some (bs : list Block) (a : nat) (blk : Block) :
  bs !! a = Some blk -> oldSuccs bs a = succs blk.
Proof. unfold oldSuccs. now intros ->. Qed.

Lemma oldStmts_None (bs : list Block) (a : nat) :
  (List.length bs <= a)%nat -> oldStmts bs a = [] /\ oldSuccs bs a = [].
Proof.
  intros H. apply lookup_ge_None in H. unfold oldStmts, oldSuccs. now rewrite H.
Qed.

(** *** How the blocks grow *)

Lemma grown_refl (c : nat) (bs : list Block) : grown P c bs bs.
Proof.
  split; [lia|]. intros a blk Ha. exists [], [].
  rewrite (oldStmts_Some _ _ _ Ha), (oldSuccs_Some _ _ _ Ha), !app_nil_r.
  split_and!; auto.
Qed.

Lemma grown_new (c : nat) (bs0 bs : list Block) (d : bool) :
  grown P c bs0 bs -> grown P c bs0 (bs ++ [emptyBlock d]).
Proof.
  intros [Hlen H]. split; [rewrite length_app; lia|]. intros a blk Ha.
  destruct (decide (a < List.length bs)%nat) as [Hlt|Hge].
  - rewrite lookup_app_l in Ha by exact Hlt. now apply H.
  - rewrite lookup_app_r in Ha by lia.
    destruct (a - List.length bs)%nat eqn:Hd; [|destruct n; discriminate].
    injection Ha as <-. exists [], [].
    destruct (oldStmts_None bs0 a ltac:(lia)) as [-> ->]. cbn.
    split_and!; auto; intros; lia.
Qed.

Lemma grown_stmt (c : nat) (bs0 bs : list Block) (x : nat) (s : Kind * Z * Z) :
  grown P c bs0 bs -> x = c \/ (List.length bs0 <= x)%nat -> P s ->
  grown P c bs0 (addStmt x s bs).
Proof.
  intros [Hlen H] Hx Hs. unfold addStmt. split; [now rewrite length_alter|].
  intros a blk Ha. destruct (decide (x = a)) as [->|Hne].
  - rewrite list_lookup_alter in Ha. destruct (decide (a = a)); [|contradiction].
    destruct (bs !! a) as [old|] eqn:Hold; [|discriminate]. injection Ha as <-.
    destruct (H a old Hold) as (l & l' & Hst & Hsu & Hl & Hl' & _).
    exists (l ++ [s])%list, l'. cbn [extend stmts succs]. rewrite Hst, Hsu, <- app_assoc.
    split_and!; auto.
    + apply Forall_app. split; [exact Hl|]. constructor; [exact Hs|constructor].
    + intros Hlt Hc. destruct Hx; [contradiction|lia].
  - rewrite list_lookup_alter_ne in Ha by exact Hne. now apply H.
Qed.

Lemma grown_edge (c : nat) (bs0 bs : list Block) (x y : nat) (lab : EdgeLabel) :
  grown P c bs0 bs -> x = c \/ (List.length bs0 <= x)%nat -> (List.length bs0 <= y)%nat ->
  grown P c bs0 (addEdge x y lab bs).
Proof.
  intros [Hlen H] Hx Hy. unfold addEdge. split; [now rewrite length_alter|].
  intros a blk Ha. destruct (decide (x = a)) as [->|Hne].
  - rewrite list_lookup_alter in Ha. destruct (decide (a = a)); [|contradiction].
    destruct (bs !! a) as [old|] eqn:Hold; [|discriminate]. injection Ha as <-.
    destruct (H a old Hold) as (l & l' & Hst & Hsu & Hl & Hl' & _).
    exists l, (l' ++ [(lab, y)])%list. cbn [stmts succs]. rewrite Hst, Hsu, <- app_assoc.
    split_and!; auto.
    + apply Forall_app. split; [exact Hl'|]. constructor; [exact Hy|constructor].
    + intros Hlt Hc. destruct Hx; [contradiction|lia].
  - rewrite list_lookup_alter_ne in Ha by exact Hne. now apply H.
Qed.

Lemma grown_trans (c c1 : nat) (bs0 bs1 bs2 : list Block) :
  grown P c bs0 bs1 -> c1 = c \/ (List.length bs0 <= c1)%nat -> grown P c1 bs1 bs2 ->
  grown P c bs0 bs2.
Proof.
  intros [Hlen1 H1] Hc [Hlen2 H2]. split; [lia|]. intros a blk2 Ha.
  destruct (H2 a blk2 Ha) as (l2 & l2' & Hst2 & Hsu2 & Hl2 & Hl2' & Hun2).
  assert (Hl2'' : Forall (fun e => (List.length bs0 <= snd e)%nat) l2').
  { eapply Forall_impl; [exact Hl2'|]. cbn. intros e He. lia. }
  destruct (bs1 !! a) as [blk1|] eqn:Hb1.
  - destruct (H1 a blk1 Hb1) as (l1 & l1' & Hst1 & Hsu1 & Hl1 & Hl1' & Hun1).
    exists (l1 ++ l2)%list, (l1' ++ l2')%list.
    rewrite Hst2, Hsu2, (oldStmts_Some _ _ _ Hb1), (oldSuccs_Some _ _ _ Hb1), Hst1, Hsu1,
      <- !app_assoc.
    split_and!; auto; try (apply Forall_app; now split).
    intros Hlt Hne. destruct (Hun1 Hlt Hne) as [-> ->].
    apply lookup_lt_Some in Hb1.
    destruct (Hun2 Hb1) as [-> ->]; [destruct Hc; [congruence|lia]|]. auto.
  - apply lookup_ge_None in Hb1.
    destruct (oldStmts_None bs1 a Hb1) as [Hs1 Hs1'].
    destruct (oldStmts_None bs0 a ltac:(lia)) as [Hs0 Hs0'].
    exists l2, l2'. rewrite Hst2, Hsu2, Hs1, Hs1', Hs0, Hs0'.
    split_and!; auto; intros; lia.
Qed.

Lemma grown_length (c : nat) (bs bs' : list Block) :
  grown P c bs bs' -> (List.length bs <= List.length bs')%nat.
Proof. now intros [H _]. Qed.

(** *** Blocks with no edge yet *)

Lemma open_lt (bs : list Block) (c : nat) : open bs c -> (c < List.length bs)%nat.
Proof. intros (blk & H & _). now apply lookup_lt_Some in H. Qed.

Lemma open_new (bs : list Block) (d : bool) :
  open (bs ++ [emptyBlock d]) (List.length bs).
Proof. exists (emptyBlock d). split; [|reflexivity]. now apply list_lookup_middle. Qed.

Lemma open_stmt (bs : list Block) (c x : nat) (s : Kind * Z * Z) :
  open bs c -> open (addStmt x s bs) c.
Proof.
  intros (blk & H & Hs). unfold addStmt, open. rewrite list_lookup_alter.
  destruct (decide (x = c)) as [->|_]; [|eauto]. rewrite H. cbn. eauto.
Qed.

Lemma open_edge (bs : list Block) (c x y : nat) (lab : EdgeLabel) :
  open bs c -> x <> c -> open (addEdge x y lab bs) c.
Proof.
  intros (blk & H & Hs) Hne. unfold addEdge, open.
  rewrite list_lookup_alter_ne by exact Hne. eauto.
Qed.

(** *** Edges and paths stay *)

Lemma keeps_refl (bs : list Block) : keeps bs bs.
Proof. intros a m H. exact H. Qed.

Lemma keeps_trans (bs bs1 bs2 : list Block) : keeps bs bs1 -> keeps bs1 bs2 -> keeps bs bs2.
Proof. intros H1 H2 a m H. apply H2, H1, H. Qed.

Lemma keeps_new (bs l : list Block) : keeps bs (bs ++ l).
Proof.
  intros a m (blk & lab & H & Hin). exists blk, lab. split; [|exact Hin].
  rewrite lookup_app_l; [exact H|]. now apply lookup_lt_Some in H.
Qed.

Lemma keeps_stmt (bs : list Block) (x : nat) (s : Kind * Z * Z) : keeps bs (addStmt x s bs).
Proof.
  intros a m (blk & lab & H & Hin). unfold addStmt, edge. rewrite list_lookup_alter.
  destruct (decide (x = a)) as [->|_]; [|eauto]. rewrite H. cbn. eauto.
Qed.

Lemma keeps_edge (bs : list Block) (x y : nat) (lab : EdgeLabel) :
  keeps bs (addEdge x y lab bs).
Proof.
  intros a m (blk & lab' & H & Hin). unfold addEdge, edge. rewrite list_lookup_alter.
  destruct (decide (x = a)) as [->|_]; [|eauto]. rewrite H. cbn.
  eexists _, lab'. split; [reflexivity|]. cbn. apply in_or_app. now left.
Qed.

Lemma keeps_grown (c : nat) (bs bs' : list Block) : grown P c bs bs' -> keeps bs bs'.
Proof.
  intros [Hlen H] a m (blk & lab & Ha & Hin).
  assert (Hlt : (a < List.length bs')%nat) by (apply lookup_lt_Some in Ha; lia).
  apply lookup_lt_is_Some in Hlt. destruct Hlt as [blk' Hb].
  destruct (H a blk' Hb) as (l & l' & _ & Hsu & _). exists blk', lab. split; [exact Hb|].
  rewrite Hsu, (oldSuccs_Some _ _ _ Ha). apply in_or_app. now left.
Qed.

Lemma edge_added (bs : list Block) (x y : nat) (lab : EdgeLabel) :
  (x < List.length bs)%nat -> edge (addEdge x y lab bs) x y.
Proof.
  intros Hlt. apply lookup_lt_is_Some in Hlt. destruct Hlt as [blk Hb].
  unfold addEdge, edge. rewrite list_lookup_alter. destruct (decide (x = x)); [|contradiction].
  rewrite Hb. cbn. eexists _, lab. split; [reflexivity|]. cbn. apply in_or_app. right. now left.
Qed.

Lemma path_keeps (bs bs' : list Block) (a b : nat) : keeps bs bs' -> path bs a b -> path bs' a b.
Proof.
  intros Hk Hp. induction Hp as [a|a m b He Hlt _ IH]; [constructor|].
  apply path_edge with m; auto.
Qed.

Lemma path_trans (bs : list Block) (a b c : nat) : path bs a b -> path bs b c -> path bs a c.
Proof.
  intros Hp Hq. induction Hp as [a|a m b He Hlt _ IH]; [exact Hq|].
  apply path_edge with m; auto.
Qed.

Lemma path_one (bs : list Block) (a m : nat) : edge bs a m -> (a < m)%nat -> path bs a m.
Proof. intros He Hlt. apply path_edge with m; [exact He|exact Hlt|constructor]. Qed.

Lemma length_addStmt (bs : list Block) (x : nat) (s : Kind * Z * Z) :
  List.length (addStmt x s bs) = List.length bs.
Proof. apply length_alter. Qed.

Lemma length_addEdge (bs : list Block) (x y : nat) (lab : EdgeLabel) :
  List.length (addEdge x y lab bs) = List.length bs.
Proof. apply length_alter. Qed.

Lemma length_new (bs : list Block) (d : bool) :
  List.length (bs ++ [emptyBlock d]) = S (List.length bs).
Proof. rewrite length_app. cbn. lia. Qed.

(** *** The builder, statement by statement *)

Lemma Stmt_nested_ind (Q : Stmt -> Prop) :
  (forall k ln col, Q (Simple k ln col)) ->
  (forall ln col thenArm elseArm,
      Forall Q thenArm -> Forall Q elseArm -> Q (IfElse ln col thenArm elseArm)) ->
  (forall ln col body, Forall Q body -> Q (Loop ln col body)) ->
  forall s, Q s.
Proof.
  intros HS HI HL. fix go 1. intros [k ln col|ln col thenArm elseArm|ln col body].
  - apply HS.
  - apply HI.
    + induction thenArm as [|x r IH]; constructor; [apply go|exact IH].
    + induction elseArm as [|x r IH]; constructor; [apply go|exact IH].
  - apply HL. induction body as [|x r IH]; constructor; [apply go|exact IH].
Qed.

Lemma arm_is_buildList (ss : list Stmt) :
  forall g,
    (fix go (ss : list Stmt) (g : Builder) {struct ss} : Builder :=
       match ss with
       | [] => g
       | s' :: rest => go rest (buildStmt s' g)
       end) ss g
    = buildList ss g.
Proof. induction ss as [|s ss IH]; intros g; [reflexivity|]. cbn. apply IH. Qed.

Lemma buildStmt_IfElse (ln col : Z) (thenArm elseArm : list Stmt) (g : Builder) :
  buildStmt (IfElse ln col thenArm elseArm) g
  = let bs := fst (liveCursor g) in
    let cur := snd (liveCursor g) in
    let t0 := List.length bs in
    let gt := buildList thenArm
                (mkBuilder (addEdge cur t0 ETrue (bs ++ [emptyBlock false])) (Some t0)
                           (exitBlocks g)) in
    let e0 := List.length (built gt) in
    let ge := buildList elseArm
                (mkBuilder (addEdge cur e0 EFalse (built gt ++ [emptyBlock false])) (Some e0)
                           (exitBlocks gt)) in
    match cursor gt, cursor ge with
    | None, None => mkBuilder (built ge) None (exitBlocks ge)
    | ct, ce =>
        let j := List.length (built ge) in
        let bs := (built ge ++ [emptyBlock false])%list in
        let bs := match ct with Some x => addEdge x j ENormal bs | None => bs end in
        let bs := match ce with Some x => addEdge x j ENormal bs | None => bs end in
        mkBuilder bs (Some j) (exitBlocks ge)
    end.
Proof.
  cbn [buildStmt]. destruct (liveCursor g) as [bs cur]. cbn [fst snd].
  rewrite !arm_is_buildList. reflexivity.
Qed.

Lemma buildStmt_Loop (ln col : Z) (body : list Stmt) (g : Builder) :
  buildStmt (Loop ln col body) g
  = let bs := fst (liveCursor g) in
    let cur := snd (liveCursor g) in
    let hd := List.length bs in
    let bs := addEdge cur hd ENormal (bs ++ [emptyBlock false]) in
    let b0 := List.length bs in
    let gb := buildList body (mkBuilder (addEdge hd b0 ETrue (bs ++ [emptyBlock false]))
                                        (Some b0) (exitBlocks g)) in
    let bs := match cursor gb with
              | Some x => addEdge x hd ELoopBack (built gb)
              | None => built gb
              end in
    let x := List.length bs in
    mkBuilder (addEdge hd x EFalse (bs ++ [emptyBlock false])) (Some x) (exitBlocks gb).
Proof.
  cbn [buildStmt]. destruct (liveCursor g) as [bs cur]. cbn [fst snd].
  rewrite !arm_is_buildList. reflexivity.
Qed.

Lemma live_facts (g : Builder) :
  wf g ->
  grown P (liveAt g) (built g) (fst (liveCursor g))
  /\ open (fst (liveCursor g)) (liveAt g)
  /\ keeps (built g) (fst (liveCursor g))
  /\ (forall c, cursor g = Some c -> c = liveAt g)
  /\ (List.length (built g) <= List.length (fst (liveCursor g)))%nat.
Proof.
  intros Hwf. unfold liveAt, liveCursor. destruct (cursor g) as [c|] eqn:Hc; cbn [fst snd].
  - split_and!; [apply grown_refl|now apply Hwf|apply keeps_refl|now intros ? [= ->]|lia].
  - split_and!; [apply grown_new, grown_refl|apply open_new|apply keeps_new|discriminate|].
    rewrite length_new. lia.
Qed.

Lemma builds_wf (e : bool) (g g' : Builder) : builds P e g g' -> wf g'.
Proof. intros (_ & H & _) c Hc. now apply H. Qed.

Lemma liveAt_Some (g : Builder) (c : nat) : cursor g = Some c -> liveAt g = c.
Proof. unfold liveAt, liveCursor. now intros ->. Qed.

Lemma liveAt_None (g : Builder) : cursor g = None -> liveAt g = List.length (built g).
Proof. unfold liveAt, liveCursor. now intros ->. Qed.

Lemma builds_refl (g : Builder) : wf g -> builds P false g g.
Proof.
  intros Hwf. split_and!.
  - apply grown_refl.
  - intros c Hc. split; [left; symmetry; now apply liveAt_Some|now apply Hwf].
  - intros _ c Hc. exists c. split; [exact Hc|constructor].
Qed.

Lemma builds_trans (e1 e2 : bool) (g g1 g2 : Builder) :
  builds P e1 g g1 -> builds P e2 g1 g2 -> builds P (e1 || e2) g g2.
Proof.
  intros (G1 & C1 & P1) (G2 & C2 & P2).
  assert (Hat : liveAt g1 = liveAt g \/ (List.length (built g) <= liveAt g1)%nat).
  { destruct (cursor g1) as [c1|] eqn:Hc1.
    - rewrite (liveAt_Some _ _ Hc1). now apply C1.
    - rewrite (liveAt_None _ Hc1). right. now apply grown_length in G1. }
  split_and!.
  - exact (grown_trans _ _ _ _ _ G1 Hat G2).
  - intros c' Hc'. destruct (C2 c' Hc') as [Hwhere Hopen]. split; [|exact Hopen].
    destruct Hwhere as [->|Hge]; [exact Hat|]. right. apply grown_length in G1. lia.
  - intros He c Hc. apply orb_false_iff in He as [He1 He2].
    destruct (P1 He1 c Hc) as (c1 & Hc1 & Hp1).
    destruct (P2 He2 c1 Hc1) as (c2 & Hc2 & Hp2).
    exists c2. split; [exact Hc2|].
    apply path_trans with c1; [|exact Hp2].
    apply path_keeps with (built g1); [now apply keeps_grown in G2|exact Hp1].
Qed.

Lemma buildSimple_builds (k : Kind) (ln col : Z) (g : Builder) :
  wf g -> P (k, ln, col) ->
  builds P (leaves (Simple k ln col)) g (buildSimple k ln col g).
Proof.
  intros Hwf Hs. destruct (live_facts g Hwf) as (G0 & O0 & K0 & C0 & L0).
  unfold builds, buildSimple. unfold liveAt in *. revert G0 O0 K0 C0 L0.
  destruct (liveCursor g) as [bs cur]. cbn [fst snd]. intros G0 O0 K0 C0 L0.
  pose proof (open_lt _ _ O0) as Hcur.
  pose proof (grown_stmt cur _ _ cur (k, ln, col) G0 (or_introl eq_refl) Hs) as G1.
  pose proof (length_addStmt bs cur (k, ln, col)) as Hlen.
  set (bs1 := addStmt cur (k, ln, col) bs) in *.
  assert (Hsplit :
    grown P cur (built g) (addEdge cur (List.length bs1) ENormal (bs1 ++ [emptyBlock false]))
    /\ (forall c', Some (List.length bs1) = Some c' ->
          (c' = cur \/ (List.length (built g) <= c')%nat)
          /\ open (addEdge cur (List.length bs1) ENormal (bs1 ++ [emptyBlock false])) c')
    /\ (false = false -> forall c, cursor g = Some c ->
          exists c', Some (List.length bs1) = Some c'
                     /\ path (addEdge cur (List.length bs1) ENormal
                                      (bs1 ++ [emptyBlock false])) c c')).
  { split_and!.
    - apply grown_edge; [apply grown_new, G1|now left|lia].
    - intros c' [= <-]. split; [right; lia|]. apply open_edge; [apply open_new|lia].
    - intros _ c Hc. apply C0 in Hc. subst c. eexists. split; [reflexivity|].
      apply path_one; [|lia]. apply edge_added. rewrite length_new. lia. }
  assert (Hstay :
    grown P cur (built g) bs1
    /\ (forall c', Some cur = Some c' ->
          (c' = cur \/ (List.length (built g) <= c')%nat) /\ open bs1 c')
    /\ (false = false -> forall c, cursor g = Some c ->
          exists c', Some cur = Some c' /\ path bs1 c c')).
  { split_and!.
    - exact G1.
    - intros c' [= <-]. split; [now left|]. apply open_stmt, O0.
    - intros _ c Hc. apply C0 in Hc. subst c. exists cur. split; [reflexivity|constructor]. }
  destruct k; cbn [leaves built cursor]; try exact Hsplit; try exact Hstay.
  split_and!; [exact G1|discriminate|discriminate].
Qed.

Lemma buildList_builds_from (ss : list Stmt) :
  Forall (fun s => Forall P (stmtsOf s) ->
                   forall g, wf g -> builds P (leaves s) g (buildStmt s g)) ss ->
  Forall P (flat_map stmtsOf ss) ->
  forall g, wf g -> builds P (existsb leaves ss) g (buildList ss g).
Proof.
  induction 1 as [|s ss Hs _ IH]; intros HP g Hwf.
  - now apply builds_refl.
  - cbn [flat_map] in HP. apply Forall_app in HP as [HPs HPss]. cbn [existsb].
    change (buildList (s :: ss) g) with (buildList ss (buildStmt s g)).
    eapply builds_trans; [now apply Hs|]. apply IH; [exact HPss|].
    eapply builds_wf. now apply Hs.
Qed.

(** The arms of a branch joined: what the join block and its edges add. *)
Lemma joined (bs0 : list Block) (cur : nat) (bsE : list Block) (ct ce : option nat) :
  grown P cur bs0 bsE ->
  (forall x, ct = Some x -> (List.length bs0 <= x < List.length bsE)%nat) ->
  (forall y, ce = Some y -> (List.length bs0 <= y < List.length bsE)%nat) ->
  let j := List.length bsE in
  let F :=
    match ce with
    | Some y =>
        addEdge y j ENormal
                match ct with
                | Some x => addEdge x j ENormal (bsE ++ [emptyBlock false])
                | None => (bsE ++ [emptyBlock false])%list
                end
    | None =>
        match ct with
        | Some x => addEdge x j ENormal (bsE ++ [emptyBlock false])
        | None => (bsE ++ [emptyBlock false])%list
        end
    end in
  grown P cur bs0 F /\ open F j /\ keeps bsE F
  /\ (forall x, ct = Some x -> edge F x j)
  /\ (forall y, ce = Some y -> edge F y j).
Proof.
  intros G Hx Hy j F. pose proof (grown_length _ _ _ G) as Hlen.
  pose proof (grown_new _ _ _ false G) as GJ.
  pose proof (open_new bsE false) as OJ.
  pose proof (keeps_new bsE [emptyBlock false]) as KJ.
  pose proof (length_new bsE false) as LJ.
  subst F. destruct ct as [x|], ce as [y|];
    try (pose proof (Hx _ eq_refl) as Hbx); try (pose proof (Hy _ eq_refl) as Hby).
  - split_and!.
    + apply grown_edge; [apply grown_edge; [exact GJ|right; lia|lia]|right; lia|lia].
    + apply open_edge; [apply open_edge; [exact OJ|lia]|lia].
    + eapply keeps_trans; [exact KJ|]. eapply keeps_trans; apply keeps_edge.
    + intros ? [= <-]. apply keeps_edge, edge_added. fold j. lia.
    + intros ? [= <-]. apply edge_added. rewrite length_addEdge. fold j. lia.
  - split_and!.
    + apply grown_edge; [exact GJ|right; lia|lia].
    + apply open_edge; [exact OJ|lia].
    + eapply keeps_trans; [exact KJ|]. apply keeps_edge.
    + intros ? [= <-]. apply edge_added. fold j. lia.
    + discriminate.
  - split_and!.
    + apply grown_edge; [exact GJ|right; lia|lia].
    + apply open_edge; [exact OJ|lia].
    + eapply keeps_trans; [exact KJ|]. apply keeps_edge.
    + discriminate.
    + intros ? [= <-]. apply edge_added. fold j. lia.
  - split_and!; [exact GJ|exact OJ|exact KJ|discriminate|discriminate].
Qed.

Lemma buildStmt_builds (s : Stmt) :
  Forall P (stmtsOf s) -> forall g, wf g -> builds P (leaves s) g (buildStmt s g).
Proof.
  induction s as [k ln col|ln col thenArm elseArm IHt IHe|ln col body IHb]
    using Stmt_nested_ind; intros HP g Hwf.
  - apply buildSimple_builds; [exact Hwf|]. now inversion HP.
  - cbn [stmtsOf] in HP. apply Forall_app in HP as [HPt HPe].
    rewrite buildStmt_IfElse. cbv zeta.
    destruct (live_facts g Hwf) as (G0 & O0 & K0 & C0 & L0).
    unfold builds. unfold liveAt in *. revert G0 O0 K0 C0 L0.
    destruct (liveCursor g) as [bs cur]. cbn [fst snd]. intros G0 O0 K0 C0 L0.
    pose proof (open_lt _ _ O0) as Hcur.
    set (bst := addEdge cur (List.length bs) ETrue (bs ++ [emptyBlock false])).
    assert (Lt : List.length bst = S (List.length bs))
      by (unfold bst; now rewrite length_addEdge, length_new).
    assert (G1 : grown P cur (built g) bst)
      by (apply grown_edge; [now apply grown_new|now left|lia]).
    set (g_t := mkBuilder bst (Some (List.length bs)) (exitBlocks g)).
    assert (Wt : wf g_t).
    { intros c [= <-]. apply open_edge; [apply open_new|lia]. }
    destruct (buildList_builds_from thenArm IHt HPt g_t Wt) as (Gt & Ct & Pt).
    change (liveAt g_t) with (List.length bs) in Gt, Ct.
    change (built g_t) with bst in Gt, Ct. change (cursor g_t) with (Some (List.length bs)) in Pt.
    set (gt := buildList thenArm g_t) in *.
    pose proof (grown_length _ _ _ Gt) as Lgt.
    assert (G2 : grown P cur (built g) (built gt))
      by (apply grown_trans with (List.length bs) bst; [exact G1|right; lia|exact Gt]).
    set (bse := addEdge cur (List.length (built gt)) EFalse (built gt ++ [emptyBlock false])).
    assert (Le : List.length bse = S (List.length (built gt)))
      by (unfold bse; now rewrite length_addEdge, length_new).
    assert (G3 : grown P cur (built g) bse)
      by (apply grown_edge; [now apply grown_new|now left|lia]).
    set (g_e := mkBuilder bse (Some (List.length (built gt))) (exitBlocks gt)).
    assert (We : wf g_e).
    { intros c [= <-]. apply open_edge; [apply open_new|lia]. }
    destruct (buildList_builds_from elseArm IHe HPe g_e We) as (Ge & Ce & Pe).
    change (liveAt g_e) with (List.length (built gt)) in Ge, Ce.
    change (built g_e) with bse in Ge, Ce.
    change (cursor g_e) with (Some (List.length (built gt))) in Pe.
    set (ge := buildList elseArm g_e) in *.
    pose proof (grown_length _ _ _ Ge) as Lge.
    assert (G4 : grown P cur (built g) (built ge))
      by (apply grown_trans with (List.length (built gt)) bse; [exact G3|right; lia|exact Ge]).
    assert (Hx : forall x, cursor gt = Some x ->
                           (List.length (built g) <= x < List.length (built ge))%nat).
    { intros x Hc. destruct (Ct x Hc) as [Hw Ho]. apply open_lt in Ho. lia. }
    assert (Hy : forall y, cursor ge = Some y ->
                           (List.length (built g) <= y < List.length (built ge))%nat).
    { intros y Hc. destruct (Ce y Hc) as [Hw Ho]. apply open_lt in Ho. lia. }
    assert (Kse : keeps bse (built ge)) by now apply keeps_grown in Ge.
    assert (Kgt : keeps (built gt) (built ge)).
    { eapply keeps_trans; [|exact Kse]. eapply keeps_trans; [apply keeps_new|apply keeps_edge]. }
    assert (Kst : keeps bst (built ge)).
    { eapply keeps_trans; [|exact Kgt]. now apply keeps_grown in Gt. }
    assert (Et : edge (built ge) cur (List.length bs)).
    { apply Kst, edge_added. rewrite length_new. lia. }
    assert (Ee : edge (built ge) cur (List.length (built gt))).
    { apply Kse, edge_added. rewrite length_new. lia. }
    pose proof (joined (built g) cur (built ge) (cursor gt) (cursor ge) G4 Hx Hy) as HJ.
    cbv zeta in HJ. revert HJ Hx Hy Pt Pe.
    destruct (cursor gt) as [x|], (cursor ge) as [y|];
      intros (GF & OF & KF & EFx & EFy) Hx Hy Pt Pe; cbn [built cursor];
      (split_and!;
       [first [exact GF|exact G4]
       |first [discriminate|intros c' [= <-]; split; [right; lia|exact OF]]
       |]);
      intros He c Hc; apply C0 in Hc; subst c; cbn [leaves] in He;
      apply andb_false_iff in He as [He|He].
    all: try (destruct (Pt He _ eq_refl) as (x' & Hx' & Hp);
              first
                [discriminate Hx'
                |pose proof (Hx _ Hx') as Hbx;
                 eexists; split; [reflexivity|];
                 apply path_edge with (List.length bs); [apply KF, Et|lia|];
                 apply path_trans with x'; [apply (path_keeps (built gt)); [|exact Hp];
                                             eapply keeps_trans; [exact Kgt|exact KF]|];
                 apply path_one; [now apply EFx|lia]]).
    all: try (destruct (Pe He _ eq_refl) as (y' & Hy' & Hp);
              first
                [discriminate Hy'
                |pose proof (Hy _ Hy') as Hby;
                 eexists; split; [reflexivity|];
                 apply path_edge with (List.length (built gt)); [apply KF, Ee|lia|];
                 apply path_trans with y'; [apply (path_keeps (built ge)); [exact KF|exact Hp]|];
                 apply path_one; [now apply EFy|lia]]).
  - cbn [stmtsOf] in HP. rewrite buildStmt_Loop. cbv zeta.
    destruct (live_facts g Hwf) as (G0 & O0 & K0 & C0 & L0).
    unfold builds. unfold liveAt in *. revert G0 O0 K0 C0 L0.
    destruct (liveCursor g) as [bs cur]. cbn [fst snd]. intros G0 O0 K0 C0 L0.
    pose proof (open_lt _ _ O0) as Hcur.
    set (bs1 := addEdge cur (List.length bs) ENormal (bs ++ [emptyBlock false])).
    assert (L1 : List.length bs1 = S (List.length bs))
      by (unfold bs1; now rewrite length_addEdge, length_new).
    assert (G1 : grown P cur (built g) bs1)
      by (apply grown_edge; [now apply grown_new|now left|lia]).
    set (bsb := addEdge (List.length bs) (List.length bs1) ETrue (bs1 ++ [emptyBlock false])).
    assert (Lb : List.length bsb = S (List.length bs1))
      by (unfold bsb; now rewrite length_addEdge, length_new).
    assert (G2 : grown P cur (built g) bsb)
      by (apply grown_edge; [now apply grown_new|right; lia|lia]).
    set (g_b := mkBuilder bsb (Some (List.length bs1)) (exitBlocks g)).
    assert (Wb : wf g_b).
    { intros c [= <-]. apply open_edge; [apply open_new|lia]. }
    destruct (buildList_builds_from body IHb HP g_b Wb) as (Gb & Cb & _).
    change (liveAt g_b) with (List.length bs1) in Gb, Cb.
    change (built g_b) with bsb in Gb, Cb.
    set (gb := buildList body g_b) in *.
    pose proof (grown_length _ _ _ Gb) as Lgb.
    assert (G3 : grown P cur (built g) (built gb))
      by (apply grown_trans with (List.length bs1) bsb; [exact G2|right; lia|exact Gb]).
    set (bs2 := match cursor gb with
                | Some x => addEdge x (List.length bs) ELoopBack (built gb)
                | None => built gb
                end).
    assert (H2 : grown P cur (built g) bs2 /\ List.length bs2 = List.length (built gb)
                 /\ keeps (built gb) bs2).
    { unfold bs2. destruct (cursor gb) as [x|] eqn:Hx.
      - destruct (Cb x eq_refl) as [Hw Ho].
        split_and!; [|apply length_addEdge|apply keeps_edge].
        apply grown_edge; [exact G3|right; lia|lia].
      - split_and!; [exact G3|reflexivity|apply keeps_refl]. }
    destruct H2 as (G4 & L2 & K2). cbn [built cursor leaves].
    split_and!.
    + apply grown_edge; [now apply grown_new|right; lia|lia].
    + intros c' [= <-]. split; [right; lia|]. apply open_edge; [apply open_new|lia].
    + intros _ c Hc. apply C0 in Hc. subst c. eexists. split; [reflexivity|].
      apply path_edge with (List.length bs); [|lia|].
      * apply keeps_edge, keeps_new, K2. apply (keeps_grown _ _ _ Gb).
        apply keeps_edge, keeps_new, edge_added. rewrite length_new. lia.
      * apply path_one; [|lia]. apply edge_added. rewrite length_new. lia.
Qed.

Lemma buildList_builds (ss : list Stmt) :
  Forall P (flat_map stmtsOf ss) ->
  forall g, wf g -> builds P (existsb leaves ss) g (buildList ss g).
Proof.
  apply buildList_builds_from. apply Forall_forall. intros s _. apply buildStmt_builds.
Qed.

Lemma buildList_app (a b : list Stmt) (g : Builder) :
  buildList (a ++ b) g = buildList b (buildList a g).
Proof. unfold buildList. apply fold_left_app. Qed.

End GraphFacts.

(** *** The search on any graph *)
Section SearchFacts.

Import Reentrancy.

Variable t : Kind * Z * Z -> bool.

Lemma walkBlock_snd (b : nat) (l : list (Kind * Z * Z)) :
  forall i g, snd (walkBlock t b i g l) = g || existsb isToggle l.
Proof.
  induction l as [|s l IH]; intros i g; cbn [walkBlock snd existsb].
  - now rewrite orb_false_r.
  - rewrite IH. now rewrite orb_assoc.
Qed.

Lemma walkBlock_in (b : nat) (l : list (Kind * Z * Z)) :
  forall i g x,
    In x (fst (walkBlock t b i g l)) ->
    exists k s, x = (b, (i + k)%nat, g || existsb isToggle (take k l))
                /\ l !! k = Some s /\ t s = true.
Proof.
  induction l as [|s l IH]; intros i g x; cbn [walkBlock fst]; [intros []|].
  rewrite in_app_iff. intros [Hx|Hx].
  - destruct (t s) eqn:Hs; [|destruct Hx]. destruct Hx as [<-|[]].
    exists 0%nat, s. cbn. rewrite Nat.add_0_r, orb_false_r. auto.
  - destruct (IH _ _ _ Hx) as (k & s' & -> & Hk & Hs'). exists (S k), s'.
    cbn [take existsb lookup]. rewrite orb_assoc.
    replace (i + S k)%nat with (S i + k)%nat by lia. auto.
Qed.

Lemma walkBlock_finds (b : nat) (l : list (Kind * Z * Z)) :
  forall i g k s,
    l !! k = Some s -> t s = true ->
    In (b, (i + k)%nat, g || existsb isToggle (take k l)) (fst (walkBlock t b i g l)).
Proof.
  induction l as [|s0 l IH]; intros i g k s Hk Hs; [discriminate|].
  cbn [walkBlock fst]. apply in_or_app. destruct k as [|k].
  - injection Hk as ->. rewrite Hs. left. cbn. rewrite Nat.add_0_r, orb_false_r. now left.
  - right. cbn [take existsb]. rewrite orb_assoc.
    replace (i + S k)%nat with (S i + k)%nat by lia. now apply IH with s.
Qed.

Lemma walkBlock_no_target (b : nat) (l : list (Kind * Z * Z)) :
  existsb t l = false -> forall i g, fst (walkBlock t b i g l) = [].
Proof.
  induction l as [|s l IH]; intros Hl i g; [reflexivity|].
  cbn [existsb] in Hl. apply orb_false_iff in Hl as [Hs Hl].
  cbn [walkBlock fst]. rewrite Hs. now apply IH.
Qed.

Lemma flat_map_nil {A B : Type} (f : A -> list B) (l : list A) :
  (forall x, In x l -> f x = []) -> flat_map f l = [].
Proof.
  induction l as [|x l IH]; intros H; [reflexivity|].
  cbn [flat_map]. rewrite (H x (or_introl eq_refl)). apply IH.
  intros y Hy. apply H. now right.
Qed.

Lemma existsb_take {A : Type} (p : A -> bool) (l : list A) (k : nat) :
  existsb p l = false -> existsb p (take k l) = false.
Proof.
  revert k. induction l as [|x l IH]; intros [|k] H; try reflexivity.
  cbn [existsb] in H. apply orb_false_iff in H as [Hx Hl].
  cbn [take existsb]. rewrite Hx. now apply IH.
Qed.

Lemma existsb_take_le {A : Type} (p : A -> bool) (l : list A) (k k' : nat) :
  (k' <= k)%nat -> existsb p (take k l) = false -> existsb p (take k' l) = false.
Proof.
  intros Hle H. replace k' with (min k' k) by lia. rewrite <- take_take.
  now apply existsb_take.
Qed.

(** Past a block from which every edge leads on, and where no block holds a
    target, the search meets nothing. *)
Lemma arrivals_none (bs : list Block) (n : nat) :
  (forall a blk, (n <= a)%nat -> bs !! a = Some blk ->
                 existsb t (stmts blk) = false
                 /\ Forall (fun e => (n <= snd e)%nat) (succs blk)) ->
  forall fuel visited g b, (n <= b)%nat -> arrivals t bs fuel visited g b = [].
Proof.
  intros Hbs. induction fuel as [|fuel IH]; intros visited g b Hb; [reflexivity|].
  rewrite arrivals_S. destruct (existsb (Nat.eqb b) visited); [reflexivity|].
  destruct (bs !! b) as [blk|] eqn:Hblk; [|reflexivity].
  destruct (Hbs b blk Hb Hblk) as [Hno Hsu].
  rewrite (walkBlock_no_target _ _ Hno). cbn [app]. apply flat_map_nil.
  intros e He. apply IH. rewrite List.Forall_forall in Hsu. now apply Hsu.
Qed.

(** Where a guard toggle can have been met: only in a region that no edge
    leaves, or in block [c1] from index [k] on. *)
Lemma arrivals_unguarded (bs : list Block) (n1 c1 k : nat) :
  (forall a blk, bs !! a = Some blk -> (n1 <= a)%nat ->
                 Forall (fun e => (n1 <= snd e)%nat) (succs blk)) ->
  (forall a blk, bs !! a = Some blk -> (a < n1)%nat -> a <> c1 ->
                 existsb isToggle (stmts blk) = false) ->
  (forall blk, bs !! c1 = Some blk ->
               existsb isToggle (take k (stmts blk)) = false
               /\ Forall (fun e => (n1 <= snd e)%nat) (succs blk)) ->
  forall fuel visited g b x,
    g = false \/ (n1 <= b)%nat ->
    In x (arrivals t bs fuel visited g b) ->
    snd x = false \/ (n1 <= fst (fst x))%nat \/ (fst (fst x) = c1 /\ (k <= snd (fst x))%nat).
Proof.
  intros HS HT HC. induction fuel as [|fuel IH]; intros visited g b x Hg; [intros []|].
  rewrite arrivals_S. destruct (existsb (Nat.eqb b) visited); [intros []|].
  destruct (bs !! b) as [blk|] eqn:Hblk; [|intros []].
  rewrite in_app_iff, in_flat_map, walkBlock_snd. intros [Hx|(e & He & Hx)].
  - destruct (walkBlock_in _ _ _ _ _ Hx) as (k' & s & -> & Hk' & Hs). cbn [fst snd].
    destruct (decide (n1 <= b)%nat) as [Hge|Hlt]; [auto|].
    destruct Hg as [->|Hg]; [|lia]. cbn [orb].
    destruct (decide (b = c1)) as [->|Hne].
    + destruct (decide (k <= k')%nat) as [Hk|Hk]; [auto|]. left.
      apply existsb_take_le with k; [lia|]. now apply HC.
    + left. apply existsb_take. apply (HT b); [exact Hblk|lia|exact Hne].
  - refine (IH _ _ _ _ _ Hx).
    destruct (decide (n1 <= b)%nat) as [Hge|Hlt].
    + right. pose proof (HS b blk Hblk Hge) as Hsu. rewrite List.Forall_forall in Hsu.
      now apply Hsu.
    + destruct Hg as [->|Hg]; [|lia]. cbn [orb].
      destruct (decide (b = c1)) as [->|Hne].
      * right. destruct (HC blk Hblk) as [_ Hsu]. rewrite List.Forall_forall in Hsu.
        now apply Hsu.
      * left. apply (HT b); [exact Hblk|lia|exact Hne].
Qed.

Lemma path_le (bs : list Block) (a b : nat) : path bs a b -> (a <= b)%nat.
Proof. induction 1; lia. Qed.

(** A target at the end of a path is met. *)
Lemma arrivals_complete (bs : list Block) (a b : nat) :
  path bs a b ->
  forall fuel visited g blk k s,
    Forall (fun v => (v < a)%nat) visited ->
    (b - a < fuel)%nat ->
    bs !! b = Some blk -> stmts blk !! k = Some s -> t s = true ->
    exists g', In (b, k, g') (arrivals t bs fuel visited g a).
Proof.
  induction 1 as [a|a m b He Hlt Hp IH]; intros fuel visited g blk k s Hvis Hfuel Hb Hk Hs.
  - destruct fuel as [|fuel]; [lia|]. rewrite arrivals_S, (not_visited _ _ Hvis), Hb.
    eexists. apply in_or_app. left. apply (walkBlock_finds a (stmts blk) 0 g k s Hk Hs).
  - pose proof (path_le _ _ _ Hp) as Hle.
    destruct fuel as [|fuel]; [lia|]. rewrite arrivals_S, (not_visited _ _ Hvis).
    destruct He as (blk0 & lab & Ha & Hin). rewrite Ha.
    destruct (IH fuel (a :: visited) (snd (walkBlock t a 0 g (stmts blk0))) blk k s)
      as (g' & Hg'); auto; [|lia|].
    + constructor; [exact Hlt|]. eapply Forall_impl; [exact Hvis|]. cbn. intros. lia.
    + exists g'. apply in_or_app. right. apply in_flat_map. exists (lab, m). auto.
Qed.

End SearchFacts.

(** *** The findings of a graph with one external call *)
Section OneCall.

Import Reentrancy.

Variable file : string.

Lemma indexed_app (l1 l2 : list (Kind * Z * Z)) :
  forall i, indexed i (l1 ++ l2) = indexed i l1 ++ indexed (i + List.length l1) l2.
Proof.
  induction l1 as [|s l1 IH]; intros i; cbn [app indexed List.length].
  - now rewrite Nat.add_0_r.
  - rewrite IH. now replace (S i + List.length l1)%nat with (i + S (List.length l1))%nat by lia.
Qed.

Lemma indexed_no_call {B : Type} (f : nat * (Kind * Z * Z) -> list B) (l : list (Kind * Z * Z)) :
  (forall x, isCall (snd x) = false -> f x = []) ->
  existsb isCall l = false -> forall i, flat_map f (indexed i l) = [].
Proof.
  intros Hf. induction l as [|s l IH]; intros Hl i; [reflexivity|].
  cbn [existsb] in Hl. apply orb_false_iff in Hl as [Hs Hl].
  cbn [indexed flat_map]. rewrite (Hf (i, s) Hs). now apply IH.
Qed.

Lemma checkBlock_none (g : CFG) (b : nat) (blk : Block) :
  existsb isCall (stmts blk) = false -> checkBlock file g b blk = [].
Proof.
  intros H. unfold checkBlock. apply indexed_no_call; [|exact H].
  intros x Hx. now rewrite Hx.
Qed.

Lemma checkBlock_last (g : CFG) (b : nat) (blk : Block) (s1 : list (Kind * Z * Z))
  (ln col : Z) :
  stmts blk = s1 ++ [(ExternalCall, ln, col)] -> existsb isCall s1 = false ->
  checkBlock file g b blk
  = if flagged g b (List.length s1) then [mkIssue ruleId ruleMessage error file ln col] else [].
Proof.
  intros Hs H1. unfold checkBlock. rewrite Hs, indexed_app, flat_map_app.
  rewrite indexed_no_call; [|intros x Hx; now rewrite Hx|exact H1].
  cbn. now rewrite app_nil_r.
Qed.

Lemma checkBlocks_none (g : CFG) (l : list Block) :
  (forall a blk, l !! a = Some blk -> existsb isCall (stmts blk) = false) ->
  forall k, checkBlocks file g k l = [].
Proof.
  induction l as [|blk l IH]; intros H k; [reflexivity|].
  cbn [checkBlocks]. rewrite (checkBlock_none g k blk (H 0%nat blk eq_refl)).
  apply IH. intros a blk' Ha. exact (H (S a) blk' Ha).
Qed.

(** One block ends in the only external call of the graph. *)
Lemma checkBlocks_single (g : CFG) (l : list Block) :
  forall k b blk s1 ln col,
    l !! b = Some blk ->
    stmts blk = s1 ++ [(ExternalCall, ln, col)] -> existsb isCall s1 = false ->
    (forall a blk', a <> b -> l !! a = Some blk' -> existsb isCall (stmts blk') = false) ->
    checkBlocks file g k l
    = if flagged g (k + b) (List.length s1)
      then [mkIssue ruleId ruleMessage error file ln col] else [].
Proof.
  induction l as [|blk0 l IH]; intros k b blk s1 ln col Hb Hs H1 Hother; [discriminate|].
  cbn [checkBlocks]. destruct b as [|b].
  - injection Hb as ->. rewrite (checkBlock_last g k blk s1 ln col Hs H1), Nat.add_0_r.
    rewrite checkBlocks_none; [now rewrite app_nil_r|].
    intros a blk' Ha. exact (Hother (S a) blk' ltac:(lia) Ha).
  - rewrite (checkBlock_none g k blk0 (Hother 0%nat blk0 ltac:(lia) eq_refl)). cbn [app].
    rewrite (IH (S k) b blk s1 ln col Hb Hs H1).
    + now replace (S k + b)%nat with (k + S b)%nat by lia.
    + intros a blk' Hne Ha. apply (Hother (S a) blk'); [lia|exact Ha].
Qed.

(** The call is not flagged when nothing past its block is a sensitive
    write. *)
Lemma flagged_no_write (g : CFG) (b i n0 : nat) (blk : Block) :
  blocks g !! b = Some blk -> succs blk = [(ENormal, n0)] ->
  (forall a blk', (n0 <= a)%nat -> blocks g !! a = Some blk' ->
                  existsb isSensitiveWrite (stmts blk') = false
                  /\ Forall (fun e => (n0 <= snd e)%nat) (succs blk')) ->
  flagged g b i = false.
Proof.
  intros Hb Hsu Hpast. unfold flagged. rewrite Hb, Hsu. cbn [flat_map snd].
  rewrite (arrivals_none isSensitiveWrite (blocks g) n0 Hpast) by lia.
  cbn. apply andb_false_r.
Qed.

(** The call is flagged when it is reached from the entry, a sensitive
    write is reached from it, and no guard toggle can have been met on the
    way to either. *)
Lemma flagged_reached (g : CFG) (b i n0 c kW n1 : nat) (blk blkc : Block)
  (call write : Kind * Z * Z) :
  entry g = 0%nat ->
  blocks g !! b = Some blk -> succs blk = [(ENormal, n0)] ->
  stmts blk !! i = Some call -> isCall call = true ->
  blocks g !! c = Some blkc ->
  stmts blkc !! kW = Some write -> isSensitiveWrite write = true ->
  path (blocks g) 0 b -> path (blocks g) n0 c ->
  (b < n1)%nat -> (c < n1)%nat -> b <> c ->
  (forall a blk', blocks g !! a = Some blk' -> (n1 <= a)%nat ->
                  Forall (fun e => (n1 <= snd e)%nat) (succs blk')) ->
  (forall a blk', blocks g !! a = Some blk' -> (a < n1)%nat -> a <> c ->
                  existsb isToggle (stmts blk') = false) ->
  (forall blk', blocks g !! c = Some blk' ->
                existsb isToggle (take (S kW) (stmts blk')) = false
                /\ Forall (fun e => (n1 <= snd e)%nat) (succs blk')) ->
  flagged g b i = true.
Proof.
  intros He Hb Hsu Hi Hcall Hc Hk Hw Pb Pc Hbn Hcn Hbc HS HT HC.
  pose proof (lookup_lt_Some _ _ _ Hb) as Hblen.
  pose proof (lookup_lt_Some _ _ _ Hc) as Hclen.
  unfold flagged. rewrite Hb, Hsu, He. cbn [flat_map snd]. rewrite app_nil_r.
  apply andb_true_iff. split.
  - apply unguardedOnly_true.
    assert (Hun : forall x, In x (arrivals isCall (blocks g) (List.length (blocks g)) [] false 0)
                            -> fst x = (b, i) -> snd x = false).
    { intros [[b' i'] g'] Hx [= -> ->].
      destruct (arrivals_unguarded isCall _ n1 c (S kW) HS HT HC _ _ _ _ _
                  (or_introl eq_refl) Hx) as [H|[H|[H _]]]; cbn [fst snd] in H;
        [exact H|lia|contradiction]. }
    destruct (arrivals_complete isCall _ _ _ Pb (List.length (blocks g)) [] false blk i call)
      as (g' & Hg'); auto; [lia|].
    pose proof (Hun _ Hg' eq_refl) as Hf. cbn [snd] in Hf. subst g'.
    split; [exact Hg'|]. intros Ht. now pose proof (Hun _ Ht eq_refl).
  - apply existsb_exists.
    assert (Hun : forall x,
               In x (arrivals isSensitiveWrite (blocks g) (List.length (blocks g)) [] false n0)
               -> fst x = (c, kW) -> snd x = false).
    { intros [[b' i'] g'] Hx [= -> ->].
      destruct (arrivals_unguarded isSensitiveWrite _ n1 c (S kW) HS HT HC _ _ _ _ _
                  (or_introl eq_refl) Hx) as [H|[H|[_ H]]]; cbn [fst snd] in H;
        [exact H|lia|lia]. }
    destruct (arrivals_complete isSensitiveWrite _ _ _ Pc (List.length (blocks g)) [] false
                blkc kW write) as (g' & Hg'); auto; [lia|].
    pose proof (Hun _ Hg' eq_refl) as Hf. cbn [snd] in Hf. subst g'.
    exists (c, kW, false). split; [exact Hg'|]. cbn [fst]. apply unguardedOnly_true.
    split; [exact Hg'|]. intros Ht. now pose proof (Hun _ Ht eq_refl).
Qed.

End OneCall.

(** *** What growing keeps *)
Section GrownFacts.

Import Reentrancy.

Lemma grown_impl (P Q : Kind * Z * Z -> Prop) (c : nat) (bs bs' : list Block) :
  (forall s, P s -> Q s) -> grown P c bs bs' -> grown Q c bs bs'.
Proof.
  intros HPQ [Hlen H]. split; [exact Hlen|]. intros a blk Ha.
  destruct (H a blk Ha) as (l & l' & Hst & Hsu & Hl & Hl' & Hun).
  exists l, l'. split_and!; auto. eapply Forall_impl; [exact Hl|exact HPQ].
Qed.

Lemma builds_impl (P Q : Kind * Z * Z -> Prop) (e : bool) (g g' : Builder) :
  (forall s, P s -> Q s) -> builds P e g g' -> builds Q e g g'.
Proof.
  intros HPQ (G & C & Pa). split_and!; [|exact C|exact Pa]. now apply grown_impl with P.
Qed.

Variable P : Kind * Z * Z -> Prop.

Lemma grown_stmts_but (b c : nat) (bs bs' : list Block) :
  grown P c bs bs' ->
  (forall a blk, a <> b -> bs !! a = Some blk -> Forall P (stmts blk)) ->
  forall a blk', a <> b -> bs' !! a = Some blk' -> Forall P (stmts blk').
Proof.
  intros [Hlen H] Hold a blk' Hne Ha.
  destruct (H a blk' Ha) as (l & l' & Hst & _ & Hl & _). rewrite Hst.
  apply Forall_app. split; [|exact Hl]. unfold oldStmts.
  destruct (bs !! a) as [blk|] eqn:Hb; [now apply (Hold a)|constructor].
Qed.

Lemma grown_stmts (c : nat) (bs bs' : list Block) :
  grown P c bs bs' ->
  (forall a blk, bs !! a = Some blk -> Forall P (stmts blk)) ->
  forall a blk', bs' !! a = Some blk' -> Forall P (stmts blk').
Proof.
  intros [Hlen H] Hold a blk' Ha.
  destruct (H a blk' Ha) as (l & l' & Hst & _ & Hl & _). rewrite Hst.
  apply Forall_app. split; [|exact Hl]. unfold oldStmts.
  destruct (bs !! a) as [blk|] eqn:Hb; [now apply (Hold a)|constructor].
Qed.

Lemma grown_untouched (b c : nat) (bs bs' : list Block) (blk : Block) :
  grown P c bs bs' -> bs !! b = Some blk -> b <> c ->
  exists blk', bs' !! b = Some blk' /\ stmts blk' = stmts blk /\ succs blk' = succs blk.
Proof.
  intros [Hlen H] Hb Hne. pose proof (lookup_lt_Some _ _ _ Hb) as Hlt.
  destruct (lookup_lt_is_Some_2 bs' b ltac:(lia)) as [blk' Hb'].
  destruct (H b blk' Hb') as (l & l' & Hst & Hsu & _ & _ & Hun).
  destruct (Hun Hlt Hne) as [-> ->]. exists blk'.
  rewrite Hst, Hsu, (oldStmts_Some _ _ _ Hb), (oldSuccs_Some _ _ _ Hb), !app_nil_r. auto.
Qed.

Lemma grown_cursor (c : nat) (bs bs' : list Block) (blk : Block) :
  grown P c bs bs' -> bs !! c = Some blk ->
  exists blk' l l',
    bs' !! c = Some blk' /\ stmts blk' = stmts blk ++ l /\ succs blk' = succs blk ++ l'
    /\ Forall P l /\ Forall (fun e => (List.length bs <= snd e)%nat) l'.
Proof.
  intros [Hlen H] Hb. pose proof (lookup_lt_Some _ _ _ Hb) as Hlt.
  destruct (lookup_lt_is_Some_2 bs' c ltac:(lia)) as [blk' Hb'].
  destruct (H c blk' Hb') as (l & l' & Hst & Hsu & Hl & Hl' & _).
  exists blk', l, l'.
  rewrite Hst, Hsu, (oldStmts_Some _ _ _ Hb), (oldSuccs_Some _ _ _ Hb). auto.
Qed.

Lemma grown_past (c a : nat) (bs bs' : list Block) (blk' : Block) :
  grown P c bs bs' -> (List.length bs <= a)%nat -> bs' !! a = Some blk' ->
  Forall P (stmts blk') /\ Forall (fun e => (List.length bs <= snd e)%nat) (succs blk').
Proof.
  intros [Hlen H] Hge Ha.
  destruct (H a blk' Ha) as (l & l' & Hst & Hsu & Hl & Hl' & _).
  destruct (oldStmts_None bs a Hge) as [Hs Hs']. rewrite Hst, Hsu, Hs, Hs'. auto.
Qed.

End GrownFacts.

(** *** The graph around an external call *)
Section CallStep.

Import Reentrancy.

Lemma live_others (g : Builder) (a : nat) (blk : Block) :
  a <> liveAt g -> fst (liveCursor g) !! a = Some blk -> built g !! a = Some blk.
Proof.
  unfold liveAt, liveCursor. destruct (cursor g) as [c|]; cbn [fst snd]; [auto|].
  intros Hne Ha. pose proof (lookup_lt_Some _ _ _ Ha) as Hlt. rewrite length_new in Hlt.
  rewrite lookup_app_l in Ha by lia. exact Ha.
Qed.

Lemma live_old (g : Builder) (blk : Block) :
  fst (liveCursor g) !! liveAt g = Some blk -> oldStmts (built g) (liveAt g) = stmts blk.
Proof.
  unfold liveAt, liveCursor, oldStmts. destruct (cursor g) as [c|]; cbn [fst snd].
  - now intros ->.
  - intros H. rewrite list_lookup_middle in H by reflexivity. injection H as <-.
    now rewrite (proj2 (lookup_ge_None _ _) (le_n _)).
Qed.

Lemma call_step (g : Builder) (ln col : Z) :
  wf g ->
  let bs := fst (liveCursor g) in
  let b := liveAt g in
  let g1 := buildSimple ExternalCall ln col g in
  cursor g1 = Some (List.length bs)
  /\ List.length (built g1) = S (List.length bs)
  /\ (b < List.length bs)%nat
  /\ (exists blk1,
        built g1 !! b = Some blk1
        /\ stmts blk1 = oldStmts (built g) b ++ [(ExternalCall, ln, col)]
        /\ succs blk1 = [(ENormal, List.length bs)])
  /\ built g1 !! List.length bs = Some (emptyBlock false)
  /\ (forall a blk, a <> b -> (a < List.length bs)%nat ->
                    built g1 !! a = Some blk -> built g !! a = Some blk).
Proof.
  intros Hwf bs b g1.
  destruct (live_facts (fun _ => True) g Hwf) as (_ & (blk0 & Hb0 & Hs0) & _ & _ & _).
  fold bs b in Hb0. pose proof (lookup_lt_Some _ _ _ Hb0) as Hlt.
  pose proof (live_old g blk0 Hb0) as Hold. fold b in Hold.
  assert (Hg1 : g1 = mkBuilder (addEdge b (List.length bs) ENormal
                                        (addStmt b (ExternalCall, ln, col) bs
                                           ++ [emptyBlock false]))
                               (Some (List.length bs)) (exitBlocks g)).
  { subst g1 bs b. unfold buildSimple, liveAt. destruct (liveCursor g) as [bs cur].
    cbn [fst snd]. now rewrite length_addStmt. }
  rewrite Hg1. cbn [built cursor]. unfold addEdge, addStmt. split_and!.
  - reflexivity.
  - now rewrite length_alter, length_app, length_alter, Nat.add_comm.
  - exact Hlt.
  - eexists. split_and!.
    + rewrite list_lookup_alter. destruct (decide (b = b)); [|contradiction].
      rewrite lookup_app_l by now rewrite length_alter.
      rewrite list_lookup_alter. destruct (decide (b = b)); [|contradiction].
      rewrite Hb0. reflexivity.
    + cbn. now rewrite Hold.
    + cbn. now rewrite Hs0.
  - rewrite list_lookup_alter_ne by lia.
    apply list_lookup_middle. now rewrite length_alter.
  - intros a blk Hne Ha. rewrite list_lookup_alter_ne by auto.
    rewrite lookup_app_l by now rewrite length_alter.
    rewrite list_lookup_alter_ne by auto. now apply live_others.
Qed.

End CallStep.

Lemma existsb_false_Forall {A : Type} (t : A -> bool) (l : list A) :
  existsb t l = false <-> Forall (fun s => t s = false) l.
Proof.
  induction l as [|x l IH]; cbn [existsb].
  - split; [constructor|reflexivity].
  - rewrite orb_false_iff, IH. split.
    + intros [Hx Hl]. now constructor.
    + intros H. inversion H. auto.
Qed.

Section AroundCall.

Import Reentrancy.

Variable file : string.
Variables before after : list Stmt.
Variables ln col : Z.

Hypothesis Hbefore : mentions isCall before = false.
Hypothesis Hafter : mentions isCall after = false.

Let start : Builder := mkBuilder [emptyBlock false] (Some 0%nat) [].
Let g0 : Builder := buildList before start.
Let g1 : Builder := buildSimple ExternalCall ln col g0.
Let g2 : Builder := buildList after g1.
Let b : nat := liveAt g0.
Let n0 : nat := List.length (fst (liveCursor g0)).
Let G : CFG := buildCFG (before ++ Simple ExternalCall ln col :: after).

Lemma start_wf : wf (mkBuilder [emptyBlock false] (Some 0%nat) []).
Proof. intros c [= <-]. exists (emptyBlock false). split; reflexivity. Qed.

Lemma built_from_start (P : Kind * Z * Z -> Prop) (ss : list Stmt) :
  Forall P (flat_map stmtsOf ss) ->
  let g := buildList ss (mkBuilder [emptyBlock false] (Some 0%nat) []) in
  builds P (existsb leaves ss) (mkBuilder [emptyBlock false] (Some 0%nat) []) g
  /\ wf g
  /\ forall a blk, built g !! a = Some blk -> Forall P (stmts blk).
Proof.
  intros HP g. pose proof (buildList_builds P ss HP _ start_wf) as B. fold g in B.
  split_and!; [exact B|exact (builds_wf P _ _ _ B)|].
  destruct B as (Gr & _ & _). apply (grown_stmts P _ _ _ Gr).
  intros [|a] blk; [intros [= <-]; constructor|discriminate].
Qed.

Lemma around_wf : wf g0 /\ wf g1.
Proof.
  pose proof (built_from_start (fun _ => True) before) as (_ & W0 & _).
  { apply Forall_forall. auto. }
  split; [exact W0|].
  destruct (call_step g0 ln col W0) as (Hc & _ & _ & _ & He & _).
  intros c Hcur. fold g1 in Hc, He. rewrite Hc in Hcur. injection Hcur as <-.
  exists (emptyBlock false). split; [exact He|reflexivity].
Qed.

Lemma around_blocks : blocks G = built g2 /\ entry G = 0%nat.
Proof.
  unfold G, buildCFG. rewrite buildList_app.
  change (buildList (Simple ExternalCall ln col :: after) ?g)
    with (buildList after (buildSimple ExternalCall ln col g)).
  split; reflexivity.
Qed.

Lemma around_grown (P : Kind * Z * Z -> Prop) :
  Forall P (flat_map stmtsOf after) ->
  builds P (existsb leaves after) g1 g2 /\ liveAt g1 = n0 /\ List.length (built g1) = S n0.
Proof.
  intros HP. destruct around_wf as [W0 W1].
  destruct (call_step g0 ln col W0) as (Hc & Hl & _).
  split_and!; [now apply buildList_builds|now apply liveAt_Some|exact Hl].
Qed.

(** The block of the call: the statements before it, the call, and one
    edge, to the block opened after it. *)
Lemma around_call_block :
  (b < n0)%nat
  /\ exists blk,
       blocks G !! b = Some blk
       /\ stmts blk = oldStmts (built g0) b ++ [(ExternalCall, ln, col)]
       /\ succs blk = [(ENormal, n0)].
Proof.
  destruct around_wf as [W0 W1].
  destruct (call_step g0 ln col W0) as (Hc & Hl & Hlt & (blk1 & Hb1 & Hs1 & Hsu1) & _).
  split; [exact Hlt|].
  destruct (around_grown (fun _ => True)) as ((Gr & _) & Hat & _).
  { apply Forall_forall. auto. }
  rewrite Hat in Gr.
  destruct (grown_untouched _ b n0 _ _ blk1 Gr Hb1) as (blk & Hb & Hs & Hsu);
    [fold b n0 in Hlt; lia|].
  exists blk. rewrite (proj1 around_blocks), Hs, Hsu. auto.
Qed.

Lemma around_no_other_call :
  existsb isCall (oldStmts (built g0) b) = false
  /\ forall a blk, a <> b -> blocks G !! a = Some blk -> existsb isCall (stmts blk) = false.
Proof.
  destruct around_wf as [W0 W1].
  apply existsb_false_Forall in Hbefore, Hafter.
  destruct (built_from_start _ before Hbefore) as (_ & _ & H0). fold start g0 in H0.
  destruct (call_step g0 ln col W0) as (Hc & Hl & Hlt & _ & He & Ho).
  fold g1 b n0 in Hc, Hl, Hlt, He, Ho.
  split.
  - apply existsb_false_Forall. unfold oldStmts.
    destruct (built g0 !! b) as [blk|] eqn:Hb; [now apply (H0 b)|constructor].
  - intros a blk Hne Ha. apply existsb_false_Forall.
    destruct (around_grown _ Hafter) as ((Gr & _) & Hat & _).
    rewrite (proj1 around_blocks) in Ha.
    apply (grown_stmts_but _ b _ _ _ Gr) with a; [|exact Hne|exact Ha].
    intros a' blk' Hne' Ha'. pose proof (lookup_lt_Some _ _ _ Ha') as Hlt'.
    rewrite Hl in Hlt'. destruct (decide (a' = n0)) as [->|Hn].
    + rewrite He in Ha'. injection Ha' as <-. constructor.
    + apply (H0 a'). apply Ho; [exact Hne'|lia|exact Ha'].
Qed.

(** The rule on the function: the finding on the call, if it is flagged. *)
Lemma around_findings :
  checkCFG file G
  = if flagged G b (List.length (oldStmts (built g0) b))
    then [mkIssue ruleId ruleMessage error file ln col] else [].
Proof.
  destruct around_call_block as (_ & blk & Hb & Hs & _).
  destruct around_no_other_call as (H1 & Hother).
  unfold checkCFG.
  exact (checkBlocks_single file G (blocks G) 0 b blk _ ln col Hb Hs H1 Hother).
Qed.

(** The blocks past the call hold the statements after it, and their edges
    stay past the call. *)
Lemma around_past (P : Kind * Z * Z -> Prop) :
  Forall P (flat_map stmtsOf after) ->
  forall a blk, (n0 <= a)%nat -> blocks G !! a = Some blk ->
                Forall P (stmts blk) /\ Forall (fun e => (n0 <= snd e)%nat) (succs blk).
Proof.
  intros HP a blk Hge Ha. destruct around_wf as [W0 W1].
  destruct (call_step g0 ln col W0) as (_ & Hl & _ & _ & He & _). fold g1 n0 in Hl, He.
  destruct (around_grown P HP) as ((Gr & _) & Hat & _). rewrite Hat in Gr.
  rewrite (proj1 around_blocks) in Ha.
  assert (Hweak : forall l, Forall (fun e => (List.length (built g1) <= snd e)%nat) l ->
                            Forall (fun e : EdgeLabel * nat => (n0 <= snd e)%nat) l).
  { intros l Hlf. eapply Forall_impl; [exact Hlf|]. cbn. intros. lia. }
  destruct (decide (a = n0)) as [->|Hne].
  - destruct (grown_cursor _ _ _ _ _ Gr He) as (blk' & l & l' & Hb' & Hs & Hsu & Hl1 & Hl2).
    rewrite Ha in Hb'. injection Hb' as <-. rewrite Hs, Hsu. cbn. auto.
  - destruct (grown_past _ n0 a _ _ blk Gr ltac:(lia) Ha) as [H1 H2]. auto.
Qed.

End AroundCall.

Section CallThenWrite.

Import Reentrancy.

Lemma mentions_app (t : Kind * Z * Z -> bool) (a c : list Stmt) :
  mentions t (a ++ c) = mentions t a || mentions t c.
Proof. unfold mentions. now rewrite flat_map_app, existsb_app. Qed.

Lemma mentions_cons (t : Kind * Z * Z -> bool) (k : Kind) (ln col : Z) (ss : list Stmt) :
  mentions t (Simple k ln col :: ss) = t (k, ln, col) || mentions t ss.
Proof. reflexivity. Qed.

Variable file : string.
Variables pre mid post : list Stmt.
Variables ln col ln' col' : Z.

(** With the write moved before the call and no sensitive write left after
    it, the call is not flagged. *)
Lemma no_write_after_call (before after : list Stmt) :
  mentions isCall before = false -> mentions isCall after = false ->
  mentions isSensitiveWrite after = false ->
  checkCFG file (buildCFG (before ++ Simple ExternalCall ln col :: after)) = [].
Proof.
  intros Hb Ha Hw. rewrite (around_findings file before after ln col Hb Ha).
  destruct (around_call_block before after ln col) as (_ & blk & Hblk & _ & Hsu).
  rewrite (flagged_no_write _ _ _ _ blk Hblk Hsu); [reflexivity|].
  intros a blk' Hge Hblk'. apply existsb_false_Forall in Hw.
  destruct (around_past before after ln col _ Hw a blk' Hge Hblk') as [H1 H2].
  split; [now apply existsb_false_Forall|exact H2].
Qed.

Hypothesis Hpre : mentions isToggle pre = false.
Hypothesis Hmid : mentions isToggle mid = false.
Hypothesis Lpre : existsb leaves pre = false.
Hypothesis Lmid : existsb leaves mid = false.

Let start : Builder := mkBuilder [emptyBlock false] (Some 0%nat) [].
Let g0 : Builder := buildList pre start.
Let after : list Stmt := mid ++ Simple (StateWrite true) ln' col' :: post.
Let G : CFG := buildCFG (pre ++ Simple ExternalCall ln col :: after).

(** The call is reached from the entry, the write from the call, and no
    guard toggle lies on the way: the call is flagged. *)
Lemma call_then_write_flagged :
  flagged G (liveAt g0) (List.length (oldStmts (built g0) (liveAt g0))) = true.
Proof.
  set (PT := fun s : Kind * Z * Z => isToggle s = false).
  set (g1 := buildSimple ExternalCall ln col g0).
  set (gm := buildList mid g1).
  set (g3 := buildSimple (StateWrite true) ln' col' gm).
  set (g4 := buildList post g3).
  apply existsb_false_Forall in Hpre, Hmid.
  destruct (built_from_start PT pre Hpre) as (B0 & W0 & T0). fold start g0 in B0, W0, T0.
  destruct (around_wf pre ln col) as [_ W1]. fold start g0 g1 in W1.
  destruct (call_step g0 ln col W0) as (Hc1 & Hl1 & Hlt & _). fold g1 in Hc1, Hl1.
  set (n0 := List.length (fst (liveCursor g0))) in *.
  pose proof (buildSimple_builds PT ExternalCall ln col g0 W0 eq_refl) as Bc. fold g1 in Bc.
  pose proof (buildList_builds PT mid Hmid g1 W1) as Bm. fold gm in Bm.
  pose proof (builds_wf _ _ _ _ Bm) as Wm.
  pose proof (buildSimple_builds PT (StateWrite true) ln' col' gm Wm eq_refl) as Bw.
  fold g3 in Bw. cbn [leaves] in Bw, Bc.
  pose proof (builds_wf _ _ _ _ Bw) as W3.
  assert (Bp : builds (fun _ => True) (existsb leaves post) g3 g4).
  { apply buildList_builds; [|exact W3]. apply Forall_forall. auto. }
  assert (HG : blocks G = built g4 /\ entry G = 0%nat).
  { unfold G, after, buildCFG. rewrite buildList_app.
    change (buildList (Simple ExternalCall ln col :: ?l) ?g)
      with (buildList l (buildSimple ExternalCall ln col g)).
    rewrite buildList_app.
    change (buildList (Simple (StateWrite true) ln' col' :: ?l) ?g)
      with (buildList l (buildSimple (StateWrite true) ln' col' g)).
    split; reflexivity. }
  destruct HG as [HG He].
  (* no guard toggle before the write *)
  assert (T3 : forall a blk, built g3 !! a = Some blk -> existsb isToggle (stmts blk) = false).
  { intros a blk Ha. apply existsb_false_Forall.
    pose proof (builds_trans PT _ _ _ _ _ B0
                  (builds_trans PT _ _ _ _ _ Bc (builds_trans PT _ _ _ _ _ Bm Bw)))
      as (Gr & _).
    revert a blk Ha. apply (grown_stmts PT _ _ _ Gr).
    intros [|a] blk; [intros [= <-]; constructor|discriminate]. }
  (* the cursors *)
  destruct B0 as (Gr0 & _ & P0). destruct (P0 Lpre 0%nat eq_refl) as (b & Hb & Pb).
  pose proof (liveAt_Some _ _ Hb) as Hat0. rewrite Hat0 in *.
  destruct Bm as (Grm & Cm & Pm). destruct (Pm Lmid _ Hc1) as (c & Hc & Pc).
  destruct (Cm c Hc) as [Hcw (blk2 & Hblk2 & Hsu2)].
  rewrite (liveAt_Some _ _ Hc1), Hl1 in Hcw.
  pose proof (lookup_lt_Some _ _ _ Hblk2) as Hclt.
  pose proof (grown_length _ _ _ _ Grm) as Lm. rewrite Hl1 in Lm.
  (* the block of the write *)
  assert (Hg3 : g3 = mkBuilder (addStmt c (StateWrite true, ln', col') (built gm)) (Some c)
                               (exitBlocks gm)).
  { unfold g3, buildSimple, liveCursor. now rewrite Hc. }
  assert (Hblk3 : built g3 !! c
                  = Some (mkBlock (stmts blk2 ++ [(StateWrite true, ln', col')]) []
                                  (isDead blk2))).
  { rewrite Hg3. cbn [built]. unfold addStmt. rewrite list_lookup_alter.
    destruct (decide (c = c)); [|contradiction]. rewrite Hblk2. cbn. unfold extend.
    now rewrite Hsu2. }
  assert (L3 : List.length (built g3) = List.length (built gm))
    by (rewrite Hg3; apply length_addStmt).
  assert (Hat3 : liveAt g3 = c) by (apply liveAt_Some; now rewrite Hg3).
  destruct Bp as (Grp & _ & _). rewrite Hat3 in Grp.
  destruct (grown_cursor _ _ _ _ _ Grp Hblk3) as (blkc & l & l' & Hblkc & Hsc & Hsuc & _ & Hl').
  cbn [stmts succs] in Hsc, Hsuc.
  (* the paths stay *)
  assert (K3 : keeps (built g3) (built g4)) by exact (keeps_grown _ _ _ _ Grp).
  assert (Km : keeps (built gm) (built g4)).
  { eapply keeps_trans; [|exact K3]. destruct Bw as (Gw & _). exact (keeps_grown _ _ _ _ Gw). }
  assert (K0 : keeps (built g0) (built g4)).
  { eapply keeps_trans; [|exact Km]. eapply keeps_trans; [|exact (keeps_grown _ _ _ _ Grm)].
    destruct Bc as (Gc & _). exact (keeps_grown _ _ _ _ Gc). }
  destruct (around_call_block pre after ln col) as (_ & blk & Hblk & Hs & Hsu).
  fold start g0 G n0 in Hblk, Hs, Hsu. rewrite Hat0 in Hblk, Hs.
  apply (flagged_reached G b _ n0 c (List.length (stmts blk2)) (List.length (built g3))
                         blk blkc (ExternalCall, ln, col) (StateWrite true, ln', col')).
  - exact He.
  - exact Hblk.
  - exact Hsu.
  - rewrite Hs. now apply list_lookup_middle.
  - reflexivity.
  - now rewrite HG.
  - rewrite Hsc, <- app_assoc. now apply list_lookup_middle.
  - reflexivity.
  - rewrite HG. exact (path_keeps _ _ _ _ K0 Pb).
  - rewrite HG. exact (path_keeps _ _ _ _ Km Pc).
  - lia.
  - lia.
  - lia.
  - intros a blk' Ha Hge. rewrite HG in Ha.
    exact (proj2 (grown_past _ _ a _ _ blk' Grp Hge Ha)).
  - intros a blk' Ha Hlt' Hne. rewrite HG in Ha.
    destruct (lookup_lt_is_Some_2 (built g3) a Hlt') as [blka Hblka].
    destruct (grown_untouched _ a c _ _ blka Grp Hblka Hne) as (blk'' & Hb'' & Hs'' & _).
    rewrite Ha in Hb''. injection Hb'' as <-. rewrite Hs''. now apply (T3 a).
  - intros blk' Ha. rewrite HG, Hblkc in Ha. injection Ha as <-. split.
    + rewrite Hsc. rewrite take_app_length'; [|rewrite length_app; cbn; lia].
      exact (T3 c _ Hblk3).
    + rewrite Hsuc. exact Hl'.
Qed.

End CallThenWrite.




(** The rule evaluated: an early return in a branch before the call and a
    loop between the call and the write leave the finding. *)
Example reentrancy_through_branch_and_loop :
  Reentrancy.ruleFindings "Vault.sol" ""
    (Reentrancy.mkFunction "withdraw"
       [Reentrancy.IfElse 1 5 [Reentrancy.Simple Reentrancy.Exit 2 9] [];
        Reentrancy.Simple Reentrancy.ExternalCall 3 5;
        Reentrancy.Loop 4 5 [Reentrancy.Simple Reentrancy.Opaque 5 9];
        Reentrancy.Simple (Reentrancy.StateWrite true) 6 5])
  = [mkIssue Reentrancy.ruleId Reentrancy.ruleMessage error "Vault.sol" 3 5].
Proof. vm_compute. reflexivity. Qed.

(** A single guarded path to the write clears the finding. *)
Example reentrancy_cleared_by_one_guarded_path :
  Reentrancy.ruleFindings "Vault.sol" ""
    (Reentrancy.mkFunction "withdraw"
       [Reentrancy.Simple Reentrancy.ExternalCall 1 5;
        Reentrancy.IfElse 2 5 [Reentrancy.Simple Reentrancy.GuardToggle 3 9] [];
        Reentrancy.Simple (Reentrancy.StateWrite true) 4 5])
  = [].
Proof. vm_compute. reflexivity. Qed.

(** A write before the call in the text is reached after it through the
    back edge of a loop. *)
Example reentrancy_around_a_loop :
  Reentrancy.ruleFindings "Vault.sol" ""
    (Reentrancy.mkFunction "withdraw"
       [Reentrancy.Loop 1 5 [Reentrancy.Simple (Reentrancy.StateWrite true) 2 9;
                             Reentrancy.Simple Reentrancy.ExternalCall 3 9]])
  = [mkIssue Reentrancy.ruleId Reentrancy.ruleMessage error "Vault.sol" 3 9].
Proof. vm_compute. reflexivity. Qed.

(** ** The reporter, beyond the summary *)
Section ReporterMore.

Import Reporter ReportView Ordering.

Lemma existsb_countSeverity (s : Severity) (l : list Issue) :
  existsb (fun i => Severity_eqb (severity i) s) l = (0 <? countSeverity s l)%nat.
Proof.
  unfold countSeverity. induction l as [|i l IH]; [reflexivity|].
  simpl. destruct (Severity_eqb (severity i) s); simpl; [reflexivity|exact IH].
Qed.

Lemma countSeverity_perm (s : Severity) (l l' : list Issue) :
  Permutation l l' -> countSeverity s l = countSeverity s l'.
Proof.
  unfold countSeverity. induction 1 as [|x l l' _ IH|x y l|l l' l'' _ IH1 _ IH2]; simpl.
  - reflexivity.
  - destruct (Severity_eqb (severity x) s); simpl; congruence.
  - destruct (Severity_eqb (severity x) s), (Severity_eqb (severity y) s); reflexivity.
  - congruence.
Qed.

Lemma getSummary_perm (r r' : Reporter.t) :
  Permutation (issues r) (issues r') -> getSummary r = getSummary r'.
Proof.
  intros H. unfold getSummary. rewrite !fold_bump. simpl.
  now rewrite (Permutation_length H), !(countSeverity_perm _ _ _ H).
Qed.

Lemma hasErrors_errorCount (r : Reporter.t) :
  hasErrors r = (0 <? errorCount (getSummary r))%nat.
Proof.
  unfold hasErrors, getSummary. rewrite fold_bump. simpl. apply existsb_countSeverity.
Qed.

(** X1. [hasErrors] and [getSummary] agree: the reporter has errors exactly
    when the summary counts at least one, whatever was added or cleared
    before. *)
Theorem hasErrors_iff_errorCount (r : Reporter.t) :
  hasErrors r = true <-> (0 < errorCount (getSummary r))%nat.
Proof. rewrite hasErrors_errorCount. apply Nat.ltb_lt. Qed.

Variable localeCompare : string -> string -> Z.

Local Abbreviation cmpR := (compareIssues localeCompare).
Local Abbreviation before := (locationBefore localeCompare).

Lemma printReport_issues (r : Reporter.t) :
  issues (fst (printReport localeCompare r)) = sortBy cmpR (issues r).
Proof. unfold printReport. destruct (issues r) eqn:H; [exact H|reflexivity]. Qed.

(** X2. The sort of [printReport] is in place, but it only reorders: the
    reporter holds the same issues afterwards, so the summary and
    [hasErrors], which the task reads after printing, are what they were
    before, whatever the collation does. *)
Theorem printReport_keeps_summary (r : Reporter.t) :
  Permutation (issues r) (issues (fst (printReport localeCompare r)))
  /\ getSummary (fst (printReport localeCompare r)) = getSummary r
  /\ hasErrors (fst (printReport localeCompare r)) = hasErrors r.
Proof.
  assert (H : Permutation (issues r) (issues (fst (printReport localeCompare r)))).
  { rewrite printReport_issues. apply sortBy_perm. }
  split; [exact H|]. split.
  - symmetry. now apply getSummary_perm.
  - rewrite !hasErrors_errorCount. now rewrite (getSummary_perm _ _ H).
Qed.

(** *** File headers *)

Lemma fileHeaders_app (a b : list Line) : fileHeaders (a ++ b) = fileHeaders a ++ fileHeaders b.
Proof.
  induction a as [|x a IH]; [reflexivity|].
  destruct x; simpl; now rewrite IH.
Qed.

Lemma fileHeaders_summary (s : ReportSummary) : fileHeaders (printSummary s) = [].
Proof.
  unfold printSummary.
  destruct (0 <? errorCount s)%nat, (0 <? warningCount s)%nat, (0 <? infoCount s)%nat;
    reflexivity.
Qed.

Lemma fileHeaders_grouped_cons (cf : string) (i : Issue) (l : list Issue) :
  fileHeaders (printGrouped cf (i :: l))
  = (if String.eqb (file i) cf then [] else [file i])
      ++ fileHeaders (printGrouped (file i) l).
Proof.
  cbn [printGrouped]. destruct (String.eqb (file i) cf) eqn:Hf; simpl.
  - apply String.eqb_eq in Hf. now rewrite Hf.
  - rewrite fileHeaders_app. now destruct (negb (String.eqb cf "")).
Qed.

Lemma fileHeaders_grouped_files (l : list Issue) :
  forall cf f, In f (fileHeaders (printGrouped cf l)) -> exists i, In i l /\ file i = f.
Proof.
  induction l as [|j l IH]; intros cf f; [intros []|].
  rewrite fileHeaders_grouped_cons, in_app_iff. intros [H|H].
  - destruct (String.eqb (file j) cf); [destruct H|].
    destruct H as [<-|[]]. exists j. split; [now left|reflexivity].
  - destruct (IH _ _ H) as (i & Hi & Hf). exists i. split; [now right|exact Hf].
Qed.

Lemma fileHeaders_grouped_all (l : list Issue) :
  forall cf i, In i l -> file i <> cf -> In (file i) (fileHeaders (printGrouped cf l)).
Proof.
  induction l as [|j l IH]; intros cf i; [intros []|].
  intros Hin Hne. rewrite fileHeaders_grouped_cons, in_app_iff.
  destruct (String.eqb (file j) (file i)) eqn:Hji.
  - apply String.eqb_eq in Hji. left. rewrite Hji.
    destruct (String.eqb (file i) cf) eqn:Hc; [apply String.eqb_eq in Hc; contradiction|].
    now left.
  - apply String.eqb_neq in Hji. right.
    destruct Hin as [->|Hin]; [contradiction|]. apply IH; [exact Hin|congruence].
Qed.

Hypothesis collation_refl : forall a, localeCompare a a = 0.
Hypothesis collation_separates : forall a b, localeCompare a b = 0 -> a = b.
Hypothesis collation_antisym : forall a b, 0 < localeCompare a b -> localeCompare b a < 0.
Hypothesis collation_trans :
  forall a b c, localeCompare a b < 0 -> localeCompare b c < 0 -> localeCompare a c < 0.

Lemma sortBy_compareIssues_sorted (l : list Issue) : StronglySorted before (sortBy cmpR l).
Proof.
  apply sortBy_sorted.
  - intros x y. now apply compareIssues_le.
  - now apply compareIssues_gt.
  - now apply before_trans.
Qed.

Lemma sortBy_compareIssues_fixed (l : list Issue) :
  StronglySorted before l -> sortBy cmpR l = l.
Proof.
  apply sortBy_of_sorted. intros x y. now apply compareIssues_le.
Qed.

(** X3. Printing is idempotent for a collation that is a strict order on
    file names: a second [printReport] prints the same lines and leaves the
    stored issues in the order the first one put them. *)
Theorem printReport_twice (r : Reporter.t) :
  printReport localeCompare (fst (printReport localeCompare r)) = printReport localeCompare r.
Proof.
  unfold printReport at 2 3. destruct (issues r) as [|i l] eqn:Hi.
  - simpl. unfold printReport. now rewrite Hi.
  - cbn [fst]. unfold printReport. cbn [issues].
    rewrite (sortBy_compareIssues_fixed _ (sortBy_compareIssues_sorted (i :: l))).
    destruct (sortBy cmpR (i :: l)) as [|j m] eqn:Hs; [|reflexivity].
    pose proof (sortBy_perm cmpR (i :: l)) as Hp. rewrite Hs in Hp.
    now apply Permutation_sym, Permutation_nil in Hp.
Qed.

(** The headers of a sorted list are strictly increasing. *)
Lemma fileHeaders_grouped_sorted (l : list Issue) :
  forall i0, StronglySorted before (i0 :: l) ->
    StronglySorted (fun a b => localeCompare a b < 0)
                   (fileHeaders (printGrouped (file i0) l))
    /\ Forall (fun f => localeCompare (file i0) f < 0)
              (fileHeaders (printGrouped (file i0) l)).
Proof.
  induction l as [|j l IH]; intros i0 Hs.
  - simpl. split; constructor.
  - rewrite fileHeaders_grouped_cons.
    apply StronglySorted_inv in Hs. destruct Hs as [Hs Hall].
    destruct (IH j Hs) as [IHs IHall].
    destruct (String.eqb (file j) (file i0)) eqn:Hf.
    + apply String.eqb_eq in Hf. simpl. rewrite <- Hf. now split.
    + apply String.eqb_neq in Hf. simpl.
      assert (Hlt : localeCompare (file i0) (file j) < 0).
      { apply Forall_inv in Hall. destruct Hall as [H|[H _]]; [exact H|congruence]. }
      split.
      * constructor; [exact IHs|exact IHall].
      * constructor; [exact Hlt|].
        eapply Forall_impl; [exact IHall|]. intros f Hjf. simpl in Hjf. eauto.
Qed.

Lemma increasing_NoDup (l : list string) :
  StronglySorted (fun a b => localeCompare a b < 0) l -> NoDup l.
Proof.
  induction 1 as [|a l _ IH Hall]; constructor; [|exact IH].
  intros Hin. rewrite Forall_forall in Hall. specialize (Hall _ Hin).
  rewrite collation_refl in Hall. lia.
Qed.

(** X4. The grouping of [printReport] heads each file once: no file name is
    printed as a header twice, every header is the file of a stored issue,
    and every stored issue with a non-empty file name has its header (an
    issue whose file name is empty may go without). *)
Theorem printReport_heads_each_file_once (r : Reporter.t) :
  let headers := fileHeaders (snd (printReport localeCompare r)) in
  NoDup headers
  /\ (forall f, In f headers -> exists i, In i (issues r) /\ file i = f)
  /\ (forall i, In i (issues r) -> file i <> "" -> In (file i) headers).
Proof.
  intros headers. subst headers. unfold printReport.
  destruct (issues r) as [|i0 l0] eqn:Hi.
  { simpl. split; [constructor|]. split; [intros f []|intros i []]. }
  cbn [snd fileHeaders]. rewrite fileHeaders_app, fileHeaders_summary, app_nil_r.
  pose proof (sortBy_perm cmpR (i0 :: l0)) as Hp.
  pose proof (sortBy_compareIssues_sorted (i0 :: l0)) as Hs.
  split_and!.
  - destruct (sortBy cmpR (i0 :: l0)) as [|j m]; [constructor|].
    rewrite fileHeaders_grouped_cons.
    destruct (fileHeaders_grouped_sorted m j Hs) as [Hinc Hall].
    destruct (String.eqb (file j) ""); simpl; [now apply increasing_NoDup|].
    apply increasing_NoDup. constructor; [exact Hinc|exact Hall].
  - intros f Hf. destruct (fileHeaders_grouped_files _ _ _ Hf) as (i & Hin & Hfi).
    exists i. split; [|exact Hfi]. now apply (Permutation_in _ (Permutation_sym Hp)).
  - intros i Hin Hne. apply fileHeaders_grouped_all; [|exact Hne].
    now apply (Permutation_in _ Hp).
Qed.

End ReporterMore.

(** Code-unit comparison is a collation of the kind the theorems above ask
    for; the report of the two detectors under it. *)
Lemma printReport_twice_witness :
  let r := snd (Engine.run Ordering.codeUnitCompare
                           [Scenario.reentrancyRule; Scenario.txOriginRule]
                           [Scenario.vaultUnit] Reporter.new) in
  Reporter.printReport Ordering.codeUnitCompare
    (fst (Reporter.printReport Ordering.codeUnitCompare r))
  = Reporter.printReport Ordering.codeUnitCompare r.
Proof.
  exact (printReport_twice Ordering.codeUnitCompare codeUnitCompare_refl
           codeUnitCompare_separates codeUnitCompare_antisym codeUnitCompare_trans _).
Defined.

Lemma printReport_heads_each_file_once_witness :
  NoDup (ReportView.fileHeaders
           (snd (Reporter.printReport Ordering.codeUnitCompare
                   (Reporter.mk [Scenario.txOriginIssue; Scenario.pragmaIssue;
                                 Scenario.reentrancyIssue])))).
Proof.
  exact (proj1 (printReport_heads_each_file_once Ordering.codeUnitCompare codeUnitCompare_refl
                  codeUnitCompare_separates codeUnitCompare_antisym codeUnitCompare_trans
                  (Reporter.mk [Scenario.txOriginIssue; Scenario.pragmaIssue;
                                Scenario.reentrancyIssue]))).
Defined.

Lemma printReport_sorts_stably_witness :
  StronglySorted (Ordering.locationBefore Ordering.codeUnitCompare)
    (Reporter.printedIssues
       (snd (Reporter.printReport Ordering.codeUnitCompare
               (Reporter.mk [Scenario.txOriginIssue; Scenario.pragmaIssue;
                             Scenario.reentrancyIssue])))).
Proof.
  exact (proj1 (proj2 (printReport_sorts_stably Ordering.codeUnitCompare codeUnitCompare_refl
                         codeUnitCompare_separates codeUnitCompare_antisym
                         codeUnitCompare_trans
                         (Reporter.mk [Scenario.txOriginIssue; Scenario.pragmaIssue;
                                       Scenario.reentrancyIssue])))).
Defined.

(** ** The analysis task: command line, report files, exit code *)
Section CommandLine.

Import Task.

Lemma getArgValue_cons (x : string) (r : list string) (flag : string) :
  getArgValue (x :: r) flag = if String.eqb x flag then head r else getArgValue r flag.
Proof.
  unfold getArgValue. simpl. destruct (String.eqb x flag).
  - now destruct r.
  - now destruct (indexOf r flag).
Qed.

Lemma getArgValue_Some (argv : list string) (flag v : string) :
  getArgValue argv flag = Some v
  <-> exists pre post, argv = pre ++ flag :: v :: post /\ ~ In flag pre.
Proof.
  induction argv as [|x r IH].
  - split; [discriminate|]. intros (pre & post & H & _). now destruct pre.
  - rewrite getArgValue_cons. destruct (String.eqb x flag) eqn:Hx.
    + apply String.eqb_eq in Hx. subst x. split.
      * destruct r as [|y r]; [discriminate|]. simpl. intros [= ->].
        exists [], r. split; [reflexivity|intros []].
      * intros (pre & post & H & Hpre). destruct pre as [|p pre].
        -- simpl in H. injection H as ->. reflexivity.
        -- simpl in H. injection H as -> _. exfalso. apply Hpre. now left.
    + apply String.eqb_neq in Hx. rewrite IH. split.
      * intros (pre & post & -> & Hpre). exists (x :: pre), post.
        split; [reflexivity|]. intros [H|H]; [congruence|contradiction].
      * intros (pre & post & H & Hpre). destruct pre as [|p pre].
        -- simpl in H. injection H as H _. contradiction.
        -- simpl in H. injection H as -> ->. exists pre, post.
           split; [reflexivity|]. intros Hin. apply Hpre. now right.
Qed.

Lemma hasFlag_In (argv : list string) (flag : string) :
  hasFlag argv flag = true <-> In flag argv.
Proof.
  unfold hasFlag. rewrite existsb_exists. split.
  - intros (x & Hin & Hx). apply String.eqb_eq in Hx. now subst.
  - intros H. exists flag. split; [exact H|apply String.eqb_refl].
Qed.

(** X6. [getArgValue] answers with the argument that follows the first
    occurrence of the flag, whatever that argument is (another flag
    included); a flag whose first occurrence ends the command line has no
    value, and a value is only ever found for a flag that [hasFlag] sees. *)
Theorem getArgValue_reads_after_first_flag (argv : list string) (flag : string) :
  (forall v, getArgValue argv flag = Some v
             <-> exists pre post, argv = pre ++ flag :: v :: post /\ ~ In flag pre)
  /\ (forall pre, ~ In flag pre -> getArgValue (pre ++ [flag]) flag = None)
  /\ (hasFlag argv flag = false -> getArgValue argv flag = None).
Proof.
  split_and!.
  - intros v. apply getArgValue_Some.
  - intros pre Hpre. destruct (getArgValue (pre ++ [flag]) flag) as [v|] eqn:Hv; [|reflexivity].
    apply getArgValue_Some in Hv. destruct Hv as (pre' & post & H & Hpre'). exfalso.
    assert (Hlen : List.length (pre ++ [flag]) = List.length (pre' ++ flag :: v :: post))
      by now rewrite H.
    rewrite !length_app in Hlen. simpl in Hlen.
    assert (Hin : In flag pre).
    { assert (Hl : (pre ++ [flag]) !! List.length pre' = Some flag).
      { rewrite H. rewrite lookup_app_r by lia. now rewrite Nat.sub_diag. }
      rewrite lookup_app_l in Hl by lia.
      apply list_elem_of_lookup_2 in Hl. now apply list_elem_of_In. }
    contradiction.
  - intros Hno. destruct (getArgValue argv flag) as [v|] eqn:Hv; [|reflexivity].
    apply getArgValue_Some in Hv. destruct Hv as (pre & post & -> & _).
    assert (H : hasFlag (pre ++ flag :: v :: post) flag = true).
    { apply hasFlag_In, in_or_app. right. now left. }
    congruence.
Qed.

(** *** [join] and [split] *)

Local Abbreviation without sep := (Console.allChars (fun c => negb (Ascii.eqb c sep))).

Lemma append_empty_r (s : string) : (s ++ "")%string = s.
Proof.
  induction s as [|c s IH]; [reflexivity|].
  change (String c (s ++ "")%string = String c s). now rewrite IH.
Qed.

Lemma append_cons (c : ascii) (a b : string) :
  (String c a ++ b)%string = String c (a ++ b)%string.
Proof. reflexivity. Qed.

Lemma append_assoc' (a b c : string) : ((a ++ b) ++ c)%string = (a ++ (b ++ c))%string.
Proof. induction a as [|x a IH]; [reflexivity|]. rewrite !append_cons. now rewrite IH. Qed.

Lemma splitOn_plain (sep : ascii) (s : string) :
  forall acc, without sep s = true -> splitOn sep acc s = [(acc ++ s)%string].
Proof.
  induction s as [|c s IH]; intros acc H; cbn [splitOn].
  - now rewrite append_empty_r.
  - cbn [Console.allChars] in H. apply andb_true_iff in H. destruct H as [Hc Hs].
    apply negb_true_iff in Hc. rewrite Hc, IH by exact Hs.
    now rewrite append_assoc'.
Qed.

Lemma splitOn_sep (sep : ascii) (s rest : string) :
  forall acc, without sep s = true ->
    splitOn sep acc (s ++ String sep rest) = (acc ++ s)%string :: splitOn sep "" rest.
Proof.
  induction s as [|c s IH]; intros acc H.
  - change ("" ++ String sep rest)%string with (String sep rest). cbn [splitOn].
    now rewrite Ascii.eqb_refl, append_empty_r.
  - cbn [Console.allChars] in H. apply andb_true_iff in H. destruct H as [Hc Hs].
    apply negb_true_iff in Hc. rewrite append_cons. cbn [splitOn].
    rewrite Hc, IH by exact Hs.
    now rewrite append_assoc'.
Qed.

(** X7. [split] undoes [join]: the rule ids configured as a list are joined
    with commas and split on commas again before rules are selected, and
    they come back as they were, provided the list is not empty and no id
    holds a comma. *)
Theorem split_inverts_join (sep : ascii) (l : list string) :
  l <> [] ->
  Forall (fun s => without sep s = true) l ->
  splitOn sep "" (joinWith (String sep "") l) = l.
Proof.
  intros Hne Hall. induction Hall as [|x l Hx Hall IH]; [contradiction|].
  destruct l as [|y l].
  - simpl. now rewrite splitOn_plain.
  - change (joinWith (String sep "") (x :: y :: l))
      with (x ++ String sep "" ++ joinWith (String sep "") (y :: l))%string.
    change (String sep "" ++ joinWith (String sep "") (y :: l))%string
      with (String sep (joinWith (String sep "") (y :: l))).
    rewrite splitOn_sep by exact Hx. change ("" ++ x)%string with x.
    rewrite IH by discriminate. reflexivity.
Qed.

(** *** The name of the report file *)

Lemma substring_tail (s ext : string) :
  substring (String.length s) (String.length ext) (s ++ ext) = ext.
Proof.
  induction s as [|c s IH].
  - change ("" ++ ext)%string with ext. simpl.
    induction ext as [|c ext IH]; [reflexivity|]. simpl. now rewrite IH.
  - rewrite append_cons. exact IH.
Qed.

Lemma length_append' (a b : string) :
  String.length (a ++ b) = (String.length a + String.length b)%nat.
Proof.
  induction a as [|c a IH]; [reflexivity|]. rewrite append_cons. simpl. now rewrite IH.
Qed.

Lemma endsWith_append (s ext : string) : endsWith (s ++ ext) ext = true.
Proof.
  unfold endsWith. rewrite length_append'.
  replace (String.length s + String.length ext - String.length ext)%nat
    with (String.length s) by lia.
  rewrite substring_tail, String.eqb_refl, andb_true_r. apply Nat.leb_le. lia.
Qed.

(** X8. Each writer names its file [withExt outputFile ext]: the name always
    ends with the extension of the format, a name that has it already is
    used as it is, and the extension is never doubled. *)
Theorem withExt_ends_with_extension (outputFile ext : string) :
  endsWith (withExt outputFile ext) ext = true
  /\ (endsWith outputFile ext = true -> withExt outputFile ext = outputFile)
  /\ withExt (withExt outputFile ext) ext = withExt outputFile ext.
Proof.
  assert (H : endsWith (withExt outputFile ext) ext = true).
  { unfold withExt. destruct (endsWith outputFile ext) eqn:He; [exact He|].
    apply endsWith_append. }
  split_and!.
  - exact H.
  - intros He. unfold withExt. now rewrite He.
  - unfold withExt at 1. now rewrite H.
Qed.

End CommandLine.

Lemma split_inverts_join_witness :
  Task.splitOn (ascii_of_nat 44) ""
               (Task.joinWith "," ["no-tx-origin"; "reentrancy-paths"])
  = ["no-tx-origin"; "reentrancy-paths"].
Proof.
  apply (split_inverts_join (ascii_of_nat 44) ["no-tx-origin"; "reentrancy-paths"]).
  - discriminate.
  - repeat constructor.
Defined.

(** *** How a run ends, and its exit code *)
Section ExitCode.

Import Task Reporter ReportView.

Context {AST : Type}.

Local Abbreviation HostT := (@Host AST).
Local Abbreviation RuleT := (@Engine.Rule AST).
Local Abbreviation UnitT := (@Engine.ParseResult AST).

Ltac crack f :=
  destruct f as [|[[|] [|] [|] [|] [|] [|] [|] [|]] f];
  try solve [ right; right; split_and!; [discriminate|discriminate|reflexivity]
            | left; split; reflexivity
            | right; left; split; reflexivity ].

(** Whatever [args.format] holds, one of the three writers runs. *)
Lemma writeReport_format (h : HostT) (args : Args) (circular : bool) (reporter : Reporter.t)
  (all : list Issue) :
  (format args = Some "json"
   /\ writeReport h args circular reporter all
      = if circular then Throws (stringifyError h)
        else Returns (OutJson (getSummary reporter) all, ".json", reporter))
  \/ (format args = Some "sarif"
      /\ writeReport h args circular reporter all
         = Returns (OutSarif (Sarif.outputSARIF all), ".sarif", reporter))
  \/ (format args <> Some "json" /\ format args <> Some "sarif"
      /\ writeReport h args circular reporter all
         = Returns (OutConsole (snd (printReport (localeCompare h) reporter)), ".txt",
                    fst (printReport (localeCompare h) reporter))).
Proof.
  unfold writeReport. destruct (format args) as [f|];
    [|right; right; split_and!; [discriminate|discriminate|reflexivity]].
  do 6 crack f.
Qed.

Lemma writeReport_cases (h : HostT) (args : Args) (circular : bool) (reporter : Reporter.t)
  (all : list Issue) :
  (format args = Some "json"
   /\ writeReport h args circular reporter all
      = if circular then Throws (stringifyError h)
        else Returns (OutJson (getSummary reporter) all, ".json", reporter))
  \/ (format args <> Some "json"
      /\ (writeReport h args circular reporter all
          = Returns (OutSarif (Sarif.outputSARIF all), ".sarif", reporter)
          \/ writeReport h args circular reporter all
             = Returns (OutConsole (snd (printReport (localeCompare h) reporter)), ".txt",
                        fst (printReport (localeCompare h) reporter)))).
Proof.
  destruct (writeReport_format h args circular reporter all)
    as [[Hf Hw]|[[Hf Hw]|(Hj & Hs & Hw)]].
  - left. now split.
  - right. split; [congruence|now left].
  - right. split; [exact Hj|now right].
Qed.

Lemma reportOf_cases (h : HostT) (args : Args) (all : list Issue) :
  (format args = Some "json" /\ reportOf h args all = OutJson (getSummary (Reporter.mk all)) all)
  \/ (format args = Some "sarif" /\ reportOf h args all = OutSarif (Sarif.outputSARIF all))
  \/ (format args <> Some "json" /\ format args <> Some "sarif"
      /\ reportOf h args all
         = OutConsole (snd (printReport (localeCompare h) (Reporter.mk all)))).
Proof.
  unfold reportOf. destruct (format args) as [f|];
    [|right; right; split_and!; [discriminate|discriminate|reflexivity]].
  do 6 crack f.
Qed.

(** The report a writer answers with is the report of the issues, and the
    reporter it leaves holds them, reordered at most. *)
Lemma writeReport_returns (h : HostT) (args : Args) (circular : bool) (all : list Issue)
  (out : Report) (ext : string) (reporter : Reporter.t) :
  writeReport h args circular (Reporter.mk all) all = Returns (out, ext, reporter) ->
  out = reportOf h args all /\ Permutation all (issues reporter).
Proof.
  destruct (writeReport_format h args circular (Reporter.mk all) all)
    as [[Hf ->]|[[Hf ->]|(Hj & Hs & ->)]];
    destruct (reportOf_cases h args all) as [[Hf' ->]|[[Hf' ->]|(Hj' & Hs' & ->)]];
    try congruence.
  - destruct circular; [discriminate|]. intros [= <- <- <-]. split; reflexivity.
  - intros [= <- <- <-]. split; reflexivity.
  - intros [= <- <- <-]. split; [reflexivity|]. rewrite printReport_issues. apply sortBy_perm.
Qed.

Lemma closing_perm (all : list Issue) (reporter : Reporter.t) :
  Permutation all (issues reporter) ->
  (if hasErrors reporter then (MCritical, Some 1)
   else if (0 <? totalIssues (getSummary reporter))%nat then (MIssuesFound, None)
        else (MNoIssues, None))
  = closing all.
Proof.
  intros Hp.
  assert (Hs : getSummary (Reporter.mk all) = getSummary reporter)
    by (apply getSummary_perm; exact Hp).
  rewrite hasErrors_errorCount, <- Hs, <- hasErrors_errorCount.
  unfold closing, hasErrors, getSummary. rewrite fold_bump. reflexivity.
Qed.

(** The run from a parse with files on, in one equation. *)
Lemma analyzeParsed_parsed (h : HostT) (args : Args) (rs : list RuleT) (aiActive : bool)
  (u : UnitT) (rest : list UnitT) :
  parseAllSourceFiles h (contractsPath h) = Parsed (u :: rest) ->
  let r := Engine.analyzeMultiple (localeCompare h) (activeRules rs aiActive) (u :: rest) in
  let log := MParsedOk (List.length (u :: rest)) :: List.map failureMsg (snd r) in
  let all := allIssues h rs aiActive (fst r) in
  analyzeParsed h args rs aiActive
  = match writeReport h args (cyclic rs aiActive (u :: rest)) (Reporter.mk all) all with
    | Throws e => mkRun (log ++ [MAnalysisFailed e]) (Some 1) None
    | Returns (out, ext, _) =>
        match (if truthyStr (output args)
               then writeFileSync h (withExt (default "" (output args)) ext)
               else Returns tt) with
        | Throws e => mkRun (log ++ [MAnalysisFailed e]) (Some 1) None
        | Returns _ => mkRun (log ++ [fst (closing all)]) (snd (closing all))
                             (Some (reportOf h args all))
        end
    end.
Proof.
  intros Hparse r log all. unfold analyzeParsed. rewrite Hparse.
  unfold Engine.run. fold r. cbn [fst snd]. fold log. fold all.
  assert (Hrep : (if enhancing rs aiActive
                  then addIssues (clear (addIssues Reporter.new (fst r))) all
                  else addIssues Reporter.new (fst r))
                 = Reporter.mk all).
  { subst all. unfold allIssues. destruct (enhancing rs aiActive); reflexivity. }
  rewrite Hrep.
  destruct (writeReport h args (cyclic rs aiActive (u :: rest)) (Reporter.mk all) all)
    as [[[out ext] reporter]|e] eqn:Hw; [|reflexivity].
  destruct (writeReport_returns h args _ all out ext reporter Hw) as [-> Hperm].
  destruct (if truthyStr (output args)
            then writeFileSync h (withExt (default "" (output args)) ext)
            else Returns tt); [|reflexivity].
  pose proof (closing_perm all reporter Hperm) as Hc.
  destruct (hasErrors reporter).
  - now rewrite <- Hc.
  - destruct (0 <? totalIssues (getSummary reporter))%nat; now rewrite <- Hc.
Qed.

Lemma prepare_over_shapes (h : HostT) (args : Args) (r : Run) :
  prepare h args = Over r ->
  r = returned [MSamples] \/ r = returned [MPlaybookList] \/ r = returned [MUploaded]
  \/ exists e, r = analysisFailed e.
Proof.
  unfold prepare.
  destruct (showSamples args); [intros [= <-]; auto|].
  destruct (listPlaybooks args); [intros [= <-]; auto|].
  destruct (truthyStr (uploadPlaybook args)).
  - destruct (negb (existsSync h (default "" (uploadPlaybook args))));
      [intros [= <-]; eauto 6|].
    destruct (uploadAndRegisterToLighthouse h (default "" (uploadPlaybook args)));
      intros [= <-]; eauto 6.
  - destruct (determineAnalysisRules h args) as [[rs m]|e]; [discriminate|].
    intros [= <-]; eauto 6.
Qed.

(** C5, as the sources have it.  Before the sources are parsed, a run is
    over only by a special command, which returns, or by an exception,
    which ends it under "Analysis failed" with exit code 1; neither
    produces a report.  Once the rules are chosen: a [ParseError] ends the
    run with that one diagnostic, exit code 1 and no report; any other
    exception from parsing ends it the same way under another diagnostic;
    an empty parse result ends it with a warning and no report.  Otherwise
    the run logs the parsed files and the rule failures, and when the writer
    of the format returns it either produces the report of its findings,
    with exit code 1 exactly when one of them is an error, or, when the
    output file cannot be written, ends under "Analysis failed". *)
Theorem analyzeTask_endings (h : HostT) (args : Args) :
  (forall r, prepare h args = Over r ->
     analyzeTask h args = r /\ report r = None
     /\ (r = returned [MSamples] \/ r = returned [MPlaybookList] \/ r = returned [MUploaded]
         \/ exists e, r = analysisFailed e))
  /\ (showSamples args = false -> listPlaybooks args = false ->
      (truthyStr (uploadPlaybook args) = true ->
       (existsSync h (default "" (uploadPlaybook args)) = false ->
        analyzeTask h args
        = analysisFailed ("Playbook file not found: " ++ default "" (uploadPlaybook args)))
       /\ forall e, existsSync h (default "" (uploadPlaybook args)) = true ->
            uploadAndRegisterToLighthouse h (default "" (uploadPlaybook args)) = Throws e ->
            analyzeTask h args = analysisFailed e)
      /\ (truthyStr (uploadPlaybook args) = false ->
          forall e, determineAnalysisRules h args = Throws e ->
                    analyzeTask h args = analysisFailed e))
  /\ forall rs analysisMode aiActive,
       prepare h args = Ready rs analysisMode aiActive ->
       (forall msg, parseAllSourceFiles h (contractsPath h) = ParseErrorThrown msg ->
          analyzeTask h args = mkRun [MParseError msg] (Some 1) None)
       /\ (forall text, parseAllSourceFiles h (contractsPath h) = OtherThrown text ->
             analyzeTask h args = mkRun [MParseFailed text] (Some 1) None)
       /\ (parseAllSourceFiles h (contractsPath h) = Parsed [] ->
             analyzeTask h args = mkRun [MNoFiles] None None)
       /\ forall u rest, parseAllSourceFiles h (contractsPath h) = Parsed (u :: rest) ->
            let r := Engine.analyzeMultiple (localeCompare h) (activeRules rs aiActive)
                                            (u :: rest) in
            let log := MParsedOk (List.length (u :: rest)) :: List.map failureMsg (snd r) in
            let all := allIssues h rs aiActive (fst r) in
            (cyclic rs aiActive (u :: rest) = false \/ format args <> Some "json") ->
            ((truthyStr (output args) = false \/ forall p, writeFileSync h p = Returns tt) ->
             analyzeTask h args
             = mkRun (log ++ [fst (closing all)]) (snd (closing all))
                     (Some (reportOf h args all)))
            /\ forall e, truthyStr (output args) = true ->
                 (forall p, writeFileSync h p = Throws e) ->
                 analyzeTask h args = mkRun (log ++ [MAnalysisFailed e]) (Some 1) None.
Proof.
  split_and!.
  - intros r Hr. unfold analyzeTask. rewrite Hr. split_and!; [reflexivity| |].
    + now apply (prepare_over_no_report h args).
    + now apply (prepare_over_shapes h args).
  - intros Hs Hl. unfold analyzeTask, prepare. rewrite Hs, Hl. split.
    + intros Hu. rewrite Hu. split.
      * intros Hx. now rewrite Hx.
      * intros e Hx He. now rewrite Hx, He.
    + intros Hu e He. now rewrite Hu, He.
  - intros rs analysisMode aiActive Hprep.
    unfold analyzeTask. rewrite Hprep. split_and!.
    + intros msg Hp. unfold analyzeParsed. now rewrite Hp.
    + intros text Hp. unfold analyzeParsed. now rewrite Hp.
    + intros Hp. unfold analyzeParsed. now rewrite Hp.
    + intros u rest Hp Hjson.
      pose proof (analyzeParsed_parsed h args rs aiActive u rest Hp) as Heq.
      cbv zeta in Heq. rewrite Heq. clear Heq.
      set (all := allIssues h rs aiActive _).
      assert (Hw : exists out ext reporter,
                writeReport h args (cyclic rs aiActive (u :: rest)) (Reporter.mk all) all
                = Returns (out, ext, reporter)).
      { destruct (writeReport_cases h args (cyclic rs aiActive (u :: rest)) (Reporter.mk all) all)
          as [[Hf Hw]|[_ [Hw|Hw]]]; rewrite Hw; eauto.
        destruct Hjson as [Hc|Hn]; [rewrite Hc; eauto|contradiction]. }
      destruct Hw as (out & ext & reporter & ->). split.
      * intros [Ho|Ho]; [now rewrite Ho|].
        destruct (truthyStr (output args)); [now rewrite Ho|reflexivity].
      * intros e Ho He. now rewrite Ho, He.
Qed.

(** *** The exit code *)

Lemma isErrorsLine_grouped (l : list Issue) :
  forall cf, existsb isErrorsLine (printGrouped cf l) = false.
Proof.
  induction l as [|i l IH]; intros cf; [reflexivity|].
  cbn [printGrouped]. destruct (negb (String.eqb (file i) cf)).
  - rewrite existsb_app. destruct (negb (String.eqb cf "")); simpl; apply IH.
  - simpl. apply IH.
Qed.

Lemma isErrorsLine_summary (s : ReportSummary) :
  existsb isErrorsLine (printSummary s) = (0 <? errorCount s)%nat.
Proof.
  unfold printSummary.
  destruct (0 <? errorCount s)%nat, (0 <? warningCount s)%nat, (0 <? infoCount s)%nat;
    reflexivity.
Qed.

Lemma isErrorsLine_printReport (lc : string -> string -> Z) (r : Reporter.t) :
  existsb isErrorsLine (snd (printReport lc r)) = hasErrors (fst (printReport lc r)).
Proof.
  rewrite hasErrors_errorCount. unfold printReport.
  destruct (issues r) as [|i l] eqn:Hi.
  - cbn [fst snd]. unfold getSummary. now rewrite Hi.
  - cbn [fst snd existsb isErrorsLine orb].
    now rewrite existsb_app, isErrorsLine_grouped, isErrorsLine_summary.
Qed.

(** A run that reports: the exit code is decided by the issues reported. *)
Lemma analyzeTask_report (h : HostT) (args : Args) (out : Report) :
  report (analyzeTask h args) = Some out ->
  exists all, out = reportOf h args all /\ exitCode (analyzeTask h args) = snd (closing all).
Proof.
  unfold analyzeTask. destruct (prepare h args) as [r|rs mode aiActive] eqn:Hp.
  { pose proof (prepare_over_no_report h args r Hp). congruence. }
  destruct (parseAllSourceFiles h (contractsPath h)) as [[|u rest]|msg|text] eqn:Hparse;
    try (unfold analyzeParsed; rewrite Hparse; discriminate).
  pose proof (analyzeParsed_parsed h args rs aiActive u rest Hparse) as Heq.
  cbv zeta in Heq. rewrite Heq. clear Heq.
  set (all := allIssues _ _ _ _).
  destruct (writeReport h args _ (Reporter.mk all) all) as [[[o ext] reporter]|e];
    [|discriminate].
  destruct (if truthyStr (output args)
            then writeFileSync h (withExt (default "" (output args)) ext)
            else Returns tt); [|discriminate].
  cbn [report exitCode]. intros [= <-]. now exists all.
Qed.

Lemma closing_exit (all : list Issue) :
  snd (closing all) = if hasErrors (Reporter.mk all) then Some 1 else None.
Proof.
  unfold closing, hasErrors. cbn [issues].
  destruct (existsb _ all); [reflexivity|]. now destruct (0 <? List.length all)%nat.
Qed.

(** *** The marks of the wrappers *)

Lemma applyWrapped_keeps (u : UnitT) (r : RuleT) (sink : list (Issue * bool)) (i : Issue) :
  In (i, true) sink -> In (i, true) (applyWrapped u sink r).
Proof.
  intros Hin. unfold applyWrapped. destruct (Engine.apply r u) as [found [e|]].
  - apply in_or_app. now left.
  - apply in_map_iff. exists (i, true). split; [|apply in_or_app; now left].
    cbn [fst]. now destruct (String.eqb (ruleId i) (Engine.id r)).
Qed.

Lemma applyWrapped_fold_keeps (u : UnitT) (rs : list RuleT) (i : Issue) :
  forall sink, In (i, true) sink -> In (i, true) (fold_left (applyWrapped u) rs sink).
Proof.
  induction rs as [|r rs IH]; intros sink Hin; [exact Hin|].
  cbn [fold_left]. apply IH. now apply applyWrapped_keeps.
Qed.

Lemma applyWrapped_marks (u : UnitT) (r : RuleT) (sink : list (Issue * bool)) (i : Issue) :
  snd (Engine.apply r u) = None -> In i (fst (Engine.apply r u)) -> ruleId i = Engine.id r ->
  In (i, true) (applyWrapped u sink r).
Proof.
  unfold applyWrapped. destruct (Engine.apply r u) as [found e]. cbn [fst snd].
  intros -> Hin Hid. apply in_map_iff. exists (i, false). split.
  - cbn [fst]. now rewrite Hid, String.eqb_refl.
  - apply in_or_app. right. apply in_map_iff. now exists i.
Qed.

(** A rule that reports a finding under its own id and returns leaves it
    marked. *)
Lemma marked_own_finding (rs : list RuleT) (units : list UnitT) (r : RuleT) (u : UnitT)
  (i : Issue) :
  In u units -> In r rs ->
  snd (Engine.apply r u) = None -> In i (fst (Engine.apply r u)) -> ruleId i = Engine.id r ->
  existsb snd (marked rs units) = true.
Proof.
  intros Hu Hr Hret Hin Hid. apply existsb_exists. exists (i, true). split; [|reflexivity].
  unfold marked. apply in_flat_map. exists u. split; [exact Hu|].
  destruct (in_split r rs Hr) as (pre & post & ->).
  rewrite fold_left_app. cbn [fold_left].
  apply applyWrapped_fold_keeps. now apply applyWrapped_marks.
Qed.

(** The issues that carry the marks are the engine's findings for the
    wrapped rules, file pass by file pass. *)
Lemma applyWrapped_fold_issues (u : UnitT) (rs : list RuleT) :
  forall sink,
    List.map fst (fold_left (applyWrapped u) rs sink)
    = List.map fst sink ++ flat_map (fun r => Engine.contribution (aiWrap r) u) rs.
Proof.
  induction rs as [|r rs IH]; intros sink; cbn [fold_left flat_map].
  - now rewrite app_nil_r.
  - rewrite IH. unfold applyWrapped, Engine.contribution, aiWrap. cbn [Engine.apply].
    destruct (Engine.apply r u) as [found [e|]]; cbn [fst].
    + rewrite map_app, map_map. cbn [fst]. rewrite map_id, <- app_assoc. reflexivity.
    + rewrite map_map.
      rewrite (map_ext (fun x : Issue * bool =>
                          fst (if String.eqb (ruleId (fst x)) (Engine.id r)
                               then (fst x, true) else x)) fst).
      2:{ intros [i b]. cbn [fst]. now destruct (String.eqb (ruleId i) (Engine.id r)). }
      rewrite map_app, map_map. cbn [fst]. rewrite map_id, <- app_assoc. reflexivity.
Qed.

Lemma marked_issues (rs : list RuleT) (units : list UnitT) :
  List.map fst (marked rs units) = fst (Engine.collect (List.map aiWrap rs) units).
Proof.
  rewrite collect_findings. unfold marked. rewrite flat_map_concat_map, concat_map, map_map.
  rewrite flat_map_concat_map. f_equal. apply map_ext. intros u.
  rewrite applyWrapped_fold_issues. cbn [List.map app].
  now rewrite !flat_map_concat_map, map_map.
Qed.

(** X9. The exit code follows the report.  When the run writes a JSON
    report, it exits with code 1 exactly when the summary in the report
    counts an error, and returns normally exactly when it counts none; when
    it prints the console report, it exits with code 1 exactly when the
    summary block shows an Errors line.  Under AI enhancement a JSON report
    is not always written: when a rule has reported, without raising, a
    finding under its own id, the finding is marked, [JSON.stringify] raises
    on it, and the run ends under "Analysis failed" with exit code 1 and no
    report. *)
Theorem exit_code_follows_report (h : HostT) (args : Args) :
  (forall s l, report (analyzeTask h args) = Some (OutJson s l) ->
     (exitCode (analyzeTask h args) = Some 1 <-> (0 < errorCount s)%nat)
     /\ (exitCode (analyzeTask h args) = None <-> errorCount s = 0%nat))
  /\ (forall lines, report (analyzeTask h args) = Some (OutConsole lines) ->
        (exitCode (analyzeTask h args) = Some 1 <-> existsb isErrorsLine lines = true)
        /\ (exitCode (analyzeTask h args) = None <-> existsb isErrorsLine lines = false))
  /\ forall rs analysisMode u rest r found i,
       prepare h args = Ready rs analysisMode true ->
       format args = Some "json" ->
       parseAllSourceFiles h (contractsPath h) = Parsed (u :: rest) ->
       In found (u :: rest) -> In r rs ->
       snd (Engine.apply r found) = None ->
       In i (fst (Engine.apply r found)) -> ruleId i = Engine.id r ->
       analyzeTask h args
       = mkRun (MParsedOk (List.length (u :: rest))
                  :: List.map failureMsg
                       (snd (Engine.analyzeMultiple (localeCompare h) (List.map aiWrap rs)
                                                    (u :: rest)))
                  ++ [MAnalysisFailed (stringifyError h)])
               (Some 1) None.
Proof.
  split_and!.
  - intros s l Hout. destruct (analyzeTask_report h args _ Hout) as (all & Ho & ->).
    rewrite closing_exit.
    destruct (reportOf_cases h args all) as [[_ Hr]|[[_ Hr]|(_ & _ & Hr)]];
      rewrite Hr in Ho; try discriminate.
    injection Ho as -> ->. rewrite hasErrors_errorCount.
    destruct (0 <? errorCount (getSummary (Reporter.mk all)))%nat eqn:He;
      [apply Nat.ltb_lt in He|apply Nat.ltb_ge in He];
      split; split; intros H; try discriminate; try lia; reflexivity.
  - intros lines Hout. destruct (analyzeTask_report h args _ Hout) as (all & Ho & ->).
    rewrite closing_exit.
    assert (Hl : lines = snd (printReport (localeCompare h) (Reporter.mk all))).
    { destruct (reportOf_cases h args all) as [[_ Hr]|[[_ Hr]|(_ & _ & Hr)]];
        rewrite Hr in Ho; congruence. }
    rewrite Hl, isErrorsLine_printReport.
    replace (hasErrors (fst (printReport (localeCompare h) (Reporter.mk all))))
      with (hasErrors (Reporter.mk all)).
    2:{ rewrite !hasErrors_errorCount. f_equal. f_equal. apply getSummary_perm.
        rewrite printReport_issues. apply sortBy_perm. }
    destruct (hasErrors (Reporter.mk all));
      split; split; intros H; try discriminate; reflexivity.
  - intros rs analysisMode u rest r found i Hprep Hjson Hparse Hu Hr Hret Hin Hid.
    unfold analyzeTask. rewrite Hprep.
    pose proof (analyzeParsed_parsed h args rs true u rest Hparse) as Heq.
    cbv zeta in Heq. rewrite Heq. clear Heq.
    unfold writeReport. rewrite Hjson. unfold cyclic.
    rewrite (marked_own_finding rs (u :: rest) r found i Hu Hr Hret Hin Hid).
    reflexivity.
Qed.

End ExitCode.

(** A run that meets a [ParseError]. *)
Lemma analyzeTask_endings_witness :
  Task.prepare (Scenario.hostWith (Task.ParseErrorThrown "Vault.sol:3:1: missing ';'"))
               Scenario.plainArgs
  = Task.Ready [Scenario.reentrancyRule; Scenario.txOriginRule] "full" false
  /\ Task.analyzeTask (Scenario.hostWith (Task.ParseErrorThrown "Vault.sol:3:1: missing ';'"))
                      Scenario.plainArgs
     = Task.mkRun [Task.MParseError "Vault.sol:3:1: missing ';'"] (Some 1) None.
Proof.
  assert (Hp : Task.prepare
                 (Scenario.hostWith (Task.ParseErrorThrown "Vault.sol:3:1: missing ';'"))
                 Scenario.plainArgs
               = Task.Ready [Scenario.reentrancyRule; Scenario.txOriginRule] "full" false)
    by reflexivity.
  split; [exact Hp|].
  exact (proj1 (proj2 (proj2 (analyzeTask_endings _ _)) _ _ _ Hp) _ eq_refl).
Defined.

(** A run with [--ai --format json]: the reentrancy finding is marked by its
    wrapper, and the JSON writer fails on it. *)
Example analyzeTask_ai_json_run :
  Task.analyzeTask (Scenario.hostWithKey (Task.Parsed [Scenario.vaultUnit])) Scenario.aiJsonArgs
  = Task.mkRun [Task.MParsedOk 1;
                Task.MAnalysisFailed "TypeError: Converting circular structure to JSON"]
               (Some 1) None.
Proof. vm_compute. reflexivity. Qed.

(** The same arguments without a key: the rules are not wrapped and the
    JSON report is written. *)
Example analyzeTask_json_run :
  Task.report
    (Task.analyzeTask (Scenario.hostWith (Task.Parsed [Scenario.vaultUnit])) Scenario.aiJsonArgs)
  = Some (Task.OutJson (Reporter.mkSummary 3 1 1 1)
            [Scenario.pragmaIssue; Scenario.reentrancyIssue; Scenario.txOriginIssue]).
Proof. vm_compute. reflexivity. Qed.

(** *** [stripAnsiCodes] *)
Section StripAnsi.

Import Console.

Lemma stripFrom_skip (s rest : string) :
  stripFrom (String.length s) (s ++ rest) = stripFrom 0 rest.
Proof.
  induction s as [|c s IH]; [reflexivity|].
  rewrite append_cons. simpl. exact IH.
Qed.

Lemma paramsThenM_params (ps rest : string) :
  allChars isParam ps = true ->
  paramsThenM (ps ++ String "m" rest) = Some (S (String.length ps)).
Proof.
  induction ps as [|c ps IH]; intros H.
  - reflexivity.
  - cbn [allChars] in H. apply andb_true_iff in H. destruct H as [Hc Hps].
    rewrite append_cons. cbn [paramsThenM]. rewrite Hc, (IH Hps). reflexivity.
Qed.

Lemma stripFrom_sequence (ps rest : string) :
  allChars isParam ps = true ->
  stripFrom 0 (sequence ps ++ rest) = stripFrom 0 rest.
Proof.
  intros H. unfold sequence. rewrite !append_cons, append_assoc'.
  change ("m" ++ rest)%string with (String "m" rest).
  cbn [stripFrom]. rewrite Ascii.eqb_refl, (paramsThenM_params ps rest H).
  change (stripFrom (S (S (String.length ps))) (String "[" (ps ++ String "m" rest)))
    with (stripFrom (S (String.length ps)) (ps ++ String "m" rest)).
  change (ps ++ String "m" rest)%string with (ps ++ ("m" ++ rest))%string.
  rewrite <- append_assoc'.
  replace (S (String.length ps)) with (String.length (ps ++ "m")).
  - apply stripFrom_skip.
  - rewrite length_append'. simpl. lia.
Qed.

Lemma stripFrom_text (t rest : string) :
  allChars (fun c => negb (Ascii.eqb c esc)) t = true ->
  stripFrom 0 (t ++ rest) = (t ++ stripFrom 0 rest)%string.
Proof.
  induction t as [|c t IH]; intros H; [reflexivity|].
  cbn [allChars] in H. apply andb_true_iff in H. destruct H as [Hc Ht].
  apply negb_true_iff in Hc. rewrite !append_cons. cbn [stripFrom].
  rewrite Hc, (IH Ht). reflexivity.
Qed.

(** X10. [stripAnsiCodes] turns styled text into the plain text: for pieces
    of text that hold no escape character, with style sequences
    [ESC [ params m] anywhere between them, what is written to the report
    file is the pieces alone, in order; text without any escape character
    is written as it is. *)
Theorem stripAnsiCodes_gives_plain_text (l : list Piece) :
  forallb wellFormed l = true ->
  stripAnsiCodes (styled l) = plain l.
Proof.
  unfold stripAnsiCodes. induction l as [|p l IH]; intros H; [reflexivity|].
  cbn [forallb] in H. apply andb_true_iff in H. destruct H as [Hp Hl].
  destruct p as [t|ps]; cbn [styled plain wellFormed] in *.
  - rewrite (stripFrom_text _ _ Hp), (IH Hl). reflexivity.
  - rewrite (stripFrom_sequence _ _ Hp). exact (IH Hl).
Qed.

End StripAnsi.

(** A red [Errors] label followed by its count, as chalk writes it. *)
Lemma stripAnsiCodes_gives_plain_text_witness :
  Console.stripAnsiCodes
    (Console.styled [Console.Style "31"; Console.Plain "Errors"; Console.Style "39";
                     Console.Plain ": 2"])
  = "Errors: 2".
Proof.
  exact (stripAnsiCodes_gives_plain_text
           [Console.Style "31"; Console.Plain "Errors"; Console.Style "39";
            Console.Plain ": 2"] eq_refl).
Defined.

(** ** The language-model client and the AI wrapper, beyond the frame *)
Section ClientFacts.

Context {Num : Type}.
Variables (half zero : Num) (truthyNum : Num -> bool).

Local Abbreviation analyze := (LLM.analyzeCode half zero truthyNum).
Local Abbreviation validate := (LLM.validateResponse half truthyNum).
Local Abbreviation fallback := (@LLM.getFallbackResponse Num zero).

Lemma analyzeCode_newClient (cfg : LLM.LLMConfig) (remote : @LLM.Remote Num)
  (request : LLM.LLMAnalysisRequest) :
  ((LLM.provider cfg = LLM.local \/ truthyStr (LLM.apiKey cfg) = false)
   /\ exists e, analyze (LLM.newClient cfg) remote request = Throws e)
  \/ (LLM.provider cfg <> LLM.local /\ truthyStr (LLM.apiKey cfg) = true
      /\ analyze (LLM.newClient cfg) remote request
         = Returns match remote request with
                   | Some raw => validate raw
                   | None => fallback
                   end).
Proof.
  unfold LLM.analyzeCode, LLM.newClient, LLM.callOpenAI, LLM.callAnthropic.
  destruct (LLM.provider cfg) eqn:Hp, (truthyStr (LLM.apiKey cfg)) eqn:Hk;
    cbn [LLM.isOpenai LLM.isAnthropic andb LLM.config LLM.has_openai LLM.has_anthropic negb];
    rewrite ?Hp; cbn [LLM.has_openai LLM.has_anthropic negb];
    first [ left; split; [auto|eauto]; fail
          | right; split_and!; [discriminate|reflexivity|];
            destruct (remote request); reflexivity ].
Qed.

(** X11. A client built by the constructor raises from [analyzeCode]
    exactly when its provider is neither OpenAI nor Anthropic or when it was
    given no API key.  In every other case the call returns, whatever the
    provider does: the validated answer when there is one, and the fixed
    fallback response when anything in the provider call fails. *)
Theorem analyzeCode_throws_iff (cfg : LLM.LLMConfig) (remote : @LLM.Remote Num)
  (request : LLM.LLMAnalysisRequest) :
  ((exists e, analyze (LLM.newClient cfg) remote request = Throws e)
   <-> LLM.provider cfg = LLM.local \/ truthyStr (LLM.apiKey cfg) = false)
  /\ forall r, analyze (LLM.newClient cfg) remote request = Returns r ->
       r = match remote request with
           | Some raw => validate raw
           | None => fallback
           end.
Proof.
  destruct (analyzeCode_newClient cfg remote request)
    as [[Hc [e He]]|(Hp & Hk & Hr)]; rewrite ?He, ?Hr.
  - split; [split; eauto|discriminate].
  - split; [|congruence]. split; [intros [e He]; discriminate|].
    intros [H|H]; congruence.
Qed.

(** X12. The configuration [getAIConfig] reads from the environment names
    the key of the selected provider only, OpenAI being selected when no
    provider is named; and whenever that key is set, which is when the task
    builds a client, the client is initialised for its provider:
    [analyzeCode] returns and never raises. *)
Theorem configured_client_answers (env : Console.Env) (remote : @LLM.Remote Num)
  (request : LLM.LLMAnalysisRequest) :
  truthyStr (LLM.apiKey (Console.getAIConfig env)) = true ->
  ((LLM.provider (Console.getAIConfig env) = LLM.openai
    /\ LLM.apiKey (Console.getAIConfig env) = Console.OPENAI_API_KEY env)
   \/ (LLM.provider (Console.getAIConfig env) = LLM.anthropic
       /\ LLM.apiKey (Console.getAIConfig env) = Console.ANTHROPIC_API_KEY env))
  /\ exists r, analyze (LLM.newClient (Console.getAIConfig env)) remote request = Returns r.
Proof.
  intros Hkey.
  assert (Hsel :
    (LLM.provider (Console.getAIConfig env) = LLM.openai
     /\ LLM.apiKey (Console.getAIConfig env) = Console.OPENAI_API_KEY env)
    \/ (LLM.provider (Console.getAIConfig env) = LLM.anthropic
        /\ LLM.apiKey (Console.getAIConfig env) = Console.ANTHROPIC_API_KEY env)).
  { revert Hkey. unfold Console.getAIConfig, Console.providerOf. cbn [LLM.apiKey LLM.provider].
    destruct (String.eqb _ "openai"); [now left|].
    destruct (String.eqb _ "anthropic"); [now right|]. discriminate. }
  split; [exact Hsel|].
  destruct (analyzeCode_newClient (Console.getAIConfig env) remote request)
    as [[[H|H] _]|(_ & _ & Hr)]; [| congruence | eauto].
  destruct Hsel as [[Hp _]|[Hp _]]; congruence.
Qed.

End ClientFacts.

Section WrapperMore.

Import AIEnhanced.

Context {Num AST : Type}.
Variables (half zero : Num) (truthyNum : Num -> bool).
Variables (showNum showPercent : Num -> string).
Variable extractFunctionName : string -> Z -> string.
Variable extractContractName : string -> string.

Local Abbreviation HeapT := (@Heap Num AST).
Local Abbreviation RuleT := (@AIEnhancedRule AST).
Local Abbreviation loop :=
  (enhanceLoop half zero truthyNum showNum showPercent extractFunctionName extractContractName).
Local Abbreviation enhance :=
  (enhanceIssues half zero truthyNum showNum showPercent extractFunctionName extractContractName).
Local Abbreviation enhanceOne :=
  (enhanceIssueWithAI half zero truthyNum showNum showPercent extractFunctionName
                      extractContractName).
Local Abbreviation request := (buildRequest extractFunctionName extractContractName).
Local Abbreviation format := (formatEnhancedMessage truthyNum showNum showPercent).

Local Abbreviation unavailable := (LLM.explanation (@LLM.getFallbackResponse Num zero)).

(** X13. A provider call that fails is not an enhancement that fails: with
    a client initialised for its provider, when anything in the provider
    call goes wrong [enhanceIssueWithAI] still allocates an enhanced copy,
    whose message is the original one followed by an AI ANALYSIS section
    that says the analysis is unavailable, and whose payload carries that
    notice with confidence zero. *)
Theorem failed_call_is_reported_as_analysis (w : RuleT) (cfg : LLM.LLMConfig)
  (remote : @LLM.Remote Num) (a : addr) (o : IssueObj) (x : AnalysisContext) (h : HeapT) :
  llmClient w = LLM.newClient cfg ->
  LLM.provider cfg <> LLM.local ->
  truthyStr (LLM.apiKey cfg) = true ->
  remote (request w (fields o) x) = None ->
  truthyNum zero = false ->
  exists o',
    enhanceOne w remote a o x h = (mkHeap (objs h ++ [o']) (ctxs h), List.length (objs h))
    /\ message (fields o')
       = (message (fields o) ++ nl ++ nl ++ "🤖 AI ANALYSIS:" ++ nl ++ unavailable)%string
    /\ aiEnhancement o' = Some (mkAIEnhancement unavailable None None zero).
Proof.
  intros Hclient Hp Hk Hremote Hzero. unfold enhanceIssueWithAI. rewrite Hclient.
  destruct (analyzeCode_newClient half zero truthyNum cfg remote (request w (fields o) x))
    as [[[H|H] _]|(_ & _ & Hr)]; [contradiction|congruence|].
  rewrite Hr, Hremote. eexists. split; [reflexivity|].
  unfold enhancedCopy, formatEnhancedMessage, LLM.getFallbackResponse.
  cbn [fields message aiEnhancement LLM.explanation LLM.suggestedFix LLM.riskScore
       LLM.additionalContext LLM.confidence truthyStr].
  rewrite Hzero. split; [|reflexivity].
  rewrite !append_empty_r. reflexivity.
Qed.


(** *** The code snippet *)

Lemma splitLines_cons (s : string) : forall acc, exists first rest, splitLines acc s = first :: rest.
Proof.
  induction s as [|ch r IH]; intros acc; cbn [splitLines]; [eauto|].
  destruct (Ascii.eqb ch (ascii_of_nat 10)); [eauto|apply IH].
Qed.

Lemma joinLines_cons (x y : string) (r : list string) :
  joinLines (x :: y :: r) = (x ++ nl ++ joinLines (y :: r))%string.
Proof. reflexivity. Qed.

Lemma joinLines_splitLines (s : string) :
  forall acc, joinLines (splitLines acc s) = (acc ++ s)%string.
Proof.
  induction s as [|ch r IH]; intros acc; cbn [splitLines].
  - cbn [joinLines]. now rewrite append_empty_r.
  - destruct (Ascii.eqb ch (ascii_of_nat 10)) eqn:Hch.
    + apply Ascii.eqb_eq in Hch. subst ch.
      destruct (splitLines_cons r "") as (first & rest & Hs).
      rewrite Hs, joinLines_cons, <- Hs, IH. reflexivity.
    + rewrite IH, append_assoc'. reflexivity.
Qed.

(** X15. [split] on line feeds and [join] with line feeds are inverse on
    the way to the provider: when the window of [extractCodeSnippet] covers
    the whole source (the finding is within [contextLines] of the top and
    the source ends within [contextLines] below it), the snippet is the
    source, character for character. *)
Theorem extractCodeSnippet_whole_source (source : string) (ln contextLines : Z) :
  ln <= contextLines ->
  Z.of_nat (List.length (splitLines "" source)) <= ln + contextLines ->
  extractCodeSnippet source ln contextLines = source.
Proof.
  intros Htop Hbottom. unfold extractCodeSnippet.
  rewrite Z.max_l by lia. rewrite Z.min_l by lia.
  rewrite Z.sub_0_r, Nat2Z.id. cbn [Z.to_nat skipn].
  rewrite firstn_all. apply (joinLines_splitLines source "").
Qed.

(** X16. The snippet is a window of the source lines around the finding:
    for a finding on line [ln] of the source (lines counted from 1) and at
    least one line of context, the snippet is the join of at most
    [2 * contextLines] consecutive lines, starting [contextLines] lines
    above the finding or at the top, and the line of the finding is one of
    them. *)
Theorem extractCodeSnippet_shows_the_line (source : string) (ln contextLines : Z) :
  1 <= ln ->
  ln <= Z.of_nat (List.length (splitLines "" source)) ->
  1 <= contextLines ->
  exists above window below flagged,
    splitLines "" source = above ++ window ++ below
    /\ extractCodeSnippet source ln contextLines = joinLines window
    /\ Z.of_nat (List.length above) = Z.max 0 (ln - contextLines)
    /\ Z.of_nat (List.length window) <= 2 * contextLines
    /\ splitLines "" source !! Z.to_nat (ln - 1) = Some flagged
    /\ window !! (Z.to_nat (ln - 1) - List.length above)%nat = Some flagged.
Proof.
  intros Hone Hlen Hctx. unfold extractCodeSnippet.
  set (lines := splitLines "" source) in *.
  set (start := Z.max 0 (ln - contextLines)).
  set (stop := Z.min (Z.of_nat (List.length lines)) (ln + contextLines)).
  assert (Hstart : 0 <= start <= ln - 1) by lia.
  assert (Hstop : ln <= stop <= ln + contextLines) by lia.
  assert (Hstop' : stop <= Z.of_nat (List.length lines)) by lia.
  destruct (lookup_lt_is_Some_2 lines (Z.to_nat (ln - 1))) as [flagged Hflag]; [lia|].
  exists (take (Z.to_nat start) lines),
         (take (Z.to_nat (stop - start)) (drop (Z.to_nat start) lines)),
         (drop (Z.to_nat (stop - start)) (drop (Z.to_nat start) lines)), flagged.
  assert (Habove : List.length (take (Z.to_nat start) lines) = Z.to_nat start).
  { rewrite length_take. lia. }
  split_and!.
  - now rewrite !take_drop.
  - reflexivity.
  - rewrite Habove. lia.
  - rewrite length_take, length_drop. lia.
  - exact Hflag.
  - rewrite Habove, lookup_take_lt by lia. rewrite lookup_drop.
    replace (Z.to_nat start + (Z.to_nat (ln - 1) - Z.to_nat start))%nat
      with (Z.to_nat (ln - 1)) by lia.
    exact Hflag.
Qed.

(** *** Which findings are enhanced *)

Lemma enhanceLoop_passes_over (w : RuleT) remote contexts (h : HeapT) (l : list addr) :
  Forall (fun a => forall o, objs h !! a = Some o ->
                     _needsAIEnhancement o = false
                     \/ contextOf contexts a o ≫= (fun c => ctxs h !! c) = None) l ->
  forall i enhanced, loop w remote contexts i l h enhanced = (h, enhanced ++ l).
Proof.
  induction 1 as [|a l Ha _ IH]; intros i enhanced; cbn [enhanceLoop].
  - now rewrite app_nil_r.
  - assert (Hnext : loop w remote contexts (S i) l h (enhanced ++ [a])
                    = (h, enhanced ++ a :: l)).
    { rewrite IH, <- app_assoc. reflexivity. }
    destruct (objs h !! a) as [o|]; [|exact Hnext].
    destruct (Ha o eq_refl) as [Hflag|Hctx].
    + rewrite Hflag. exact Hnext.
    + destruct (_needsAIEnhancement o); [|exact Hnext]. rewrite Hctx. exact Hnext.
Qed.

(** X17. [enhanceIssues] passes over every finding that is not marked for
    enhancement, and every marked one whose context is neither in the map
    nor on the finding: on a list of such findings it answers with the very
    list it was given, allocates nothing and never consults the provider. *)
Theorem enhanceIssues_passes_over_unmarked (w : RuleT) (remote : nat -> LLM.Remote)
  (l : list addr) (contexts : gmap addr addr) (h : HeapT) :
  Forall (fun a => forall o, objs h !! a = Some o ->
                     _needsAIEnhancement o = false
                     \/ contextOf contexts a o ≫= (fun c => ctxs h !! c) = None) l ->
  forall remote', enhance w remote l contexts h = (h, l)
                  /\ enhance w remote' l contexts h = enhance w remote l contexts h.
Proof.
  intros H remote'. unfold enhanceIssues.
  rewrite !(enhanceLoop_passes_over w _ contexts h l H). now split.
Qed.

Local Abbreviation fresh := (fun i : Issue => @mkObj Num i None false None).
Local Abbreviation marked :=
  (fun (c : addr) (o : @IssueObj Num) => mkObj (fields o) (aiEnhancement o) true (Some c)).

Lemma pushIssue_fold_ctx (c : addr) (l : list Issue) :
  forall (h : HeapT) (x : AnalysisContext),
    ctxs h !! c = Some x ->
    ctxs (fold_left (pushIssue c) l h) !! c
    = Some (mkCtx (ast x) (sourceCode x) (filePath x)
                  (issues x ++ seq (List.length (objs h)) (List.length l))).
Proof.
  induction l as [|i l IH]; intros h x Hx; cbn [fold_left].
  - cbn [List.length seq]. rewrite app_nil_r, Hx. now destruct x.
  - rewrite (IH (pushIssue c h i)
               (mkCtx (ast x) (sourceCode x) (filePath x)
                      (issues x ++ [List.length (objs h)]))).
    + cbn [ast sourceCode filePath issues pushIssue objs].
      rewrite length_app, <- app_assoc. cbn [List.length seq app].
      now rewrite Nat.add_1_r.
    + unfold pushIssue. cbn [ctxs]. now rewrite list_lookup_alter_eq, Hx.
Qed.

Lemma mark_fold_objs (c : addr) (l : list addr) :
  forall (h : HeapT) (a : addr),
    objs (fold_left (mark c) l h) !! a
    = (fun o => if existsb (Nat.eqb a) l then marked c o else o) <$> objs h !! a.
Proof.
  induction l as [|b l IH]; intros h a; cbn [fold_left existsb].
  - now destruct (objs h !! a).
  - rewrite IH. unfold mark. cbn [objs].
    destruct (Nat.eqb a b) eqn:Hab.
    + apply Nat.eqb_eq in Hab. subst b. rewrite list_lookup_alter_eq.
      destruct (objs h !! a) as [o|]; [|reflexivity]. cbn [fmap option_fmap option_map orb].
      now destruct (existsb (Nat.eqb a) l).
    + apply Nat.eqb_neq in Hab. rewrite list_lookup_alter_ne by congruence.
      reflexivity.
Qed.

Lemma existsb_eqb_filter (p : addr -> bool) (a : addr) (l : list addr) :
  existsb (Nat.eqb a) (List.filter p l) = p a && existsb (Nat.eqb a) l.
Proof.
  induction l as [|b l IH]; cbn [List.filter existsb]; [now rewrite andb_false_r|].
  destruct (Nat.eqb a b) eqn:Hab.
  - apply Nat.eqb_eq in Hab. subst b. destruct (p a); cbn [existsb orb andb].
    + now rewrite Nat.eqb_refl.
    + exact IH.
  - destruct (p b); cbn [existsb]; rewrite ?Hab; exact IH.
Qed.

Lemma existsb_eqb_seq (a start len : nat) :
  existsb (Nat.eqb a) (seq start len) = ((start <=? a) && (a <? start + len))%nat.
Proof.
  apply eq_true_iff_eq. rewrite existsb_exists, andb_true_iff, Nat.leb_le, Nat.ltb_lt. split.
  - intros (y & Hin & Hy). apply Nat.eqb_eq in Hy. subst y. apply in_seq in Hin. lia.
  - intros H. exists a. split; [apply in_seq; lia|apply Nat.eqb_refl].
Qed.

(** X18. Which findings [apply] marks.  When the base rule returns and AI
    is enabled, a finding of the context is marked for enhancement, with
    that context, exactly when its rule id is the base rule's: every
    finding the base rule just pushed under its own id, and every finding
    with that id the context already held; nothing else changes.  When the
    base rule raises, the exception goes on to the caller and the findings
    it pushed before raising stay unmarked; with AI disabled nothing is
    marked. *)
Theorem apply_marks_the_base_rule_findings (w : RuleT) (t : AST) (c : addr) (h : HeapT)
  (x : AnalysisContext) (l : list Issue) (e : option string) :
  ctxs h !! c = Some x ->
  emit (baseRule w) t x = (l, e) ->
  let marking := match e with None => enableAI w | Some _ => false end in
  let h' := fst (apply w t c h) in
  snd (apply w t c h) = e
  /\ (forall k i, l !! k = Some i ->
        objs h' !! (List.length (objs h) + k)%nat
        = Some (if marking && String.eqb (ruleId i) (id (baseRule w))
                then mkObj i None true (Some c) else mkObj i None false None))
  /\ (forall a o, objs h !! a = Some o ->
        objs h' !! a
        = Some (if marking && existsb (Nat.eqb a) (issues x)
                   && String.eqb (ruleId (fields o)) (id (baseRule w))
                then mkObj (fields o) (aiEnhancement o) true (Some c) else o)).
Proof.
  intros Hx Hemit marking h'.
  set (h1 := fold_left (pushIssue c) l h).
  assert (Hrun : applyRule (baseRule w) t c h = (h1, e)).
  { unfold applyRule. now rewrite Hx, Hemit. }
  assert (Hobjs : objs h1 = objs h ++ List.map fresh l) by apply pushIssue_fold_objs.
  assert (Hnew : forall k i, l !! k = Some i ->
                   objs h1 !! (List.length (objs h) + k)%nat = Some (fresh i)).
  { intros k i Hk. rewrite Hobjs, lookup_app_r by lia.
    replace (List.length (objs h) + k - List.length (objs h))%nat with k by lia.
    now rewrite list_lookup_fmap, Hk. }
  assert (Hold : forall a o, objs h !! a = Some o -> objs h1 !! a = Some o).
  { intros a o Ha. rewrite Hobjs. now apply lookup_app_l_Some. }
  assert (Hplain : marking = false -> apply w t c h = (h1, e)).
  { subst marking. unfold apply. rewrite Hrun. destruct e as [m|]; [reflexivity|].
    intros ->. reflexivity. }
  destruct marking eqn:Hm.
  2:{ subst h'. rewrite (Hplain eq_refl). cbn [fst snd andb]. split_and!; auto. }
  assert (He : e = None) by (subst marking; destruct e; [discriminate|reflexivity]).
  assert (Hai : enableAI w = true) by (subst marking; now rewrite He in Hm).
  subst h'. unfold apply. rewrite Hrun, He, Hai. cbn [negb fst snd].
  unfold markForEnhancement, originalIssues.
  assert (Hctx1 : ctxs h1 !! c
                  = Some (mkCtx (ast x) (sourceCode x) (filePath x)
                                (issues x ++ seq (List.length (objs h)) (List.length l))))
    by now apply pushIssue_fold_ctx.
  rewrite Hctx1. cbn [issues].
  split_and!; [reflexivity| |].
  - intros k i Hk. rewrite mark_fold_objs, (Hnew k i Hk). cbn [fmap option_fmap option_map].
    rewrite existsb_eqb_filter, (Hnew k i Hk). cbn [fields ruleId].
    rewrite existsb_app, existsb_eqb_seq.
    assert (Hlt : (k < List.length l)%nat) by (apply lookup_lt_is_Some; eauto).
    replace ((List.length (objs h) <=? List.length (objs h) + k)%nat) with true
      by (symmetry; apply Nat.leb_le; lia).
    replace ((List.length (objs h) + k <? List.length (objs h) + List.length l)%nat) with true
      by (symmetry; apply Nat.ltb_lt; lia).
    rewrite orb_true_r, andb_true_r. cbn [andb].
    now destruct (String.eqb (ruleId i) (id (baseRule w))).
  - intros a o Ha. rewrite mark_fold_objs, (Hold a o Ha). cbn [fmap option_fmap option_map].
    rewrite existsb_eqb_filter, (Hold a o Ha).
    rewrite existsb_app, existsb_eqb_seq.
    assert (Hlt : (a < List.length (objs h))%nat) by (apply lookup_lt_is_Some; eauto).
    replace ((List.length (objs h) <=? a)%nat) with false
      by (symmetry; apply Nat.leb_gt; lia).
    cbn [andb]. rewrite orb_false_r.
    destruct (String.eqb (ruleId (fields o)) (id (baseRule w)));
      destruct (existsb (Nat.eqb a) (issues x)); reflexivity.
Qed.

End WrapperMore.

(** *** The theorems above on the vault scenario *)

Lemma configured_client_answers_witness :
  exists r, LLM.analyzeCode 5 0 (fun z => negb (z =? 0))
              (LLM.newClient (Console.getAIConfig Scenario.openaiEnv))
              Scenario.unreachable Scenario.vaultRequest = Returns r.
Proof.
  exact (proj2 (configured_client_answers 5 0 (fun z => negb (z =? 0)) Scenario.openaiEnv
                  Scenario.unreachable Scenario.vaultRequest eq_refl)).
Defined.

Lemma failed_call_is_reported_as_analysis_witness :
  exists o',
    AIEnhanced.enhanceIssueWithAI 5 0 (fun z => negb (z =? 0)) Scenario.showZ Scenario.showZ
      (fun _ _ => "withdraw") (fun _ => "Vault") Scenario.onlineWrapper Scenario.unreachable
      0%nat (AIEnhanced.mkObj Scenario.reentrancyIssue None true (Some 0%nat))
      Scenario.vaultContext Scenario.afterApply
    = (AIEnhanced.mkHeap (AIEnhanced.objs Scenario.afterApply ++ [o'])
                         (AIEnhanced.ctxs Scenario.afterApply),
       List.length (AIEnhanced.objs Scenario.afterApply))
    /\ message (AIEnhanced.fields o')
       = ("External call before state update" ++ nl ++ nl ++ "🤖 AI ANALYSIS:" ++ nl
          ++ LLM.explanation (@LLM.getFallbackResponse Z 0))%string
    /\ AIEnhanced.aiEnhancement o'
       = Some (mkAIEnhancement (LLM.explanation (@LLM.getFallbackResponse Z 0)) None None 0).
Proof.
  apply (failed_call_is_reported_as_analysis 5 0 (fun z => negb (z =? 0))
           Scenario.showZ Scenario.showZ (fun _ _ => "withdraw") (fun _ => "Vault")
           Scenario.onlineWrapper (LLM.mkConfig LLM.openai (Some "sk-test") None)
           Scenario.unreachable 0%nat
           (AIEnhanced.mkObj Scenario.reentrancyIssue None true (Some 0%nat))
           Scenario.vaultContext Scenario.afterApply).
  - reflexivity.
  - discriminate.
  - reflexivity.
  - reflexivity.
  - reflexivity.
Defined.


Lemma extractCodeSnippet_whole_source_witness :
  AIEnhanced.extractCodeSnippet Scenario.vaultSource 2 10 = Scenario.vaultSource.
Proof.
  apply (extractCodeSnippet_whole_source Scenario.vaultSource 2 10).
  - lia.
  - vm_compute. discriminate.
Defined.

Lemma extractCodeSnippet_shows_the_line_witness :
  exists above window below flagged,
    AIEnhanced.splitLines "" Scenario.vaultSource = above ++ window ++ below
    /\ AIEnhanced.extractCodeSnippet Scenario.vaultSource 3 1 = AIEnhanced.joinLines window
    /\ Z.of_nat (List.length above) = Z.max 0 (3 - 1)
    /\ Z.of_nat (List.length window) <= 2 * 1
    /\ AIEnhanced.splitLines "" Scenario.vaultSource !! Z.to_nat (3 - 1) = Some flagged
    /\ window !! (Z.to_nat (3 - 1) - List.length above)%nat = Some flagged.
Proof.
  apply (extractCodeSnippet_shows_the_line Scenario.vaultSource 3 1).
  - lia.
  - vm_compute. discriminate.
  - lia.
Defined.

Lemma enhanceIssues_passes_over_unmarked_witness :
  AIEnhanced.enhanceIssues 5 0 (fun z => negb (z =? 0)) Scenario.showZ Scenario.showZ
    (fun _ _ => "withdraw") (fun _ => "Vault")
    Scenario.onlineWrapper Scenario.answering [0%nat] ∅ Scenario.afterBaseRule
  = (Scenario.afterBaseRule, [0%nat]).
Proof.
  apply (enhanceIssues_passes_over_unmarked 5 0 (fun z => negb (z =? 0))
           Scenario.showZ Scenario.showZ (fun _ _ => "withdraw") (fun _ => "Vault")
           Scenario.onlineWrapper Scenario.answering [0%nat] ∅ Scenario.afterBaseRule).
  constructor; [|constructor]. intros o Ho. left.
  vm_compute in Ho. injection Ho as <-. reflexivity.
Defined.

Lemma apply_marks_the_base_rule_findings_witness :
  AIEnhanced.objs (fst (AIEnhanced.apply Scenario.onlineWrapper tt 0%nat Scenario.emptyStore))
    !! 0%nat
  = Some (AIEnhanced.mkObj Scenario.reentrancyIssue None true (Some 0%nat)).
Proof.
  exact (proj1 (proj2 (apply_marks_the_base_rule_findings Scenario.onlineWrapper tt 0%nat
                         Scenario.emptyStore Scenario.vaultContext
                         [Scenario.reentrancyIssue] None eq_refl eq_refl))
               0%nat Scenario.reentrancyIssue eq_refl).
Defined.

(** ** The registry: indexes, scripts, export and import *)
Section RegistryIndexes.

Import Registry RegistryOps.

Context {StaticRule : Type}.

Local Abbreviation Entry := (@RegisteredPlaybook StaticRule).
Local Abbreviation Reg := (@Registry.t StaticRule).
Local Abbreviation Index := (gmap string (gset string)).
Local Abbreviation run := (@RegistryOps.run StaticRule).
Local Abbreviation step := (@RegistryOps.step StaticRule).

(** *** One index *)

Lemma indexAdd_adds (key pid : string) (idx : Index) :
  exists s, indexAdd key pid idx !! key = Some s /\ pid ∈ s.
Proof.
  unfold indexAdd. rewrite lookup_insert_eq. eexists. split; [reflexivity|]. set_solver.
Qed.

Lemma indexAdd_mono (key pid key' k : string) (idx : Index) (s : gset string) :
  idx !! key' = Some s -> k ∈ s ->
  exists s', indexAdd key pid idx !! key' = Some s' /\ k ∈ s'.
Proof.
  intros Hs Hk. unfold indexAdd. destruct (decide (key = key')) as [->|Hne].
  - rewrite lookup_insert_eq, Hs. simpl. eexists. split; [reflexivity|]. set_solver.
  - rewrite lookup_insert_ne by exact Hne. eauto.
Qed.

Lemma indexAdd_inv (key pid key' k : string) (idx : Index) (s : gset string) :
  indexAdd key pid idx !! key' = Some s -> k ∈ s ->
  (key' = key /\ k = pid) \/ exists s0, idx !! key' = Some s0 /\ k ∈ s0.
Proof.
  unfold indexAdd. destruct (decide (key = key')) as [->|Hne].
  - rewrite lookup_insert_eq. intros [= <-] Hk.
    apply elem_of_union in Hk. destruct Hk as [Hk|Hk].
    + right. destruct (idx !! key') as [s0|]; simpl in Hk; [eauto|set_solver].
    + left. split; [reflexivity|set_solver].
  - rewrite lookup_insert_ne by exact Hne. eauto.
Qed.

Lemma indexRemove_keeps (key pid key' k : string) (idx : Index) (s : gset string) :
  idx !! key' = Some s -> k ∈ s -> k <> pid ->
  exists s', indexRemove key pid idx !! key' = Some s' /\ k ∈ s'.
Proof.
  intros Hs Hk Hne. unfold indexRemove. destruct (idx !! key) as [ids|] eqn:Hids; [|eauto].
  destruct (decide (key = key')) as [->|Hkey].
  - assert (ids = s) by congruence. subst ids.
    destruct (decide (s ∖ {[pid]} = ∅)) as [He|He]; [set_solver|].
    rewrite lookup_insert_eq. eexists. split; [reflexivity|set_solver].
  - destruct (decide (ids ∖ {[pid]} = ∅)).
    + rewrite lookup_delete_ne by exact Hkey. eauto.
    + rewrite lookup_insert_ne by exact Hkey. eauto.
Qed.

Lemma indexRemove_inv (key pid key' k : string) (idx : Index) (s : gset string) :
  indexRemove key pid idx !! key' = Some s -> k ∈ s ->
  (exists s0, idx !! key' = Some s0 /\ k ∈ s0) /\ (key' = key -> k <> pid).
Proof.
  unfold indexRemove. destruct (idx !! key) as [ids|] eqn:Hids.
  - destruct (decide (ids ∖ {[pid]} = ∅)) as [He|He].
    + destruct (decide (key = key')) as [->|Hkey].
      * now rewrite lookup_delete_eq.
      * rewrite lookup_delete_ne by exact Hkey. intros Hs Hk. split; [eauto|congruence].
    + destruct (decide (key = key')) as [->|Hkey].
      * rewrite lookup_insert_eq. intros [= <-] Hk.
        apply elem_of_difference in Hk. destruct Hk as [Hin Hnot]. split.
        -- exists ids. split; [exact Hids|exact Hin].
        -- intros _ ->. apply Hnot. now apply elem_of_singleton.
      * rewrite lookup_insert_ne by exact Hkey. intros Hs Hk. split; [eauto|congruence].
  - intros Hs Hk. split; [eauto|]. intros ->. congruence.
Qed.

(** *** The tag index, one tag of the entry after the other *)

Lemma addTags_mono (pid key' k : string) (ts : list string) :
  forall (idx : Index) (s : gset string),
    idx !! key' = Some s -> k ∈ s ->
    exists s', fold_left (fun idx tag => indexAdd tag pid idx) ts idx !! key' = Some s' /\ k ∈ s'.
Proof.
  induction ts as [|t ts IH]; intros idx s Hs Hk; cbn [fold_left]; [eauto|].
  destruct (indexAdd_mono t pid key' k idx s Hs Hk) as (s1 & H1 & Hk1). eauto.
Qed.

Lemma addTags_adds (pid tag : string) (ts : list string) :
  forall idx : Index, In tag ts ->
    exists s, fold_left (fun idx tag => indexAdd tag pid idx) ts idx !! tag = Some s /\ pid ∈ s.
Proof.
  induction ts as [|t ts IH]; intros idx Hin; [destruct Hin|]. cbn [fold_left].
  destruct Hin as [->|Hin]; [|now apply IH].
  destruct (indexAdd_adds tag pid idx) as (s & Hs & Hp).
  eapply addTags_mono; eauto.
Qed.

Lemma addTags_inv (pid key' k : string) (ts : list string) :
  forall (idx : Index) (s : gset string),
    fold_left (fun idx tag => indexAdd tag pid idx) ts idx !! key' = Some s -> k ∈ s ->
    (In key' ts /\ k = pid) \/ exists s0, idx !! key' = Some s0 /\ k ∈ s0.
Proof.
  induction ts as [|t ts IH]; intros idx s Hs Hk; cbn [fold_left] in Hs; [eauto|].
  destruct (IH _ _ Hs Hk) as [[Hin ->]|(s1 & H1 & Hk1)].
  - left. split; [now right|reflexivity].
  - destruct (indexAdd_inv _ _ _ _ _ _ H1 Hk1) as [[-> ->]|H]; [|eauto].
    left. split; [now left|reflexivity].
Qed.

Lemma removeTags_keeps (pid key' k : string) (ts : list string) :
  forall (idx : Index) (s : gset string),
    idx !! key' = Some s -> k ∈ s -> k <> pid ->
    exists s', fold_left (fun idx tag => indexRemove tag pid idx) ts idx !! key' = Some s'
               /\ k ∈ s'.
Proof.
  induction ts as [|t ts IH]; intros idx s Hs Hk Hne; cbn [fold_left]; [eauto|].
  destruct (indexRemove_keeps t pid key' k idx s Hs Hk Hne) as (s1 & H1 & Hk1). eauto.
Qed.

Lemma removeTags_inv (pid key' k : string) (ts : list string) :
  forall (idx : Index) (s : gset string),
    fold_left (fun idx tag => indexRemove tag pid idx) ts idx !! key' = Some s -> k ∈ s ->
    (exists s0, idx !! key' = Some s0 /\ k ∈ s0) /\ (In key' ts -> k <> pid).
Proof.
  induction ts as [|t ts IH]; intros idx s Hs Hk; cbn [fold_left] in Hs.
  - split; [eauto|intros []].
  - destruct (IH _ _ Hs Hk) as [(s1 & H1 & Hk1) Hts].
    destruct (indexRemove_inv _ _ _ _ _ _ H1 Hk1) as [H0 Ht].
    split; [exact H0|]. intros [->|Hin]; auto.
Qed.

(** *** What the operations keep *)

Lemma tagIndex_addToRegistry (q : Entry) (reg : Reg) :
  tagIndex (addToRegistry q reg)
  = fold_left (fun idx tag => indexAdd tag (id q) idx) (tagsOf q) (tagIndex reg).
Proof. unfold addToRegistry, tagsOf. cbn [tagIndex]. now destruct (tags (meta q)). Qed.

Lemma tagIndex_unregister (pid : string) (q : Entry) (reg : Reg) :
  playbooks reg !! pid = Some q ->
  tagIndex (snd (unregister pid reg))
  = fold_left (fun idx tag => indexRemove tag pid idx) (tagsOf q) (tagIndex reg).
Proof.
  intros Hq. unfold unregister, tagsOf. rewrite Hq. cbn [snd tagIndex].
  now destruct (tags (meta q)).
Qed.

Lemma indexed_addToRegistry (q : Entry) (reg : Reg) :
  indexed reg -> indexed (addToRegistry q reg).
Proof.
  intros H pid p Hp.
  assert (Hlook : playbooks (addToRegistry q reg) = <[id q := q]> (playbooks reg))
    by reflexivity.
  rewrite Hlook in Hp. apply lookup_insert_Some in Hp.
  rewrite tagIndex_addToRegistry.
  destruct Hp as [[<- <-]|[Hne Hp]].
  - split_and!; [reflexivity| |].
    + apply indexAdd_adds.
    + intros tag Htag. now apply addTags_adds.
  - destruct (H pid p Hp) as (Hid & (s & Hs & Hin) & Htags). split_and!; [exact Hid| |].
    + now apply (indexAdd_mono _ _ _ _ _ s).
    + intros tag Htag. destruct (Htags tag Htag) as (s' & Hs' & Hin').
      now apply (addTags_mono _ _ _ _ _ s').
Qed.

Lemma indexed_unregister (pid : string) (reg : Reg) :
  indexed reg -> indexed (snd (unregister pid reg)).
Proof.
  intros H. destruct (playbooks reg !! pid) as [q|] eqn:Hq.
  2:{ unfold unregister. now rewrite Hq. }
  intros k p Hp. rewrite (tagIndex_unregister pid q reg Hq).
  unfold unregister in Hp |- *. rewrite Hq in Hp |- *. cbn [snd playbooks authorIndex] in *.
  apply lookup_delete_Some in Hp. destruct Hp as [Hne Hp].
  destruct (H k p Hp) as (Hid & (s & Hs & Hin) & Htags). split_and!; [exact Hid| |].
  - apply (indexRemove_keeps _ _ _ _ _ s); auto.
  - intros tag Htag. destruct (Htags tag Htag) as (s' & Hs' & Hin').
    apply (removeTags_keeps _ _ _ _ _ s'); auto.
Qed.

Lemma indexed_getAndUse (now : Z) (pid : string) (reg : Reg) :
  indexed reg -> indexed (snd (getAndUse now pid reg)).
Proof.
  intros H. unfold getAndUse. destruct (playbooks reg !! pid) as [q|] eqn:Hq; [|exact H].
  intros k p Hp. cbn [snd playbooks authorIndex tagIndex] in *.
  apply lookup_insert_Some in Hp. destruct Hp as [[<- <-]|[Hne Hp]]; [|now apply H].
  exact (H pid q Hq).
Qed.

Lemma indexed_step (reg : Reg) (o : Op) : indexed reg -> indexed (step reg o).
Proof.
  intros H. destruct o as [q|pid|now pid|]; cbn [RegistryOps.step].
  - now apply indexed_addToRegistry.
  - now apply indexed_unregister.
  - now apply indexed_getAndUse.
  - intros k p Hp. cbn in Hp. now rewrite lookup_empty in Hp.
Qed.

Lemma indexed_fold (ops : list Op) :
  forall reg, indexed reg -> indexed (fold_left step ops reg).
Proof.
  induction ops as [|o ops IH]; intros reg H; [exact H|].
  cbn [fold_left]. apply IH. now apply indexed_step.
Qed.

Lemma indexed_run (ops : list Op) : indexed (run ops).
Proof.
  apply indexed_fold. intros k p Hp. cbn in Hp. now rewrite lookup_empty in Hp.
Qed.

Lemma resolve_In (s : gset string) (reg : Reg) (p : Entry) :
  In p (resolve (Some s) reg) <-> exists pid, pid ∈ s /\ playbooks reg !! pid = Some p.
Proof.
  unfold resolve. rewrite <- list_elem_of_In, list_elem_of_omap.
  split; intros (pid & Hin & Hp); exists pid; split; auto; now apply elem_of_elements.
Qed.

(** X19. The indexes know every entry.  After any script of registrations,
    [unregister], [getAndUse] and [clear], an entry that [get] finds under
    an id carries that id, is among the answers of [getByAuthor] for its
    author, and is among the answers of [getByTag] for each of its tags. *)
Theorem indexes_know_every_entry (ops : list Op) (pid : string) (p : Entry) :
  Registry.get pid (run ops) = Some p ->
  id p = pid
  /\ In p (getByAuthor (author (meta p)) (run ops))
  /\ forall tag, In tag (tagsOf p) -> In p (getByTag tag (run ops)).
Proof.
  intros Hp. destruct (indexed_run ops pid p Hp) as (Hid & (s & Hs & Hin) & Htags).
  split_and!; [exact Hid| |].
  - unfold getByAuthor. rewrite Hs. apply resolve_In. eauto.
  - intros tag Htag. destruct (Htags tag Htag) as (s' & Hs' & Hin').
    unfold getByTag. rewrite Hs'. apply resolve_In. eauto.
Qed.

Lemma accurate_addToRegistry (q : Entry) (reg : Reg) :
  playbooks reg !! id q = None -> accurate reg -> accurate (addToRegistry q reg).
Proof.
  intros Hfresh [Hwho Htag]. split.
  - intros who s pid Hs Hin. cbn [addToRegistry authorIndex playbooks] in *.
    destruct (indexAdd_inv _ _ _ _ _ _ Hs Hin) as [[-> ->]|(s0 & Hs0 & Hin0)].
    + exists q. now rewrite lookup_insert_eq.
    + destruct (Hwho who s0 pid Hs0 Hin0) as (p & Hp & Ha). exists p. split; [|exact Ha].
      rewrite lookup_insert_ne; [exact Hp|]. intros <-. congruence.
  - intros tag s pid Hs Hin. rewrite tagIndex_addToRegistry in Hs.
    cbn [addToRegistry playbooks].
    destruct (addTags_inv _ _ _ _ _ _ Hs Hin) as [[Ht ->]|(s0 & Hs0 & Hin0)].
    + exists q. now rewrite lookup_insert_eq.
    + destruct (Htag tag s0 pid Hs0 Hin0) as (p & Hp & Ht). exists p. split; [|exact Ht].
      rewrite lookup_insert_ne; [exact Hp|]. intros <-. congruence.
Qed.

Lemma accurate_unregister (pid : string) (reg : Reg) :
  accurate reg -> accurate (snd (unregister pid reg)).
Proof.
  intros [Hwho Htag]. destruct (playbooks reg !! pid) as [q|] eqn:Hq.
  2:{ unfold unregister. rewrite Hq. now split. }
  split.
  - intros who s k Hs Hin. unfold unregister in Hs |- *. rewrite Hq in Hs |- *.
    cbn [snd playbooks authorIndex] in *.
    destruct (indexRemove_inv _ _ _ _ _ _ Hs Hin) as [(s0 & Hs0 & Hin0) Hne].
    destruct (Hwho who s0 k Hs0 Hin0) as (p & Hp & Ha). exists p. split; [|exact Ha].
    rewrite lookup_delete_ne; [exact Hp|]. intros <-.
    assert (p = q) by congruence. subst p. now apply Hne.
  - intros tag s k Hs Hin. rewrite (tagIndex_unregister pid q reg Hq) in Hs.
    unfold unregister. rewrite Hq. cbn [snd playbooks].
    destruct (removeTags_inv _ _ _ _ _ _ Hs Hin) as [(s0 & Hs0 & Hin0) Hne].
    destruct (Htag tag s0 k Hs0 Hin0) as (p & Hp & Ht). exists p. split; [|exact Ht].
    rewrite lookup_delete_ne; [exact Hp|]. intros <-.
    assert (p = q) by congruence. subst p. now apply Hne.
Qed.

Lemma accurate_getAndUse (now : Z) (pid : string) (reg : Reg) :
  accurate reg -> accurate (snd (getAndUse now pid reg)).
Proof.
  intros [Hwho Htag]. unfold getAndUse.
  destruct (playbooks reg !! pid) as [q|] eqn:Hq; [|now split].
  cbn [snd]. split.
  - intros who s k Hs Hin. cbn [playbooks authorIndex] in *.
    destruct (Hwho who s k Hs Hin) as (p & Hp & Ha).
    destruct (decide (pid = k)) as [->|Hne].
    + rewrite lookup_insert_eq. eexists. split; [reflexivity|].
      cbn [meta]. congruence.
    + rewrite lookup_insert_ne by exact Hne. eauto.
  - intros tag s k Hs Hin. cbn [playbooks tagIndex] in *.
    destruct (Htag tag s k Hs Hin) as (p & Hp & Ht).
    destruct (decide (pid = k)) as [->|Hne].
    + rewrite lookup_insert_eq. eexists. split; [reflexivity|].
      unfold tagsOf in *. cbn [meta]. congruence.
    + rewrite lookup_insert_ne by exact Hne. eauto.
Qed.

Lemma accurate_empty : accurate (@Registry.empty StaticRule).
Proof.
  split; intros k s pid Hs; cbn in Hs; now rewrite lookup_empty in Hs.
Qed.

Lemma accurate_fold (ops : list Op) :
  forall reg, accurate reg -> neverOverwrites reg ops = true ->
              accurate (fold_left step ops reg).
Proof.
  induction ops as [|o ops IH]; intros reg H Hops; [exact H|].
  cbn [fold_left neverOverwrites] in *. apply andb_true_iff in Hops.
  destruct Hops as [Ho Hops]. apply IH; [|exact Hops].
  destruct o as [q|pid|now pid|]; cbn [RegistryOps.step].
  - apply accurate_addToRegistry; [|exact H].
    unfold has in Ho. now destruct (playbooks reg !! id q).
  - now apply accurate_unregister.
  - now apply accurate_getAndUse.
  - apply accurate_empty.
Qed.

(** X20. The indexes are accurate as long as no id is registered twice.
    After a script in which every registration uses an id that is free at
    that moment, [getByAuthor] answers only with registered entries of that
    author and [getByTag] only with registered entries that carry the tag:
    [unregister] removes an entry from every index set it is in. *)
Theorem indexes_are_accurate_without_overwrites (ops : list Op) :
  neverOverwrites Registry.empty ops = true ->
  (forall who p, In p (getByAuthor who (run ops)) ->
     author (meta p) = who /\ Registry.get (id p) (run ops) = Some p)
  /\ (forall tag p, In p (getByTag tag (run ops)) ->
        In tag (tagsOf p) /\ Registry.get (id p) (run ops) = Some p).
Proof.
  intros Hops. destruct (accurate_fold ops _ accurate_empty Hops) as [Hwho Htag].
  fold (run ops) in Hwho, Htag. pose proof (indexed_run ops) as Hidx. split.
  - intros who p Hp. unfold getByAuthor in Hp.
    destruct (authorIndex (run ops) !! who) as [s|] eqn:Hs; [|destruct Hp].
    apply resolve_In in Hp. destruct Hp as (pid & Hin & Hp).
    destruct (Hwho who s pid Hs Hin) as (p' & Hp' & Ha).
    assert (p' = p) by congruence. subst p'.
    destruct (Hidx pid p Hp) as (Hid & _). unfold Registry.get. rewrite Hid. now split.
  - intros tag p Hp. unfold getByTag in Hp.
    destruct (tagIndex (run ops) !! tag) as [s|] eqn:Hs; [|destruct Hp].
    apply resolve_In in Hp. destruct Hp as (pid & Hin & Hp).
    destruct (Htag tag s pid Hs Hin) as (p' & Hp' & Ht).
    assert (p' = p) by congruence. subst p'.
    destruct (Hidx pid p Hp) as (Hid & _). unfold Registry.get. rewrite Hid. now split.
Qed.

End RegistryIndexes.

(** ** The registry: export and import, registrations, search *)
Section RegistryMore.

Import Registry RegistryOps.

Context {StaticRule : Type}.
Variable parseFromString : list N -> Outcome (@ParsedPlaybook StaticRule).
Variable severityOf : StaticRule -> string.
Variable render : string -> string.

Local Abbreviation Entry := (@RegisteredPlaybook StaticRule).
Local Abbreviation Reg := (@Registry.t StaticRule).
Local Abbreviation run := (@RegistryOps.run StaticRule).
Local Abbreviation add := (fun (r : Reg) (entry : string * Entry) => addToRegistry (snd entry) r).

(** *** [export] and [import] *)

Lemma import_other (data : list (string * Entry)) (pid : string) :
  forall reg : Reg,
    (forall entry, In entry data -> id (snd entry) <> pid) ->
    playbooks (fold_left add data reg) !! pid = playbooks reg !! pid.
Proof.
  induction data as [|e data IH]; intros reg Hne; [reflexivity|].
  cbn [fold_left]. rewrite IH by (intros entry Hin; apply Hne; now right).
  cbn [addToRegistry playbooks]. apply lookup_insert_ne. apply Hne. now left.
Qed.

Lemma import_entry (data : list (string * Entry)) (pid : string) (p : Entry) :
  forall reg : Reg,
    List.NoDup (List.map (fun entry => id (snd entry)) data) ->
    In (pid, p) data -> id p = pid ->
    playbooks (fold_left add data reg) !! pid = Some p.
Proof.
  induction data as [|e data IH]; intros reg Hnd Hin Hid; [destruct Hin|].
  cbn [fold_left]. cbn [List.map] in Hnd. apply List.NoDup_cons_iff in Hnd.
  destruct Hnd as [Hnot Hnd]. destruct Hin as [->|Hin].
  - rewrite import_other.
    + cbn [addToRegistry playbooks snd]. rewrite Hid. apply lookup_insert_eq.
    + intros entry Hentry Heq. apply Hnot. cbn [snd]. rewrite Hid, <- Heq.
      now apply (List.in_map (fun entry => id (snd entry))).
  - now apply IH.
Qed.

Lemma import_fresh (data : list (string * Entry)) :
  forall reg : Reg,
    accurate reg ->
    List.NoDup (List.map (fun entry => id (snd entry)) data) ->
    (forall entry, In entry data -> playbooks reg !! id (snd entry) = None) ->
    accurate (fold_left add data reg).
Proof.
  induction data as [|e data IH]; intros reg Hacc Hnd Hfree; [exact Hacc|].
  cbn [fold_left]. cbn [List.map] in Hnd. apply List.NoDup_cons_iff in Hnd.
  destruct Hnd as [Hnot Hnd]. apply IH; [|exact Hnd|].
  - apply accurate_addToRegistry; [|exact Hacc]. apply Hfree. now left.
  - intros entry Hin. cbn [addToRegistry playbooks].
    rewrite lookup_insert_ne; [apply Hfree; now right|].
    intros Heq. apply Hnot. rewrite Heq.
    now apply (List.in_map (fun entry => id (snd entry))).
Qed.

Lemma export_ids (reg : Reg) :
  indexed reg ->
  (forall entry, In entry (export reg) -> id (snd entry) = fst entry)
  /\ List.NoDup (List.map (fun entry => id (snd entry)) (export reg)).
Proof.
  intros Hidx.
  assert (Hids : forall entry, In entry (export reg) -> id (snd entry) = fst entry).
  { intros [pid p] Hin. apply list_elem_of_In, elem_of_map_to_list in Hin.
    now destruct (Hidx pid p Hin). }
  split; [exact Hids|].
  rewrite (List.map_ext_in _ fst _ Hids). apply NoDup_ListNoDup.
  apply (NoDup_fst_map_to_list (playbooks reg)).
Qed.

(** X21. [import] undoes [export].  For a registry reached by any script,
    importing what [export] gave, into any registry at all, yields a
    registry in which [get] answers for every id as it did in the exported
    one; and its indexes are rebuilt from the entries alone: every id they
    hold is the id of an entry with that author, or that tag. *)
Theorem import_restores_export (ops : list Op) (other : Reg) :
  (forall pid, Registry.get pid (import (export (run ops)) other) = Registry.get pid (run ops))
  /\ accurate (import (export (run ops)) other).
Proof.
  destruct (export_ids (run ops) (indexed_run ops)) as [Hids Hnd].
  unfold import, RegistryOps.clear. split.
  - intros pid. unfold Registry.get.
    destruct (playbooks (run ops) !! pid) as [p|] eqn:Hp.
    + apply import_entry; [exact Hnd| |].
      * apply list_elem_of_In. now apply elem_of_map_to_list.
      * now destruct (indexed_run ops pid p Hp).
    + rewrite import_other; [apply lookup_empty|].
      intros [k q] Hin Heq. pose proof (Hids _ Hin) as Hk. cbn [fst snd] in *.
      apply list_elem_of_In, elem_of_map_to_list in Hin. congruence.
  - apply import_fresh; [apply accurate_empty|exact Hnd|].
    intros entry _. apply lookup_empty.
Qed.

(** *** Registrations that parse *)

Lemma get_addToRegistry_ne (q : Entry) (reg : Reg) (pid : string) :
  id q <> pid -> Registry.get pid (addToRegistry q reg) = Registry.get pid reg.
Proof. intros Hne. unfold Registry.get. cbn [addToRegistry playbooks]. now apply lookup_insert_ne. Qed.

Lemma get_addToRegistry_eq (q : Entry) (reg : Reg) :
  Registry.get (id q) (addToRegistry q reg) = Some q.
Proof. unfold Registry.get. cbn [addToRegistry playbooks]. apply lookup_insert_eq. Qed.

Variable clock : string -> Z.

Local Abbreviation builtin :=
  (fun (pid : string) (parsed : @ParsedPlaybook StaticRule) =>
     {| id := pid;
        source := mkSource SBuiltin ("builtin:" ++ pid) None None;
        meta := parsed_meta parsed;
        parsedPlaybook := Some parsed;
        registeredAt := clock pid;
        lastUsed := None;
        usageCount := 0;
        validated := true;
        validationErrors := None |}).

Local Abbreviation init := (initializeRegistry parseFromString render clock).

Lemma initializeRegistry_other (builtins : list (string * list N)) (pid : string) :
  forall reg : Reg,
    ~ In pid (List.map fst builtins) ->
    Registry.get pid (init builtins reg) = Registry.get pid reg.
Proof.
  induction builtins as [|[k content] builtins IH]; intros reg Hnot; [reflexivity|].
  unfold initializeRegistry. cbn [fold_left fst snd].
  fold (init builtins (snd (registerBuiltin parseFromString render (clock k) k content None reg))).
  rewrite IH by (intros Hin; apply Hnot; now right).
  unfold registerBuiltin. destruct (parseFromString content); cbn [snd]; [|reflexivity].
  apply get_addToRegistry_ne. cbn [id]. intros ->. apply Hnot. now left.
Qed.

(** X22. [initializeRegistry] registers exactly the built-in playbooks that
    parse.  For built-ins with distinct ids, afterwards [get] finds under
    the id of a built-in that parses its validated entry, with the parsed
    playbook cached and the source [builtin:id]; a built-in that does not
    parse changes nothing, so its id answers as it did before; and so does
    every id that is not a built-in's.  No exception leaves the function. *)
Theorem initializeRegistry_registers_what_parses (builtins : list (string * list N))
  (reg : Reg) :
  List.NoDup (List.map fst builtins) ->
  (forall pid content, In (pid, content) builtins ->
     Registry.get pid (init builtins reg)
     = match parseFromString content with
       | Returns parsed => Some (builtin pid parsed)
       | Throws _ => Registry.get pid reg
       end)
  /\ (forall pid, ~ In pid (List.map fst builtins) ->
        Registry.get pid (init builtins reg) = Registry.get pid reg).
Proof.
  intros Hnd. split; [|intros pid; apply initializeRegistry_other].
  revert reg. induction builtins as [|[k c] builtins IH]; intros reg pid content Hin;
    [destruct Hin|].
  cbn [List.map fst] in Hnd. apply List.NoDup_cons_iff in Hnd. destruct Hnd as [Hnot Hnd].
  unfold initializeRegistry. cbn [fold_left fst snd].
  fold (init builtins (snd (registerBuiltin parseFromString render (clock k) k c None reg))).
  destruct Hin as [[= -> ->]|Hin].
  - rewrite initializeRegistry_other by exact Hnot.
    unfold registerBuiltin. destruct (parseFromString content) as [parsed|msg]; cbn [snd].
    + apply (get_addToRegistry_eq (builtin pid parsed)).
    + reflexivity.
  - rewrite (IH Hnd _ pid content Hin).
    destruct (parseFromString content) as [parsed|msg]; [reflexivity|].
    unfold registerBuiltin. destruct (parseFromString c); cbn [snd]; [|reflexivity].
    apply get_addToRegistry_ne. cbn [id]. intros ->. apply Hnot.
    now apply (List.in_map fst _ (pid, content)).
Qed.

(** *** Register, validate, unregister *)

(** X30. A playbook registered from a string can be validated and removed
    again.  After [registerFromString] the entry is found under its id;
    [validate] answers that it is valid exactly when the text parsed, and
    with the parser's message as the one error when it did not; after
    [unregister], which answers [true], the id is unknown to [has] and to
    [validate], and every other id is found as it was before the
    registration. *)
Theorem registerFromString_then_unregister (now : Z) (yamlContent : list N) (pid : string)
  (location : option string) (reg : Reg) :
  let registered := fst (registerFromString parseFromString now yamlContent pid location reg) in
  let reg' := snd (registerFromString parseFromString now yamlContent pid location reg) in
  Registry.get pid reg' = Some registered
  /\ has pid reg' = true
  /\ validate pid reg'
     = match parseFromString yamlContent with
       | Returns _ => (true, [])
       | Throws msg => (false, [msg])
       end
  /\ fst (unregister pid reg') = true
  /\ has pid (snd (unregister pid reg')) = false
  /\ validate pid (snd (unregister pid reg')) = (false, ["Playbook not found"])
  /\ forall other, other <> pid ->
       Registry.get other (snd (unregister pid reg')) = Registry.get other reg.
Proof.
  intros registered reg'.
  assert (Hid : id registered = pid).
  { subst registered. unfold registerFromString. cbn [fst].
    now destruct (parseFromString yamlContent). }
  assert (Hreg : reg' = addToRegistry registered reg) by reflexivity.
  assert (Hget : playbooks reg' !! pid = Some registered).
  { rewrite Hreg, <- Hid. apply (get_addToRegistry_eq registered reg). }
  assert (Hun : unregister pid reg'
                = (true,
                   {| playbooks := delete pid (playbooks reg');
                      tagIndex := match tags (meta registered) with
                                  | Some ts => fold_left (fun idx tag => indexRemove tag pid idx)
                                                         ts (tagIndex reg')
                                  | None => tagIndex reg'
                                  end;
                      authorIndex := indexRemove (author (meta registered)) pid
                                                 (authorIndex reg') |})).
  { unfold unregister. now rewrite Hget. }
  split_and!.
  - exact Hget.
  - unfold has. now rewrite Hget.
  - unfold validate. rewrite Hget. subst registered. unfold registerFromString. cbn [fst].
    now destruct (parseFromString yamlContent).
  - now rewrite Hun.
  - rewrite Hun. unfold has. cbn [snd playbooks]. now rewrite lookup_delete_eq.
  - rewrite Hun. unfold validate. cbn [snd playbooks]. now rewrite lookup_delete_eq.
  - intros other Hne. rewrite Hun. unfold Registry.get. cbn [snd playbooks].
    rewrite lookup_delete_ne by congruence. rewrite Hreg.
    apply (get_addToRegistry_ne registered reg other). congruence.
Qed.

End RegistryMore.

(** ** Playbooks from Lighthouse *)
Section FromLighthouseFacts.

Import Registry RegistryOps.

Context {StaticRule : Type}.
Variable now : Z.
Variable parseFromString : list N -> Outcome (@ParsedPlaybook StaticRule).
Variable render : string -> string.
Variable join : string -> string -> string.
Variable get : string -> Outcome (list N).
Variable writeFileSync : string -> list N -> Outcome unit.

Local Abbreviation Entry := (@RegisteredPlaybook StaticRule).
Local Abbreviation Reg := (@Registry.t StaticRule).
Local Abbreviation download := (Lighthouse.downloadPlaybook join get writeFileSync render).
Local Abbreviation register :=
  (registerFromLighthouse parseFromString render join get writeFileSync now).

(** The patterns that look for YAML never decide: content counts as
    encrypted exactly when it is short or holds a control character. *)
Lemma isEncryptedContent_short_or_binary (content : list N) :
  isEncryptedContent content
  = (List.length content <? 50)%nat || existsb nonPrintable content.
Proof.
  unfold isEncryptedContent.
  destruct ((List.length content <? 50)%nat) eqn:Hlen; [reflexivity|].
  destruct (existsb nonPrintable content) eqn:Hbin; [reflexivity|].
  cbn [orb]. apply andb_false_r.
Qed.

(** X23. With Lighthouse initialised, [registerFromLighthouse] never raises
    and always registers an entry, under the given id or, without one,
    under [lighthouse-] and the first eight characters of the CID.  The
    entry is validated exactly when the download succeeded, the content has
    at least 50 code units and no control character, and the parser
    accepted it; what the content looks like plays no other part, so a
    playbook shorter than 50 code units is always registered as encrypted.
    An entry that is not validated caches no parsed playbook and carries
    exactly one validation error. *)
Theorem registerFromLighthouse_always_registers (cid : string) (pid : option string)
  (lighthouse : Lighthouse.LighthouseStorageManager) (files : Lighthouse.Files) (reg : Reg) :
  exists registered,
    register cid pid (Some lighthouse) files reg
    = (Returns registered, snd (download lighthouse cid files), addToRegistry registered reg)
    /\ id registered = lighthouseId pid cid
    /\ Registry.get (lighthouseId pid cid) (addToRegistry registered reg) = Some registered
    /\ (validated registered = true
        <-> exists content parsed,
              fst (download lighthouse cid files) = Returns content
              /\ (50 <= List.length content)%nat
              /\ existsb nonPrintable content = false
              /\ parseFromString content = Returns parsed
              /\ parsedPlaybook registered = Some parsed)
    /\ (validated registered = false
        -> parsedPlaybook registered = None
           /\ exists msg, validationErrors registered = Some [msg]).
Proof.
  unfold registerFromLighthouse.
  destruct (download lighthouse cid files) as [[content|msg] files'] eqn:Hd; cbn [fst snd].
  2:{ eexists. split; [reflexivity|]. cbn [id validated parsedPlaybook validationErrors].
      split_and!; [reflexivity| | |eauto].
      - exact (get_addToRegistry_eq _ reg).
      - split; [discriminate|]. intros (c & p & H & _). discriminate. }
  rewrite isEncryptedContent_short_or_binary.
  destruct ((List.length content <? 50)%nat) eqn:Hlen.
  { eexists. split; [reflexivity|]. cbn [id validated parsedPlaybook validationErrors].
    split_and!; [reflexivity| | |eauto].
    - exact (get_addToRegistry_eq _ reg).
    - split; [discriminate|]. intros (c & p & [= <-] & Hc & _).
      apply Nat.ltb_lt in Hlen. lia. }
  destruct (existsb nonPrintable content) eqn:Hbin; cbn [orb].
  { eexists. split; [reflexivity|]. cbn [id validated parsedPlaybook validationErrors].
    split_and!; [reflexivity| | |eauto].
    - exact (get_addToRegistry_eq _ reg).
    - split; [discriminate|]. intros (c & p & [= <-] & _ & Hc & _). congruence. }
  destruct (parseFromString content) as [parsed|msg] eqn:Hparse.
  - eexists. split; [reflexivity|]. cbn [id validated parsedPlaybook validationErrors].
    split_and!; [reflexivity| | |discriminate].
    + exact (get_addToRegistry_eq _ reg).
    + split; [|reflexivity]. intros _. exists content, parsed.
      apply Nat.ltb_ge in Hlen. split_and!; auto.
  - eexists. split; [reflexivity|]. cbn [id validated parsedPlaybook validationErrors].
    split_and!; [reflexivity| | |eauto].
    + exact (get_addToRegistry_eq _ reg).
    + split; [discriminate|]. intros (c & p & [= <-] & _ & _ & Hc & _). congruence.
Qed.

End FromLighthouseFacts.

(** ** The Lighthouse module: one manager, one cache *)
Section LighthouseFacts.

Import Lighthouse.

(** X24. The storage manager is a singleton that keeps its first key.  Once
    [initializeLighthouse] has returned a manager, that manager holds the
    key it was built with, which is not empty; every later call returns
    that same manager, whatever key it is given (an empty one included, for
    which the constructor would raise) and whatever the host does; and
    [getLighthouse] returns it. *)
Theorem initializeLighthouse_keeps_first_manager (cachePath : string) (cacheDirExists : bool)
  (mkdirSync : string -> Outcome unit) (key : string) (manager : LighthouseStorageManager)
  (instance : Instance) :
  initializeLighthouse cachePath cacheDirExists mkdirSync key None
  = (Returns manager, instance) ->
  instance = Some manager
  /\ apiKey manager = key
  /\ key <> ""
  /\ getLighthouse instance = Returns manager
  /\ isLighthouseInitialized instance = true
  /\ forall cachePath' cacheDirExists' mkdirSync' key',
       initializeLighthouse cachePath' cacheDirExists' mkdirSync' key' instance
       = (Returns manager, instance).
Proof.
  intros H.
  assert (Hinst : instance = Some manager /\ apiKey manager = key /\ key <> "").
  { revert H. unfold initializeLighthouse, new.
    destruct (String.eqb key "") eqn:Hkey; [discriminate|]. apply String.eqb_neq in Hkey.
    cbn [truthyStr]. destruct cacheDirExists; [intros [= <- <-]; auto|].
    destruct (mkdirSync cachePath); [|discriminate]. intros [= <- <-]; auto. }
  destruct Hinst as (-> & Hk & Hne). split_and!; auto.
Qed.

(** X25. [initializeLighthouseFromEnv] never raises, and what it answers
    agrees with the module afterwards: when it answers with a manager, that
    manager is the instance and [getLighthouse] returns it; when it answers
    [null], the instance is what it was before, which is still usable if a
    manager existed already ([null] is also the answer whenever the
    environment holds no key). *)
Theorem initializeLighthouseFromEnv_agrees_with_module (cachePath : string)
  (cacheDirExists : bool) (mkdirSync : string -> Outcome unit)
  (LIGHTHOUSE_API_KEY : option string) (instance : Instance) :
  let answer :=
    initializeLighthouseFromEnv cachePath cacheDirExists mkdirSync LIGHTHOUSE_API_KEY instance in
  (forall manager, fst answer = Some manager ->
     snd answer = Some manager /\ getLighthouse (snd answer) = Returns manager
     /\ truthyStr LIGHTHOUSE_API_KEY = true)
  /\ (fst answer = None -> snd answer = instance)
  /\ (truthyStr LIGHTHOUSE_API_KEY = false -> answer = (None, instance))
  /\ (isLighthouseInitialized instance = true -> snd answer = instance).
Proof.
  intros answer. subst answer. unfold initializeLighthouseFromEnv, initializeLighthouse.
  destruct (truthyStr LIGHTHOUSE_API_KEY) eqn:Hkey; cbn [negb fst snd].
  2:{ split_and!; auto. discriminate. }
  destruct instance as [m|]; cbn [fst snd].
  { split_and!; auto; try discriminate. intros manager [= <-]. auto. }
  destruct (new cachePath cacheDirExists mkdirSync (default "" LIGHTHOUSE_API_KEY) None)
    as [m|e]; cbn [fst snd].
  - split_and!; auto; try discriminate. intros manager [= <-]. auto.
  - split_and!; auto; discriminate.
Qed.

Lemma unlinkAll_removes (join : string -> string -> string)
  (unlinkSync : string -> Outcome unit) (dir : string) (entries : list string) :
  forall (files cleared : Files) (name : string),
    unlinkAll join unlinkSync dir entries files = (Returns tt, cleared) ->
    (In name entries \/ files !! join dir name = None) ->
    cleared !! join dir name = None.
Proof.
  induction entries as [|n rest IH]; intros files cleared name Hrun Hin.
  - injection Hrun as <-. destruct Hin as [[]|H]. exact H.
  - cbn [unlinkAll] in Hrun. destruct (unlinkSync (join dir n)); [|discriminate].
    apply (IH _ _ name Hrun).
    destruct (decide (join dir n = join dir name)) as [Heq|Hne].
    + right. rewrite <- Heq. apply lookup_delete_eq.
    + destruct Hin as [[->|Hin]|Hnone]; [contradiction|now left|].
      right. now rewrite lookup_delete_ne.
Qed.

(** X26. [downloadPlaybook] serves a CID from its cache file and asks the
    gateway only when the file is missing.  Once a download has returned
    some content, the cache file of the CID holds it; in every later state
    of the files in which that file is what it was, a download returns that
    content and changes nothing, whatever the gateway serves by then and
    even if it cannot be reached.  The cache is refreshed only by removing
    the file: when [clearCache] has run over a listing that names it, the
    next download fetches from the gateway and caches what it gets. *)
Theorem downloadPlaybook_serves_from_cache (join : string -> string -> string)
  (get : string -> Outcome (list N)) (writeFileSync : string -> list N -> Outcome unit)
  (render : string -> string) (manager : LighthouseStorageManager) (cid : string)
  (files files' : Files) (content : list N) :
  downloadPlaybook join get writeFileSync render manager cid files = (Returns content, files') ->
  files' !! join (cacheDir manager) (cid ++ ".yaml")%string = Some content
  /\ (forall (later : Files) get' writeFileSync' render',
        later !! join (cacheDir manager) (cid ++ ".yaml")%string
        = files' !! join (cacheDir manager) (cid ++ ".yaml")%string ->
        downloadPlaybook join get' writeFileSync' render' manager cid later
        = (Returns content, later))
  /\ forall unlinkSync (entries : list string) (cleared : Files) get' writeFileSync' render' fresh,
       clearCache join unlinkSync manager true entries files' = (Returns tt, cleared) ->
       In (cid ++ ".yaml")%string entries ->
       get' (getGatewayUrl manager cid) = Returns fresh ->
       writeFileSync' (join (cacheDir manager) (cid ++ ".yaml")%string) fresh = Returns tt ->
       downloadPlaybook join get' writeFileSync' render' manager cid cleared
       = (Returns fresh, <[join (cacheDir manager) (cid ++ ".yaml")%string := fresh]> cleared).
Proof.
  intros Hfirst.
  assert (Hc : files' !! join (cacheDir manager) (cid ++ ".yaml")%string = Some content).
  { revert Hfirst. unfold downloadPlaybook.
    destruct (files !! join (cacheDir manager) (cid ++ ".yaml")%string) as [cached|] eqn:Hc.
    - intros [= <- <-]. exact Hc.
    - destruct (get (getGatewayUrl manager cid)) as [yaml|e]; [|discriminate].
      destruct (writeFileSync _ yaml); [|discriminate].
      intros [= <- <-]. apply lookup_insert_eq. }
  split_and!.
  - exact Hc.
  - intros later get' w' r' Hsame. unfold downloadPlaybook. now rewrite Hsame, Hc.
  - intros unlinkSync entries cleared get' w' r' fresh Hclear Hin Hget Hwrite.
    unfold clearCache in Hclear.
    pose proof (unlinkAll_removes join unlinkSync (cacheDir manager) entries files' cleared
                  (cid ++ ".yaml")%string Hclear (or_introl Hin)) as Hgone.
    unfold downloadPlaybook. now rewrite Hgone, Hget, Hwrite.
Qed.

End LighthouseFacts.

(** ** The registry: search and ids *)
Section SearchFacts.

Import Registry RegistryOps.

Context {StaticRule : Type}.
Variable severityOf : StaticRule -> string.
Variable toLowerCase : string -> string.

Local Abbreviation Entry := (@RegisteredPlaybook StaticRule).
Local Abbreviation Reg := (@Registry.t StaticRule).

Lemma existsb_eqb_In (x : string) (l : list string) :
  existsb (String.eqb x) l = true <-> In x l.
Proof.
  rewrite existsb_exists. split.
  - intros (y & Hin & Hy). apply String.eqb_eq in Hy. now subst.
  - intros H. exists x. split; [exact H|apply String.eqb_refl].
Qed.

Lemma shares_a_tag (pb : Entry) (wanted : list string) :
  match tags (meta pb) with
  | Some own => existsb (fun tag => existsb (String.eqb tag) own) wanted
  | None => false
  end = true
  <-> exists tag, In tag wanted /\ In tag (tagsOf pb).
Proof.
  unfold tagsOf. destruct (tags (meta pb)) as [own|]; cbn [default].
  - rewrite existsb_exists. now setoid_rewrite existsb_eqb_In.
  - split; [discriminate|]. intros (tag & _ & []).
Qed.

Lemma has_a_severity (pb : Entry) (wanted : list string) :
  match parsedPlaybook pb with
  | None => false
  | Some parsed =>
      existsb (fun rule => existsb (String.eqb (severityOf rule)) wanted) (staticRules parsed)
  end = true
  <-> exists parsed rule,
        parsedPlaybook pb = Some parsed /\ In rule (staticRules parsed)
        /\ In (severityOf rule) wanted.
Proof.
  destruct (parsedPlaybook pb) as [parsed|].
  - rewrite existsb_exists. setoid_rewrite existsb_eqb_In. split.
    + intros (rule & Hin & Hs). eauto.
    + intros (parsed' & rule & [= <-] & Hin & Hs). eauto.
  - split; [discriminate|]. intros (parsed & rule & H & _). discriminate.
Qed.

(** X27. What [search] answers with.  An entry is among the answers exactly
    when it is registered and meets every criterion that is given: it
    shares a tag with a non-empty [tags] list; its author and its name
    contain the given text, both put in lower case by the host's
    [toLowerCase]; its [ai.enabled] is the
    given boolean, so that an entry without that setting matches neither
    [true] nor [false]; and, for a non-empty [severity] list, it caches a
    parsed playbook with a check of one of these severities, so that an
    entry whose parse failed never matches.  An empty text or list is no
    criterion, and [minVersion] is never looked at. *)
Theorem search_answers_what_matches (criteria : PlaybookSearchCriteria) (reg : Reg) (pb : Entry) :
  In pb (search severityOf toLowerCase criteria reg)
  <-> In pb (getAll reg)
      /\ (forall t ts, c_tags criteria = Some (t :: ts) ->
            exists tag, In tag (t :: ts) /\ In tag (tagsOf pb))
      /\ (truthyStr (c_author criteria) = true ->
            includes (toLowerCase (author (meta pb)))
                     (toLowerCase (default "" (c_author criteria))) = true)
      /\ (truthyStr (c_name criteria) = true ->
            includes (toLowerCase (name (meta pb)))
                     (toLowerCase (default "" (c_name criteria))) = true)
      /\ (forall wanted, c_aiEnabled criteria = Some wanted ->
            ai_enabled (meta pb) = Some wanted)
      /\ (forall s ss, c_severity criteria = Some (s :: ss) ->
            exists parsed rule,
              parsedPlaybook pb = Some parsed /\ In rule (staticRules parsed)
              /\ In (severityOf rule) (s :: ss)).
Proof.
  unfold search.
  set (byTags := match c_tags criteria with Some (t :: ts) => _ | _ => _ end).
  set (byAuthor := if truthyStr (c_author criteria) then _ else _).
  set (byName := if truthyStr (c_name criteria) then _ else _).
  set (byAI := match c_aiEnabled criteria with Some wanted => _ | None => _ end).
  assert (Htags : In pb byTags
                  <-> In pb (getAll reg)
                      /\ forall t ts, c_tags criteria = Some (t :: ts) ->
                           exists tag, In tag (t :: ts) /\ In tag (tagsOf pb)).
  { subst byTags. destruct (c_tags criteria) as [[|t ts]|].
    - split; [intros H; split; [exact H|discriminate]|tauto].
    - rewrite filter_In, shares_a_tag. split.
      + intros [H1 H2]. split; [exact H1|]. now intros t' ts' [= <- <-].
      + intros [H1 H2]. split; [exact H1|]. now apply (H2 t ts).
    - split; [intros H; split; [exact H|discriminate]|tauto]. }
  assert (Hauthor : In pb byAuthor
                    <-> In pb byTags
                        /\ (truthyStr (c_author criteria) = true ->
                              includes (toLowerCase (author (meta pb)))
                                       (toLowerCase (default "" (c_author criteria))) = true)).
  { subst byAuthor. destruct (truthyStr (c_author criteria)).
    - rewrite filter_In. tauto.
    - split; [intros H; split; [exact H|discriminate]|tauto]. }
  assert (Hname : In pb byName
                  <-> In pb byAuthor
                      /\ (truthyStr (c_name criteria) = true ->
                            includes (toLowerCase (name (meta pb)))
                                     (toLowerCase (default "" (c_name criteria))) = true)).
  { subst byName. destruct (truthyStr (c_name criteria)).
    - rewrite filter_In. tauto.
    - split; [intros H; split; [exact H|discriminate]|tauto]. }
  assert (Hai : In pb byAI
                <-> In pb byName
                    /\ forall wanted, c_aiEnabled criteria = Some wanted ->
                         ai_enabled (meta pb) = Some wanted).
  { subst byAI. destruct (c_aiEnabled criteria) as [wanted|].
    - rewrite filter_In. split.
      + intros [H1 H2]. split; [exact H1|]. intros w [= <-].
        destruct (ai_enabled (meta pb)) as [b|]; [|discriminate].
        apply Bool.eqb_prop in H2. now subst.
      + intros [H1 H2]. split; [exact H1|]. rewrite (H2 wanted eq_refl).
        apply Bool.eqb_reflx.
    - split; [intros H; split; [exact H|discriminate]|tauto]. }
  assert (Hsev : In pb match c_severity criteria with
                       | Some (s :: ss) =>
                           List.filter
                             (fun pb => match parsedPlaybook pb with
                                        | None => false
                                        | Some parsed =>
                                            existsb (fun rule =>
                                                       existsb (String.eqb (severityOf rule))
                                                               (s :: ss))
                                                    (staticRules parsed)
                                        end) byAI
                       | _ => byAI
                       end
                 <-> In pb byAI
                     /\ forall s ss, c_severity criteria = Some (s :: ss) ->
                          exists parsed rule,
                            parsedPlaybook pb = Some parsed /\ In rule (staticRules parsed)
                            /\ In (severityOf rule) (s :: ss)).
  { destruct (c_severity criteria) as [[|s ss]|].
    - split; [intros H; split; [exact H|discriminate]|tauto].
    - rewrite filter_In, has_a_severity. split.
      + intros [H1 H2]. split; [exact H1|]. now intros s' ss' [= <- <-].
      + intros [H1 H2]. split; [exact H1|]. now apply (H2 s ss).
    - split; [intros H; split; [exact H|discriminate]|tauto]. }
  rewrite Hsev, Hai, Hname, Hauthor, Htags. tauto.
Qed.

(** *** Ids made from file names *)

Variable basename : string -> option string -> string.
Variable extname : string -> string.

Local Abbreviation isIdChar :=
  (fun c : ascii =>
     let n := nat_of_ascii c in
     (((97 <=? n) && (n <=? 122)) || ((48 <=? n) && (n <=? 57)) || (n =? 45))%nat).

Lemma idChar_isIdChar (c : ascii) : isIdChar (idChar c) = true.
Proof.
  unfold idChar. cbv zeta.
  destruct ((((97 <=? nat_of_ascii c) && (nat_of_ascii c <=? 122))
             || ((48 <=? nat_of_ascii c) && (nat_of_ascii c <=? 57))
             || (nat_of_ascii c =? 45))%nat) eqn:H; [exact H|reflexivity].
Qed.

Lemma isIdChar_fixed (c : ascii) : isIdChar c = true -> idChar (lowerChar c) = c.
Proof.
  intros H. cbv zeta in H.
  assert (Hlow : lowerChar c = c).
  { unfold lowerChar. cbv zeta.
    destruct ((65 <=? nat_of_ascii c)%nat) eqn:H1; [|reflexivity].
    destruct ((nat_of_ascii c <=? 90)%nat) eqn:H2; [|reflexivity]. exfalso.
    apply Nat.leb_le in H1, H2.
    rewrite !orb_true_iff, !andb_true_iff, !Nat.leb_le, Nat.eqb_eq in H. lia. }
  rewrite Hlow. unfold idChar. cbv zeta. now rewrite H.
Qed.

Lemma mapString_idChar (s : string) : Console.allChars isIdChar (mapString idChar s) = true.
Proof.
  induction s as [|c s IH]; [reflexivity|].
  cbn [mapString Console.allChars]. apply andb_true_iff.
  split; [exact (idChar_isIdChar c)|exact IH].
Qed.

Lemma mapString_fixed (s : string) :
  Console.allChars isIdChar s = true -> mapString idChar (mapString lowerChar s) = s.
Proof.
  induction s as [|c s IH]; [reflexivity|].
  cbn [mapString Console.allChars]. intros H. apply andb_true_iff in H.
  destruct H as [Hc Hs]. rewrite (isIdChar_fixed c Hc). f_equal. exact (IH Hs).
Qed.

(** X28. The id [generateIdFromPath] makes from a file name holds nothing
    but lower-case letters, digits and dashes, and making an id from an id
    changes nothing: an id is a fixed point of the lower-casing and the
    replacement. *)
Theorem generateIdFromPath_is_a_slug (filePath : string) :
  let pid := generateIdFromPath basename extname filePath in
  Console.allChars isIdChar pid = true
  /\ mapString idChar (mapString lowerChar pid) = pid.
Proof.
  intros pid. subst pid. unfold generateIdFromPath.
  pose proof (mapString_idChar (mapString lowerChar (basename filePath (Some (extname filePath)))))
    as H.
  split; [exact H|now apply mapString_fixed].
Qed.

End SearchFacts.

(** ** Rules selected by id *)
Section CustomRules.

Import Task.

Context {AST : Type}.

Local Abbreviation HostT := (@Host AST).

Lemma sublist_filter_self {A : Type} (p : A -> bool) (l : list A) : sublist (List.filter p l) l.
Proof.
  induction l as [|x l IH]; cbn [List.filter]; [constructor|].
  destruct (p x); [now apply sublist_skip|now apply sublist_cons].
Qed.

(** X29. Rules selected with [--rules].  When no playbook option is given
    and a rule list is, the rules that run are the rules of [BASIC_RULES]
    followed by [ADVANCED_RULES] whose id is one of the requested ids, each
    id trimmed, in the order of these two lists and not in the order of the
    request; ids that name no rule are ignored; and the selection is never
    empty: when no requested id names a rule, the task fails with "No rules
    found matching" instead. *)
Theorem rules_selected_by_id (h : HostT) (args : Args) :
  truthyStr (playbookCid args) = false ->
  truthyStr (playbookId args) = false ->
  truthyStr (playbook args) = false ->
  truthyStr (rules args) = true ->
  let requested := List.map trim (splitOn (ascii_of_nat 44) "" (default "" (rules args))) in
  match determineAnalysisRules h args with
  | Returns (selected, analysisMode) =>
      analysisMode = "custom"
      /\ selected <> []
      /\ sublist selected (BASIC_RULES h ++ ADVANCED_RULES h)
      /\ forall r, In r selected
                   <-> In r (BASIC_RULES h ++ ADVANCED_RULES h) /\ In (Engine.id r) requested
  | Throws e =>
      e = ("No rules found matching: " ++ default "" (rules args))%string
      /\ forall r, In r (BASIC_RULES h ++ ADVANCED_RULES h) -> ~ In (Engine.id r) requested
  end.
Proof.
  intros Hcid Hid Hfile Hrules requested. unfold determineAnalysisRules.
  rewrite Hcid, Hid, Hfile, Hrules. fold requested.
  set (selected := List.filter _ _).
  assert (Hsel : forall r, In r selected
                           <-> In r (BASIC_RULES h ++ ADVANCED_RULES h)
                               /\ In (Engine.id r) requested).
  { intros r. subst selected. rewrite filter_In. now rewrite existsb_eqb_In. }
  destruct selected as [|r0 rest] eqn:Hs.
  - split; [reflexivity|]. intros r Hin Hreq. now apply (proj2 (Hsel r) (conj Hin Hreq)).
  - split_and!; [reflexivity|discriminate| |exact Hsel].
    rewrite <- Hs. apply sublist_filter_self.
Qed.

End CustomRules.

(** ** The theorems above on the scenarios *)

Lemma rules_selected_by_id_witness :
  let h := Scenario.hostWith (Task.Parsed []) in
  let requested :=
    List.map Task.trim
             (Task.splitOn (ascii_of_nat 44) "" (default "" (Task.rules Scenario.customArgs))) in
  match Task.determineAnalysisRules h Scenario.customArgs with
  | Returns (selected, analysisMode) =>
      analysisMode = "custom"
      /\ selected <> []
      /\ sublist selected (Task.BASIC_RULES h ++ Task.ADVANCED_RULES h)
      /\ forall r, In r selected
                   <-> In r (Task.BASIC_RULES h ++ Task.ADVANCED_RULES h)
                       /\ In (Engine.id r) requested
  | Throws e =>
      e = ("No rules found matching: " ++ default "" (Task.rules Scenario.customArgs))%string
      /\ forall r, In r (Task.BASIC_RULES h ++ Task.ADVANCED_RULES h)
                   -> ~ In (Engine.id r) requested
  end.
Proof.
  exact (rules_selected_by_id (Scenario.hostWith (Task.Parsed [])) Scenario.customArgs
           eq_refl eq_refl eq_refl eq_refl).
Defined.

(** The same selection, evaluated: the id is found in spite of the spaces
    around it, and the unknown id is ignored. *)
Example rules_selected_by_id_run :
  Task.determineAnalysisRules (Scenario.hostWith (Task.Parsed [])) Scenario.customArgs
  = Returns ([Scenario.txOriginRule], "custom").
Proof. vm_compute. reflexivity. Qed.

(** [trim] strips white space beyond ASCII: a no-break space after the id. *)
Example trim_no_break_space : Task.trim Scenario.paddedId = "no-tx-origin".
Proof. vm_compute. reflexivity. Qed.

Lemma indexes_know_every_entry_witness :
  Registry.id Scenario.usedVaultEntry = "vault"
  /\ In Scenario.usedVaultEntry
        (RegistryOps.getByAuthor "team" (RegistryOps.run Scenario.registryScript))
  /\ forall tag, In tag (RegistryOps.tagsOf Scenario.usedVaultEntry) ->
       In Scenario.usedVaultEntry
          (RegistryOps.getByTag tag (RegistryOps.run Scenario.registryScript)).
Proof.
  apply (indexes_know_every_entry Scenario.registryScript "vault" Scenario.usedVaultEntry).
  vm_compute. reflexivity.
Defined.

Lemma indexes_are_accurate_without_overwrites_witness :
  In "defi" (RegistryOps.tagsOf Scenario.usedVaultEntry)
  /\ Registry.get (Registry.id Scenario.usedVaultEntry)
                  (RegistryOps.run Scenario.registryScript)
     = Some Scenario.usedVaultEntry.
Proof.
  apply (proj2 (indexes_are_accurate_without_overwrites Scenario.registryScript eq_refl)
               "defi" Scenario.usedVaultEntry).
  vm_compute. left. reflexivity.
Defined.

Lemma initializeRegistry_registers_what_parses_witness :
  Registry.get "draft"
    (RegistryOps.initializeRegistry Scenario.parseUnits Scenario.asError (fun _ => 7)
                                    Scenario.builtins Registry.empty)
  = None.
Proof.
  assert (Hnd : List.NoDup (List.map fst Scenario.builtins)).
  { constructor; [intros [H|[]]; discriminate|]. constructor; [intros []|constructor]. }
  exact (proj1 (initializeRegistry_registers_what_parses Scenario.parseUnits Scenario.asError
                  (fun _ => 7) Scenario.builtins Registry.empty Hnd)
               "draft" [] (or_intror (or_introl eq_refl))).
Defined.

Lemma initializeLighthouse_keeps_first_manager_witness :
  Lighthouse.apiKey Scenario.lighthouseManager = "lh-key"
  /\ "lh-key" <> ""
  /\ forall key',
       Lighthouse.initializeLighthouse "/tmp/cache" true (fun _ => Returns tt) key'
                                       (Some Scenario.lighthouseManager)
       = (Returns Scenario.lighthouseManager, Some Scenario.lighthouseManager).
Proof.
  destruct (initializeLighthouse_keeps_first_manager "/tmp/cache" true (fun _ => Returns tt)
              "lh-key" Scenario.lighthouseManager (Some Scenario.lighthouseManager) eq_refl)
    as (_ & Hkey & Hne & _ & _ & Hlater).
  split_and!; [exact Hkey|exact Hne|].
  intros key'. apply Hlater.
Defined.

(** A first download into an empty cache, then the gateway unreachable. *)
Lemma downloadPlaybook_serves_from_cache_witness :
  let cached : gmap string (list N) :=
    {[ "/tmp/cache/bafy1234.yaml" := RegistryOps.units "name: Vault checks" ]} in
  Lighthouse.downloadPlaybook Scenario.joinPath Scenario.gateway Scenario.writable
    Scenario.asError Scenario.lighthouseManager "bafy1234" ∅
  = (Returns (RegistryOps.units "name: Vault checks"), cached)
  /\ Lighthouse.downloadPlaybook Scenario.joinPath (fun _ => Throws "ENOTFOUND")
       Scenario.writable Scenario.asError Scenario.lighthouseManager "bafy1234" cached
     = (Returns (RegistryOps.units "name: Vault checks"), cached).
Proof.
  assert (Hfirst :
    Lighthouse.downloadPlaybook Scenario.joinPath Scenario.gateway Scenario.writable
      Scenario.asError Scenario.lighthouseManager "bafy1234" ∅
    = (Returns (RegistryOps.units "name: Vault checks"),
       {[ "/tmp/cache/bafy1234.yaml" := RegistryOps.units "name: Vault checks" ]}))
    by reflexivity.
  split; [exact Hfirst|].
  exact (proj1 (proj2 (downloadPlaybook_serves_from_cache Scenario.joinPath Scenario.gateway
                         Scenario.writable Scenario.asError Scenario.lighthouseManager
                         "bafy1234" ∅ _ _ Hfirst))
               _ (fun _ => Throws "ENOTFOUND") Scenario.writable Scenario.asError eq_refl).
Defined.
